(** * Gallatin: a shallow embedding of the free-index tree, the segment
      table and the block-request loop, with the properties checked
      against the natural-language specification.

    Source files embedded here:
    - veb.cuh            ([layer], [veb_tree])
    - alloc_utils.cuh    ([__cfcll], [BITMASK], ...)
    - memory_table.cuh   ([alloc_table])
    - global_allocator.cuh ([Gallatin::request_new_block_from_tree],
                          the retry loops of [Gallatin::malloc])

    Conventions.  A [uint64_t] is a [Z] in [0, 2^64); arithmetic that can
    leave that range is wrapped with [wrap64].  An [int] holding a bit
    position or a layer number is a [Z] (or a [nat] where the source only
    ever counts it down to zero).  Device arrays are lists; an access
    outside the list is undefined behaviour in the source and is the
    outcome [OutOfBounds] here.  Atomics are executed one at a time (the
    sequential semantics of a single thread), returning the previous
    value exactly as the CUDA primitives do. *)

From Stdlib Require Import ZArith Lia Bool.
From stdpp Require Import base numbers list option.

Local Open Scope Z_scope.

(** ** Outcome of a device call *)

Inductive res (A : Type) : Type :=
  | Ret (a : A)      (* the call returned [a] *)
  | OutOfBounds      (* it touched memory outside an array *)
  | Trap             (* it executed [asm volatile ("trap;")] *)
  | OutOfFuel.       (* the loop budget given to the model ran out *)

Arguments Ret {A} a.
Arguments OutOfBounds {A}.
Arguments Trap {A}.
Arguments OutOfFuel {A}.

#[global] Instance res_bind : MBind res := λ A B f m,
  match m with
  | Ret a => f a
  | OutOfBounds => OutOfBounds
  | Trap => Trap
  | OutOfFuel => OutOfFuel
  end.

#[global] Instance res_ret : MRet res := λ A a, Ret a.

(** ** 64-bit words and the CUDA bit intrinsics *)

Definition wrap64 (x : Z) : Z := x mod 2 ^ 64.

Definition wrap32 (x : Z) : Z := x mod 2 ^ 32.

(* two's-complement [int]: the value of the 32-bit pattern of [x] *)
Definition wrap_int (x : Z) : Z := (x + 2 ^ 31) mod 2 ^ 32 - 2 ^ 31.

Definition not64 (x : Z) : Z := wrap64 (Z.lnot x).

Definition shl64 (x k : Z) : Z := wrap64 (Z.shiftl x k).

(* #define MAX_VALUE(nbits) ((1ULL << (nbits)) - 1) *)
Definition MAX_VALUE (nbits : Z) : Z := wrap64 (shl64 1 nbits - 1).

(* #define BITMASK(nbits) ((nbits) == 64 ? 0xffffffffffffffff : MAX_VALUE(nbits)) *)
Definition BITMASK (nbits : Z) : Z :=
  if nbits =? 64 then 0xffffffffffffffff else MAX_VALUE nbits.

(* #define SET_BIT_MASK(index) ((1ULL << index)) *)
Definition SET_BIT_MASK (index : Z) : Z := shl64 1 index.

(* __ffsll: 1 + position of the least significant set bit, 0 if none *)
Fixpoint ffs_from (n : nat) (i : Z) (x : Z) : Z :=
  match n with
  | O => 0
  | S n' => if Z.testbit x i then i + 1 else ffs_from n' (i + 1) x
  end.

Definition __ffsll (x : Z) : Z := ffs_from 64 0 x.

(* __popcll: number of set bits among the 64 *)
Fixpoint popc_from (n : nat) (i : Z) (x : Z) : Z :=
  match n with
  | O => 0
  | S n' => (if Z.testbit x i then 1 else 0) + popc_from n' (i + 1) x
  end.

Definition __popcll (x : Z) : Z := popc_from 64 0 x.

(* __builtin_clzll, for a non-zero argument *)
Definition __builtin_clzll (x : Z) : Z := 63 - Z.log2 x.

(* count first contiguous: number of contiguous 1s in the low-order bits *)
Definition __cfcll (bits : Z) : Z :=
  let popc := __popcll bits in
  let popc_valid := (popc =? 0) || (popc =? 64) in
  popc * (if popc_valid then 1 else 0)
  + (__ffsll (not64 bits) - 1) * (if negb popc_valid then 1 else 0).

Definition VEB_RESTART_CUTOFF : Z := 30.
Definition VEB_MAX_ATTEMPTS : Z := 15.

(** ** struct layer: one bitmap *)

Module layer.

Record t : Type := mk {
  universe_size : Z;
  num_blocks : Z;
  bits : list Z
}.

Definition with_bits (l : t) (b : list Z) : t :=
  mk (universe_size l) (num_blocks l) b.

(* a plain or [ldca] load of bits[high] *)
Definition load (l : t) (high : Z) : res Z :=
  match bits l !! Z.to_nat high with
  | Some w => Ret w
  | None => OutOfBounds
  end.

(* atomicOr(&bits[high], val): stores old | val, returns old *)
Definition atomicOr (l : t) (high val : Z) : res (Z * t) :=
  w ← load l high;
  Ret (w, with_bits l (<[Z.to_nat high := Z.lor w val]> (bits l))).

(* atomicAnd(&bits[high], val): stores old & val, returns old *)
Definition atomicAnd (l : t) (high val : Z) : res (Z * t) :=
  w ← load l high;
  Ret (w, with_bits l (<[Z.to_nat high := Z.land w val]> (bits l))).

Definition get_num_blocks (items_in_universe : Z) : Z :=
  wrap64 (wrap64 (items_in_universe - 1) / 64 + 1).

(* one thread of the init_bits kernel.  threadIdx.x, blockIdx.x and
   blockDim.x are unsigned ints: the thread id is computed on 32 bits and
   widened to uint64_t afterwards *)
Definition init_bits (items_in_universe : Z) (bits : list Z)
    (threadIdx_x blockIdx_x blockDim_x : Z) : list Z :=
  let tid := wrap32 (threadIdx_x + wrap32 (blockIdx_x * blockDim_x)) in
  if items_in_universe <=? tid then bits
  else
    let high := tid / 64 in
    let low := tid mod 64 in
    alter (λ w, Z.lor w (SET_BIT_MASK low)) (Z.to_nat high) bits.

(* generate_on_device: zeroed words, then the launch
   init_bits<<<(items_in_universe - 1) / 256 + 1, 256>>>; the number of
   thread blocks becomes the unsigned int x of a dim3.  Thread i of the
   launch is thread i mod 256 of block i / 256 *)
Definition generate_on_device (items_in_universe : Z) : t :=
  let ext_num_blocks := get_num_blocks items_in_universe in
  let dev_bits := replicate (Z.to_nat ext_num_blocks) 0 in
  let grid := wrap32 (wrap64 (items_in_universe - 1) / 256 + 1) in
  mk items_in_universe ext_num_blocks
     (foldl (λ bits i, init_bits items_in_universe bits (i mod 256) (i / 256) 256)
            dev_bits (seqZ 0 (grid * 256))).

Definition insert (l : t) (high low : Z) : res (Z * t) :=
  atomicOr l high (SET_BIT_MASK low).

Definition remove (l : t) (high low : Z) : res (Z * t) :=
  atomicAnd l high (not64 (SET_BIT_MASK low)).

Definition find_next (l : t) (high low : Z) : res Z :=
  if universe_size l <=? high then Ret (-1)
  else
    w ← load l high;
    if low =? -1 then Ret (__ffsll w - 1)
    else Ret (__ffsll (Z.land w (not64 (BITMASK (low + 1)))) - 1).

Definition query (l : t) (high low : Z) : res bool :=
  w ← load l high;
  Ret (negb (Z.land w (SET_BIT_MASK low) =? 0)).

(* if a failure occurs, rollback previously acquired segments *)
Fixpoint rollback (fuel : nat) (l : t) (start_block bits_to_set : Z) : res t :=
  match fuel with
  | O => OutOfFuel
  | S fuel' =>
    if 64 <? bits_to_set then
      '(_, l1) ← atomicOr l start_block (BITMASK 64);
      rollback fuel' l1 (wrap64 (start_block + 1)) (bits_to_set - 64)
    else
      '(_, l1) ← atomicOr l start_block (BITMASK bits_to_set);
      Ret l1
  end.

(* the inner loop of gather_multiple: [while (num_contiguous > 64)];
   the boolean is [succeeded] *)
Fixpoint gather_whole_blocks (fuel : nat) (l : t)
    (num_needed start_block num_contiguous : Z) : res (t * Z * Z * bool) :=
  match fuel with
  | O => OutOfFuel
  | S fuel' =>
    if 64 <? num_contiguous then
      let start_block := wrap64 (start_block - 1) in
      '(acquired_bits, l1) ← atomicAnd l start_block 0;
      if negb (__popcll acquired_bits =? 64) then
        (* undo and rollback *)
        '(_, l2) ← atomicOr l1 start_block acquired_bits;
        l3 ← rollback fuel' l2 (wrap64 (start_block + 1))
                       (wrap64 (num_needed - num_contiguous));
        Ret (l3, start_block, num_contiguous, false)
      else
        gather_whole_blocks fuel' l1 num_needed start_block (num_contiguous - 64)
    else Ret (l, start_block, num_contiguous, true)
  end.

(* the outer loop of gather_multiple, entered at its test
   [while (start_block != 0)] *)
Fixpoint gather_loop (fuel : nat) (l : t)
    (num_needed start_block num_contiguous : Z) : res (Z * t) :=
  match fuel with
  | O => OutOfFuel
  | S fuel' =>
    if start_block =? 0 then
      l1 ← rollback fuel' l 0 (wrap64 (num_needed - num_contiguous));
      Ret (0xffffffffffffffff, l1)
    else
      (* reset counter as we may have failed a previous iteration *)
      let num_contiguous := num_needed in
      w ← load l start_block;
      let contig_start := __cfcll w in
      if contig_start =? 0 then
        gather_loop fuel' l num_needed (start_block - 1) num_contiguous
      else if num_contiguous <=? contig_start then
        let acq_bitmask :=
          shl64 (BITMASK num_contiguous) (contig_start - num_contiguous) in
        '(acquired_bits, l1) ← atomicAnd l start_block (not64 acq_bitmask);
        if __popcll (Z.land acquired_bits acq_bitmask) =? num_contiguous then
          Ret (wrap64 (start_block * 64 + (contig_start - num_contiguous)), l1)
        else
          '(_, l2) ← atomicOr l1 start_block (Z.land acq_bitmask acquired_bits);
          gather_loop fuel' l2 num_needed start_block num_contiguous
      else
        '(acquired_bits, l1) ←
          atomicAnd l start_block (not64 (BITMASK contig_start));
        if __popcll (Z.land acquired_bits (BITMASK contig_start)) =? contig_start
        then
          let num_contiguous := num_contiguous - contig_start in
          '(l2, start_block, num_contiguous, succeeded) ←
            gather_whole_blocks fuel' l1 num_needed start_block num_contiguous;
          if negb succeeded then
            gather_loop fuel' l2 num_needed start_block num_contiguous
          else
            let start_block := wrap64 (start_block - 1) in
            let final_bitmask :=
              shl64 (BITMASK num_contiguous) (64 - num_contiguous) in
            '(final_bits, l3) ← atomicAnd l2 start_block (not64 final_bitmask);
            if __popcll (Z.land final_bits final_bitmask) =? num_contiguous then
              Ret (wrap64 (start_block * 64 + 64 - num_contiguous), l3)
            else
              (* full reset *)
              '(_, l4) ← atomicOr l3 start_block (Z.land final_bitmask final_bits);
              l5 ← rollback fuel' l4 (wrap64 (start_block + 1))
                             (wrap64 (num_needed - num_contiguous));
              gather_loop fuel' l5 num_needed start_block num_contiguous
        else
          '(_, l2) ← atomicOr l1 start_block
                        (Z.land acquired_bits (BITMASK contig_start));
          gather_loop fuel' l2 num_needed start_block num_contiguous
  end.

Definition gather_multiple (fuel : nat) (l : t) (num_contiguous : Z) : res (Z * t) :=
  let start_block := wrap64 (num_blocks l - 1) in
  let num_needed := num_contiguous in
  gather_loop fuel l num_needed start_block num_contiguous.

(* add back multiple bits in a contiguous band *)
Fixpoint return_loop (fuel : nat) (l : t)
    (block_index block_start num_indices : Z) : res t :=
  match fuel with
  | O => OutOfFuel
  | S fuel' =>
    if 64 <? wrap64 (num_indices + block_start) then
      let num_added := 64 - block_start in
      let bitmask := shl64 (BITMASK num_added) block_start in
      '(_, l1) ← atomicOr l block_index bitmask;
      return_loop fuel' l1 (wrap64 (block_index + 1)) 0
                  (wrap64 (num_indices - num_added))
    else
      let bitmask := shl64 (BITMASK num_indices) block_start in
      '(_, l1) ← atomicOr l block_index bitmask;
      Ret l1
  end.

Definition return_multiple (fuel : nat) (l : t) (start_index num_indices : Z) : res t :=
  let block_index := start_index / 64 in
  let block_start := start_index mod 64 in
  return_loop fuel l block_index block_start num_indices.

(* forcefully clean up indices *)
Fixpoint remove_contiguous_loop (fuel : nat) (l : t)
    (block_index block_start num_indices : Z) : res t :=
  match fuel with
  | O => OutOfFuel
  | S fuel' =>
    if 64 <? wrap64 (num_indices + block_start) then
      let num_removed := 64 - block_start in
      let bitmask := shl64 (BITMASK num_removed) block_start in
      '(_, l1) ← atomicAnd l block_index (not64 bitmask);
      remove_contiguous_loop fuel' l1 (wrap64 (block_index + 1)) 0
                             (wrap64 (num_indices - num_removed))
    else
      (* finally, unset scragglers *)
      let bitmask := shl64 (BITMASK num_indices) block_start in
      '(_, l1) ← atomicAnd l block_index (not64 bitmask);
      Ret l1
  end.

Definition remove_contiguous (fuel : nat) (l : t) (start_index num_indices : Z) : res t :=
  let block_index := start_index / 64 in
  let block_start := start_index mod 64 in
  remove_contiguous_loop fuel l block_index block_start num_indices.

(* for (uint64_t i = 0; i < num_blocks - 1; i++) atomicOr(&bits[i], ~0ULL);
   [n] counts the words left *)
Fixpoint fill_blocks (n : nat) (l : t) (i : Z) : res t :=
  match n with
  | O => Ret l
  | S n' =>
    '(_, l1) ← atomicOr l i 0xffffffffffffffff;
    fill_blocks n' l1 (i + 1)
  end.

Definition set_new_universe (l : t) (items_in_universe : Z) : res t :=
  let l0 := mk items_in_universe (get_num_blocks items_in_universe) (bits l) in
  l1 ← fill_blocks (Z.to_nat (wrap64 (num_blocks l0 - 1))) l0 0;
  let low := items_in_universe mod 64 in
  '(_, l2) ← atomicOr l1 (wrap64 (num_blocks l1 - 1)) (BITMASK low);
  Ret l2.

End layer.

(** ** struct veb_tree: the stack of layers, layers[0] on top and
       layers[num_layers - 1] holding one bit per index *)

Module veb_tree.

Record t : Type := mk {
  seed : Z;
  total_universe : Z;
  num_layers : Z;
  layers : list layer.t
}.

Definition with_layers (tr : t) (ls : list layer.t) : t :=
  mk (seed tr) (total_universe tr) (num_layers tr) ls.

(* layers[lyr] *)
Definition get_layer (tr : t) (lyr : nat) : res layer.t :=
  match layers tr !! lyr with
  | Some l => Ret l
  | None => OutOfBounds
  end.

Definition set_layer (tr : t) (lyr : nat) (l : layer.t) : t :=
  with_layers tr (<[lyr := l]> (layers tr)).

(* the index num_layers - 1 of the bottom layer; layers[-1] is outside *)
Definition bottom (tr : t) : res nat :=
  if num_layers tr - 1 <? 0 then OutOfBounds
  else Ret (Z.to_nat (num_layers tr - 1)).

(* layers[lyr]->insert(high, low) and layers[lyr]->remove(high, low) *)
Definition layer_insert (tr : t) (lyr : nat) (high low : Z) : res (Z * t) :=
  l ← get_layer tr lyr;
  '(old, l1) ← layer.insert l high low;
  Ret (old, set_layer tr lyr l1).

Definition layer_remove (tr : t) (lyr : nat) (high low : Z) : res (Z * t) :=
  l ← get_layer tr lyr;
  '(old, l1) ← layer.remove l high low;
  Ret (old, set_layer tr lyr l1).

Fixpoint generate_layers (n : nat) (ext_universe_size : Z) : list layer.t :=
  match n with
  | O => []
  | S n' =>
    generate_layers n' (wrap64 (wrap64 (ext_universe_size - 1) / 64 + 1))
      ++ [layer.generate_on_device ext_universe_size]
  end.

Definition generate_on_device (universe ext_seed : Z) : t :=
  let max_height := 64 - __builtin_clzll universe in
  let ext_num_layers := (max_height - 1) / 6 + 1 in
  mk ext_seed universe ext_num_layers
     (generate_layers (Z.to_nat ext_num_layers) universe).

(* float_up sets low = high & BITMASK(6), high = high >> 6 and steps one
   layer up; float_down sets high = (high << 6) + low, low = -1 *)
Definition float_up_low (high : Z) : Z := Z.land high (BITMASK 6).
Definition float_up_high (high : Z) : Z := Z.shiftr high 6.
Definition float_down_high (high low : Z) : Z := wrap64 (shl64 high 6 + low).

(* while (__popcll(old) == 1 && float_up(layer, high, low)) *)
Fixpoint remove_loop (lyr : nat) (tr : t) (high old : Z) : res t :=
  if __popcll old =? 1 then
    match lyr with
    | O => Ret tr
    | S lyr' =>
      let low := float_up_low high in
      let high := float_up_high high in
      '(old, tr1) ← layer_remove tr lyr' high low;
      remove_loop lyr' tr1 high old
    end
  else Ret tr.

Definition remove (tr : t) (delete_val : Z) : res (bool * t) :=
  let high := Z.shiftr delete_val 6 in
  let low := Z.land delete_val (BITMASK 6) in
  lyr ← bottom tr;
  '(old, tr1) ← layer_remove tr lyr high low;
  if Z.land old (SET_BIT_MASK low) =? 0 then Ret (false, tr1)
  else
    tr2 ← remove_loop lyr tr1 high old;
    Ret (true, tr2).

(* while (__popcll(old) == VEB_RESTART_CUTOFF && float_up(layer, high, low)) *)
Fixpoint insert_loop (lyr : nat) (tr : t) (high old : Z) : res t :=
  if __popcll old =? VEB_RESTART_CUTOFF then
    match lyr with
    | O => Ret tr
    | S lyr' =>
      let low := float_up_low high in
      let high := float_up_high high in
      '(old, tr1) ← layer_insert tr lyr' high low;
      insert_loop lyr' tr1 high old
    end
  else Ret tr.

Definition insert (tr : t) (insert_val : Z) : res (bool * t) :=
  let high := Z.shiftr insert_val 6 in
  let low := Z.land insert_val (BITMASK 6) in
  lyr ← bottom tr;
  '(old, tr1) ← layer_insert tr lyr high low;
  if negb (Z.land old (SET_BIT_MASK low) =? 0) then Ret (false, tr1)
  else
    tr2 ← insert_loop lyr tr1 high old;
    Ret (true, tr2).

(* while (__popcll(old) == 0 && float_up(layer, high, low)) *)
Fixpoint insert_force_update_loop (lyr : nat) (tr : t) (high old : Z) : res t :=
  if __popcll old =? 0 then
    match lyr with
    | O => Ret tr
    | S lyr' =>
      let low := float_up_low high in
      let high := float_up_high high in
      '(old, tr1) ← layer_insert tr lyr' high low;
      insert_force_update_loop lyr' tr1 high old
    end
  else Ret tr.

Definition insert_force_update (tr : t) (insert_val : Z) : res (bool * t) :=
  let high := Z.shiftr insert_val 6 in
  let low := Z.land insert_val (BITMASK 6) in
  lyr ← bottom tr;
  '(old, tr1) ← layer_insert tr lyr high low;
  if negb (Z.land old (SET_BIT_MASK low) =? 0) then Ret (false, tr1)
  else
    tr2 ← insert_force_update_loop lyr tr1 high old;
    Ret (true, tr2).

Definition query (tr : t) (query_val : Z) : res bool :=
  let high := Z.shiftr query_val 6 in
  let low := Z.land query_val (BITMASK 6) in
  lyr ← bottom tr;
  l ← get_layer tr lyr;
  layer.query l high low.

Definition fail : Z := 0xffffffffffffffff.

(* the first loop of successor / successor_thorough: float up until
   find_next finds something; [None] is [return fail()] *)
Fixpoint successor_up (lyr : nat) (tr : t) (high low : Z)
    : res (option (nat * Z * Z)) :=
  l ← get_layer tr lyr;
  found_idx ← layer.find_next l high low;
  if found_idx =? -1 then
    match lyr with
    | O => Ret None
    | S lyr' => successor_up lyr' tr (float_up_high high) (float_up_low high)
    end
  else Ret (Some (lyr, high, low)).

(* the second loop of successor: [while (layer != (num_layers - 1))];
   [None] is [return fail()] *)
Fixpoint successor_down (fuel : nat) (tr : t) (lyr : nat) (high low : Z)
    : res (option (nat * Z * Z)) :=
  match fuel with
  | O => OutOfFuel
  | S fuel' =>
    if Z.of_nat lyr =? num_layers tr - 1 then Ret (Some (lyr, high, low))
    else
      l ← get_layer tr lyr;
      low ← layer.find_next l high low;
      if low =? -1 then Ret None
      else successor_down fuel' tr (S lyr) (float_down_high high low) (-1)
  end.

Definition successor (tr : t) (query_val : Z) : res Z :=
  let high := Z.shiftr query_val 6 in
  let low := Z.land query_val (BITMASK 6) in
  lyr ← bottom tr;
  up ← successor_up lyr tr high low;
  match up with
  | None => Ret fail
  | Some (lyr, high, low) =>
    down ← successor_down (Z.to_nat (num_layers tr)) tr lyr high low;
    match down with
    | None => Ret fail
    | Some (lyr, high, low) =>
      l ← get_layer tr lyr;
      low ← layer.find_next l high low;
      if low =? -1 then Ret fail
      else Ret (wrap64 (shl64 high 6 + low))
    end
  end.

(* the second loop of successor_thorough: a dead end is a [break] *)
Fixpoint thorough_down (fuel : nat) (tr : t) (lyr : nat) (high low : Z)
    : res (nat * Z * Z) :=
  match fuel with
  | O => OutOfFuel
  | S fuel' =>
    if Z.of_nat lyr =? num_layers tr - 1 then Ret (lyr, high, low)
    else
      l ← get_layer tr lyr;
      low ← layer.find_next l high low;
      if low =? -1 then Ret (lyr, high, low)
      else thorough_down fuel' tr (S lyr) (float_down_high high low) (-1)
  end.

(* the outer [while (true)] of successor_thorough *)
Fixpoint successor_thorough_loop (fuel : nat) (tr : t) (lyr : nat) (high low : Z)
    : res Z :=
  match fuel with
  | O => OutOfFuel
  | S fuel' =>
    up ← successor_up lyr tr high low;
    match up with
    | None => Ret fail
    | Some (lyr, high, low) =>
      '(lyr, high, low) ←
        thorough_down (Z.to_nat (num_layers tr)) tr lyr high low;
      l ← get_layer tr lyr;
      low ← layer.find_next l high low;
      if negb (low =? -1) then Ret (wrap64 (shl64 high 6 + low))
      else successor_thorough_loop fuel' tr lyr high low
    end
  end.

Definition successor_thorough (fuel : nat) (tr : t) (query_val : Z) : res Z :=
  let high := Z.shiftr query_val 6 in
  let low := Z.land query_val (BITMASK 6) in
  lyr ← bottom tr;
  successor_thorough_loop fuel tr lyr high low.

Definition find_first_valid_index (fuel : nat) (tr : t) : res Z :=
  q ← query tr 0;
  if (q : bool) then Ret 0 else successor_thorough fuel tr 0.

(* find_random_valid_index; hash1 and hash2 are the two MurmurHash64A
   values of the calling thread's id *)
Fixpoint find_random_loop (n : nat) (fuel : nat) (tr : t)
    (hash1 hash2 attempts : Z) : res Z :=
  match n with
  | O => OutOfFuel
  | S n' =>
    if attempts <? VEB_MAX_ATTEMPTS then
      let index_to_start :=
        wrap64 (hash1 + wrap64 (attempts * hash2)) mod total_universe tr in
      q ← query tr index_to_start;
      if (q : bool) then Ret index_to_start
      else
        index ← successor_thorough fuel tr index_to_start;
        if negb (index =? 0xffffffffffffffff) then Ret index
        else find_random_loop n' fuel tr hash1 hash2 (attempts + 1)
    else successor_thorough fuel tr 0
  end.

Definition find_random_valid_index (fuel : nat) (tr : t) (hash1 hash2 : Z) : res Z :=
  find_random_loop (S (Z.to_nat VEB_MAX_ATTEMPTS)) fuel tr hash1 hash2 0.

(* the loop of maybe_remove_layer_bits: clear bit working_bit of
   layers[lyr] when word working_bit of layers[lyr + 1] is zero; [n] is
   the number of bits left before working_bit reaches the end *)
Fixpoint maybe_remove_from (n : nat) (tr : t) (lyr : nat) (working_bit : Z) : res t :=
  match n with
  | O => Ret tr
  | S n' =>
    below ← get_layer tr (S lyr);
    bits ← layer.load below working_bit;
    tr1 ← (if bits =? 0 then
             let high := working_bit / 64 in
             let low := working_bit mod 64 in
             '(_, tr1) ← layer_remove tr lyr high low; Ret tr1
           else Ret tr);
    maybe_remove_from n' tr1 lyr (wrap64 (working_bit + 1))
  end.

(* while (working_bit < start_bit + bits_to_check) *)
Definition maybe_remove_layer_bits (tr : t) (lyr : nat) (start_bit bits_to_check : Z) : res t :=
  let stop := wrap64 (start_bit + bits_to_check) in
  maybe_remove_from (Z.to_nat (stop - start_bit)) tr lyr start_bit.

(* maybe_return_layer_bits: set the bit when the word below is full *)
Fixpoint maybe_return_from (n : nat) (tr : t) (lyr : nat) (working_bit : Z) : res t :=
  match n with
  | O => Ret tr
  | S n' =>
    below ← get_layer tr (S lyr);
    bits ← layer.load below working_bit;
    tr1 ← (if __popcll bits =? 64 then
             let high := working_bit / 64 in
             let low := working_bit mod 64 in
             '(_, tr1) ← layer_insert tr lyr high low; Ret tr1
           else Ret tr);
    maybe_return_from n' tr1 lyr (wrap64 (working_bit + 1))
  end.

Definition maybe_return_layer_bits (tr : t) (lyr : nat) (start_bit bits_to_check : Z) : res t :=
  let stop := wrap64 (start_bit + bits_to_check) in
  maybe_return_from (Z.to_nat (stop - start_bit)) tr lyr start_bit.

(* for (int i = num_layers - 2; i >= 0; i--): [n] is i + 1 *)
Fixpoint gather_summaries (n : nat) (tr : t) (found num_contiguous : Z) : res t :=
  match n with
  | O => Ret tr
  | S i =>
    let tread_high := wrap64 (wrap64 (found + num_contiguous - 1) / 64 + 1) in
    let tread_low := found / 64 in
    let found := tread_low in
    let num_contiguous := wrap64 (tread_high - tread_low) in
    tr1 ← maybe_remove_layer_bits tr i found num_contiguous;
    gather_summaries i tr1 found num_contiguous
  end.

Definition gather_multiple (fuel : nat) (tr : t) (num_contiguous : Z) : res (Z * t) :=
  lyr ← bottom tr;
  l ← get_layer tr lyr;
  '(found, l1) ← layer.gather_multiple fuel l num_contiguous;
  let tr1 := set_layer tr lyr l1 in
  let original_found := found in
  if negb (found =? fail) then
    tr2 ← gather_summaries lyr tr1 found num_contiguous;
    Ret (original_found, tr2)
  else Ret (fail, tr1).

Fixpoint return_summaries (n : nat) (tr : t) (start_bit num_contiguous : Z) : res t :=
  match n with
  | O => Ret tr
  | S i =>
    let tread_high := wrap64 (wrap64 (start_bit + num_contiguous - 1) / 64 + 1) in
    let tread_low := start_bit / 64 in
    let start_bit := tread_low in
    let num_contiguous := wrap64 (tread_high - tread_low) in
    tr1 ← maybe_return_layer_bits tr i start_bit num_contiguous;
    return_summaries i tr1 start_bit num_contiguous
  end.

Definition return_multiple (fuel : nat) (tr : t) (start_bit num_contiguous : Z) : res t :=
  lyr ← bottom tr;
  l ← get_layer tr lyr;
  l1 ← layer.return_multiple fuel l start_bit num_contiguous;
  return_summaries lyr (set_layer tr lyr l1) start_bit num_contiguous.

(* the [while (true)] of lock_offset; [n] bounds its iterations and
   [fuel] those of successor_thorough *)
Fixpoint lock_offset_loop (n fuel : nat) (tr : t) (start : Z) : res (Z * t) :=
  match n with
  | O => OutOfFuel
  | S n' =>
    start ← successor_thorough fuel tr start;
    if start =? fail then Ret (start, tr)
    else
      '(removed, tr1) ← remove tr start;
      if (removed : bool) then Ret (start, tr1)
      else lock_offset_loop n' fuel tr1 start
  end.

(* if (query(start) && remove(start)) return start; and then the loop *)
Definition lock_offset (n fuel : nat) (tr : t) (start : Z) : res (Z * t) :=
  q ← query tr start;
  '(taken, tr1) ← (if (q : bool) then remove tr start else Ret (false, tr));
  if (taken : bool) then Ret (start, tr1)
  else lock_offset_loop n fuel tr1 start.

(* malloc_first: up to VEB_MAX_ATTEMPTS calls of lock_offset(0) *)
Fixpoint malloc_first_loop (k n fuel : nat) (tr : t) (attempts : Z) : res (Z * t) :=
  match k with
  | O => OutOfFuel
  | S k' =>
    if attempts <? VEB_MAX_ATTEMPTS then
      '(offset, tr1) ← lock_offset n fuel tr 0;
      if negb (offset =? fail) then Ret (offset, tr1)
      else malloc_first_loop k' n fuel tr1 (attempts + 1)
    else Ret (fail, tr)
  end.

Definition malloc_first (n fuel : nat) (tr : t) : res (Z * t) :=
  malloc_first_loop (S (Z.to_nat VEB_MAX_ATTEMPTS)) n fuel tr 0.

(* malloc; hash1 and hash2 are the two MurmurHash64A values of the
   calling thread's id *)
Fixpoint malloc_loop (k n fuel : nat) (tr : t) (hash1 hash2 attempts : Z)
    : res (Z * t) :=
  match k with
  | O => OutOfFuel
  | S k' =>
    if attempts <? VEB_MAX_ATTEMPTS then
      let index_to_start :=
        wrap64 (hash1 + wrap64 (attempts * hash2)) mod total_universe tr in
      let index_to_start :=
        if index_to_start =? 0xffffffffffffffff then 0 else index_to_start in
      '(offset, tr1) ← lock_offset n fuel tr index_to_start;
      if negb (offset =? fail) then Ret (offset, tr1)
      else malloc_loop k' n fuel tr1 hash1 hash2 (attempts + 1)
    else lock_offset n fuel tr 0
  end.

Definition malloc (n fuel : nat) (tr : t) (hash1 hash2 : Z) : res (Z * t) :=
  malloc_loop (S (Z.to_nat VEB_MAX_ATTEMPTS)) n fuel tr hash1 hash2 0.

End veb_tree.

(** ** struct alloc_table: segments, their size class, their block queues
       and their active counts.

    The template arguments [bytes_per_segment] and [min_size] are fields.
    A [Block *] is [None] for [nullptr] and [Some id] for [&blocks[id]].
    The slab primitive [Block] is not part of this repository's sources;
    its state is the type [Block] and its [init_malloc] a function, both
    taken as parameters.  An integer division by zero (undefined in the
    source) is [Z]'s, and is kept out of reach by the theorems'
    hypotheses. *)

Module alloc_table.

Section with_block.

Context {Block : Type}.
Variable init_malloc : Z → Block → Block.

Record t : Type := mk {
  bytes_per_segment : Z;
  min_size : Z;
  chunk_ids : list Z;                   (* uint16_t * *)
  blocks : list Block;
  queues : list (option Z);             (* Block ** *)
  queue_counters : list Z;              (* uint * *)
  queue_free_counters : list Z;         (* uint * *)
  final_queue_free_counters : list Z;   (* uint * *)
  active_counts : list Z;               (* int * *)
  memory : Z;                           (* char *, as an address *)
  num_segments : Z;
  blocks_per_segment : Z;
  calloc_mode : bool;
  calloc_counters : list Z;
  calloc_enqueue_position : list Z;
  calloc_enqueue_finished : list Z
}.

Definition with_chunk_ids (tb : t) (v : list Z) : t :=
  mk (bytes_per_segment tb) (min_size tb) v (blocks tb) (queues tb)
     (queue_counters tb) (queue_free_counters tb) (final_queue_free_counters tb)
     (active_counts tb) (memory tb) (num_segments tb) (blocks_per_segment tb)
     (calloc_mode tb) (calloc_counters tb) (calloc_enqueue_position tb)
     (calloc_enqueue_finished tb).

Definition with_blocks (tb : t) (v : list Block) : t :=
  mk (bytes_per_segment tb) (min_size tb) (chunk_ids tb) v (queues tb)
     (queue_counters tb) (queue_free_counters tb) (final_queue_free_counters tb)
     (active_counts tb) (memory tb) (num_segments tb) (blocks_per_segment tb)
     (calloc_mode tb) (calloc_counters tb) (calloc_enqueue_position tb)
     (calloc_enqueue_finished tb).

Definition with_queues (tb : t) (v : list (option Z)) : t :=
  mk (bytes_per_segment tb) (min_size tb) (chunk_ids tb) (blocks tb) v
     (queue_counters tb) (queue_free_counters tb) (final_queue_free_counters tb)
     (active_counts tb) (memory tb) (num_segments tb) (blocks_per_segment tb)
     (calloc_mode tb) (calloc_counters tb) (calloc_enqueue_position tb)
     (calloc_enqueue_finished tb).

Definition with_queue_counters (tb : t) (v : list Z) : t :=
  mk (bytes_per_segment tb) (min_size tb) (chunk_ids tb) (blocks tb) (queues tb)
     v (queue_free_counters tb) (final_queue_free_counters tb)
     (active_counts tb) (memory tb) (num_segments tb) (blocks_per_segment tb)
     (calloc_mode tb) (calloc_counters tb) (calloc_enqueue_position tb)
     (calloc_enqueue_finished tb).

Definition with_queue_free_counters (tb : t) (v : list Z) : t :=
  mk (bytes_per_segment tb) (min_size tb) (chunk_ids tb) (blocks tb) (queues tb)
     (queue_counters tb) v (final_queue_free_counters tb)
     (active_counts tb) (memory tb) (num_segments tb) (blocks_per_segment tb)
     (calloc_mode tb) (calloc_counters tb) (calloc_enqueue_position tb)
     (calloc_enqueue_finished tb).

Definition with_final_queue_free_counters (tb : t) (v : list Z) : t :=
  mk (bytes_per_segment tb) (min_size tb) (chunk_ids tb) (blocks tb) (queues tb)
     (queue_counters tb) (queue_free_counters tb) v
     (active_counts tb) (memory tb) (num_segments tb) (blocks_per_segment tb)
     (calloc_mode tb) (calloc_counters tb) (calloc_enqueue_position tb)
     (calloc_enqueue_finished tb).

Definition with_active_counts (tb : t) (v : list Z) : t :=
  mk (bytes_per_segment tb) (min_size tb) (chunk_ids tb) (blocks tb) (queues tb)
     (queue_counters tb) (queue_free_counters tb) (final_queue_free_counters tb)
     v (memory tb) (num_segments tb) (blocks_per_segment tb)
     (calloc_mode tb) (calloc_counters tb) (calloc_enqueue_position tb)
     (calloc_enqueue_finished tb).

Definition with_calloc (tb : t) (c p f : list Z) : t :=
  mk (bytes_per_segment tb) (min_size tb) (chunk_ids tb) (blocks tb) (queues tb)
     (queue_counters tb) (queue_free_counters tb) (final_queue_free_counters tb)
     (active_counts tb) (memory tb) (num_segments tb) (blocks_per_segment tb)
     (calloc_mode tb) c p f.

(* an atomic read-modify-write of arr[i]: the new array and the old value *)
Definition atomic_rmw {A : Type} (arr : list A) (i : Z) (f : A → A) : res (A * list A) :=
  if i <? 0 then OutOfBounds
  else
    match arr !! Z.to_nat i with
    | Some old => Ret (old, <[Z.to_nat i := f old]> arr)
    | None => OutOfBounds
    end.

(* get the address of the start of a segment *)
Definition get_segment_memory_start (tb : t) (segment : Z) : Z :=
  wrap64 (memory tb + wrap64 (bytes_per_segment tb * segment)).

(* helper function for moving from power of two exponent to index *)
Definition get_p2_from_index (index : Z) : Z := shl64 1 index.

(* given tree id, return size of allocations *)
Definition get_tree_alloc_size (tb : t) (tree : Z) : Z :=
  wrap64 (min_size tb * get_p2_from_index tree).

(* get max blocks per segment when formatted to a given tree size *)
Definition get_blocks_per_segment (tb : t) (tree : Z) : Z :=
  let tree_alloc_size := get_tree_alloc_size tb tree in
  bytes_per_segment tb / wrap64 (tree_alloc_size * 4096).

(* get maximum # of allocations per segment *)
Definition get_max_allocations_per_segment (tb : t) : Z :=
  bytes_per_segment tb / min_size tb.

Definition offset_to_allocation (tb : t) (allocation tree_id : Z) : Z :=
  let segment_id := allocation / get_max_allocations_per_segment tb in
  let relative_offset := allocation mod get_max_allocations_per_segment tb in
  let segment_mem_start := get_segment_memory_start tb segment_id in
  let alloc_size := get_tree_alloc_size tb tree_id in
  wrap64 (segment_mem_start + wrap64 (relative_offset * alloc_size)).

(* given a known tree id, snap an allocation back to the correct offset *)
Definition allocation_to_offset (tb : t) (alloc tree_id : Z) : Z :=
  let byte_offset := wrap64 (alloc - memory tb) in
  let segment_id := byte_offset / bytes_per_segment tb in
  let segment_start := get_segment_memory_start tb segment_id in
  let segment_byte_offset := wrap64 (alloc - segment_start) in
  wrap64 (segment_byte_offset / get_tree_alloc_size tb tree_id
          + wrap64 (segment_id * get_max_allocations_per_segment tb)).

(* set the tree id of a segment atomically: CAS from the unbound value *)
Definition set_tree_id (tb : t) (segment tree_id : Z) : res (bool * t) :=
  '(old, ids) ← atomic_rmw (chunk_ids tb) segment
                  (λ old, if old =? 0xffff then tree_id else old);
  Ret (old =? 0xffff, with_chunk_ids tb ids).

Definition read_tree_id (tb : t) (segment : Z) : res Z :=
  '(old, _) ← atomic_rmw (chunk_ids tb) segment (λ old, old);
  Ret old.

(* return tree id to ~0 *)
Definition reset_tree_id (tb : t) (segment tree_id : Z) : res (bool * t) :=
  '(old, ids) ← atomic_rmw (chunk_ids tb) segment
                  (λ old, if old =? tree_id then 0xffff else old);
  Ret (old =? tree_id, with_chunk_ids tb ids).

(* pull a slot from the segment: atomicSub(&active_counts[segment], 1) *)
Definition get_slot_in_segment (tb : t) (segment : Z) : res (Z * t) :=
  '(old, ac) ← atomic_rmw (active_counts tb) segment (λ old, wrap_int (old - 1));
  Ret (old, with_active_counts tb ac).

(* atomicAdd(&active_counts[segment], 1) *)
Definition return_slot_to_segment (tb : t) (segment : Z) : res (Z * t) :=
  '(old, ac) ← atomic_rmw (active_counts tb) segment (λ old, wrap_int (old + 1));
  Ret (old, with_active_counts tb ac).

Definition all_blocks_free (active_count blocks_per_segment : Z) : bool :=
  wrap64 active_count =? wrap64 (blocks_per_segment - 2).

Definition active_count_valid (active_count : Z) : bool := 0 <=? active_count.

(* atomicAdd(&queue_counters[segment], 1) *)
Definition increment_queue_position (tb : t) (segment : Z) : res (Z * t) :=
  '(old, qc) ← atomic_rmw (queue_counters tb) segment (λ old, wrap32 (old + 1));
  Ret (old, with_queue_counters tb qc).

(* &blocks[global_block_id] *)
Definition get_block_from_global_block_id (global_block_id : Z) : option Z :=
  Some global_block_id.

(* my_block->init_malloc(tree_id) *)
Definition block_init_malloc (tb : t) (id tree_id : Z) : res t :=
  '(_, bs) ← atomic_rmw (blocks tb) id (init_malloc tree_id);
  Ret (with_blocks tb bs).

(* for (int i = 0; i < num_blocks; i++) queues[segment*blocks_per_segment+i] = nullptr *)
Fixpoint clear_queue (n : nat) (q : list (option Z)) (i base : Z) : res (list (option Z)) :=
  match n with
  | O => Ret q
  | S n' =>
    '(_, q1) ← atomic_rmw q (wrap64 (base + i)) (λ _, None);
    clear_queue n' q1 (i + 1) base
  end.

Definition setup_segment (tb : t) (segment tree_id : Z) : res (bool * t) :=
  '(did_set, tb1) ← set_tree_id tb segment tree_id;
  if negb did_set then Ret (false, tb1)
  else
    let num_blocks := wrap_int (get_blocks_per_segment tb tree_id) in
    q ← clear_queue (Z.to_nat num_blocks) (queues tb1) 0
          (wrap64 (segment * blocks_per_segment tb));
    let tb2 := with_queues tb1 q in
    tb3 ← (if calloc_mode tb2 then
             '(_, c) ← atomic_rmw (calloc_counters tb2) segment (λ _, 0);
             '(_, p) ← atomic_rmw (calloc_enqueue_position tb2) segment (λ _, 0);
             '(_, f) ← atomic_rmw (calloc_enqueue_finished tb2) segment (λ _, 0);
             Ret (with_calloc tb2 c p f)
           else Ret tb2);
    '(_, qc) ← atomic_rmw (queue_counters tb3) segment (λ _, 0);
    '(_, qf) ← atomic_rmw (queue_free_counters tb3) segment (λ _, 0);
    '(_, fq) ← atomic_rmw (final_queue_free_counters tb3) segment (λ _, 0);
    '(_, ac) ← atomic_rmw (active_counts tb3) segment (λ _, wrap_int (num_blocks - 1));
    Ret (true,
         with_active_counts
           (with_final_queue_free_counters
              (with_queue_free_counters (with_queue_counters tb3 qc) qf) fq) ac).

(* request a block from a segment; the result is the block pointer, the
   out-parameter [empty] and the table *)
Definition get_block (tb : t) (segment_id tree_id : Z) : res (option Z * bool * t) :=
  let empty := false in
  '(active_count, tb1) ← get_slot_in_segment tb segment_id;
  if negb (active_count_valid active_count) then
    '(_, tb2) ← return_slot_to_segment tb1 segment_id;
    Ret (None, empty, tb2)
  else
    global_tree_id ← read_tree_id tb1 segment_id;
    if negb (global_tree_id =? tree_id) then
      '(_, tb2) ← return_slot_to_segment tb1 segment_id;
      Ret (None, empty, tb2)
    else
      let blocks_in_segment := get_blocks_per_segment tb1 tree_id in
      '(queue_pos_u, tb2) ← increment_queue_position tb1 segment_id;
      let queue_pos := wrap_int queue_pos_u in
      '(my_block, tb3) ←
        (if wrap64 queue_pos <? blocks_in_segment then
           Ret (get_block_from_global_block_id
                  (wrap64 (wrap64 (segment_id * blocks_per_segment tb2) + queue_pos)),
                tb2)
         else
           let queue_pos_wrapped := wrap_int (wrap64 queue_pos mod blocks_in_segment) in
           '(old, q) ← atomic_rmw (queues tb2)
                         (wrap64 (wrap64 (segment_id * blocks_per_segment tb2)
                                  + queue_pos_wrapped))
                         (λ _, None);
           Ret (old, with_queues tb2 q));
      match my_block with
      | None => Trap
      | Some id =>
        tb4 ← block_init_malloc tb3 id tree_id;
        let empty := if active_count =? 0 then true else empty in
        Ret (Some id, empty, tb4)
      end.

(* once the messy logic of the tree reset is done, clean up *)
Definition finish_freeing_block (tb : t) (segment num_blocks : Z) : res (bool * t) :=
  '(return_id, tb1) ← return_slot_to_segment tb segment;
  if all_blocks_free return_id num_blocks then
    '(old, ac) ← atomic_rmw (active_counts tb1) segment
                   (λ old, if old =? wrap_int (num_blocks - 1) then -1 else old);
    (* the int that atomicCAS returns is compared as a uint64_t *)
    if wrap64 old =? wrap64 (num_blocks - 1) then Ret (true, with_active_counts tb1 ac)
    else Ret (false, with_active_counts tb1 ac)
  else Ret (false, tb1).

(* snap a block back to its segment; a [Block *] is its index in [blocks] *)
Definition get_segment_from_block_ptr (tb : t) (block : Z) : Z :=
  block / blocks_per_segment tb.

(* get relative offset of a block in its segment *)
Definition get_relative_block_offset (tb : t) (block : Z) : Z :=
  wrap_int (block mod blocks_per_segment tb).

(* given a pointer, get the segment the pointer belongs to *)
Definition get_segment_from_ptr (tb : t) (ptr : Z) : Z :=
  wrap64 (ptr - memory tb) / bytes_per_segment tb.

Definition get_segment_from_offset (tb : t) (offset : Z) : Z :=
  offset / get_max_allocations_per_segment tb.

Definition owns_allocation (tb : t) (alloc : Z) : bool :=
  let byte_difference := wrap64 (alloc - memory tb) in
  byte_difference <? wrap64 (num_segments tb * bytes_per_segment tb).




End with_block.

End alloc_table.

(** ** struct Gallatin: the retry loops of the top-level allocator.

    The loops below are the control flow of the source; what the other
    components (the trees, the table, the tree lock, the per-path
    allocation routines) answer in each iteration depends on what every
    other thread is doing, and is an input: a schedule gives the answers
    of the k-th iteration. *)

Module Gallatin.

Definition REQUEST_BLOCK_MAX_ATTEMPTS : Z := 1000.
Definition GALLATIN_MALLOC_LOOP_ATTEMPTS : Z := 10.
Definition GALLATIN_MALLOC_BLOCK_ATTEMPTS : Z := 500.
Definition GALLATIN_MALLOC_SEGMENT_ATTEMPTS : Z := 500.

Definition get_first_bit_bigger (counter : Z) : Z :=
  63 - __builtin_clzll counter + (if __popcll counter =? 1 then 0 else 1).

(* lock given tree to prevent oversubscription: atomicOr on the 32-bit
   word [locks]; the result and the new lock word *)
Definition acquire_tree_lock (locks tree : Z) : bool * Z :=
  (Z.land locks (SET_BIT_MASK tree) =? 0,
   Z.lor locks (wrap32 (SET_BIT_MASK tree))).

Definition release_tree_lock (locks tree : Z) : Z :=
  Z.land locks (wrap32 (not64 (SET_BIT_MASK tree))).

(* while (!acquire_tree_lock(num_trees)); at the head of
   malloc_segment_allocation.  Other threads write the lock word between
   two attempts: [locks k] is the word the k-th attempt finds.  The result
   is the word left behind by the attempt that got the lock. *)
Fixpoint wait_for_tree_lock (fuel : nat) (locks : nat → Z) (k : nat) (tree : Z)
    : res Z :=
  match fuel with
  | O => OutOfFuel
  | S fuel' =>
    let '(acquired, locks') := acquire_tree_lock (locks k) tree in
    if acquired then Ret locks' else wait_for_tree_lock fuel' locks (S k) tree
  end.

(* what the rest of the allocator answers during one iteration of
   request_new_block_from_tree *)
Record answers : Type := mk_answers {
  segment : Z;              (* sub_trees[tree]->find_random_valid_index() *)
  lock_acquired : bool;     (* acquire_tree_lock(tree), asked when no segment was found *)
  success : Z;              (* gather_new_segment(tree), an int *)
  new_block : option Z;     (* table->get_block(segment, tree, last_block) *)
  last_block : bool
}.

Inductive iteration : Type :=
  | Returns (new_block : option Z)     (* return new_block *)
  | Continues (attempts : Z).          (* back to the loop test *)

(* from get_block to the end of the loop body; detaching an exhausted
   segment and gathering a replacement when [last_block] is set act on
   the trees only and do not change [attempts] *)
Definition request_block_step (a : answers) (attempts : Z) : iteration :=
  match new_block a with
  | Some b => Returns (Some b)
  | None => Continues attempts
  end.

(* one pass through the body of [while (attempts < REQUEST_BLOCK_MAX_ATTEMPTS)] *)
Definition request_iteration (a : answers) (attempts : Z) : iteration :=
  if segment a =? veb_tree.fail then
    if lock_acquired a then
      if success a =? -1 then Continues (attempts + 1)
      else request_block_step a attempts
    else
      (* attempts++ is commented out in the source *)
      Continues attempts
  else request_block_step a attempts.

Fixpoint request_loop (fuel : nat) (sched : nat → answers) (k : nat) (attempts : Z)
    : res (option Z) :=
  match fuel with
  | O => OutOfFuel
  | S fuel' =>
    if attempts <? REQUEST_BLOCK_MAX_ATTEMPTS then
      match request_iteration (sched k) attempts with
      | Returns b => Ret b
      | Continues attempts' => request_loop fuel' sched (S k) attempts'
      end
    else Ret None
  end.

(* [fuel] bounds the number of times the loop test is evaluated *)
Definition request_new_block_from_tree (fuel : nat) (sched : nat → answers) : res (option Z) :=
  request_loop fuel sched O 0.

(* while (offset == ~0ULL && attempt_counter < limit)
     { offset = routine(...); attempt_counter += 1; }
   [routine k] is what the k-th call of the allocation routine returns *)
Fixpoint retry_loop (fuel : nat) (limit : Z) (routine : Z → Z)
    (offset attempt_counter : Z) : res Z :=
  match fuel with
  | O => OutOfFuel
  | S fuel' =>
    if (offset =? 0xffffffffffffffff) && (attempt_counter <? limit) then
      retry_loop fuel' limit routine (routine attempt_counter)
                 (wrap64 (attempt_counter + 1))
    else Ret offset
  end.

Definition get_tree_id_from_size (smallest smallest_bits size : Z) : Z :=
  if size <? smallest then 0
  else (get_first_bit_bigger size - smallest_bits) mod 2 ^ 16.

(* malloc: the address of the allocation, 0 for nullptr *)
Definition malloc {Block : Type} (fuel : nat) (table : @alloc_table.t Block)
    (smallest smallest_bits num_trees : Z)
    (malloc_block_allocation malloc_segment_allocation malloc_slice_allocation : Z → Z)
    (size : Z) : res Z :=
  let tree_id := get_tree_id_from_size smallest smallest_bits size in
  let offset := 0xffffffffffffffff in
  let attempt_counter := 0 in
  let finish (offset tree_id : Z) : Z :=
    if negb (offset =? 0xffffffffffffffff)
    then alloc_table.offset_to_allocation table offset tree_id
    else 0 in
  let slice (tree_id : Z) : res Z :=
    offset ← retry_loop fuel GALLATIN_MALLOC_LOOP_ATTEMPTS
                malloc_slice_allocation offset attempt_counter;
    Ret (finish offset tree_id) in
  if num_trees <=? tree_id then
    let smallest_tree_bits := get_first_bit_bigger (wrap64 (smallest * 4096)) in
    let block_tree := get_first_bit_bigger size - smallest_tree_bits in
    if block_tree <? 0 then
      (* big slice_malloc - fall through *)
      slice (num_trees - 1)
    else if block_tree <? num_trees then
      let tree_id := block_tree mod 2 ^ 16 in
      offset ← retry_loop fuel GALLATIN_MALLOC_BLOCK_ATTEMPTS
                  malloc_block_allocation offset attempt_counter;
      Ret (finish offset tree_id)
    else
      let tree_id := 0 in
      offset ← retry_loop fuel GALLATIN_MALLOC_SEGMENT_ATTEMPTS
                  malloc_segment_allocation offset attempt_counter;
      Ret (finish offset tree_id)
  else slice tree_id.

(* the fields of struct Gallatin the functions below touch; the template
   argument [bytes_per_segment] is a field of the table *)
Record t {Block : Type} : Type := mk {
  segment_tree : veb_tree.t;
  table : @alloc_table.t Block;
  sub_trees : list veb_tree.t;
  num_trees : Z;
  locks : Z;
  is_calloc : bool
}.
Arguments t : clear implicits.

Section with_block.

Context {Block : Type}.

Definition with_segment_tree (g : t Block) (v : veb_tree.t) : t Block :=
  mk Block v (table g) (sub_trees g) (num_trees g) (locks g) (is_calloc g).

Definition with_table (g : t Block) (v : @alloc_table.t Block) : t Block :=
  mk Block (segment_tree g) v (sub_trees g) (num_trees g) (locks g) (is_calloc g).

Definition with_sub_trees (g : t Block) (v : list veb_tree.t) : t Block :=
  mk Block (segment_tree g) (table g) v (num_trees g) (locks g) (is_calloc g).

Definition with_locks (g : t Block) (v : Z) : t Block :=
  mk Block (segment_tree g) (table g) (sub_trees g) (num_trees g) v (is_calloc g).

(* get a new segment for a given tree; GALLATIN_TRAP_ON_ERR is 1 *)
Definition gather_new_segment (n fuel : nat) (g : t Block) (tree : Z)
    : res (Z * t Block) :=
  '(new_segment_id, st) ← veb_tree.malloc_first n fuel (segment_tree g);
  let g1 := with_segment_tree g st in
  if new_segment_id =? veb_tree.fail then
    (* no segment available - this signals allocator full *)
    Ret (-1, g1)
  else
    '(did_set, tb) ← alloc_table.setup_segment (table g1) new_segment_id tree;
    if negb did_set then Trap
    else
      let g2 := with_table g1 tb in
      if tree <? 0 then OutOfBounds
      else
        match sub_trees g2 !! Z.to_nat tree with
        | None => OutOfBounds
        | Some sub =>
          '(_, sub1) ← veb_tree.insert_force_update sub new_segment_id;
          Ret (wrap_int new_segment_id,
               with_sub_trees g2 (<[Z.to_nat tree := sub1]> (sub_trees g2)))
        end.

(* malloc_segment_allocation as one thread runs it: no other thread
   writes the lock word while it waits *)
Definition malloc_segment_allocation (fuel : nat) (g : t Block)
    (num_segments_required : Z) : res (Z * t Block) :=
  locks1 ← wait_for_tree_lock fuel (λ _, locks g) O (num_trees g);
  let g1 := with_locks g locks1 in
  '(alloc_index, st) ← veb_tree.gather_multiple fuel (segment_tree g1)
                         num_segments_required;
  let g2 := with_segment_tree g1 st in
  if negb (alloc_index =? veb_tree.fail) then
    '(did_set, tb) ← alloc_table.set_tree_id (table g2) alloc_index
                       ((num_trees g2 + 1 + num_segments_required) mod 2 ^ 16);
    if negb did_set then Trap
    else
      let g3 := with_table g2 tb in
      let g4 := with_locks g3 (release_tree_lock (locks g3) (num_trees g3)) in
      Ret (wrap64 (wrap64 (alloc_index * alloc_table.blocks_per_segment (table g4))
                   * 4096), g4)
  else
    Ret (0xffffffffffffffff,
         with_locks g2 (release_tree_lock (locks g2) (num_trees g2))).

(* this is called whenever a segment needs to be freed back to the system *)
Definition submit_segment_for_free (fuel : nat) (g : t Block)
    (segment size tree_id : Z) : res (t Block) :=
  st ← veb_tree.return_multiple fuel (segment_tree g) segment size;
  let g1 := with_segment_tree g st in
  '(_, tb) ← alloc_table.reset_tree_id (table g1) segment tree_id;
  Ret (with_table g1 tb).

(* free: [free_offset] is the path of block and slice allocations and
   [submit_segment_for_memclear] the calloc path of segment allocations.
   [tree_id] is a uint16_t: ~tree_id is taken on the int it promotes to,
   and [size] is cut back to 16 bits *)
Definition free (fuel : nat)
    (submit_segment_for_memclear : Z → Z → Z → Z → t Block → res (t Block))
    (free_offset : Z → t Block → res (t Block))
    (g : t Block) (allocation : Z) : res (t Block) :=
  let segment := alloc_table.get_segment_from_ptr (table g) allocation in
  tree_id ← alloc_table.read_tree_id (table g) segment;
  if (num_trees g <? tree_id) && negb (wrap_int (Z.lnot tree_id) =? 0) then
    let size := (tree_id - num_trees g - 1) mod 2 ^ 16 in
    if is_calloc g then submit_segment_for_memclear allocation segment size tree_id g
    else submit_segment_for_free fuel g segment size tree_id
  else if num_trees g <? tree_id then Trap
  else
    let offset := alloc_table.allocation_to_offset (table g) allocation tree_id in
    free_offset offset g.

End with_block.

End Gallatin.

(** * Vocabulary of the specification *)


(* bit [j] of a layer: bit [j mod 64] of word [j / 64]; false outside the
   stored words *)
Definition lbit (l : layer.t) (j : Z) : bool :=
  (0 <=? j) && Z.testbit (default 0 (layer.bits l !! Z.to_nat (j / 64))) (j mod 64).

(* every stored word is a uint64_t *)
Definition words_ok (l : layer.t) : Prop :=
  Forall (λ w, 0 <= w < 2 ^ 64) (layer.bits l).

(* [j] lies in the run of [n] indices that starts at [a] *)
Definition in_run (a n j : Z) : bool := (a <=? j) && (j <? a + n).

(* the shape of one layer: the word count fits the universe, and no bit
   is set at or beyond the universe *)
Definition layer_ok (l : layer.t) : Prop :=
  1 <= layer.universe_size l < 2 ^ 64
  ∧ layer.num_blocks l = (layer.universe_size l - 1) / 64 + 1
  ∧ Z.of_nat (length (layer.bits l)) = layer.num_blocks l
  ∧ words_ok l
  ∧ ∀ j, lbit l j = true → j < layer.universe_size l.

(* a summary bit is 1 iff some bit in its group below is 1 *)
Definition summarises (up lo : layer.t) : Prop :=
  layer.universe_size up = layer.num_blocks lo
  ∧ ∀ j, 0 <= j →
      (lbit up j = true ↔ ∃ b, 0 <= b < 64 ∧ lbit lo (64 * j + b) = true).

(* layers[num_layers - 1], when the tree has a layer *)
Definition bottom_layer (tr : veb_tree.t) : option layer.t :=
  veb_tree.layers tr !! Nat.pred (length (veb_tree.layers tr)).

(* the invariant of the free-index tree *)
Definition tree_inv (tr : veb_tree.t) : Prop :=
  1 <= veb_tree.num_layers tr
  ∧ Z.of_nat (length (veb_tree.layers tr)) = veb_tree.num_layers tr
  ∧ Forall layer_ok (veb_tree.layers tr)
  ∧ (∀ i up lo, veb_tree.layers tr !! i = Some up →
                veb_tree.layers tr !! S i = Some lo → summarises up lo)
  ∧ (∀ top, veb_tree.layers tr !! O = Some top → layer.num_blocks top = 1)
  ∧ (∀ leaf, bottom_layer tr = Some leaf →
             layer.universe_size leaf = veb_tree.total_universe tr).

(* index [s] is present in the tree *)
Definition member (tr : veb_tree.t) (s : Z) : Prop :=
  0 <= s ∧ veb_tree.query tr s = Ret true.

(* bit [s] of the bottom layer *)
Definition leaf_bit (tr : veb_tree.t) (s : Z) : bool :=
  match bottom_layer tr with
  | Some leaf => lbit leaf s
  | None => false
  end.

(* [summarises], except that the summary bit [pos] may still be 0 *)
Definition summarises_but (up lo : layer.t) (pos : Z) : Prop :=
  layer.universe_size up = layer.num_blocks lo
  ∧ ∀ j, 0 <= j → j ≠ pos →
      (lbit up j = true ↔ ∃ b, 0 <= b < 64 ∧ lbit lo (64 * j + b) = true).

(* the invariant while insert_force_update is still floating up: bit
   [pos] of layers[lyr - 1] is the only summary bit that may be stale *)
Definition inv_upto (tr : veb_tree.t) (lyr : nat) (pos : Z) : Prop :=
  1 <= veb_tree.num_layers tr
  ∧ Z.of_nat (length (veb_tree.layers tr)) = veb_tree.num_layers tr
  ∧ Forall layer_ok (veb_tree.layers tr)
  ∧ (∀ i up lo, veb_tree.layers tr !! i = Some up →
                veb_tree.layers tr !! S i = Some lo →
                (S i = lyr → summarises_but up lo pos)
                ∧ (S i ≠ lyr → summarises up lo))
  ∧ (∀ top, veb_tree.layers tr !! O = Some top → layer.num_blocks top = 1)
  ∧ (∀ leaf, bottom_layer tr = Some leaf →
             layer.universe_size leaf = veb_tree.total_universe tr).

(** Executable versions of the layer and tree invariants, used to check
    concrete trees by evaluation. *)

Definition layer_ok_b (l : layer.t) : bool :=
  let u := layer.universe_size l in
  let len := Z.of_nat (length (layer.bits l)) in
  (1 <=? u) && (u <? 2 ^ 64)
  && (layer.num_blocks l =? (u - 1) / 64 + 1)
  && (len =? layer.num_blocks l)
  && forallb (λ w, (0 <=? w) && (w <? 2 ^ 64)) (layer.bits l)
  && forallb (λ j, negb (lbit l j)) (seqZ u (64 * len - u)).

Definition summarises_b (up lo : layer.t) : bool :=
  (layer.universe_size up =? layer.num_blocks lo)
  && forallb (λ j, Bool.eqb (lbit up j)
                     (existsb (λ b, lbit lo (64 * j + b)) (seqZ 0 64)))
       (seqZ 0 (Z.max (64 * Z.of_nat (length (layer.bits up)))
                      (Z.of_nat (length (layer.bits lo))))).

Fixpoint adjacent_b (ls : list layer.t) : bool :=
  match ls with
  | up :: rest =>
    match rest with
    | lo :: _ => summarises_b up lo && adjacent_b rest
    | [] => true
    end
  | [] => true
  end.

Definition tree_inv_b (tr : veb_tree.t) : bool :=
  (1 <=? veb_tree.num_layers tr)
  && (Z.of_nat (length (veb_tree.layers tr)) =? veb_tree.num_layers tr)
  && forallb layer_ok_b (veb_tree.layers tr)
  && adjacent_b (veb_tree.layers tr)
  && match veb_tree.layers tr with
     | top :: _ => layer.num_blocks top =? 1
     | [] => true
     end
  && match bottom_layer tr with
     | Some leaf => layer.universe_size leaf =? veb_tree.total_universe tr
     | None => true
     end.

(* two layers with the same universe, word count and storage size *)
Definition same_shape (l l' : layer.t) : Prop :=
  layer.universe_size l' = layer.universe_size l
  ∧ layer.num_blocks l' = layer.num_blocks l
  ∧ length (layer.bits l') = length (layer.bits l).

(* [l'] is [l] with the run of [n] bits from [a] set, resp. cleared *)
Definition sets (l l' : layer.t) (a n : Z) : Prop :=
  same_shape l l' ∧ words_ok l'
  ∧ ∀ j, lbit l' j = lbit l j || in_run a n j.

Definition clears (l l' : layer.t) (a n : Z) : Prop :=
  same_shape l l' ∧ words_ok l'
  ∧ ∀ j, lbit l' j = lbit l j && negb (in_run a n j).

(* the layer stores uint64_t words, fewer than 2^58 of them *)
Definition storage_ok (l : layer.t) : Prop :=
  words_ok l ∧ Z.of_nat (length (layer.bits l)) < 2 ^ 58.

(* inside gather_multiple, after the bits from word [sbc] upwards have
   been claimed: [lc] is [l] with those nn - ncc set bits cleared *)
Definition acquired (l lc : layer.t) (nn sbc ncc : Z) : Prop :=
  clears l lc (64 * sbc) (nn - ncc)
  ∧ (∀ j, in_run (64 * sbc) (nn - ncc) j = true → lbit l j = true)
  ∧ 0 <= sbc
  ∧ 64 * sbc + (nn - ncc) <= 64 * Z.of_nat (length (layer.bits l))
  ∧ 0 < ncc <= nn.

(* a successful gather: the run of n bits from r was set in [l] and is
   cleared in [l'], nothing else changed *)
Definition granted (l l' : layer.t) (r n : Z) : Prop :=
  clears l l' r n
  ∧ 0 <= r
  ∧ r + n <= 64 * Z.of_nat (length (layer.bits l))
  ∧ ∀ j, in_run r n j = true → lbit l j = true.

(* what the gather/return theorem assumes of a tree: num_layers counts
   the layers, and the bottom layer stores uint64_t words *)
Definition bottom_storage_ok (tr : veb_tree.t) : Prop :=
  Z.of_nat (length (veb_tree.layers tr)) = veb_tree.num_layers tr
  ∧ ∀ leaf, bottom_layer tr = Some leaf → storage_ok leaf.

(* [tr'] has the layers of [tr] from index [k] on *)
Definition frame_from (k : nat) (tr tr' : veb_tree.t) : Prop :=
  veb_tree.num_layers tr' = veb_tree.num_layers tr
  ∧ length (veb_tree.layers tr') = length (veb_tree.layers tr)
  ∧ ∀ i, (k <= i)%nat → veb_tree.layers tr' !! i = veb_tree.layers tr !! i.

(* the number of layers actually stored *)
Definition depth (tr : veb_tree.t) : nat := length (veb_tree.layers tr).

(* the search position (lyr, h, w) of a successor query for [i] separates
   the present indices above [i] from the others *)
Definition splits (tr : veb_tree.t) (i : Z) (lyr : nat) (h w : Z) : Prop :=
  ∀ s, leaf_bit tr s = true →
       (i < s ↔ 64 * h + w < s / 64 ^ Z.of_nat (depth tr - 1 - lyr)).

(* a search position inside the tree *)
Definition position (tr : veb_tree.t) (i : Z) (lyr : nat) (h w : Z) (L : layer.t) : Prop :=
  (lyr < depth tr)%nat ∧ veb_tree.layers tr !! lyr = Some L
  ∧ 0 <= h < layer.num_blocks L ∧ -1 <= w <= 63 ∧ splits tr i lyr h w.

Definition bit_above (L : layer.t) (h w : Z) : Prop :=
  ∃ r, w < r < 64 ∧ lbit L (64 * h + r) = true.

(* the block that get_block hands out next from a segment: a fresh one
   (the queue counter is still below the blocks of the segment), or the
   recycled one sitting at the head of the segment's ring queue *)
Definition next_block {Block : Type} (tb : @alloc_table.t Block)
    (segment_id tree_id id : Z) : Prop :=
  ∃ q, alloc_table.queue_counters tb !! Z.to_nat segment_id = Some q
    ∧ 0 <= q < 2 ^ 31
    ∧ 0 <= alloc_table.blocks_per_segment tb
    ∧ segment_id * alloc_table.blocks_per_segment tb + q < 2 ^ 64
    ∧ 0 <= id ∧ is_Some (alloc_table.blocks tb !! Z.to_nat id)
    ∧ ((q < alloc_table.get_blocks_per_segment tb tree_id
        ∧ id = segment_id * alloc_table.blocks_per_segment tb + q)
       ∨ (0 < alloc_table.get_blocks_per_segment tb tree_id <= q
          ∧ alloc_table.queues tb
              !! Z.to_nat (segment_id * alloc_table.blocks_per_segment tb
                           + q mod alloc_table.get_blocks_per_segment tb tree_id)
             = Some (Some id))).

(** ** Concrete trees and schedules used by the examples *)

(* run remove / insert_force_update / insert over a list of indices *)
Definition remove_each (tr : veb_tree.t) (xs : list Z) : res veb_tree.t :=
  foldl (λ acc x, tr ← acc; '(_, tr1) ← veb_tree.remove tr x; Ret tr1) (Ret tr) xs.

Definition insert_force_update_each (tr : veb_tree.t) (xs : list Z) : res veb_tree.t :=
  foldl (λ acc x, tr ← acc; '(_, tr1) ← veb_tree.insert_force_update tr x; Ret tr1)
        (Ret tr) xs.

Definition insert_each (tr : veb_tree.t) (xs : list Z) : res veb_tree.t :=
  foldl (λ acc x, tr ← acc; '(_, tr1) ← veb_tree.insert tr x; Ret tr1) (Ret tr) xs.

(* a universe of 256 indices, every index removed (the state in which the
   allocator boots the tree of a size class) *)
Definition empty_256 : veb_tree.t :=
  veb_tree.mk 0 256 2
    [layer.mk 4 1 [0]; layer.mk 256 4 [0; 0; 0; 0]].

(* universe 256 holding exactly {3, 64, 65, 200} *)
Definition scenario_A : veb_tree.t :=
  veb_tree.mk 0 256 2
    [layer.mk 4 1 [11]; layer.mk 256 4 [8; 3; 0; 256]].

(* the same four bits in the bottom layer, summary never raised: what
   plain [insert] leaves behind on [empty_256] *)
Definition scenario_A_by_insert : veb_tree.t :=
  veb_tree.mk 0 256 2
    [layer.mk 4 1 [0]; layer.mk 256 4 [8; 3; 0; 256]].

(* universe 256 holding exactly [0, 194) *)
Definition low_194 : veb_tree.t :=
  veb_tree.mk 0 256 2
    [layer.mk 4 1 [15];
     layer.mk 256 4 [0xffffffffffffffff; 0xffffffffffffffff; 0xffffffffffffffff; 3]].

(* a layer of 128 bits in which only bits 64..73 are set *)
Definition layer_64_to_73 : layer.t := layer.mk 128 2 [0; 0x3ff].

(* a universe of 100 indices, all present *)
Definition full_100 : veb_tree.t := veb_tree.generate_on_device 100 0.

(* the schedule of a permanently held tree lock on an empty class tree:
   no segment is found, and the lock is never obtained *)
Definition held_lock : nat → Gallatin.answers :=
  λ _, Gallatin.mk_answers veb_tree.fail false (-1) None false.

(* the lock word as every attempt finds it while another thread keeps
   the lock of [tree] *)
Definition lock_taken (tree : Z) : nat → Z := λ _, SET_BIT_MASK tree.

(* the schedule of an allocator that is full: no segment is found, the
   lock is obtained, and no new segment can be gathered *)
Definition out_of_segments : nat → Gallatin.answers :=
  λ _, Gallatin.mk_answers veb_tree.fail true (-1) None false.

(* every iteration either returns or counts an attempt *)
Definition progresses (sched : nat → Gallatin.answers) : Prop :=
  ∀ k attempts,
    Gallatin.request_iteration (sched k) attempts ≠ Gallatin.Continues attempts.

(* on the emptied tree every search comes back empty-handed *)
Definition nothing_found (idx : Z) : bool :=
  match veb_tree.query empty_256 idx, veb_tree.successor_thorough 1 empty_256 idx with
  | Ret false, Ret r => r =? veb_tree.fail
  | _, _ => false
  end.


(* [low_194] after gather_multiple(2) took the indices 192 and 193 ... *)
Definition low_194_gathered : veb_tree.t :=
  veb_tree.mk 0 256 2
    [layer.mk 4 1 [7];
     layer.mk 256 4 [0xffffffffffffffff; 0xffffffffffffffff; 0xffffffffffffffff; 0]].

(* ... and after return_multiple(192, 2) gave them back *)
Definition low_194_returned : veb_tree.t :=
  veb_tree.mk 0 256 2
    [layer.mk 4 1 [7];
     layer.mk 256 4 [0xffffffffffffffff; 0xffffffffffffffff; 0xffffffffffffffff; 3]].


(* a table of two segments of 16 MiB over 16-byte smallest allocations,
   nothing bound yet; the state of a block is the size class it was last
   formatted for *)
Definition format_block (tree_id : Z) (_ : Z) : Z := tree_id.

Definition two_segments : @alloc_table.t Z :=
  alloc_table.mk (2 ^ 24) 16 [0xffff; 0xffff] (replicate 512 0) (replicate 512 None)
    [0; 0] [0; 0] [0; 0] [-1; -1] 0x1000 2 256 false [0; 0] [0; 0] [0; 0].

(* [two_segments] after setup_segment(0, 1): segment 0 serves 32-byte
   allocations from 128 blocks *)
Definition segment_0_bound : @alloc_table.t Z :=
  alloc_table.mk (2 ^ 24) 16 [1; 0xffff] (replicate 512 0) (replicate 512 None)
    [0; 0] [0; 0] [0; 0] [127; -1] 0x1000 2 256 false [0; 0] [0; 0] [0; 0].

(* [layer_64_to_73] after the failed call gather_multiple(70) *)
Definition layer_64_to_73_after : layer.t := layer.mk 128 2 [0x3ff; 0x3ff].

(* the number of words each layer stores, top layer first *)
Definition widths (tr : veb_tree.t) : list nat :=
  (λ l, length (layer.bits l)) <$> veb_tree.layers tr.

(* every layer has a bit for each word of the layer below it *)
Definition stacked (ws : list nat) : Prop :=
  ∀ i wu wl, ws !! i = Some wu → ws !! S i = Some wl →
             Z.of_nat wl <= 64 * Z.of_nat wu.

(* what gathering and returning assume of the storage of a tree; nothing
   is asked of the bits themselves *)
Definition tree_storage_ok (tr : veb_tree.t) : Prop :=
  bottom_storage_ok tr ∧ stacked (widths tr).

(* the first answer other than ~0 among the answers k, k + 1, ... of an
   allocation routine, [limit] of them at most; ~0 when there is none *)
Fixpoint first_offset (limit : nat) (routine : Z → Z) (k : Z) : Z :=
  match limit with
  | O => 0xffffffffffffffff
  | S limit' =>
    if routine k =? 0xffffffffffffffff then first_offset limit' routine (k + 1)
    else routine k
  end.

(* what malloc makes of an offset: nullptr for ~0 *)
Definition address_of {Block : Type} (table : @alloc_table.t Block)
    (offset tree_id : Z) : Z :=
  if offset =? 0xffffffffffffffff then 0
  else alloc_table.offset_to_allocation table offset tree_id.

(* [tr'] has the seed, the universe and the layer count of [tr] *)
Definition same_header (tr tr' : veb_tree.t) : Prop :=
  veb_tree.seed tr' = veb_tree.seed tr
  ∧ veb_tree.total_universe tr' = veb_tree.total_universe tr
  ∧ veb_tree.num_layers tr' = veb_tree.num_layers tr.

(* [r] is the smallest present index that is at least [start] *)
Definition least_from (tr : veb_tree.t) (start r : Z) : Prop :=
  member tr r ∧ start <= r ∧ ∀ s, member tr s → start <= s → r <= s.

(* [tr'] is [tr] with index [r] taken out *)
Definition taken (tr tr' : veb_tree.t) (r : Z) : Prop :=
  tree_inv tr' ∧ same_header tr tr'
  ∧ ∀ s, leaf_bit tr' s = leaf_bit tr s && negb (s =? r).

(* segment [segment_id] is bound to class [tree_id] and has handed out
   the first [k] of its blocks, none of which has come back *)
Definition serving {Block : Type} (tb : @alloc_table.t Block)
    (segment_id tree_id k : Z) : Prop :=
  let nb := alloc_table.get_blocks_per_segment tb tree_id in
  0 <= segment_id ∧ 0 <= k <= nb ∧ nb < 2 ^ 31
  ∧ 0 <= alloc_table.blocks_per_segment tb
  ∧ segment_id * alloc_table.blocks_per_segment tb + nb
      <= Z.of_nat (length (alloc_table.blocks tb))
  ∧ Z.of_nat (length (alloc_table.blocks tb)) < 2 ^ 64
  ∧ alloc_table.chunk_ids tb !! Z.to_nat segment_id = Some tree_id
  ∧ alloc_table.active_counts tb !! Z.to_nat segment_id = Some (nb - 1 - k)
  ∧ alloc_table.queue_counters tb !! Z.to_nat segment_id = Some k.

(* [n] calls of get_block on one segment, with what each returned *)
Fixpoint get_blocks {Block : Type} (init_malloc : Z → Block → Block) (n : nat)
    (tb : @alloc_table.t Block) (segment_id tree_id : Z)
    : res (list (option Z * bool) * @alloc_table.t Block) :=
  match n with
  | O => Ret ([], tb)
  | S n' =>
    '(b, empty, tb1) ← alloc_table.get_block init_malloc tb segment_id tree_id;
    '(rest, tb2) ← get_blocks init_malloc n' tb1 segment_id tree_id;
    Ret ((b, empty) :: rest, tb2)
  end.

(* segment [s] is unbound, and the table has the room to bind it to class
   [tree_id] *)
Definition bindable {Block : Type} (tb : @alloc_table.t Block) (s tree_id : Z) : Prop :=
  let nb := alloc_table.get_blocks_per_segment tb tree_id in
  alloc_table.chunk_ids tb !! Z.to_nat s = Some 0xffff
  ∧ s * alloc_table.blocks_per_segment tb + nb <= Z.of_nat (length (alloc_table.queues tb))
  ∧ s * alloc_table.blocks_per_segment tb + nb <= Z.of_nat (length (alloc_table.blocks tb))
  ∧ (Z.to_nat s < length (alloc_table.queue_counters tb))%nat
  ∧ (Z.to_nat s < length (alloc_table.queue_free_counters tb))%nat
  ∧ (Z.to_nat s < length (alloc_table.final_queue_free_counters tb))%nat
  ∧ (Z.to_nat s < length (alloc_table.active_counts tb))%nat.


(* a class tree over two segments that holds none of them *)
Definition no_segments : veb_tree.t := veb_tree.mk 0 2 1 [layer.mk 2 1 [0]].

(* an allocator of two free segments and two size classes *)
Definition allocator_2 : Gallatin.t Z :=
  Gallatin.mk Z (veb_tree.generate_on_device 2 0) two_segments
    [no_segments; no_segments] 2 0 false.

(* a table of 256 unbound segments *)
Definition segments_256 : @alloc_table.t Z :=
  alloc_table.mk (2 ^ 24) 16 (replicate 256 0xffff) [] []
    (replicate 256 0) (replicate 256 0) (replicate 256 0) (replicate 256 (-1))
    0x1000 256 256 false [] [] [].

(* an allocator whose segments 0 to 193 are free *)
Definition allocator_256 : Gallatin.t Z :=
  Gallatin.mk Z low_194 segments_256 [] 8 0 false.

(** * Machine words *)

Lemma wrap64_small (x : Z) : 0 <= x < 2 ^ 64 → wrap64 x = x.
Proof. intros H. unfold wrap64. apply Z.mod_small; lia. Qed.

Lemma wrap64_range (x : Z) : 0 <= wrap64 x < 2 ^ 64.
Proof. unfold wrap64. apply Z.mod_pos_bound. lia. Qed.

Lemma testbit_wrap64 (x i : Z) :
  Z.testbit (wrap64 x) i = (i <? 64) && Z.testbit x i.
Proof.
  unfold wrap64. destruct (Z.ltb_spec i 64).
  - destruct (Z_lt_ge_dec i 0).
    + rewrite !Z.testbit_neg_r by lia. done.
    + rewrite Z.mod_pow2_bits_low by lia. done.
  - rewrite Z.mod_pow2_bits_high by lia. done.
Qed.

Lemma testbit_not64 (x i : Z) :
  0 <= i → Z.testbit (not64 x) i = (i <? 64) && negb (Z.testbit x i).
Proof. intros. unfold not64. rewrite testbit_wrap64, Z.lnot_spec by lia. done. Qed.

Lemma testbit_shl64 (x k i : Z) :
  0 <= k → Z.testbit (shl64 x k) i = (i <? 64) && Z.testbit x (i - k).
Proof.
  intros. unfold shl64. rewrite testbit_wrap64.
  destruct (Z_lt_ge_dec i 0).
  - rewrite !Z.testbit_neg_r by lia. done.
  - rewrite Z.shiftl_spec by lia. done.
Qed.

Lemma testbit_SET_BIT_MASK (k i : Z) :
  0 <= k → Z.testbit (SET_BIT_MASK k) i = (i <? 64) && (i =? k).
Proof.
  intros. unfold SET_BIT_MASK. rewrite testbit_shl64 by lia. f_equal.
  destruct (Z.eqb_spec i k) as [->|].
  - rewrite Z.sub_diag. done.
  - destruct (Z_lt_ge_dec (i - k) 0).
    + rewrite Z.testbit_neg_r by lia. done.
    + apply (Z.bits_above_log2 1 (i - k)); simpl; lia.
Qed.

Lemma MAX_VALUE_ones (n : Z) : 0 <= n < 64 → MAX_VALUE n = Z.ones n.
Proof.
  intros. unfold MAX_VALUE, shl64. rewrite Z.shiftl_1_l.
  assert (0 < 2 ^ n < 2 ^ 64).
  { split; [apply Z.pow_pos_nonneg; lia|apply Z.pow_lt_mono_r; lia]. }
  rewrite (wrap64_small (2 ^ n)) by lia. rewrite wrap64_small by lia.
  rewrite Z.ones_equiv. lia.
Qed.

Lemma BITMASK_ones (n : Z) : 0 <= n <= 64 → BITMASK n = Z.ones n.
Proof.
  intros. unfold BITMASK. destruct (Z.eqb_spec n 64) as [->|]; [done|].
  apply MAX_VALUE_ones. lia.
Qed.

Lemma testbit_BITMASK (n i : Z) :
  0 <= n <= 64 → 0 <= i → Z.testbit (BITMASK n) i = (i <? n).
Proof.
  intros. rewrite BITMASK_ones by lia. rewrite Z.testbit_ones_nonneg by lia.
  done.
Qed.

Lemma BITMASK_range (n : Z) : 0 <= n <= 64 → 0 <= BITMASK n < 2 ^ 64.
Proof.
  intros. rewrite BITMASK_ones by lia. rewrite Z.ones_equiv.
  assert (0 < 2 ^ n <= 2 ^ 64).
  { split; [apply Z.pow_pos_nonneg; lia|apply Z.pow_le_mono_r; lia]. }
  lia.
Qed.

Lemma testbit_high (x i : Z) : 0 <= x < 2 ^ 64 → 64 <= i → Z.testbit x i = false.
Proof.
  intros. rewrite <- (wrap64_small x) by done. rewrite testbit_wrap64.
  destruct (Z.ltb_spec i 64); [lia|done].
Qed.

(* two words of 64 bits with the same 64 bits are equal *)
Lemma word_eq (x y : Z) :
  0 <= x < 2 ^ 64 → 0 <= y < 2 ^ 64 →
  (∀ i, 0 <= i < 64 → Z.testbit x i = Z.testbit y i) → x = y.
Proof.
  intros Hx Hy H. apply Z.bits_inj'. intros i Hi.
  destruct (Z_lt_ge_dec i 64); [apply H; lia|].
  rewrite !testbit_high by lia. done.
Qed.

Lemma range_of_bits (x : Z) :
  (∀ i, 64 <= i → Z.testbit x i = false) → 0 <= x < 2 ^ 64.
Proof.
  intros H. replace x with (wrap64 x); [apply wrap64_range|].
  apply Z.bits_inj'. intros i Hi. rewrite testbit_wrap64.
  destruct (Z.ltb_spec i 64); [done|]. rewrite H by lia. done.
Qed.

Lemma land_range (x y : Z) : 0 <= x < 2 ^ 64 → 0 <= Z.land x y < 2 ^ 64.
Proof.
  intros. apply range_of_bits. intros i Hi.
  rewrite Z.land_spec, (testbit_high x) by lia. done.
Qed.

Lemma lor_range (x y : Z) :
  0 <= x < 2 ^ 64 → 0 <= y < 2 ^ 64 → 0 <= Z.lor x y < 2 ^ 64.
Proof.
  intros. apply range_of_bits. intros i Hi.
  rewrite Z.lor_spec, (testbit_high x), (testbit_high y) by lia. done.
Qed.

Lemma shl64_range (x k : Z) : 0 <= shl64 x k < 2 ^ 64.
Proof. apply wrap64_range. Qed.

Lemma not64_range (x : Z) : 0 <= not64 x < 2 ^ 64.
Proof. apply wrap64_range. Qed.

(** *** __ffsll and __popcll *)

Lemma ffs_from_spec (n : nat) (i x : Z) :
  0 <= i →
  (ffs_from n i x = 0 ∧ ∀ b, i <= b < i + Z.of_nat n → Z.testbit x b = false)
  ∨ (∃ r, ffs_from n i x = r + 1 ∧ i <= r < i + Z.of_nat n
          ∧ Z.testbit x r = true ∧ ∀ b, i <= b < r → Z.testbit x b = false).
Proof.
  revert i. induction n as [|n IH]; intros i Hi; simpl.
  - left. split; [done|]. intros. lia.
  - destruct (Z.testbit x i) eqn:E.
    + right. exists i. split; [done|]. split; [lia|]. split; [done|]. intros. lia.
    + destruct (IH (i + 1) ltac:(lia)) as [[H0 Hall]|(r & Hr & Hrange & Hbit & Hlow)].
      * left. split; [done|]. intros b Hb.
        destruct (Z.eq_dec b i) as [->|]; [done|]. apply Hall. lia.
      * right. exists r. split; [done|]. split; [lia|]. split; [done|]. intros b Hb.
        destruct (Z.eq_dec b i) as [->|]; [done|]. apply Hlow. lia.
Qed.

Lemma ffsll_spec (x : Z) :
  (__ffsll x = 0 ∧ ∀ b, 0 <= b < 64 → Z.testbit x b = false)
  ∨ (∃ r, __ffsll x = r + 1 ∧ 0 <= r < 64
          ∧ Z.testbit x r = true ∧ ∀ b, 0 <= b < r → Z.testbit x b = false).
Proof. apply (ffs_from_spec 64 0 x). lia. Qed.

Lemma popc_from_range (n : nat) (i x : Z) : 0 <= popc_from n i x <= Z.of_nat n.
Proof.
  revert i. induction n as [|n IH]; intros i; simpl; [lia|].
  specialize (IH (i + 1)). destruct (Z.testbit x i); lia.
Qed.

Lemma popc_from_zero (n : nat) (i x : Z) :
  popc_from n i x = 0 ↔ ∀ b, i <= b < i + Z.of_nat n → Z.testbit x b = false.
Proof.
  revert i. induction n as [|n IH]; intros i; simpl.
  - split; [intros _ b Hb; lia|done].
  - pose proof (popc_from_range n (i + 1) x). split.
    + intros H0 b Hb. destruct (Z.testbit x i) eqn:E; [lia|].
      destruct (Z.eq_dec b i) as [->|]; [done|]. apply (proj1 (IH (i + 1))); lia.
    + intros Hall. rewrite (Hall i) by lia.
      assert (popc_from n (i + 1) x = 0); [|lia].
      apply (proj2 (IH (i + 1))). intros. apply Hall. lia.
Qed.

Lemma popc_from_full (n : nat) (i x : Z) :
  popc_from n i x = Z.of_nat n ↔ ∀ b, i <= b < i + Z.of_nat n → Z.testbit x b = true.
Proof.
  revert i. induction n as [|n IH]; intros i; simpl.
  - split; [intros _ b Hb; lia|done].
  - pose proof (popc_from_range n (i + 1) x). split.
    + intros H0 b Hb. destruct (Z.testbit x i) eqn:E; [|lia].
      destruct (Z.eq_dec b i) as [->|]; [done|]. apply (proj1 (IH (i + 1))); lia.
    + intros Hall. rewrite (Hall i) by lia.
      assert (popc_from n (i + 1) x = Z.of_nat n); [|lia].
      apply (proj2 (IH (i + 1))). intros. apply Hall. lia.
Qed.

Lemma popcll_range (x : Z) : 0 <= __popcll x <= 64.
Proof. apply (popc_from_range 64 0 x). Qed.

Lemma popcll_zero (x : Z) :
  __popcll x = 0 ↔ ∀ b, 0 <= b < 64 → Z.testbit x b = false.
Proof. apply (popc_from_zero 64 0 x). Qed.

Lemma popcll_full (x : Z) :
  __popcll x = 64 ↔ ∀ b, 0 <= b < 64 → Z.testbit x b = true.
Proof. apply (popc_from_full 64 0 x). Qed.

(* __cfcll counts the ones below the lowest zero *)
Lemma cfcll_spec (x : Z) :
  0 <= __cfcll x <= 64
  ∧ (∀ b, 0 <= b < __cfcll x → Z.testbit x b = true)
  ∧ (__cfcll x < 64 → Z.testbit x (__cfcll x) = false).
Proof.
  unfold __cfcll. pose proof (popcll_range x) as Hr.
  destruct (Z.eqb_spec (__popcll x) 0) as [E0|N0]; simpl.
  - rewrite E0. simpl. split; [lia|]. split; [intros; lia|].
    intros _. apply (proj1 (popcll_zero x)); [done|lia].
  - destruct (Z.eqb_spec (__popcll x) 64) as [E64|N64]; simpl.
    + rewrite E64. simpl. split; [lia|]. split; [|lia].
      intros. apply (proj1 (popcll_full x)); [done|lia].
    + rewrite Z.mul_0_r, Z.mul_1_r, Z.add_0_l.
      destruct (ffsll_spec (not64 x)) as [[H0 Hall]|(r & Hr' & Hrange & Hbit & Hlow)].
      * exfalso. apply N64. apply (proj2 (popcll_full x)). intros b Hb.
        specialize (Hall b Hb). rewrite testbit_not64 in Hall by lia.
        destruct (Z.ltb_spec b 64); [|lia]. destruct (Z.testbit x b); done.
      * rewrite Hr'. replace (r + 1 - 1) with r by lia.
        split; [lia|]. split.
        -- intros b Hb. specialize (Hlow b Hb). rewrite testbit_not64 in Hlow by lia.
           destruct (Z.ltb_spec b 64); [|lia]. destruct (Z.testbit x b); done.
        -- intros _. rewrite testbit_not64 in Hbit by lia.
           destruct (Z.ltb_spec r 64); [|lia]. destruct (Z.testbit x r); done.
Qed.

Lemma popc_from_nonzero (n : nat) (i x : Z) :
  popc_from n i x ≠ 0 → ∃ b, i <= b < i + Z.of_nat n ∧ Z.testbit x b = true.
Proof.
  revert i. induction n as [|n IH]; intros i; simpl; [done|].
  destruct (Z.testbit x i) eqn:E.
  - intros _. exists i. split; [lia|done].
  - intros H. destruct (IH (i + 1) ltac:(lia)) as (b & Hb & Hbit).
    exists b. split; [lia|done].
Qed.

Lemma popcll_nonzero (x : Z) :
  __popcll x ≠ 0 → ∃ b, 0 <= b < 64 ∧ Z.testbit x b = true.
Proof. apply (popc_from_nonzero 64 0 x). Qed.

(** * One layer *)

Lemma res_bind_Ret {A B : Type} (m : res A) (f : A → res B) (b : B) :
  (m ≫= f) = Ret b → ∃ a, m = Ret a ∧ f a = Ret b.
Proof. destruct m; simpl; intros H; try discriminate. eauto. Qed.

Lemma div64_decomp (h b : Z) : 0 <= b < 64 → (64 * h + b) / 64 = h ∧ (64 * h + b) mod 64 = b.
Proof.
  intros. split.
  - symmetry. apply (Z.div_unique _ _ _ b); lia.
  - symmetry. apply (Z.mod_unique _ _ h); lia.
Qed.

Lemma lbit_neg (l : layer.t) (j : Z) : j < 0 → lbit l j = false.
Proof. intros. unfold lbit. destruct (Z.leb_spec 0 j); [lia|done]. Qed.

Lemma lbit_word (l : layer.t) (h b w : Z) :
  0 <= h → 0 <= b < 64 → layer.bits l !! Z.to_nat h = Some w →
  lbit l (64 * h + b) = Z.testbit w b.
Proof.
  intros Hh Hb Hw. unfold lbit. destruct (div64_decomp h b Hb) as [-> ->].
  rewrite Hw. simpl. destruct (Z.leb_spec 0 (64 * h + b)); [done|lia].
Qed.

Lemma lbit_outside (l : layer.t) (j : Z) :
  64 * Z.of_nat (length (layer.bits l)) <= j → lbit l j = false.
Proof.
  intros. unfold lbit. rewrite lookup_ge_None_2.
  - simpl. rewrite Z.testbit_0_l. apply andb_false_r.
  - assert (Z.of_nat (length (layer.bits l)) <= j / 64); [|lia].
    apply Z.div_le_lower_bound; lia.
Qed.

Lemma lbit_inside (l : layer.t) (j : Z) :
  lbit l j = true → 0 <= j < 64 * Z.of_nat (length (layer.bits l)).
Proof.
  intros H. destruct (Z_lt_ge_dec j 0); [rewrite lbit_neg in H by lia; done|].
  destruct (Z_lt_ge_dec j (64 * Z.of_nat (length (layer.bits l)))); [lia|].
  rewrite lbit_outside in H by lia. done.
Qed.

(* the bits of a layer after one of its words is replaced *)
Lemma lbit_store (l : layer.t) (h w' j : Z) :
  0 <= h → (Z.to_nat h < length (layer.bits l))%nat →
  lbit (layer.with_bits l (<[Z.to_nat h := w']> (layer.bits l))) j
  = if (0 <=? j) && (j / 64 =? h) then Z.testbit w' (j mod 64) else lbit l j.
Proof.
  intros Hh Hlen. unfold lbit. simpl.
  destruct (Z.leb_spec 0 j); simpl; [|done].
  destruct (Z.eqb_spec (j / 64) h) as [->|Hne].
  - rewrite list_lookup_insert_eq by done. done.
  - rewrite list_lookup_insert_ne; [done|].
    intros E. apply Hne. apply Z2Nat.inj in E; try lia. apply Z.div_pos; lia.
Qed.

Lemma load_Ret (l : layer.t) (h w : Z) :
  layer.load l h = Ret w → layer.bits l !! Z.to_nat h = Some w.
Proof. unfold layer.load. destruct (_ !! _); intros; simplify_eq; done. Qed.

Lemma atomicOr_Ret (l l' : layer.t) (h v old : Z) :
  layer.atomicOr l h v = Ret (old, l') →
  layer.bits l !! Z.to_nat h = Some old
  ∧ l' = layer.with_bits l (<[Z.to_nat h := Z.lor old v]> (layer.bits l)).
Proof.
  unfold layer.atomicOr. intros H. apply res_bind_Ret in H as (w & Hw & H).
  apply load_Ret in Hw. simplify_eq. done.
Qed.

Lemma atomicAnd_Ret (l l' : layer.t) (h v old : Z) :
  layer.atomicAnd l h v = Ret (old, l') →
  layer.bits l !! Z.to_nat h = Some old
  ∧ l' = layer.with_bits l (<[Z.to_nat h := Z.land old v]> (layer.bits l)).
Proof.
  unfold layer.atomicAnd. intros H. apply res_bind_Ret in H as (w & Hw & H).
  apply load_Ret in Hw. simplify_eq. done.
Qed.

Lemma words_ok_lookup (l : layer.t) (i : nat) (w : Z) :
  words_ok l → layer.bits l !! i = Some w → 0 <= w < 2 ^ 64.
Proof. intros H Hw. eapply (Forall_lookup_1 _ _ _ _ H Hw). Qed.

Lemma words_ok_store (l : layer.t) (i : nat) (w : Z) :
  words_ok l → 0 <= w < 2 ^ 64 →
  words_ok (layer.with_bits l (<[i := w]> (layer.bits l))).
Proof. intros H Hw. unfold words_ok. simpl. apply Forall_insert; done. Qed.

(* two layers of the same shape with the same bits are the same layer *)
Lemma layer_ext (l l' : layer.t) :
  layer.universe_size l = layer.universe_size l' →
  layer.num_blocks l = layer.num_blocks l' →
  length (layer.bits l) = length (layer.bits l') →
  words_ok l → words_ok l' →
  (∀ j, 0 <= j → lbit l j = lbit l' j) → l = l'.
Proof.
  destruct l as [u n bs], l' as [u' n' bs']. simpl.
  intros -> -> Hlen Hw Hw' Hbits. f_equal.
  apply list_eq. intros i.
  destruct (bs !! i) as [w|] eqn:E.
  - destruct (bs' !! i) as [w'|] eqn:E'.
    + f_equal. apply word_eq.
      * apply (words_ok_lookup _ _ _ Hw E).
      * apply (words_ok_lookup _ _ _ Hw' E').
      * intros b Hb.
        rewrite <- (lbit_word (layer.mk u' n' bs) (Z.of_nat i) b w); try lia.
        2:{ simpl. rewrite Nat2Z.id. done. }
        rewrite <- (lbit_word (layer.mk u' n' bs') (Z.of_nat i) b w'); try lia.
        2:{ simpl. rewrite Nat2Z.id. done. }
        apply Hbits. lia.
    + apply lookup_lt_Some in E. apply lookup_ge_None in E'. lia.
  - destruct (bs' !! i) as [w'|] eqn:E'; [|done].
    apply lookup_lt_Some in E'. apply lookup_ge_None in E. lia.
Qed.

(* find_next on a word inside the layer *)
Lemma find_next_spec (l : layer.t) (h low w : Z) :
  0 <= h < layer.universe_size l →
  layer.bits l !! Z.to_nat h = Some w →
  -1 <= low <= 63 →
  ∃ r, layer.find_next l h low = Ret r
     ∧ ((r = -1 ∧ ∀ b, low < b < 64 → lbit l (64 * h + b) = false)
        ∨ (low < r < 64 ∧ lbit l (64 * h + r) = true
           ∧ ∀ b, low < b < r → lbit l (64 * h + b) = false)).
Proof.
  intros Hh Hw Hlow. unfold layer.find_next, layer.load.
  destruct (Z.leb_spec (layer.universe_size l) h); [lia|].
  rewrite Hw. simpl.
  destruct (Z.eqb_spec low (-1)) as [->|Hne].
  - destruct (ffsll_spec w) as [[H0 Hall]|(r & Hr & Hrange & Hbit & Hlo)].
    + exists (-1). split; [rewrite H0; done|]. left. split; [done|].
      intros b Hb. rewrite (lbit_word l h b w) by first [lia|done]. apply Hall. lia.
    + exists r. split; [rewrite Hr; f_equal; lia|]. right.
      split; [lia|]. split.
      * rewrite (lbit_word l h r w) by first [lia|done]. done.
      * intros b Hb. rewrite (lbit_word l h b w) by first [lia|done]. apply Hlo. lia.
  - assert (Hm : ∀ b, 0 <= b < 64 →
      Z.testbit (Z.land w (not64 (BITMASK (low + 1)))) b = Z.testbit w b && (low <? b)).
    { intros b Hb. rewrite Z.land_spec, testbit_not64, testbit_BITMASK by lia.
      destruct (Z.ltb_spec b 64); [|lia]. simpl. f_equal.
      destruct (Z.ltb_spec b (low + 1)), (Z.ltb_spec low b); simpl; lia || done. }
    destruct (ffsll_spec (Z.land w (not64 (BITMASK (low + 1)))))
      as [[H0 Hall]|(r & Hr & Hrange & Hbit & Hlo)].
    + exists (-1). split; [rewrite H0; done|]. left. split; [done|].
      intros b Hb. rewrite (lbit_word l h b w) by first [lia|done].
      specialize (Hall b ltac:(lia)). rewrite Hm in Hall by lia.
      destruct (Z.ltb_spec low b); [|lia]. rewrite andb_true_r in Hall. done.
    + rewrite Hm in Hbit by lia. apply andb_true_iff in Hbit as [Hbit Hlt].
      apply Z.ltb_lt in Hlt.
      exists r. split; [rewrite Hr; f_equal; lia|]. right.
      split; [lia|]. split.
      * rewrite (lbit_word l h r w) by first [lia|done]. done.
      * intros b Hb. rewrite (lbit_word l h b w) by first [lia|done].
        specialize (Hlo b ltac:(lia)). rewrite Hm in Hlo by lia.
        destruct (Z.ltb_spec low b); [|lia]. rewrite andb_true_r in Hlo. done.
Qed.

(** * The tree and its invariant *)

Lemma shiftr6 (x : Z) : Z.shiftr x 6 = x / 64.
Proof. rewrite Z.shiftr_div_pow2 by lia. done. Qed.

Lemma land63 (x : Z) : Z.land x (BITMASK 6) = x mod 64.
Proof. rewrite BITMASK_ones by lia. rewrite Z.land_ones by lia. done. Qed.

Lemma float_up_high_eq (h : Z) : veb_tree.float_up_high h = h / 64.
Proof. apply shiftr6. Qed.

Lemma float_up_low_eq (h : Z) : veb_tree.float_up_low h = h mod 64.
Proof. apply land63. Qed.

Lemma float_down_high_eq (h r : Z) :
  0 <= h → 0 <= r → 64 * h + r < 2 ^ 64 → veb_tree.float_down_high h r = 64 * h + r.
Proof.
  intros. unfold veb_tree.float_down_high, shl64. rewrite Z.shiftl_mul_pow2 by lia.
  change (2 ^ 6) with 64. rewrite (wrap64_small (h * 64)) by lia.
  rewrite wrap64_small by lia. lia.
Qed.

Lemma land_SET_BIT_MASK (w k : Z) :
  0 <= k < 64 → (Z.land w (SET_BIT_MASK k) =? 0) = negb (Z.testbit w k).
Proof.
  intros Hk. destruct (Z.testbit w k) eqn:E; simpl.
  - apply Z.eqb_neq. intros H0.
    assert (Z.testbit (Z.land w (SET_BIT_MASK k)) k = true).
    { rewrite Z.land_spec, E, testbit_SET_BIT_MASK by lia.
      destruct (Z.ltb_spec k 64); [|lia]. rewrite Z.eqb_refl. done. }
    rewrite H0, Z.testbit_0_l in H. done.
  - apply Z.eqb_eq. apply Z.bits_inj'. intros i Hi.
    rewrite Z.land_spec, testbit_SET_BIT_MASK, Z.testbit_0_l by lia.
    destruct (Z.eqb_spec i k) as [->|]; [rewrite E; done|].
    rewrite andb_false_r. apply andb_false_r.
Qed.

Lemma layer_ok_blocks (L : layer.t) :
  layer_ok L → 1 <= layer.num_blocks L <= layer.universe_size L.
Proof.
  intros (Hu & Hn & _). rewrite Hn.
  pose proof (Z.div_pos (layer.universe_size L - 1) 64).
  assert ((layer.universe_size L - 1) / 64 <= layer.universe_size L - 1).
  { apply Z.div_le_upper_bound; lia. }
  lia.
Qed.

Lemma layer_ok_word (L : layer.t) (h : Z) :
  layer_ok L → 0 <= h < layer.num_blocks L →
  ∃ w, layer.bits L !! Z.to_nat h = Some w.
Proof.
  intros (_ & _ & Hlen & _) Hh. apply lookup_lt_is_Some_2. lia.
Qed.

Section tree_facts.

Variable tr : veb_tree.t.
Hypothesis Hinv : tree_inv tr.

Lemma inv_nl : (1 <= depth tr)%nat ∧ Z.of_nat (depth tr) = veb_tree.num_layers tr.
Proof. destruct Hinv as (H1 & H2 & _). unfold depth. lia. Qed.

Lemma inv_bottom : veb_tree.bottom tr = Ret (depth tr - 1)%nat.
Proof.
  destruct inv_nl as [H1 H2]. unfold veb_tree.bottom.
  destruct (Z.ltb_spec (veb_tree.num_layers tr - 1) 0); [lia|].
  f_equal. lia.
Qed.

Lemma inv_layer (lyr : nat) :
  (lyr < depth tr)%nat → ∃ L, veb_tree.layers tr !! lyr = Some L ∧ layer_ok L.
Proof.
  intros H. destruct (lookup_lt_is_Some_2 (veb_tree.layers tr) lyr H) as [L HL].
  exists L. split; [done|]. destruct Hinv as (_ & _ & Hok & _).
  apply (Forall_lookup_1 _ _ _ _ Hok HL).
Qed.

Lemma inv_layer_ok (lyr : nat) (L : layer.t) :
  veb_tree.layers tr !! lyr = Some L → layer_ok L.
Proof.
  intros HL. destruct Hinv as (_ & _ & Hok & _).
  apply (Forall_lookup_1 _ _ _ _ Hok HL).
Qed.

Lemma get_layer_Some (lyr : nat) (L : layer.t) :
  veb_tree.layers tr !! lyr = Some L → veb_tree.get_layer tr lyr = Ret L.
Proof. intros H. unfold veb_tree.get_layer. rewrite H. done. Qed.

Lemma inv_summ (lyr : nat) (up lo : layer.t) :
  veb_tree.layers tr !! lyr = Some up → veb_tree.layers tr !! S lyr = Some lo →
  summarises up lo.
Proof. destruct Hinv as (_ & _ & _ & Hs & _). apply Hs. Qed.

Lemma inv_leaf : ∃ leaf, veb_tree.layers tr !! (depth tr - 1)%nat = Some leaf
  ∧ bottom_layer tr = Some leaf
  ∧ layer.universe_size leaf = veb_tree.total_universe tr ∧ layer_ok leaf.
Proof.
  destruct inv_nl as [H1 _].
  destruct (inv_layer (depth tr - 1)) as (leaf & Hl & Hok); [lia|].
  exists leaf. assert (Hlast : bottom_layer tr = Some leaf).
  { unfold bottom_layer.
    replace (Nat.pred (length (veb_tree.layers tr))) with (depth tr - 1)%nat
      by (unfold depth; lia). done. }
  split; [done|]. split; [done|]. split; [|done].
  destruct Hinv as (_ & _ & _ & _ & _ & Hu). apply Hu, Hlast.
Qed.

Lemma leaf_bit_eq (leaf : layer.t) (s : Z) :
  veb_tree.layers tr !! (depth tr - 1)%nat = Some leaf → leaf_bit tr s = lbit leaf s.
Proof.
  intros Hl. unfold leaf_bit, bottom_layer.
  replace (Nat.pred (length (veb_tree.layers tr))) with (depth tr - 1)%nat by (unfold depth; lia).
  rewrite Hl. done.
Qed.

(* membership, as query sees it, is the bit of the bottom layer *)
Lemma member_leaf_bit (s : Z) : member tr s ↔ leaf_bit tr s = true.
Proof.
  destruct inv_leaf as (leaf & Hl & Hlast & Hu & Hok).
  rewrite (leaf_bit_eq leaf s Hl). unfold member, veb_tree.query.
  rewrite inv_bottom. simpl. rewrite (get_layer_Some _ _ Hl). simpl.
  unfold layer.query, layer.load. rewrite shiftr6, land63.
  split.
  - intros [Hs H]. destruct (layer.bits leaf !! Z.to_nat (s / 64)) as [w|] eqn:E;
      simpl in H; [|done].
    injection H as H. rewrite land_SET_BIT_MASK in H by (apply Z.mod_pos_bound; lia).
    rewrite negb_involutive in H. unfold lbit. rewrite E. simpl.
    destruct (Z.leb_spec 0 s); [done|lia].
  - intros H. pose proof (lbit_inside _ _ H) as Hin. split; [lia|].
    unfold lbit in H. apply andb_true_iff in H as [_ H].
    destruct (layer.bits leaf !! Z.to_nat (s / 64)) as [w|] eqn:E; simpl in *.
    + rewrite land_SET_BIT_MASK by (apply Z.mod_pos_bound; lia). rewrite H. done.
    + rewrite Z.testbit_0_l in H. done.
Qed.

(* the ancestors of a present index are set in every layer *)
Lemma anc_member (s : Z) (d : nat) :
  leaf_bit tr s = true →
  ∀ lyr L, (lyr + d = depth tr - 1)%nat → veb_tree.layers tr !! lyr = Some L →
  lbit L (s / 64 ^ Z.of_nat d) = true.
Proof.
  intros Hs. induction d as [|d IH]; intros lyr L Hd HL.
  - rewrite Nat.add_0_r in Hd. subst lyr. rewrite (leaf_bit_eq L s HL) in Hs.
    simpl. rewrite Z.div_1_r. done.
  - destruct (inv_layer (S lyr)) as (L' & HL' & _); [lia|].
    specialize (IH (S lyr) L' ltac:(lia) HL').
    destruct (inv_summ lyr L L' HL HL') as [_ Hsum].
    pose proof (lbit_inside _ _ IH) as Hin.
    set (a := s / 64 ^ Z.of_nat d) in *.
    assert (Ha : s / 64 ^ Z.of_nat (S d) = a / 64).
    { rewrite Nat2Z.inj_succ, Z.pow_succ_r by lia. unfold a.
      rewrite Z.div_div by lia. f_equal. lia. }
    rewrite Ha. apply Hsum; [apply Z.div_pos; lia|].
    exists (a mod 64). split; [apply Z.mod_pos_bound; lia|].
    rewrite <- Z.div_mod by lia. done.
Qed.

End tree_facts.

(** * Successor search *)

Lemma successor_up_eq (lyr : nat) (tr : veb_tree.t) (high low : Z) :
  veb_tree.successor_up lyr tr high low =
  (l ← veb_tree.get_layer tr lyr;
   found_idx ← layer.find_next l high low;
   if found_idx =? -1 then
     match lyr with
     | O => Ret None
     | S lyr' => veb_tree.successor_up lyr' tr (veb_tree.float_up_high high)
                   (veb_tree.float_up_low high)
     end
   else Ret (Some (lyr, high, low))).
Proof. destruct lyr; reflexivity. Qed.

Lemma pow64_pos (d : nat) : 0 < 64 ^ Z.of_nat d.
Proof. apply Z.pow_pos_nonneg; lia. Qed.

Lemma anc_step (s : Z) (d : nat) :
  s / 64 ^ Z.of_nat (S d) = s / 64 ^ Z.of_nat d / 64.
Proof.
  rewrite Nat2Z.inj_succ, Z.pow_succ_r by lia.
  rewrite Z.div_div by (pose proof (pow64_pos d); lia). f_equal. lia.
Qed.

(* a set bit of L strictly above position tr i 64h+w that is not in the tail
   of word h lies in a later word *)
Lemma above_word (L : layer.t) (h w a : Z) :
  -1 <= w → (∀ b, w < b < 64 → lbit L (64 * h + b) = false) →
  lbit L a = true → 64 * h + w < a → h < a / 64.
Proof.
  intros Hw Hnone Ha Hgt.
  destruct (Z_lt_ge_dec h (a / 64)); [done|]. exfalso.
  assert (a / 64 = h).
  { assert (h <= a / 64); [|lia]. apply Z.div_le_lower_bound; lia. }
  pose proof (Z.div_mod a 64 ltac:(lia)) as Hdm.
  pose proof (Z.mod_pos_bound a 64 ltac:(lia)).
  rewrite H in Hdm. rewrite Hdm in Ha. rewrite Hnone in Ha; [done|lia].
Qed.

Section successor.

Variable tr : veb_tree.t.
Hypothesis Hinv : tree_inv tr.
Variable i : Z.


Lemma position_find (lyr : nat) (h w : Z) (L : layer.t) :
  position tr i lyr h w L →
  ∃ r, layer.find_next L h w = Ret r
     ∧ ((r = -1 ∧ ∀ b, w < b < 64 → lbit L (64 * h + b) = false)
        ∨ (w < r < 64 ∧ lbit L (64 * h + r) = true
           ∧ ∀ b, w < b < r → lbit L (64 * h + b) = false)).
Proof.
  intros (Hlt & HL & Hh & Hw & _).
  pose proof (inv_layer_ok tr Hinv lyr L HL) as Hok.
  pose proof (layer_ok_blocks L Hok).
  destruct (layer_ok_word L h Hok Hh) as [w0 Hw0].
  apply (find_next_spec L h w w0); [lia|done|lia].
Qed.

(* floating up: either no present index lies above [i], or the search
   stops at a position tr i whose word has a set bit above it *)
Lemma successor_up_spec (lyr : nat) : ∀ h w L,
  position tr i lyr h w L →
  (veb_tree.successor_up lyr tr h w = Ret None
   ∧ ∀ s, leaf_bit tr s = true → s <= i)
  ∨ ∃ lyr' h' w' L',
      veb_tree.successor_up lyr tr h w = Ret (Some (lyr', h', w'))
      ∧ position tr i lyr' h' w' L' ∧ bit_above L' h' w'.
Proof.
  induction lyr as [|lyr IH]; intros h w L Hpos;
    destruct (position_find _ _ _ _ Hpos) as (r & Hfind & Hr);
    pose proof Hpos as (Hlt & HL & Hh & Hw & Hsplit);
    rewrite successor_up_eq, (get_layer_Some tr _ _ HL); simpl;
    rewrite Hfind; simpl.
  - destruct Hr as [[-> Hnone]|(Hrange & Hbit & Hmin)].
    + left. simpl. split; [done|]. intros s Hs.
      destruct (Z_le_gt_dec s i); [done|]. exfalso.
      pose proof (anc_member tr Hinv s (depth tr - 1) Hs O L ltac:(lia) HL) as Ha.
      apply Hsplit in Hs as Hs'. replace (depth tr - 1 - 0)%nat with (depth tr - 1)%nat in Hs' by lia.
      assert (g' : 64 * h + w < s / 64 ^ Z.of_nat (depth tr - 1)) by (apply Hs'; lia).
      clear Hs'.
      pose proof (above_word L h w _ ltac:(lia) Hnone Ha g').
      apply lbit_inside in Ha.
      destruct Hinv as (_ & _ & _ & _ & Htop & _). specialize (Htop L HL).
      pose proof (inv_layer_ok tr Hinv _ _ HL) as (_ & _ & Hlen & _).
      assert (s / 64 ^ Z.of_nat (depth tr - 1) / 64 < 1); [|lia].
      apply Z.div_lt_upper_bound; lia.
    + right. destruct (Z.eqb_spec r (-1)); [lia|].
      exists O, h, w, L. split; [done|]. split; [done|]. exists r. done.
  - destruct Hr as [[-> Hnone]|(Hrange & Hbit & Hmin)].
    + simpl. destruct (inv_layer tr Hinv lyr) as (L' & HL' & Hok'); [lia|].
      destruct (inv_summ tr Hinv lyr L' L HL' HL) as [Hu _].
      rewrite float_up_high_eq, float_up_low_eq.
      apply (IH (h / 64) (h mod 64) L').
      pose proof (Z.mod_pos_bound h 64 ltac:(lia)).
      split; [lia|]. split; [done|]. split.
      { destruct Hok' as (_ & Hn & _). rewrite Hn. split; [apply Z.div_pos; lia|].
        assert (h / 64 <= (layer.universe_size L' - 1) / 64); [|lia].
        apply Z.div_le_mono; lia. }
      split; [lia|].
      intros s Hs. replace (depth tr - 1 - lyr)%nat with (S (depth tr - 1 - S lyr)) by lia.
      rewrite anc_step. rewrite <- Z.div_mod by lia.
      pose proof (anc_member tr Hinv s (depth tr - 1 - S lyr) Hs (S lyr) L ltac:(lia) HL) as Ha.
      rewrite (Hsplit s Hs). split.
      * intros Hgt. apply (above_word L h w); try done; lia.
      * intros Hgt.
        pose proof (Z.mul_div_le (s / 64 ^ Z.of_nat (depth tr - 1 - S lyr)) 64 ltac:(lia)).
        lia.
    + right. destruct (Z.eqb_spec r (-1)); [lia|].
      exists (S lyr), h, w, L. split; [done|]. split; [done|]. exists r. done.
Qed.

(* floating down from a position tr i whose word has a set bit above it
   reaches the bottom layer, again at such a position tr i *)
Lemma successor_down_spec (fuel : nat) : ∀ lyr h w L,
  (depth tr - 1 - lyr < fuel)%nat →
  position tr i lyr h w L → bit_above L h w →
  ∃ h' w' Lf,
    veb_tree.successor_down fuel tr lyr h w = Ret (Some ((depth tr - 1)%nat, h', w'))
    ∧ position tr i (depth tr - 1) h' w' Lf ∧ bit_above Lf h' w'.
Proof.
  induction fuel as [|fuel IH]; intros lyr h w L Hfuel Hpos Habove; [lia|].
  pose proof Hpos as (Hlt & HL & Hh & Hw & Hsplit).
  destruct (inv_nl tr Hinv) as [Hnl1 Hnl]. fold (depth tr) in Hnl1, Hnl.
  simpl. destruct (Z.eqb_spec (Z.of_nat lyr) (veb_tree.num_layers tr - 1)) as [E|NE].
  - assert (lyr = (depth tr - 1)%nat) by lia. subst lyr.
    exists h, w, L. done.
  - destruct (position_find _ _ _ _ Hpos) as (r & Hfind & Hr).
    rewrite (get_layer_Some tr _ _ HL). simpl. rewrite Hfind. simpl.
    destruct Hr as [[-> Hnone]|(Hrange & Hbit & Hmin)].
    { destruct Habove as (r & Hr & Hb). rewrite Hnone in Hb; [done|lia]. }
    destruct (Z.eqb_spec r (-1)); [lia|].
    destruct (inv_layer tr Hinv (S lyr)) as (L2 & HL2 & Hok2); [lia|].
    destruct (inv_summ tr Hinv lyr L L2 HL HL2) as [Hu Hsum].
    pose proof (inv_layer_ok tr Hinv _ _ HL) as (HuL & _ & _ & _ & Hbound).
    pose proof (Hbound _ Hbit) as Hlt2.
    rewrite float_down_high_eq by lia.
    apply (IH (S lyr) (64 * h + r) (-1) L2); [lia| |].
    + split; [lia|]. split; [done|]. split; [lia|]. split; [lia|].
      intros s Hs.
      pose proof (anc_member tr Hinv s (depth tr - 1 - lyr) Hs lyr L ltac:(lia) HL) as Ha.
      rewrite (Hsplit s Hs).
      replace (depth tr - 1 - lyr)%nat with (S (depth tr - 1 - S lyr)) in * by lia.
      rewrite anc_step in *.
      set (a' := s / 64 ^ Z.of_nat (depth tr - 1 - S lyr)) in *.
      pose proof (Z.div_mod a' 64 ltac:(lia)) as Hdm.
      pose proof (Z.mod_pos_bound a' 64 ltac:(lia)) as Hmod.
      split.
      * intros Hgt.
        assert (64 * h + r <= a' / 64); [|lia].
        destruct (Z_le_gt_dec (64 * h + r) (a' / 64)); [done|]. exfalso.
        replace (a' / 64) with (64 * h + (a' / 64 - 64 * h)) in Ha by lia.
        rewrite Hmin in Ha; [done|lia].
      * intros Hgt. lia.
    + apply Hsum in Hbit as (b & Hb & Hbit2); [|lia].
      exists b. split; [lia|done].
Qed.

(* CLAIMED: successor correctness *)
Lemma successor_spec :
  0 <= i < veb_tree.total_universe tr →
  ∃ r, veb_tree.successor tr i = Ret r ∧
    ((r = veb_tree.fail ∧ ∀ s, member tr s → s <= i)
     ∨ (member tr r ∧ i + 1 <= r ∧ ∀ s, member tr s → i + 1 <= s → r <= s)).
Proof.
  intros Hi.
  destruct (inv_nl tr Hinv) as [Hnl1 Hnl]. fold (depth tr) in Hnl1, Hnl.
  destruct (inv_leaf tr Hinv) as (leaf & Hleaf & _ & Hu & Hok). fold (depth tr) in Hleaf.
  assert (Hpos : position tr i (depth tr - 1) (i / 64) (i mod 64) leaf).
  { pose proof (Z.mod_pos_bound i 64 ltac:(lia)).
    split; [lia|]. split; [done|]. split.
    - destruct Hok as (_ & Hn & _). rewrite Hn, Hu.
      split; [apply Z.div_pos; lia|].
      assert (i / 64 <= (veb_tree.total_universe tr - 1) / 64); [|lia].
      apply Z.div_le_mono; lia.
    - split; [lia|]. intros s Hs. rewrite Nat.sub_diag. simpl.
      rewrite Z.div_1_r, <- Z.div_mod by lia. done. }
  unfold veb_tree.successor. rewrite (inv_bottom tr Hinv). fold (depth tr). simpl.
  rewrite shiftr6, land63.
  destruct (successor_up_spec (depth tr - 1) _ _ _ Hpos)
    as [[-> Hnone]|(lyr' & h' & w' & L' & -> & Hpos' & Habove')]; simpl.
  { exists veb_tree.fail. split; [done|]. left. split; [done|].
    intros s Hs. apply Hnone. apply (member_leaf_bit tr Hinv). done. }
  destruct (successor_down_spec (Z.to_nat (veb_tree.num_layers tr)) lyr' h' w' L'
              ltac:(lia) Hpos' Habove')
    as (h2 & w2 & Lf & -> & Hpos2 & Habove2); simpl.
  pose proof Hpos2 as (_ & HLf & Hh2 & Hw2 & Hsplit2).
  assert (Lf = leaf) by congruence. subst Lf.
  rewrite (get_layer_Some tr _ _ HLf). simpl.
  destruct (position_find _ _ _ _ Hpos2) as (r & -> & Hr). simpl.
  destruct Hr as [[-> Hnone]|(Hrange & Hbit & Hmin)].
  { destruct Habove2 as (r & Hr & Hb). rewrite Hnone in Hb; [done|lia]. }
  destruct (Z.eqb_spec r (-1)); [lia|].
  destruct Hok as (HuL & _ & _ & _ & Hbound).
  pose proof (Hbound _ Hbit) as Hlt2.
  pose proof (float_down_high_eq h2 r ltac:(lia) ltac:(lia) ltac:(lia)) as Hfd.
  unfold veb_tree.float_down_high in Hfd. rewrite Hfd.
  exists (64 * h2 + r). split; [done|]. right.
  assert (Hsp : ∀ s, leaf_bit tr s = true → (i < s ↔ 64 * h2 + w2 < s)).
  { intros s Hs. rewrite (Hsplit2 s Hs). rewrite Nat.sub_diag. simpl.
    rewrite Z.div_1_r. done. }
  assert (Hres : leaf_bit tr (64 * h2 + r) = true).
  { rewrite (leaf_bit_eq tr leaf _ Hleaf). done. }
  split; [apply (member_leaf_bit tr Hinv); done|]. split.
  - assert (i < 64 * h2 + r); [|lia]. apply (Hsp _ Hres). lia.
  - intros s Hs Hgt. apply (member_leaf_bit tr Hinv) in Hs.
    assert (Hs2 : 64 * h2 + w2 < s) by (apply (Hsp s Hs); lia).
    destruct (Z_le_gt_dec (64 * h2 + r) s); [done|]. exfalso.
    rewrite (leaf_bit_eq tr leaf _ Hleaf) in Hs.
    replace s with (64 * h2 + (s - 64 * h2)) in Hs by lia.
    rewrite Hmin in Hs; [done|lia].
Qed.

End successor.

(** * Insertion *)

Lemma with_bits_id (l : layer.t) : layer.with_bits l (layer.bits l) = l.
Proof. destruct l; done. Qed.

Lemma with_layers_id (tr : veb_tree.t) : veb_tree.with_layers tr (veb_tree.layers tr) = tr.
Proof. destruct tr; done. Qed.

Lemma testbit_set (w k b : Z) :
  0 <= k < 64 → 0 <= b < 64 →
  Z.testbit (Z.lor w (SET_BIT_MASK k)) b = Z.testbit w b || (b =? k).
Proof.
  intros. rewrite Z.lor_spec, testbit_SET_BIT_MASK by lia.
  destruct (Z.ltb_spec b 64); [done|lia].
Qed.

(* setting a bit that is set leaves the word as it is *)
Lemma lor_set_id (w k : Z) :
  0 <= k < 64 → Z.testbit w k = true → Z.lor w (SET_BIT_MASK k) = w.
Proof.
  intros Hk Hb. apply Z.bits_inj'. intros i Hi.
  rewrite Z.lor_spec, testbit_SET_BIT_MASK by lia.
  destruct (Z.eqb_spec i k) as [->|]; [rewrite Hb; done|].
  rewrite andb_false_r, orb_false_r. done.
Qed.

(* layer.insert at position p sets bit p and nothing else *)
Lemma layer_insert_spec (l : layer.t) (p : Z) :
  layer_ok l → 0 <= p < layer.universe_size l →
  ∃ old l', layer.insert l (p / 64) (p mod 64) = Ret (old, l')
    ∧ layer.bits l !! Z.to_nat (p / 64) = Some old
    ∧ Z.testbit old (p mod 64) = lbit l p
    ∧ layer.universe_size l' = layer.universe_size l
    ∧ layer.num_blocks l' = layer.num_blocks l
    ∧ layer_ok l'
    ∧ (∀ j, lbit l' j = lbit l j || (j =? p))
    ∧ (lbit l p = true → l' = l).
Proof.
  intros Hok Hp. pose proof Hok as (Hu & Hn & Hlen & Hw & Hbound).
  pose proof (Z.mod_pos_bound p 64 ltac:(lia)) as Hmod.
  pose proof (Z.div_mod p 64 ltac:(lia)) as Hdm.
  assert (Hh : 0 <= p / 64 < layer.num_blocks l).
  { rewrite Hn. split; [apply Z.div_pos; lia|].
    assert (p / 64 <= (layer.universe_size l - 1) / 64); [|lia].
    apply Z.div_le_mono; lia. }
  destruct (layer_ok_word l _ Hok Hh) as [old Hold].
  pose proof (words_ok_lookup _ _ _ Hw Hold) as Holdr.
  exists old, (layer.with_bits l (<[Z.to_nat (p / 64) := Z.lor old (SET_BIT_MASK (p mod 64))]>
                                   (layer.bits l))).
  unfold layer.insert, layer.atomicOr, layer.load. rewrite Hold. simpl.
  assert (Hbits : ∀ j, lbit (layer.with_bits l
            (<[Z.to_nat (p / 64) := Z.lor old (SET_BIT_MASK (p mod 64))]> (layer.bits l))) j
          = lbit l j || (j =? p)).
  { intros j. rewrite lbit_store by lia.
    destruct (Z.leb_spec 0 j); simpl.
    - destruct (Z.eqb_spec (j / 64) (p / 64)) as [E|NE].
      + pose proof (Z.mod_pos_bound j 64 ltac:(lia)).
        pose proof (Z.div_mod j 64 ltac:(lia)).
        rewrite testbit_set by lia.
        replace (lbit l j) with (Z.testbit old (j mod 64)).
        2:{ unfold lbit. rewrite E, Hold. simpl.
            destruct (Z.leb_spec 0 j); [done|lia]. }
        f_equal. destruct (Z.eqb_spec (j mod 64) (p mod 64)), (Z.eqb_spec j p);
          try done; exfalso; lia.
      + destruct (Z.eqb_spec j p) as [->|]; [done|]. rewrite orb_false_r. done.
    - destruct (Z.eqb_spec j p); [lia|]. rewrite orb_false_r. done. }
  split; [done|]. split; [done|]. split.
  { unfold lbit. rewrite Hold. simpl. destruct (Z.leb_spec 0 p); [done|lia]. }
  split; [done|]. split; [done|]. split.
  { split; [done|]. split; [done|]. split; [simpl; rewrite length_insert; done|].
    split.
    - apply words_ok_store; [done|]. apply lor_range; [done|].
      unfold SET_BIT_MASK. apply shl64_range.
    - intros j Hj. rewrite Hbits in Hj. apply orb_true_iff in Hj as [Hj|Hj].
      + apply Hbound. done.
      + apply Z.eqb_eq in Hj. simpl. lia. }
  split; [done|].
  intros Hset. rewrite lor_set_id; [|lia|].
  - rewrite list_insert_id by done. apply with_bits_id.
  - unfold lbit in Hset. rewrite Hold in Hset. simpl in Hset.
    apply andb_true_iff in Hset as [_ Hset]. done.
Qed.

Lemma set_layer_lookup (tr : veb_tree.t) (lyr i : nat) (l : layer.t) :
  (lyr < length (veb_tree.layers tr))%nat →
  veb_tree.layers (veb_tree.set_layer tr lyr l) !! i
  = if decide (i = lyr) then Some l else veb_tree.layers tr !! i.
Proof.
  intros H. unfold veb_tree.set_layer. simpl. destruct (decide (i = lyr)) as [->|].
  - apply list_lookup_insert_eq. done.
  - apply list_lookup_insert_ne. done.
Qed.

Lemma set_layer_length (tr : veb_tree.t) (lyr : nat) (l : layer.t) :
  length (veb_tree.layers (veb_tree.set_layer tr lyr l)) = length (veb_tree.layers tr).
Proof. unfold veb_tree.set_layer. simpl. apply length_insert. Qed.

Lemma set_layer_same (tr : veb_tree.t) (lyr : nat) (l : layer.t) :
  veb_tree.layers tr !! lyr = Some l → veb_tree.set_layer tr lyr l = tr.
Proof.
  intros H. unfold veb_tree.set_layer. rewrite list_insert_id by done.
  apply with_layers_id.
Qed.

Lemma inv_weaken (tr : veb_tree.t) (lyr : nat) (pos : Z) :
  tree_inv tr → inv_upto tr lyr pos.
Proof.
  intros (H1 & H2 & H3 & H4 & H5 & H6). repeat (split; [done|]).
  split; [|done]. intros i up lo Hu Hl. specialize (H4 i up lo Hu Hl).
  split; [|done]. intros _. destruct H4 as [Hu' Hs]. split; [done|].
  intros j Hj _. apply Hs. done.
Qed.

Lemma inv_close (tr : veb_tree.t) (lyr : nat) (pos : Z) :
  inv_upto tr lyr pos →
  (∀ i up lo, S i = lyr → veb_tree.layers tr !! i = Some up →
     veb_tree.layers tr !! lyr = Some lo →
     (lbit up pos = true ↔ ∃ b, 0 <= b < 64 ∧ lbit lo (64 * pos + b) = true)) →
  tree_inv tr.
Proof.
  intros (H1 & H2 & H3 & H4 & H5 & H6) Hpos. repeat (split; [done|]).
  split; [|done]. intros i up lo Hu Hl. destruct (H4 i up lo Hu Hl) as [Hb Hs].
  destruct (decide (S i = lyr)) as [E|NE]; [|apply Hs; done].
  destruct (Hb E) as [Hu' Hj]. split; [done|]. intros j Hj0.
  destruct (Z.eq_dec j pos) as [->|]; [|apply Hj; done].
  apply (Hpos i up lo E Hu). rewrite <- E. done.
Qed.

(* one insertion on the way up: setting bit [p] of layers[lyr], whose
   group below is not empty, leaves at most the summary bit [p / 64] of
   the layer above stale *)
Lemma insert_step (tr : veb_tree.t) (lyr : nat) (L L' : layer.t) (p : Z) :
  inv_upto tr (S lyr) p →
  veb_tree.layers tr !! lyr = Some L →
  0 <= p < layer.universe_size L →
  layer.universe_size L' = layer.universe_size L →
  layer.num_blocks L' = layer.num_blocks L →
  layer_ok L' →
  (∀ j, lbit L' j = lbit L j || (j =? p)) →
  (∀ lo, veb_tree.layers tr !! S lyr = Some lo →
         ∃ b, 0 <= b < 64 ∧ lbit lo (64 * p + b) = true) →
  inv_upto (veb_tree.set_layer tr lyr L') lyr (p / 64).
Proof.
  intros (H1 & H2 & H3 & H4 & H5 & H6) HL Hp HuL HnL HokL Hbits Hgroup.
  assert (Hlt : (lyr < length (veb_tree.layers tr))%nat) by (apply lookup_lt_Some in HL; done).
  split; [done|]. split; [rewrite set_layer_length; done|]. split.
  { unfold veb_tree.set_layer. simpl. apply Forall_insert; done. }
  split; [|split].
  - intros i up lo. rewrite !set_layer_lookup by done.
    destruct (decide (i = lyr)) as [->|Hi].
    + (* the pair (lyr, lyr + 1): fully summarised now *)
      destruct (decide (S lyr = lyr)); [lia|]. intros [= <-] Hlo.
      split; [lia|]. intros _.
      destruct (H4 lyr L lo HL Hlo) as [Hb _]. destruct (Hb eq_refl) as [Hu Hj].
      split; [lia|]. intros j Hj0. rewrite Hbits.
      destruct (Z.eqb_spec j p) as [->|Hne].
      * rewrite orb_true_r. split; [intros _; apply Hgroup; done|done].
      * rewrite orb_false_r. apply Hj; done.
    + destruct (decide (S i = lyr)) as [E|NE].
      * (* the pair (lyr - 1, lyr): stale at p / 64 at most *)
        intros Hup [= <-]. destruct (H4 i up L Hup ltac:(rewrite E; done)) as [_ Hs].
        destruct (Hs ltac:(lia)) as [Hu Hj].
        split; [|done]. intros _. split; [lia|]. intros j Hj0 Hne.
        rewrite (Hj j Hj0). split; intros (b & Hb & Hbit); exists b; (split; [done|]).
        -- rewrite Hbits, Hbit. done.
        -- rewrite Hbits in Hbit. apply orb_true_iff in Hbit as [|Hbit]; [done|].
           apply Z.eqb_eq in Hbit. exfalso. apply Hne.
           apply (Z.div_unique _ _ _ b); lia.
      * intros Hup Hlo. destruct (H4 i up lo Hup Hlo) as [_ Hs].
        split; [lia|]. intros _. apply Hs. lia.
  - intros top. rewrite set_layer_lookup by done.
    destruct (decide (O = lyr)) as [<-|]; [|apply H5].
    intros [= <-]. rewrite HnL. apply H5. done.
  - intros leaf. unfold bottom_layer. rewrite set_layer_length, set_layer_lookup by done.
    destruct (decide (Nat.pred (length (veb_tree.layers tr)) = lyr)) as [E|]; [|apply H6].
    intros [= <-]. rewrite HuL. apply H6. unfold bottom_layer. rewrite E. done.
Qed.

Lemma insert_force_update_loop_eq (lyr : nat) (tr : veb_tree.t) (high old : Z) :
  veb_tree.insert_force_update_loop lyr tr high old =
  if __popcll old =? 0 then
    match lyr with
    | O => Ret tr
    | S lyr' =>
      '(old, tr1) ← veb_tree.layer_insert tr lyr' (veb_tree.float_up_high high)
                      (veb_tree.float_up_low high);
      veb_tree.insert_force_update_loop lyr' tr1 (veb_tree.float_up_high high) old
    end
  else Ret tr.
Proof. destruct lyr; reflexivity. Qed.

(* layers[lyr]->insert at position p, seen from the tree *)
Lemma tree_layer_insert_spec (tr : veb_tree.t) (lyr : nat) (L : layer.t) (p : Z) :
  veb_tree.layers tr !! lyr = Some L → layer_ok L → 0 <= p < layer.universe_size L →
  ∃ old L', veb_tree.layer_insert tr lyr (p / 64) (p mod 64)
              = Ret (old, veb_tree.set_layer tr lyr L')
    ∧ layer.bits L !! Z.to_nat (p / 64) = Some old
    ∧ Z.testbit old (p mod 64) = lbit L p
    ∧ layer.universe_size L' = layer.universe_size L
    ∧ layer.num_blocks L' = layer.num_blocks L
    ∧ layer_ok L'
    ∧ (∀ j, lbit L' j = lbit L j || (j =? p))
    ∧ (lbit L p = true → L' = L).
Proof.
  intros HL Hok Hp.
  destruct (layer_insert_spec L p Hok Hp) as (old & L' & Hins & Hrest).
  exists old, L'. split; [|done].
  unfold veb_tree.layer_insert, veb_tree.get_layer. rewrite HL. simpl.
  rewrite Hins. done.
Qed.

Lemma word_bit_lbit (L : layer.t) (h w : Z) :
  0 <= h → layer.bits L !! Z.to_nat h = Some w → __popcll w ≠ 0 →
  ∃ b, 0 <= b < 64 ∧ lbit L (64 * h + b) = true.
Proof.
  intros Hh Hw Hpop. destruct (popcll_nonzero w Hpop) as (b & Hb & Hbit).
  exists b. split; [done|]. rewrite (lbit_word L h b w) by first [lia|done]. done.
Qed.

Lemma force_loop_spec (lyr : nat) : ∀ tr high old L,
  inv_upto tr lyr high →
  veb_tree.layers tr !! lyr = Some L →
  0 <= high < layer.num_blocks L →
  (∃ b, 0 <= b < 64 ∧ lbit L (64 * high + b) = true) →
  (__popcll old ≠ 0 → ∀ i up, S i = lyr → veb_tree.layers tr !! i = Some up →
      lbit up high = true) →
  ∃ tr', veb_tree.insert_force_update_loop lyr tr high old = Ret tr'
    ∧ tree_inv tr'
    ∧ length (veb_tree.layers tr') = length (veb_tree.layers tr)
    ∧ ∀ i, (lyr <= i)%nat → veb_tree.layers tr' !! i = veb_tree.layers tr !! i.
Proof.
  induction lyr as [|lyr IH]; intros tr high old L Hinv HL Hh Hgroup Hold;
    rewrite insert_force_update_loop_eq;
    destruct (Z.eqb_spec (__popcll old) 0) as [E0|N0].
  - exists tr. split; [done|]. split; [|done].
    apply (inv_close tr O high Hinv). intros i up lo Hi. lia.
  - exists tr. split; [done|]. split; [|done].
    apply (inv_close tr O high Hinv). intros i up lo Hi. lia.
  - pose proof Hinv as (H1 & H2 & H3 & H4 & H5 & H6).
    assert (Hlt : (lyr < length (veb_tree.layers tr))%nat).
    { apply lookup_lt_Some in HL. lia. }
    destruct (lookup_lt_is_Some_2 _ _ Hlt) as [up Hup].
    pose proof (Forall_lookup_1 _ _ _ _ H3 Hup) as Hokup.
    destruct (H4 lyr up L Hup HL) as [Hb _]. destruct (Hb eq_refl) as [Hu _].
    rewrite float_up_high_eq, float_up_low_eq.
    destruct (tree_layer_insert_spec tr lyr up high Hup Hokup ltac:(lia))
      as (old' & up' & -> & Hw' & Hbit' & Hu' & Hn' & Hok' & Hbits' & _).
    simpl.
    assert (Hinv1 : inv_upto (veb_tree.set_layer tr lyr up') lyr (high / 64)).
    { apply (insert_step tr lyr up up' high); try done; [lia|].
      intros lo Hlo. assert (lo = L) by congruence. subst lo. done. }
    pose proof (Z.mod_pos_bound high 64 ltac:(lia)) as Hmod.
    pose proof (Z.div_mod high 64 ltac:(lia)) as Hdm.
    destruct (IH (veb_tree.set_layer tr lyr up') (high / 64) old' up' Hinv1)
      as (tr' & Hloop & Hinv' & Hlen' & Hsame').
    + rewrite set_layer_lookup by done. destruct (decide (lyr = lyr)); done.
    + destruct Hokup as (_ & Hn & _). rewrite Hn'. rewrite Hn.
      split; [apply Z.div_pos; lia|].
      assert (high / 64 <= (layer.universe_size up - 1) / 64); [|lia].
      apply Z.div_le_mono; lia.
    + exists (high mod 64). split; [done|]. rewrite <- Hdm, Hbits', Z.eqb_refl.
      apply orb_true_r.
    + intros Hpop i up2 Hi. rewrite set_layer_lookup by done.
      destruct (decide (i = lyr)); [lia|]. intros Hup2.
      destruct (H4 i up2 up Hup2 ltac:(rewrite Hi; done)) as [_ Hs].
      destruct (Hs ltac:(lia)) as [_ Hj].
      apply Hj; [apply Z.div_pos; lia|].
      apply (word_bit_lbit up (high / 64) old'); try done. apply Z.div_pos; lia.
    + exists tr'. split; [done|]. split; [done|]. split.
      * rewrite Hlen', set_layer_length. done.
      * intros i Hi. rewrite Hsame' by lia. rewrite set_layer_lookup by done.
        destruct (decide (i = lyr)); [lia|done].
  - exists tr. split; [done|]. split; [|done].
    apply (inv_close tr (S lyr) high Hinv). intros i up lo Hi Hup Hlo.
    assert (lo = L) by congruence. subst lo.
    split; [intros _; done|]. intros _. apply (Hold N0 i up Hi Hup).
Qed.

(* insert_force_update on a well-formed tree: the bit is set, the
   invariant is restored, the result tells whether the bit was new *)
Lemma insert_force_update_spec (tr : veb_tree.t) (index : Z) :
  tree_inv tr → 0 <= index < veb_tree.total_universe tr →
  ∃ tr', veb_tree.insert_force_update tr index = Ret (negb (leaf_bit tr index), tr')
    ∧ tree_inv tr'
    ∧ ∀ s, leaf_bit tr' s = leaf_bit tr s || (s =? index).
Proof.
  intros Hinv Hidx.
  destruct (inv_leaf tr Hinv) as (leaf & Hleaf & Hbl & Hu & Hok).
  destruct (inv_nl tr Hinv) as [Hnl1 Hnl].
  unfold veb_tree.insert_force_update. rewrite (inv_bottom tr Hinv).
  unfold depth in *. set (nl := length (veb_tree.layers tr)) in *. simpl.
  rewrite shiftr6, land63.
  destruct (tree_layer_insert_spec tr (nl - 1) leaf index Hleaf Hok ltac:(lia))
    as (old & leaf' & -> & Hw & Hbit & Hu' & Hn' & Hok' & Hbits & Hsame).
  simpl.
  pose proof (Z.mod_pos_bound index 64 ltac:(lia)) as Hmod.
  pose proof (Z.div_mod index 64 ltac:(lia)) as Hdm.
  rewrite land_SET_BIT_MASK by lia. rewrite negb_involutive, Hbit.
  rewrite (leaf_bit_eq tr leaf index Hleaf).
  destruct (lbit leaf index) eqn:Eset; simpl.
  - rewrite (Hsame eq_refl). rewrite (set_layer_same tr _ _ Hleaf).
    exists tr. split; [done|]. split; [done|]. intros s.
    rewrite (leaf_bit_eq tr leaf s Hleaf).
    destruct (Z.eqb_spec s index) as [->|]; [rewrite Eset; done|].
    rewrite orb_false_r. done.
  - assert (Hlt : (nl - 1 < length (veb_tree.layers tr))%nat) by (unfold nl in *; lia).
    assert (Hinv1 : inv_upto (veb_tree.set_layer tr (nl - 1) leaf') (nl - 1) (index / 64)).
    { apply (insert_step tr (nl - 1) leaf leaf' index); try done.
      - apply inv_weaken. done.
      - lia.
      - intros lo Hlo. apply lookup_lt_Some in Hlo. unfold nl in *. lia. }
    destruct (force_loop_spec (nl - 1) (veb_tree.set_layer tr (nl - 1) leaf')
                (index / 64) old leaf' Hinv1)
      as (tr' & -> & Hinv' & Hlen' & Hsame').
    + rewrite set_layer_lookup by done. destruct (decide (nl - 1 = nl - 1)%nat); done.
    + destruct Hok as (_ & Hn & _). rewrite Hn', Hn, Hu.
      split; [apply Z.div_pos; lia|].
      assert (index / 64 <= (veb_tree.total_universe tr - 1) / 64); [|lia].
      apply Z.div_le_mono; lia.
    + exists (index mod 64). split; [done|]. rewrite <- Hdm, Hbits, Z.eqb_refl.
      apply orb_true_r.
    + intros Hpop i up Hi. rewrite set_layer_lookup by done.
      destruct (decide (i = (nl - 1)%nat)); [lia|]. intros Hup.
      destruct (inv_summ tr Hinv i up leaf Hup ltac:(rewrite Hi; done)) as [_ Hj].
      apply Hj; [apply Z.div_pos; lia|].
      apply (word_bit_lbit leaf (index / 64) old); try done. apply Z.div_pos; lia.
    + simpl. exists tr'. split; [done|]. split; [done|]. intros s.
      rewrite (leaf_bit_eq tr leaf s Hleaf).
      unfold leaf_bit, bottom_layer. rewrite Hlen', set_layer_length.
      fold nl. replace (Nat.pred nl) with (nl - 1)%nat by lia.
      rewrite Hsame' by lia. rewrite set_layer_lookup by done.
      destruct (decide (nl - 1 = nl - 1)%nat); [|done]. apply Hbits.
Qed.

(** * Checking the invariant of a concrete tree *)

Lemma forallb_seqZ (f : Z → bool) (a n j : Z) :
  forallb f (seqZ a n) = true → a <= j < a + n → f j = true.
Proof.
  intros H Hj. rewrite forallb_forall in H. apply H.
  apply (proj1 (list_elem_of_In _ _)). apply elem_of_seqZ. lia.
Qed.

Lemma layer_ok_b_sound (l : layer.t) : layer_ok_b l = true → layer_ok l.
Proof.
  unfold layer_ok_b. intros H.
  repeat (apply andb_true_iff in H as [H ?]).
  apply Z.leb_le in H. apply Z.ltb_lt in H4. apply Z.eqb_eq in H3, H2.
  split; [lia|]. split; [done|]. split; [done|]. split.
  - unfold words_ok. apply Forall_forall. intros w Hw.
    rewrite forallb_forall in H1.
    specialize (H1 w Hw). apply andb_true_iff in H1 as [Ha Hb].
    apply Z.leb_le in Ha. apply Z.ltb_lt in Hb. lia.
  - intros j Hj. pose proof (lbit_inside _ _ Hj) as Hin.
    destruct (Z_lt_ge_dec j (layer.universe_size l)); [done|]. exfalso.
    pose proof (forallb_seqZ _ _ _ j H0 ltac:(lia)) as Hf.
    cbv beta in Hf. rewrite Hj in Hf. done.
Qed.

Lemma summarises_b_sound (up lo : layer.t) : summarises_b up lo = true → summarises up lo.
Proof.
  unfold summarises_b. intros H. apply andb_true_iff in H as [Hu Hall].
  apply Z.eqb_eq in Hu. split; [done|]. intros j Hj.
  set (m := Z.max (64 * Z.of_nat (length (layer.bits up))) (Z.of_nat (length (layer.bits lo)))) in *.
  destruct (Z_lt_ge_dec j m) as [Hlt|Hge].
  - pose proof (forallb_seqZ _ _ _ j Hall ltac:(lia)) as Hf. cbv beta in Hf.
    apply Bool.eqb_prop in Hf. rewrite Hf. rewrite existsb_exists. split.
    + intros (b & Hb & Hbit). apply (proj2 (list_elem_of_In _ _)), elem_of_seqZ in Hb.
      exists b. split; [lia|done].
    + intros (b & Hb & Hbit). exists b. split; [|done].
      apply (proj1 (list_elem_of_In _ _)), elem_of_seqZ. lia.
  - split.
    + intros Hbit. apply lbit_inside in Hbit. lia.
    + intros (b & Hb & Hbit). apply lbit_inside in Hbit. lia.
Qed.

Lemma adjacent_b_sound (ls : list layer.t) :
  adjacent_b ls = true →
  ∀ i up lo, ls !! i = Some up → ls !! S i = Some lo → summarises up lo.
Proof.
  induction ls as [|x rest IH]; intros H i up lo Hup Hlo; [done|].
  simpl in H. destruct rest as [|y rest']; [done|].
  apply andb_true_iff in H as [Hs Hrest].
  destruct i as [|i].
  - simpl in Hup, Hlo. simplify_eq. apply summarises_b_sound. done.
  - apply (IH Hrest i up lo); done.
Qed.

Lemma tree_inv_b_sound (tr : veb_tree.t) : tree_inv_b tr = true → tree_inv tr.
Proof.
  unfold tree_inv_b. intros H.
  repeat (apply andb_true_iff in H as [H ?]).
  apply Z.leb_le in H. apply Z.eqb_eq in H4.
  split; [done|]. split; [done|]. split.
  { apply Forall_forall. intros l Hl. apply layer_ok_b_sound.
    rewrite forallb_forall in H3. apply H3. done. }
  split; [apply adjacent_b_sound; done|]. split.
  - intros top Htop. destruct (veb_tree.layers tr); [done|].
    simpl in Htop. simplify_eq. apply Z.eqb_eq. done.
  - intros leaf Hleaf. rewrite Hleaf in H0. apply Z.eqb_eq. done.
Qed.

(** * Runs of bits *)

Lemma in_run_true (a n j : Z) : in_run a n j = true ↔ a <= j < a + n.
Proof.
  unfold in_run. rewrite andb_true_iff, Z.leb_le, Z.ltb_lt. done.
Qed.

Lemma in_run_false (a n j : Z) : in_run a n j = false ↔ ¬ (a <= j < a + n).
Proof. rewrite <- in_run_true. destruct (in_run a n j); split; congruence. Qed.

(* decide every [in_run] in the goal and the context by arithmetic *)
Ltac run_cases :=
  repeat match goal with
  | |- context [in_run ?a ?n ?j] =>
    let E := fresh "E" in
    destruct (in_run a n j) eqn:E;
    [apply in_run_true in E | apply in_run_false in E]
  | H : context [in_run ?a ?n ?j] |- _ =>
    let E := fresh "E" in
    destruct (in_run a n j) eqn:E;
    [apply in_run_true in E | apply in_run_false in E]
  end.

Lemma in_run_app (a m m' j : Z) :
  0 <= m → 0 <= m' → in_run a m j || in_run (a + m) m' j = in_run a (m + m') j.
Proof. intros. run_cases; simpl; try done; exfalso; lia. Qed.

Lemma testbit_run_mask (n k b : Z) :
  0 <= n <= 64 → 0 <= k → k + n <= 64 → 0 <= b < 64 →
  Z.testbit (shl64 (BITMASK n) k) b = in_run k n b.
Proof.
  intros Hn Hk Hkn Hb. rewrite testbit_shl64 by lia.
  destruct (Z.ltb_spec b 64); [|lia]. simpl.
  destruct (Z_lt_ge_dec (b - k) 0).
  - rewrite Z.testbit_neg_r by lia. run_cases; [exfalso; lia|done].
  - rewrite testbit_BITMASK by lia.
    destruct (Z.ltb_spec (b - k) n); run_cases; try done; exfalso; lia.
Qed.

Lemma testbit_low_mask (n b : Z) :
  0 <= n <= 64 → 0 <= b < 64 → Z.testbit (BITMASK n) b = in_run 0 n b.
Proof.
  intros. rewrite testbit_BITMASK by lia.
  destruct (Z.ltb_spec b n); run_cases; try done; exfalso; lia.
Qed.

Lemma same_shape_refl (l : layer.t) : same_shape l l.
Proof. done. Qed.

Lemma same_shape_trans (l1 l2 l3 : layer.t) :
  same_shape l1 l2 → same_shape l2 l3 → same_shape l1 l3.
Proof. intros (a & b & c) (d & e & f). repeat split; congruence. Qed.

Lemma same_shape_store (l : layer.t) (i : nat) (w : Z) :
  same_shape l (layer.with_bits l (<[i := w]> (layer.bits l))).
Proof. repeat split. simpl. apply length_insert. Qed.

(* a position in word h *)
Lemma word_pos (h j : Z) : 0 <= j → j / 64 = h → j = 64 * h + j mod 64 ∧ 0 <= j mod 64 < 64.
Proof.
  intros Hj <-. split; [apply Z.div_mod; lia|apply Z.mod_pos_bound; lia].
Qed.

(* atomicOr with a mask that is a run inside the word *)
Lemma atomicOr_run (l l' : layer.t) (h mask old k m : Z) :
  words_ok l → 0 <= h → 0 <= mask < 2 ^ 64 → 0 <= k → 0 <= m → k + m <= 64 →
  (∀ b, 0 <= b < 64 → Z.testbit mask b = in_run k m b) →
  layer.atomicOr l h mask = Ret (old, l') →
  layer.bits l !! Z.to_nat h = Some old ∧ sets l l' (64 * h + k) m.
Proof.
  intros Hw Hh Hmask Hk Hm Hkm Hbits Hor.
  apply atomicOr_Ret in Hor as [Hold ->]. split; [done|].
  pose proof (words_ok_lookup _ _ _ Hw Hold) as Hr.
  assert (Hlt : (Z.to_nat h < length (layer.bits l))%nat) by (apply lookup_lt_Some in Hold; done).
  split; [apply same_shape_store|]. split.
  { apply words_ok_store; [done|]. apply lor_range; done. }
  intros j. rewrite lbit_store by done.
  destruct (Z.leb_spec 0 j); simpl.
  - destruct (Z.eqb_spec (j / 64) h) as [E|NE].
    + destruct (word_pos h j ltac:(lia) E) as [Hj Hmod].
      rewrite Z.lor_spec, Hbits by lia.
      replace (lbit l j) with (Z.testbit old (j mod 64)).
      2:{ rewrite Hj at 2. rewrite (lbit_word l h _ old) by first [lia|done]. done. }
      f_equal. run_cases; try done; exfalso; lia.
    + run_cases; [|rewrite orb_false_r; done]. exfalso. apply NE.
      symmetry. apply (Z.div_unique _ _ _ (j - 64 * h)); lia.
  - rewrite lbit_neg by lia. run_cases; [exfalso; lia|done].
Qed.

(* atomicAnd with the complement of such a mask *)
Lemma atomicAnd_run (l l' : layer.t) (h mask old k m : Z) :
  words_ok l → 0 <= h → 0 <= k → 0 <= m → k + m <= 64 →
  (∀ b, 0 <= b < 64 → Z.testbit mask b = in_run k m b) →
  layer.atomicAnd l h (not64 mask) = Ret (old, l') →
  layer.bits l !! Z.to_nat h = Some old ∧ clears l l' (64 * h + k) m.
Proof.
  intros Hw Hh Hk Hm Hkm Hbits Hand.
  apply atomicAnd_Ret in Hand as [Hold ->]. split; [done|].
  pose proof (words_ok_lookup _ _ _ Hw Hold) as Hr.
  assert (Hlt : (Z.to_nat h < length (layer.bits l))%nat) by (apply lookup_lt_Some in Hold; done).
  split; [apply same_shape_store|]. split.
  { apply words_ok_store; [done|]. apply land_range; done. }
  intros j. rewrite lbit_store by done.
  destruct (Z.leb_spec 0 j); simpl.
  - destruct (Z.eqb_spec (j / 64) h) as [E|NE].
    + destruct (word_pos h j ltac:(lia) E) as [Hj Hmod].
      rewrite Z.land_spec, testbit_not64, Hbits by lia.
      destruct (Z.ltb_spec (j mod 64) 64); [|lia]. simpl.
      replace (lbit l j) with (Z.testbit old (j mod 64)).
      2:{ rewrite Hj at 2. rewrite (lbit_word l h _ old) by first [lia|done]. done. }
      f_equal. run_cases; try done; exfalso; lia.
    + run_cases; [|rewrite andb_true_r; done]. exfalso. apply NE.
      symmetry. apply (Z.div_unique _ _ _ (j - 64 * h)); lia.
  - rewrite lbit_neg by lia. done.
Qed.

Lemma sets_trans (l1 l2 l3 : layer.t) (a m m' : Z) :
  0 <= m → 0 <= m' → sets l1 l2 a m → sets l2 l3 (a + m) m' → sets l1 l3 a (m + m').
Proof.
  intros Hm Hm' (S1 & W1 & B1) (S2 & W2 & B2).
  split; [apply (same_shape_trans _ _ _ S1 S2)|]. split; [done|].
  intros j. rewrite B2, B1, <- orb_assoc, in_run_app by lia. done.
Qed.

(* clearing below an already cleared run extends the run downwards *)
Lemma clears_extend (l1 l2 l3 : layer.t) (a m m' : Z) :
  0 <= m → 0 <= m' → clears l1 l2 (a + m') m → clears l2 l3 a m' →
  clears l1 l3 a (m' + m).
Proof.
  intros Hm Hm' (S1 & W1 & B1) (S2 & W2 & B2).
  split; [apply (same_shape_trans _ _ _ S1 S2)|]. split; [done|].
  intros j. rewrite B2, B1, <- andb_assoc, <- negb_orb.
  f_equal. f_equal. rewrite orb_comm. apply in_run_app; lia.
Qed.

(* setting again a run that was cleared from set bits gives the layer back *)
Lemma sets_clears_id (l l1 l2 : layer.t) (a n : Z) :
  words_ok l → clears l l1 a n → sets l1 l2 a n →
  (∀ j, in_run a n j = true → lbit l j = true) → l2 = l.
Proof.
  intros Hw (S1 & W1 & B1) (S2 & W2 & B2) Hset.
  destruct (same_shape_trans _ _ _ S1 S2) as (Hu & Hn & Hlen).
  apply layer_ext; try done. intros j _. rewrite B2, B1.
  destruct (in_run a n j) eqn:E; simpl.
  - rewrite (Hset j E). done.
  - rewrite andb_true_r, orb_false_r. done.
Qed.

(** * Gathering and returning a run in one layer *)

(* a word all of whose set bits lie in a run of m bits has at most m set
   bits, and exactly m only if the whole run is set *)
Lemma popc_from_run (x k m : Z) (n : nat) : ∀ i,
  0 <= m →
  (∀ b, i <= b < i + Z.of_nat n → Z.testbit x b = true → in_run k m b = true) →
  popc_from n i x <= Z.max 0 (Z.min (i + Z.of_nat n) (k + m) - Z.max i k)
  ∧ (popc_from n i x = Z.max 0 (Z.min (i + Z.of_nat n) (k + m) - Z.max i k) →
     ∀ b, i <= b < i + Z.of_nat n → in_run k m b = true → Z.testbit x b = true).
Proof.
  induction n as [|n IH]; intros i Hm Hsub; simpl popc_from.
  - split; [lia|]. intros _ b Hb. lia.
  - destruct (IH (i + 1) Hm) as [Hle Heq].
    { intros b Hb. apply Hsub. lia. }
    destruct (Z.testbit x i) eqn:E.
    + pose proof (Hsub i ltac:(lia) E) as Hin. apply in_run_true in Hin.
      split; [lia|]. intros Hpop b Hb Hrun.
      destruct (Z.eq_dec b i) as [->|]; [done|].
      apply Heq; [lia|lia|done].
    + split; [lia|]. intros Hpop b Hb Hrun. apply in_run_true in Hrun.
      destruct (Z.eq_dec b i) as [->|]; [exfalso; lia|].
      apply Heq; [lia|lia|apply in_run_true; lia].
Qed.

Lemma popcll_run (w mask k m : Z) :
  0 <= k → 0 <= m → k + m <= 64 →
  (∀ b, 0 <= b < 64 → Z.testbit mask b = in_run k m b) →
  __popcll (Z.land w mask) = m →
  ∀ b, in_run k m b = true → Z.testbit w b = true.
Proof.
  intros Hk Hm Hkm Hmask Hpop b Hrun.
  destruct (popc_from_run (Z.land w mask) k m 64 0 Hm) as [_ Heq].
  { intros c Hc Hbit. rewrite Z.land_spec in Hbit. apply andb_true_iff in Hbit as [_ Hbit].
    rewrite Hmask in Hbit by lia. done. }
  apply in_run_true in Hrun as Hr.
  specialize (Heq ltac:(unfold __popcll in Hpop; lia) b ltac:(lia) Hrun).
  rewrite Z.land_spec in Heq. apply andb_true_iff in Heq as [Heq _]. done.
Qed.

Lemma rollback_spec (fuel : nat) : ∀ l start n l',
  storage_ok l → 0 <= start → 0 <= n →
  layer.rollback fuel l start n = Ret l' →
  sets l l' (64 * start) n.
Proof.
  induction fuel as [|fuel IH]; intros l start n l' [Hw Hsz] Hs Hn Hrb; [done|].
  simpl in Hrb. destruct (Z.ltb_spec 64 n).
  - apply res_bind_Ret in Hrb as ([old l1] & Hor & Hrb).
    apply (atomicOr_run l l1 start _ old 0 64) in Hor as [Hold Hsets]; try done; try lia.
    2:{ intros b Hb. apply testbit_low_mask; lia. }
    apply lookup_lt_Some in Hold.
    rewrite wrap64_small in Hrb by lia.
    destruct Hsets as (Hsh & Hw1 & Hb1).
    apply IH in Hrb; [|split; [done|destruct Hsh as (_ & _ & ->); done]|lia|lia].
    replace n with (64 + (n - 64)) at 1 by lia.
    replace (64 * start) with (64 * start + 0) by lia.
    apply (sets_trans l l1 l'); [lia|lia|done|].
    replace (64 * start + 0 + 64) with (64 * (start + 1)) by lia. done.
  - apply res_bind_Ret in Hrb as ([old l1] & Hor & Hrb). simplify_eq.
    apply (atomicOr_run l l' start _ old 0 n) in Hor as [Hold Hsets]; try done; try lia.
    + replace (64 * start) with (64 * start + 0) by lia. done.
    + apply BITMASK_range. lia.
    + intros b Hb. apply testbit_low_mask; lia.
Qed.

Lemma return_loop_spec (fuel : nat) : ∀ l bi bs n l',
  storage_ok l → 0 <= bi → 0 <= bs < 64 → 0 <= n <= 2 ^ 64 - 64 →
  layer.return_loop fuel l bi bs n = Ret l' →
  sets l l' (64 * bi + bs) n.
Proof.
  induction fuel as [|fuel IH]; intros l bi bs n l' [Hw Hsz] Hbi Hbs Hn Hret; [done|].
  simpl in Hret. rewrite (wrap64_small (n + bs)) in Hret by lia.
  destruct (Z.ltb_spec 64 (n + bs)).
  - apply res_bind_Ret in Hret as ([old l1] & Hor & Hret).
    apply (atomicOr_run l l1 bi _ old bs (64 - bs)) in Hor as [Hold Hsets];
      try done; try lia.
    2:{ apply shl64_range. }
    2:{ intros b Hb. apply testbit_run_mask; lia. }
    apply lookup_lt_Some in Hold.
    rewrite (wrap64_small (bi + 1)), (wrap64_small (n - (64 - bs))) in Hret by lia.
    destruct Hsets as (Hsh & Hw1 & Hb1).
    apply IH in Hret; [|split; [done|destruct Hsh as (_ & _ & ->); done]|lia|lia|lia].
    replace n with ((64 - bs) + (n - (64 - bs))) at 1 by lia.
    apply (sets_trans l l1 l'); [lia|lia|done|].
    replace (64 * bi + bs + (64 - bs)) with (64 * (bi + 1) + 0) by lia. done.
  - apply res_bind_Ret in Hret as ([old l1] & Hor & Hret). simplify_eq.
    apply (atomicOr_run l l' bi _ old bs n) in Hor as [Hold Hsets]; try done; try lia.
    + apply shl64_range.
    + intros b Hb. apply testbit_run_mask; lia.
Qed.

Lemma not64_full : not64 (BITMASK 64) = 0.
Proof. reflexivity. Qed.

(* undoing an atomicAnd by an atomicOr that puts the old word back *)
Lemma and_or_restore (l l1 l2 : layer.t) (h v u old x : Z) :
  layer.atomicAnd l h v = Ret (old, l1) →
  layer.atomicOr l1 h u = Ret (x, l2) →
  Z.lor (Z.land old v) u = old → l2 = l.
Proof.
  intros Hand Hor Heq.
  apply atomicAnd_Ret in Hand as [Hold ->].
  apply atomicOr_Ret in Hor as [Hx ->]. simpl in *.
  assert ((Z.to_nat h < length (layer.bits l))%nat) by (apply lookup_lt_Some in Hold; done).
  rewrite list_lookup_insert_eq in Hx by done. simplify_eq.
  unfold layer.with_bits. simpl. rewrite list_insert_insert_eq, Heq.
  rewrite list_insert_id by done. destruct l; done.
Qed.

Lemma restore_masked (w m : Z) :
  0 <= w < 2 ^ 64 → Z.lor (Z.land w (not64 m)) (Z.land m w) = w.
Proof.
  intros Hw. apply word_eq; [|done|].
  - apply lor_range; [apply land_range; done|].
    rewrite Z.land_comm. apply land_range. done.
  - intros i Hi. rewrite Z.lor_spec, !Z.land_spec, testbit_not64 by lia.
    destruct (Z.ltb_spec i 64); [|lia].
    destruct (Z.testbit w i), (Z.testbit m i); done.
Qed.

Lemma restore_masked' (w m : Z) :
  0 <= w < 2 ^ 64 → Z.lor (Z.land w (not64 m)) (Z.land w m) = w.
Proof. intros. rewrite (Z.land_comm w m). apply restore_masked. done. Qed.

(* a load far outside the layer faults *)
Lemma atomicAnd_in_range (l l1 : layer.t) (h v old : Z) :
  storage_ok l → 0 <= h → layer.atomicAnd l h v = Ret (old, l1) →
  h < Z.of_nat (length (layer.bits l)).
Proof.
  intros _ Hh Hand. apply atomicAnd_Ret in Hand as [Hold _].
  apply lookup_lt_Some in Hold. lia.
Qed.

Lemma wrap64_pred (l l1 : layer.t) (sb v old : Z) :
  storage_ok l → 0 <= sb < 2 ^ 58 →
  layer.atomicAnd l (wrap64 (sb - 1)) v = Ret (old, l1) →
  1 <= sb ∧ wrap64 (sb - 1) = sb - 1.
Proof.
  intros [Hw Hsz] Hsb Hand.
  destruct (Z.eq_dec sb 0) as [->|]; [|split; [lia|apply wrap64_small; lia]].
  exfalso. apply atomicAnd_Ret in Hand as [Hold _].
  apply lookup_lt_Some in Hold. change (wrap64 (0 - 1)) with (2 ^ 64 - 1) in Hold. lia.
Qed.

Lemma storage_ok_shape (l l' : layer.t) :
  storage_ok l → same_shape l l' → words_ok l' → storage_ok l'.
Proof. intros [_ Hsz] (_ & _ & Hlen) Hw. split; [done|]. rewrite Hlen. done. Qed.

Section gather.

Variable l : layer.t.
Variable nn : Z.
Hypothesis Hst : storage_ok l.
Hypothesis Hnn : 0 <= nn < 2 ^ 64.

Lemma acquired_storage (lc : layer.t) (sbc ncc : Z) :
  acquired l lc nn sbc ncc → storage_ok lc ∧ sbc < 2 ^ 58
  ∧ length (layer.bits lc) = length (layer.bits l).
Proof.
  intros ((Hsh & Hw & _) & _ & Hsb & Hfit & Hnc).
  split; [apply (storage_ok_shape l); done|].
  destruct Hst as [_ Hsz]. destruct Hsh as (_ & _ & Hlen). split; [lia|done].
Qed.

Lemma gather_whole_blocks_spec (fuel : nat) : ∀ lc sbc ncc l2 sb2 nc2 ok,
  acquired l lc nn sbc ncc →
  layer.gather_whole_blocks fuel lc nn sbc ncc = Ret (l2, sb2, nc2, ok) →
  if ok then acquired l l2 nn sb2 nc2 ∧ nc2 <= 64 else l2 = l ∧ 0 <= sb2.
Proof.
  induction fuel as [|fuel IH]; intros lc sbc ncc l2 sb2 nc2 ok Hacq Hg; [done|].
  simpl in Hg. destruct (Z.ltb_spec 64 ncc) as [Hbig|Hsmall].
  2:{ injection Hg as E1 E2 E3 E4. subst l2 sb2 nc2 ok. split; [done|lia]. }
  destruct (acquired_storage _ _ _ Hacq) as (Hstc & Hsbc & Hlenc).
  pose proof Hacq as (Hcl & Hset & Hsb0 & Hfit & Hnc).
  apply res_bind_Ret in Hg as ([acq l1] & Hand & Hg).
  destruct (wrap64_pred lc l1 sbc _ _ Hstc ltac:(lia) Hand) as [Hsb1 Hwr].
  rewrite Hwr in *. rewrite <- not64_full in Hand.
  pose proof Hand as Hand'.
  apply (atomicAnd_run lc l1 (sbc - 1) _ acq 0 64) in Hand as [Hacqw Hcl1];
    [|apply Hstc|lia|lia|lia|lia|intros b Hb; apply testbit_low_mask; lia].
  simpl in Hg. destruct (Z.eqb_spec (__popcll acq) 64) as [Efull|Nfull]; simpl in Hg.
  - (* the whole word was free: keep going *)
    apply (IH l1 (sbc - 1) (ncc - 64)) in Hg; [done|].
    replace (64 * (sbc - 1) + 0) with (64 * (sbc - 1)) in Hcl1 by lia.
    split; [|split; [|split; [lia|split; [lia|lia]]]].
    + replace (nn - (ncc - 64)) with (64 + (nn - ncc)) by lia.
      apply (clears_extend l lc l1); [lia|lia| |done].
      replace (64 * (sbc - 1) + 64) with (64 * sbc) by lia. done.
    + intros j Hj. apply in_run_true in Hj.
      destruct (Z_lt_ge_dec j (64 * sbc)) as [Hlo|Hhi].
      * destruct Hcl as (_ & _ & Hb). specialize (Hb j).
        assert (in_run (64 * sbc) (nn - ncc) j = false) by (apply in_run_false; lia).
        rewrite H, andb_true_r in Hb. rewrite <- Hb.
        replace j with (64 * (sbc - 1) + (j - 64 * (sbc - 1))) by lia.
        rewrite (lbit_word lc (sbc - 1) _ acq) by first [lia|done].
        apply (proj1 (popcll_full acq) Efull). lia.
      * apply Hset. apply in_run_true. lia.
  - (* undo and rollback *)
    apply res_bind_Ret in Hg as ([x l2'] & Hor & Hg).
    apply res_bind_Ret in Hg as (l3 & Hrb & Hg).
    injection Hg as E1 E2 E3 E4. subst l2 sb2 nc2 ok.
    assert (l2' = lc).
    { apply (and_or_restore _ _ _ _ _ _ _ _ Hand' Hor).
      rewrite Z.land_0_r. apply Z.lor_0_l. }
    subst l2'. rewrite (wrap64_small (sbc - 1 + 1)), (wrap64_small (nn - ncc)) in Hrb by lia.
    replace (sbc - 1 + 1) with sbc in Hrb by lia.
    apply rollback_spec in Hrb; [|done|lia|lia].
    split; [|lia]. apply (sets_clears_id l lc l3 (64 * sbc) (nn - ncc)); try done.
    apply Hst.
Qed.

Lemma gather_loop_spec (fuel : nat) : ∀ sb nc r l',
  0 <= sb →
  layer.gather_loop fuel l nn sb nc = Ret (r, l') →
  r ≠ 0xffffffffffffffff →
  granted l l' r nn.
Proof.
  destruct Hst as [Hw Hsz].
  induction fuel as [|fuel IH]; intros sb nc r l' Hsb Hg Hr; [done|].
  simpl in Hg. destruct (Z.eqb_spec sb 0) as [E0|N0].
  { apply res_bind_Ret in Hg as (l1 & _ & Hg). simplify_eq. }
  apply res_bind_Ret in Hg as (w & Hload & Hg).
  apply load_Ret in Hload. pose proof (lookup_lt_Some _ _ _ Hload) as Hlt.
  pose proof (words_ok_lookup _ _ _ Hw Hload) as Hwr.
  destruct (cfcll_spec w) as (Hc & Hones & Hzero).
  set (c := __cfcll w) in *.
  destruct (Z.eqb_spec c 0) as [Ec|Nc].
  { apply (IH (sb - 1) nn r l'); [lia|done|done]. }
  destruct (Z.leb_spec nn c) as [Hfit|Hmore].
  - (* the run fits in this word *)
    apply res_bind_Ret in Hg as ([acq l1] & Hand & Hg).
    pose proof Hand as Hand'.
    apply (atomicAnd_run l l1 sb _ acq (c - nn) nn) in Hand as [Hacq Hcl];
      [|done|lia|lia|lia|lia|intros b Hb; apply testbit_run_mask; lia].
    assert (acq = w) by congruence. subst acq.
    simpl in Hg.
    destruct (Z.eqb_spec (__popcll (Z.land w (shl64 (BITMASK nn) (c - nn)))) nn).
    + injection Hg as <- <-. rewrite wrap64_small by lia.
      replace (sb * 64 + (c - nn)) with (64 * sb + (c - nn)) by lia.
      split; [done|]. split; [lia|]. split; [lia|].
      intros j Hj. apply in_run_true in Hj.
      replace j with (64 * sb + (j - 64 * sb)) by lia.
      rewrite (lbit_word l sb _ w) by first [lia|done]. apply Hones. lia.
    + apply res_bind_Ret in Hg as ([x l2] & Hor & Hg).
      assert (l2 = l).
      { apply (and_or_restore _ _ _ _ _ _ _ _ Hand' Hor). apply restore_masked. done. }
      subst l2. apply (IH sb nn r l'); done.
  - (* claim the low run of this word, then whole words, then the rest *)
    apply res_bind_Ret in Hg as ([acq l1] & Hand & Hg).
    pose proof Hand as Hand'.
    apply (atomicAnd_run l l1 sb _ acq 0 c) in Hand as [Hacq Hcl];
      [|done|lia|lia|lia|lia|intros b Hb; apply testbit_low_mask; lia].
    assert (acq = w) by congruence. subst acq.
    simpl in Hg.
    destruct (Z.eqb_spec (__popcll (Z.land w (BITMASK c))) c).
    2:{ apply res_bind_Ret in Hg as ([x l2] & Hor & Hg).
        assert (l2 = l).
        { apply (and_or_restore _ _ _ _ _ _ _ _ Hand' Hor). apply restore_masked'. done. }
        subst l2. apply (IH sb nn r l'); done. }
    apply res_bind_Ret in Hg as ([[[l2 sb2] nc2] ok] & Hgwb & Hg).
    assert (Hacq0 : acquired l l1 nn sb (nn - c)).
    { replace (64 * sb + 0) with (64 * sb) in Hcl by lia.
      split; [replace (nn - (nn - c)) with c by lia; done|].
      split; [|lia]. intros j Hj. apply in_run_true in Hj.
      replace j with (64 * sb + (j - 64 * sb)) by lia.
      rewrite (lbit_word l sb _ w) by first [lia|done]. apply Hones. lia. }
    apply (gather_whole_blocks_spec fuel l1 sb (nn - c) l2 sb2 nc2 ok Hacq0) in Hgwb.
    destruct ok; simpl in Hg.
    2:{ destruct Hgwb as [-> Hsb2]. apply (IH sb2 nc2 r l'); done. }
    destruct Hgwb as [Hacq2 Hnc2].
    destruct (acquired_storage _ _ _ Hacq2) as (Hst2 & Hsb2 & Hlen2).
    pose proof Hacq2 as (Hcl2 & Hset2 & Hsb20 & Hfit2 & Hnc20).
    apply res_bind_Ret in Hg as ([fin l3] & Hand2 & Hg).
    destruct (wrap64_pred l2 l3 sb2 _ _ Hst2 ltac:(lia) Hand2) as [Hsb21 Hwr2].
    rewrite Hwr2 in *. pose proof Hand2 as Hand2'.
    apply (atomicAnd_run l2 l3 (sb2 - 1) _ fin (64 - nc2) nc2) in Hand2 as [Hfin Hcl3];
      [|apply Hst2|lia|lia|lia|lia|intros b Hb; apply testbit_run_mask; lia].
    simpl in Hg.
    destruct (Z.eqb_spec (__popcll (Z.land fin (shl64 (BITMASK nc2) (64 - nc2)))) nc2)
      as [Epop|Npop].
    + injection Hg as <- <-. rewrite wrap64_small by lia.
      replace ((sb2 - 1) * 64 + 64 - nc2) with (64 * (sb2 - 1) + (64 - nc2)) by lia.
      split; [|split; [lia|split; [lia|]]].
      * replace nn with (nc2 + (nn - nc2)) at 1 by lia.
        apply (clears_extend l l2 l3); [lia|lia| |done].
        replace (64 * (sb2 - 1) + (64 - nc2) + nc2) with (64 * sb2) by lia. done.
      * intros j Hj. apply in_run_true in Hj.
        destruct (Z_lt_ge_dec j (64 * sb2)) as [Hlo|Hhi].
        -- destruct Hcl2 as (_ & _ & Hb). specialize (Hb j).
           assert (in_run (64 * sb2) (nn - nc2) j = false) by (apply in_run_false; lia).
           rewrite H, andb_true_r in Hb. rewrite <- Hb.
           replace j with (64 * (sb2 - 1) + (j - 64 * (sb2 - 1))) by lia.
           rewrite (lbit_word l2 (sb2 - 1) _ fin) by first [lia|done].
           apply (popcll_run fin (shl64 (BITMASK nc2) (64 - nc2)) (64 - nc2) nc2);
             [lia|lia|lia| |done|apply in_run_true; lia].
           intros b Hb'. apply testbit_run_mask; lia.
        -- apply Hset2. apply in_run_true. lia.
    + apply res_bind_Ret in Hg as ([x l4] & Hor & Hg).
      apply res_bind_Ret in Hg as (l5 & Hrb & Hg).
      assert (l4 = l2).
      { apply (and_or_restore _ _ _ _ _ _ _ _ Hand2' Hor). apply restore_masked.
        apply (words_ok_lookup l2 _ _ (proj1 Hst2) Hfin). }
      subst l4.
      rewrite (wrap64_small (sb2 - 1 + 1)), (wrap64_small (nn - nc2)) in Hrb by lia.
      replace (sb2 - 1 + 1) with sb2 in Hrb by lia.
      apply rollback_spec in Hrb; [|done|lia|lia].
      assert (l5 = l).
      { apply (sets_clears_id l l2 l5 (64 * sb2) (nn - nc2)); done. }
      subst l5. apply (IH (sb2 - 1) nc2 r l'); [lia|done|done].
Qed.

End gather.

(* return_multiple does not fault on a run inside the layer *)
Lemma return_loop_total (fuel : nat) : ∀ l bi bs n,
  Z.of_nat (length (layer.bits l)) < 2 ^ 58 →
  0 <= bi → 0 <= bs < 64 → 1 <= n <= 2 ^ 64 - 64 →
  64 * bi + bs + n <= 64 * Z.of_nat (length (layer.bits l)) →
  (Z.to_nat ((n + bs) / 64) < fuel)%nat →
  ∃ l', layer.return_loop fuel l bi bs n = Ret l'.
Proof.
  induction fuel as [|fuel IH]; intros l bi bs n Hsz Hbi Hbs Hn Hfit Hfuel; [lia|].
  simpl. rewrite (wrap64_small (n + bs)) by lia.
  assert (Hlt : (Z.to_nat bi < length (layer.bits l))%nat) by lia.
  destruct (lookup_lt_is_Some_2 _ _ Hlt) as [w Hw].
  unfold layer.atomicOr, layer.load. rewrite Hw. simpl.
  destruct (Z.ltb_spec 64 (n + bs)); [|eauto].
  rewrite (wrap64_small (bi + 1)), (wrap64_small (n - (64 - bs))) by lia.
  apply IH; try lia.
  - simpl. rewrite length_insert. lia.
  - simpl. rewrite length_insert. lia.
  - replace (n - (64 - bs) + 0) with (n + bs + (-1) * 64) by lia.
    rewrite Z.div_add by lia.
    assert (1 <= (n + bs) / 64) by (apply Z.div_le_lower_bound; lia). lia.
Qed.

(* gather_multiple then return_multiple on one layer *)
Lemma layer_gather_return (l l' l'' : layer.t) (fuel fuel' : nat) (n r : Z) :
  storage_ok l → 0 <= n < 2 ^ 64 →
  layer.gather_multiple fuel l n = Ret (r, l') → r ≠ 0xffffffffffffffff →
  layer.return_multiple fuel' l' r n = Ret l'' →
  l'' = l.
Proof.
  intros Hst Hn Hg Hr Hret. unfold layer.gather_multiple in Hg.
  apply (gather_loop_spec l n Hst Hn) in Hg; [|apply wrap64_range|done].
  destruct Hg as (Hcl & Hr0 & Hfit & Hset).
  pose proof Hcl as (Hsh & Hw' & _). destruct Hst as [Hw Hsz].
  unfold layer.return_multiple in Hret.
  pose proof (Z.mod_pos_bound r 64 ltac:(lia)).
  pose proof (Z.div_mod r 64 ltac:(lia)).
  apply return_loop_spec in Hret.
  - rewrite <- Z.div_mod in Hret by lia.
    apply (sets_clears_id l l' l'' r n); done.
  - apply (storage_ok_shape l); done.
  - apply Z.div_pos; lia.
  - done.
  - lia.
Qed.

Lemma layer_gather_return_total (l l' : layer.t) (fuel : nat) (n r : Z) :
  storage_ok l → 1 <= n < 2 ^ 64 →
  layer.gather_multiple fuel l n = Ret (r, l') → r ≠ 0xffffffffffffffff →
  layer.return_multiple (S (Z.to_nat (n / 64 + 1))) l' r n = Ret l.
Proof.
  intros Hst Hn Hg Hr.
  pose proof Hg as Hg'. unfold layer.gather_multiple in Hg'.
  apply (gather_loop_spec l n Hst ltac:(lia)) in Hg'; [|apply wrap64_range|done].
  destruct Hg' as (Hcl & Hr0 & Hfit & Hset).
  pose proof Hcl as ((_ & _ & Hlen) & _ & _). destruct Hst as [Hw Hsz].
  pose proof (Z.mod_pos_bound r 64 ltac:(lia)).
  pose proof (Z.div_mod r 64 ltac:(lia)).
  assert (Hq : 0 <= r / 64) by (apply Z.div_pos; lia).
  assert (Hf : (n + r mod 64) / 64 <= n / 64 + 1).
  { apply Z.lt_succ_r. apply Z.div_lt_upper_bound; [lia|].
    pose proof (Z.mul_succ_div_gt n 64 ltac:(lia)). lia. }
  assert (Hnq : 0 <= (n + r mod 64) / 64) by (apply Z.div_pos; lia).
  destruct (return_loop_total (S (Z.to_nat (n / 64 + 1))) l' (r / 64) (r mod 64) n)
    as [l'' Hret]; [rewrite Hlen; lia|lia|lia|lia|rewrite Hlen; lia|lia|].
  unfold layer.return_multiple. rewrite Hret. f_equal.
  apply (layer_gather_return l l' l'' fuel (S (Z.to_nat (n / 64 + 1))) n r);
    first [done|split; done|lia].
Qed.

(** * Gathering and returning through the tree *)

Lemma frame_refl (k : nat) (tr : veb_tree.t) : frame_from k tr tr.
Proof. done. Qed.

Lemma frame_trans (k k' : nat) (t1 t2 t3 : veb_tree.t) :
  (k' <= k)%nat → frame_from k t1 t2 → frame_from k' t2 t3 → frame_from k t1 t3.
Proof.
  intros Hk (a & b & c) (d & e & f). split; [congruence|]. split; [congruence|].
  intros i Hi. rewrite f by lia. apply c. done.
Qed.

Lemma frame_set_layer (tr : veb_tree.t) (lyr : nat) (l : layer.t) :
  frame_from (S lyr) tr (veb_tree.set_layer tr lyr l).
Proof.
  split; [done|]. split; [simpl; apply length_insert|].
  intros i Hi. simpl. apply list_lookup_insert_ne. lia.
Qed.

Lemma layer_remove_frame (tr tr' : veb_tree.t) (lyr : nat) (h low old : Z) :
  veb_tree.layer_remove tr lyr h low = Ret (old, tr') → frame_from (S lyr) tr tr'.
Proof.
  unfold veb_tree.layer_remove. intros H.
  apply res_bind_Ret in H as (l & _ & H).
  apply res_bind_Ret in H as ([o l1] & _ & H). simplify_eq.
  apply frame_set_layer.
Qed.

Lemma layer_insert_frame (tr tr' : veb_tree.t) (lyr : nat) (h low old : Z) :
  veb_tree.layer_insert tr lyr h low = Ret (old, tr') → frame_from (S lyr) tr tr'.
Proof.
  unfold veb_tree.layer_insert. intros H.
  apply res_bind_Ret in H as (l & _ & H).
  apply res_bind_Ret in H as ([o l1] & _ & H). simplify_eq.
  apply frame_set_layer.
Qed.

Lemma maybe_remove_frame (n : nat) : ∀ tr tr' lyr wb,
  veb_tree.maybe_remove_from n tr lyr wb = Ret tr' → frame_from (S lyr) tr tr'.
Proof.
  induction n as [|n IH]; intros tr tr' lyr wb H; simpl in H.
  - simplify_eq. apply frame_refl.
  - apply res_bind_Ret in H as (below & _ & H).
    apply res_bind_Ret in H as (bits & _ & H).
    apply res_bind_Ret in H as (tr1 & H1 & H).
    apply IH in H. apply (frame_trans _ (S lyr) tr tr1 tr'); [lia| |done].
    destruct (bits =? 0); [|simplify_eq; apply frame_refl].
    apply res_bind_Ret in H1 as ([o t] & Hr & H1). simplify_eq.
    apply (layer_remove_frame _ _ _ _ _ _ Hr).
Qed.

Lemma maybe_return_frame (n : nat) : ∀ tr tr' lyr wb,
  veb_tree.maybe_return_from n tr lyr wb = Ret tr' → frame_from (S lyr) tr tr'.
Proof.
  induction n as [|n IH]; intros tr tr' lyr wb H; simpl in H.
  - simplify_eq. apply frame_refl.
  - apply res_bind_Ret in H as (below & _ & H).
    apply res_bind_Ret in H as (bits & _ & H).
    apply res_bind_Ret in H as (tr1 & H1 & H).
    apply IH in H. apply (frame_trans _ (S lyr) tr tr1 tr'); [lia| |done].
    destruct (__popcll bits =? 64); [|simplify_eq; apply frame_refl].
    apply res_bind_Ret in H1 as ([o t] & Hr & H1). simplify_eq.
    apply (layer_insert_frame _ _ _ _ _ _ Hr).
Qed.

Lemma gather_summaries_frame (n : nat) : ∀ tr tr' found nc,
  veb_tree.gather_summaries n tr found nc = Ret tr' → frame_from n tr tr'.
Proof.
  induction n as [|n IH]; intros tr tr' found nc H; simpl in H.
  - simplify_eq. apply frame_refl.
  - apply res_bind_Ret in H as (tr1 & H1 & H).
    apply maybe_remove_frame in H1. apply IH in H.
    apply (frame_trans _ n tr tr1 tr'); [lia|done|done].
Qed.

Lemma return_summaries_frame (n : nat) : ∀ tr tr' sb nc,
  veb_tree.return_summaries n tr sb nc = Ret tr' → frame_from n tr tr'.
Proof.
  induction n as [|n IH]; intros tr tr' sb nc H; simpl in H.
  - simplify_eq. apply frame_refl.
  - apply res_bind_Ret in H as (tr1 & H1 & H).
    apply maybe_return_frame in H1. apply IH in H.
    apply (frame_trans _ n tr tr1 tr'); [lia|done|done].
Qed.

Lemma bottom_Ret (tr : veb_tree.t) (lyr : nat) :
  veb_tree.bottom tr = Ret lyr →
  0 <= veb_tree.num_layers tr - 1 ∧ lyr = Z.to_nat (veb_tree.num_layers tr - 1).
Proof.
  unfold veb_tree.bottom. destruct (Z.ltb_spec (veb_tree.num_layers tr - 1) 0); [done|].
  intros [= <-]. done.
Qed.

Lemma get_layer_Ret (tr : veb_tree.t) (lyr : nat) (l : layer.t) :
  veb_tree.get_layer tr lyr = Ret l → veb_tree.layers tr !! lyr = Some l.
Proof. unfold veb_tree.get_layer. destruct (_ !! _); intros; simplify_eq; done. Qed.

(* gather_multiple followed by return_multiple gives the bottom layer back *)
Lemma gather_return_bottom (tr tr1 tr2 : veb_tree.t) (fuel fuel' : nat) (n r : Z) :
  bottom_storage_ok tr → 0 <= n < 2 ^ 64 →
  veb_tree.gather_multiple fuel tr n = Ret (r, tr1) → r ≠ veb_tree.fail →
  veb_tree.return_multiple fuel' tr1 r n = Ret tr2 →
  bottom_layer tr2 = bottom_layer tr.
Proof.
  intros [Hnl Hst] Hn Hg Hr Hret.
  unfold veb_tree.gather_multiple in Hg.
  apply res_bind_Ret in Hg as (lyr & Hbot & Hg).
  apply bottom_Ret in Hbot as [Hnl0 Hlyr].
  apply res_bind_Ret in Hg as (l & Hl & Hg). apply get_layer_Ret in Hl.
  apply res_bind_Ret in Hg as ([found l1] & Hlg & Hg). simpl in Hg.
  destruct (Z.eqb_spec found veb_tree.fail) as [->|Hnf]; simpl in Hg; [simplify_eq|].
  apply res_bind_Ret in Hg as (tr1' & Hsum & Hg). injection Hg as -> ->.
  apply gather_summaries_frame in Hsum as (Hnum1 & Hlen1 & Hsame1).
  assert (Hlt : (lyr < length (veb_tree.layers tr))%nat) by (apply lookup_lt_Some in Hl; done).
  assert (Hbl : bottom_layer tr = Some l).
  { unfold bottom_layer. replace (Nat.pred (length (veb_tree.layers tr))) with lyr by lia. done. }
  unfold veb_tree.return_multiple in Hret.
  apply res_bind_Ret in Hret as (lyr' & Hbot' & Hret).
  apply bottom_Ret in Hbot' as [_ Hlyr']. rewrite Hnum1 in Hlyr'. simpl in Hlyr'.
  rewrite <- Hlyr in Hlyr'. subst lyr'.
  apply res_bind_Ret in Hret as (l1' & Hl1 & Hret). apply get_layer_Ret in Hl1.
  rewrite Hsame1 in Hl1 by lia. unfold veb_tree.set_layer in *. simpl in *.
  rewrite list_lookup_insert_eq in Hl1 by done. injection Hl1 as <-.
  apply res_bind_Ret in Hret as (l2 & Hlr & Hret).
  assert (l2 = l).
  { apply (layer_gather_return l l1 l2 fuel fuel' n r); try done. apply Hst. done. }
  subst l2.
  apply return_summaries_frame in Hret as (Hnum2 & Hlen2 & Hsame2).
  simpl in Hlen2, Hsame2. rewrite length_insert in Hlen2, Hlen1.
  unfold bottom_layer at 1. rewrite Hlen2, Hlen1.
  replace (Nat.pred (length (veb_tree.layers tr))) with lyr by lia.
  rewrite Hsame2 by lia. rewrite list_lookup_insert_eq; [|lia]. done.
Qed.

Lemma widths_lookup (tr : veb_tree.t) (i : nat) (l : layer.t) :
  veb_tree.layers tr !! i = Some l → widths tr !! i = Some (length (layer.bits l)).
Proof. unfold widths. rewrite list_lookup_fmap. intros ->. done. Qed.

Lemma widths_lookup_inv (tr : veb_tree.t) (i w : nat) :
  widths tr !! i = Some w →
  ∃ l, veb_tree.layers tr !! i = Some l ∧ length (layer.bits l) = w.
Proof.
  unfold widths. rewrite list_lookup_fmap.
  destruct (veb_tree.layers tr !! i); simpl; intros; simplify_eq; eauto.
Qed.

Lemma widths_set_layer (tr : veb_tree.t) (lyr : nat) (l l' : layer.t) :
  veb_tree.layers tr !! lyr = Some l →
  length (layer.bits l') = length (layer.bits l) →
  widths (veb_tree.set_layer tr lyr l') = widths tr.
Proof.
  intros H Hlen. unfold widths, veb_tree.set_layer. simpl.
  rewrite list_fmap_insert. apply list_insert_id.
  rewrite list_lookup_fmap, H. simpl. congruence.
Qed.

Lemma layer_insert_widths (tr tr' : veb_tree.t) (lyr : nat) (h low old : Z) :
  veb_tree.layer_insert tr lyr h low = Ret (old, tr') → widths tr' = widths tr.
Proof.
  unfold veb_tree.layer_insert. intros H.
  apply res_bind_Ret in H as (l & Hl & H). apply get_layer_Ret in Hl.
  apply res_bind_Ret in H as ([o l1] & Hor & H). simplify_eq.
  apply atomicOr_Ret in Hor as [_ ->].
  apply (widths_set_layer tr lyr l); [done|]. simpl. apply length_insert.
Qed.

Lemma layer_remove_widths (tr tr' : veb_tree.t) (lyr : nat) (h low old : Z) :
  veb_tree.layer_remove tr lyr h low = Ret (old, tr') → widths tr' = widths tr.
Proof.
  unfold veb_tree.layer_remove. intros H.
  apply res_bind_Ret in H as (l & Hl & H). apply get_layer_Ret in Hl.
  apply res_bind_Ret in H as ([o l1] & Hand & H). simplify_eq.
  apply atomicAnd_Ret in Hand as [_ ->].
  apply (widths_set_layer tr lyr l); [done|]. simpl. apply length_insert.
Qed.

Lemma maybe_remove_widths (n : nat) : ∀ tr tr' lyr wb,
  veb_tree.maybe_remove_from n tr lyr wb = Ret tr' → widths tr' = widths tr.
Proof.
  induction n as [|n IH]; intros tr tr' lyr wb H; simpl in H; [simplify_eq; done|].
  apply res_bind_Ret in H as (below & _ & H).
  apply res_bind_Ret in H as (bits & _ & H).
  apply res_bind_Ret in H as (tr1 & H1 & H).
  apply IH in H. rewrite H. destruct (bits =? 0); [|simplify_eq; done].
  apply res_bind_Ret in H1 as ([o t] & H1 & E). simplify_eq.
  apply layer_remove_widths in H1. done.
Qed.

Lemma gather_summaries_widths (n : nat) : ∀ tr tr' found nc,
  veb_tree.gather_summaries n tr found nc = Ret tr' → widths tr' = widths tr.
Proof.
  induction n as [|n IH]; intros tr tr' found nc H; simpl in H; [simplify_eq; done|].
  apply res_bind_Ret in H as (tr1 & H1 & H).
  apply maybe_remove_widths in H1. apply IH in H. congruence.
Qed.

Lemma layer_insert_total (tr : veb_tree.t) (lyr : nat) (h low : Z) (w : nat) :
  widths tr !! lyr = Some w → 0 <= h < Z.of_nat w →
  ∃ old tr', veb_tree.layer_insert tr lyr h low = Ret (old, tr').
Proof.
  intros Hw Hh. apply widths_lookup_inv in Hw as (l & Hl & <-).
  unfold veb_tree.layer_insert, veb_tree.get_layer. rewrite Hl. simpl.
  unfold layer.insert, layer.atomicOr, layer.load.
  destruct (lookup_lt_is_Some_2 (layer.bits l) (Z.to_nat h)) as [x Hx]; [lia|].
  rewrite Hx. simpl. eauto.
Qed.

(* the summary loop of return_multiple stays inside the two layers it
   works on *)
Lemma maybe_return_total (n : nat) : ∀ tr lyr wb wu wl,
  widths tr !! lyr = Some wu → widths tr !! S lyr = Some wl →
  0 <= wb → wb + Z.of_nat n <= Z.of_nat wl →
  Z.of_nat wl <= 64 * Z.of_nat wu → wb + Z.of_nat n < 2 ^ 64 →
  ∃ tr', veb_tree.maybe_return_from n tr lyr wb = Ret tr' ∧ widths tr' = widths tr.
Proof.
  induction n as [|n IH]; intros tr lyr wb wu wl Hu Hl Hwb Hfit Hst Hlt; simpl; [eauto|].
  destruct (widths_lookup_inv _ _ _ Hl) as (lo & Hlo & Hlen).
  unfold veb_tree.get_layer. rewrite Hlo. simpl.
  unfold layer.load.
  destruct (lookup_lt_is_Some_2 (layer.bits lo) (Z.to_nat wb)) as [x Hx]; [lia|].
  rewrite Hx. simpl. rewrite (wrap64_small (wb + 1)) by lia.
  destruct (__popcll x =? 64).
  - destruct (layer_insert_total tr lyr (wb / 64) (wb mod 64) wu Hu) as (old & tr1 & H1).
    { split; [apply Z.div_pos; lia|]. apply Z.div_lt_upper_bound; lia. }
    rewrite H1. simpl. apply layer_insert_widths in H1.
    destruct (IH tr1 lyr (wb + 1) wu wl) as (tr' & H & Hw'); try lia;
      [rewrite H1; done|rewrite H1; done|].
    exists tr'. split; [done|congruence].
  - simpl. apply (IH tr lyr (wb + 1) wu wl); try done; lia.
Qed.

Lemma return_summaries_total (n : nat) : ∀ tr sb nc (w : nat),
  stacked (widths tr) → widths tr !! n = Some w →
  0 <= sb → 1 <= nc → sb + nc <= 64 * Z.of_nat w → sb + nc < 2 ^ 64 →
  ∃ tr', veb_tree.return_summaries n tr sb nc = Ret tr'.
Proof.
  induction n as [|i IH]; intros tr sb nc w Hstk Hw Hsb Hnc Hfit Hlt; simpl; [eauto|].
  rewrite (wrap64_small (sb + nc - 1)) by lia.
  assert (Hlo : 0 <= sb / 64) by (apply Z.div_pos; lia).
  assert (Hle : sb / 64 <= (sb + nc - 1) / 64) by (apply Z.div_le_mono; lia).
  assert (Hhi : (sb + nc - 1) / 64 < Z.of_nat w) by (apply Z.div_lt_upper_bound; lia).
  assert (Hw58 : (sb + nc - 1) / 64 < 2 ^ 58) by (apply Z.div_lt_upper_bound; lia).
  rewrite (wrap64_small ((sb + nc - 1) / 64 + 1)) by lia.
  rewrite (wrap64_small ((sb + nc - 1) / 64 + 1 - sb / 64)) by lia.
  destruct (lookup_lt_is_Some_2 (widths tr) i) as [wu Hu].
  { apply lookup_lt_Some in Hw. lia. }
  pose proof (Hstk i wu w Hu Hw) as Hst.
  unfold veb_tree.maybe_return_layer_bits.
  rewrite (wrap64_small (sb / 64 + ((sb + nc - 1) / 64 + 1 - sb / 64))) by lia.
  replace (sb / 64 + ((sb + nc - 1) / 64 + 1 - sb / 64) - sb / 64)
    with ((sb + nc - 1) / 64 + 1 - sb / 64) by lia.
  destruct (maybe_return_total (Z.to_nat ((sb + nc - 1) / 64 + 1 - sb / 64))
              tr i (sb / 64) wu w Hu Hw) as (tr1 & H1 & Hw1); try lia.
  rewrite H1. simpl.
  apply (IH tr1 _ _ wu); try lia; rewrite Hw1; done.
Qed.

(* after a successful gather_multiple the matching return_multiple runs
   to its end *)
Lemma gather_return_total (tr tr1 : veb_tree.t) (fuel : nat) (n r : Z) :
  tree_storage_ok tr → 1 <= n < 2 ^ 64 →
  veb_tree.gather_multiple fuel tr n = Ret (r, tr1) → r ≠ veb_tree.fail →
  ∃ tr2, veb_tree.return_multiple (S (Z.to_nat (n / 64 + 1))) tr1 r n = Ret tr2.
Proof.
  intros [[Hnl Hst] Hstk] Hn Hg Hr.
  unfold veb_tree.gather_multiple in Hg.
  apply res_bind_Ret in Hg as (lyr & Hbot & Hg).
  apply bottom_Ret in Hbot as [Hnl0 Hlyr].
  apply res_bind_Ret in Hg as (l & Hl & Hg). apply get_layer_Ret in Hl.
  apply res_bind_Ret in Hg as ([found l1] & Hlg & Hg). simpl in Hg.
  destruct (Z.eqb_spec found veb_tree.fail) as [->|Hnf]; simpl in Hg; [simplify_eq|].
  apply res_bind_Ret in Hg as (tr1' & Hsum & Hg). injection Hg as -> ->.
  assert (Hlt : (lyr < length (veb_tree.layers tr))%nat) by (apply lookup_lt_Some in Hl; done).
  assert (Hbl : bottom_layer tr = Some l).
  { unfold bottom_layer. replace (Nat.pred (length (veb_tree.layers tr))) with lyr by lia. done. }
  specialize (Hst l Hbl).
  pose proof Hlg as Hgr. unfold layer.gather_multiple in Hgr.
  apply (gather_loop_spec l n Hst ltac:(lia)) in Hgr; [|apply wrap64_range|done].
  destruct Hgr as (((_ & _ & Hlen) & _ & _) & Hr0 & Hfit & _).
  pose proof (gather_summaries_widths _ _ _ _ _ Hsum) as Hw1.
  rewrite (widths_set_layer tr lyr l l1 Hl Hlen) in Hw1.
  apply gather_summaries_frame in Hsum as (Hnum1 & Hlen1 & Hsame1).
  assert (Hl1 : veb_tree.layers tr1 !! lyr = Some l1).
  { rewrite Hsame1 by lia. unfold veb_tree.set_layer. simpl.
    apply list_lookup_insert_eq. done. }
  unfold veb_tree.return_multiple, veb_tree.bottom.
  rewrite Hnum1. simpl.
  destruct (Z.ltb_spec (veb_tree.num_layers tr - 1) 0); [lia|]. simpl.
  rewrite <- Hlyr. unfold veb_tree.get_layer. rewrite Hl1. simpl.
  rewrite (layer_gather_return_total l l1 fuel n r Hst Hn Hlg Hr). simpl.
  destruct Hst as [_ Hsz].
  apply (return_summaries_total lyr _ r n (length (layer.bits l))); try lia.
  - rewrite (widths_set_layer tr1 lyr l1 l Hl1) by done. rewrite Hw1. done.
  - rewrite (widths_set_layer tr1 lyr l1 l Hl1) by done. rewrite Hw1.
    apply widths_lookup. done.
Qed.

(* a tree that satisfies the invariant and is not too large has the
   storage gathering asks for *)
Lemma tree_inv_storage_ok (tr : veb_tree.t) :
  tree_inv tr → veb_tree.total_universe tr < 2 ^ 63 → tree_storage_ok tr.
Proof.
  intros (H1 & Hnl & Hok & Hsum & _ & Hu) Hlt. split; [split; [done|]|].
  - intros leaf Hleaf. specialize (Hu leaf Hleaf).
    assert (Hlok : layer_ok leaf).
    { rewrite Forall_forall in Hok. apply Hok. apply list_elem_of_In.
      apply (list_elem_of_lookup_2 _ _ _ Hleaf). }
    destruct Hlok as (Hus & Hnb & Hlen & Hw & _). split; [done|].
    rewrite Hlen, Hnb, Hu.
    assert ((veb_tree.total_universe tr - 1) / 64 < 2 ^ 57); [|lia].
    apply Z.div_lt_upper_bound; lia.
  - intros i wu wl Hwu Hwl.
    apply widths_lookup_inv in Hwu as (up & Hup & <-).
    apply widths_lookup_inv in Hwl as (lo & Hlo & <-).
    destruct (Hsum i up lo Hup Hlo) as [Hun _].
    assert (Huok : layer_ok up).
    { rewrite Forall_forall in Hok. apply Hok. apply list_elem_of_In.
      apply (list_elem_of_lookup_2 _ _ _ Hup). }
    assert (Hlok : layer_ok lo).
    { rewrite Forall_forall in Hok. apply Hok. apply list_elem_of_In.
      apply (list_elem_of_lookup_2 _ _ _ Hlo). }
    destruct Huok as (Hus & Hnb & Hlen & _). destruct Hlok as (_ & _ & Hlen' & _).
    rewrite Hlen, Hnb, Hlen', <- Hun.
    pose proof (Z.mul_succ_div_gt (layer.universe_size up - 1) 64 ltac:(lia)). lia.
Qed.

(** * Indices beyond the universe *)




(** * The segment table *)

Lemma wrap_int_small (x : Z) : - 2 ^ 31 <= x < 2 ^ 31 → wrap_int x = x.
Proof. intros. unfold wrap_int. rewrite Z.mod_small; lia. Qed.

Lemma wrap_int_succ_pred (x : Z) :
  - 2 ^ 31 <= x < 2 ^ 31 → wrap_int (wrap_int (x - 1) + 1) = x.
Proof.
  intros. unfold wrap_int.
  replace ((x - 1 + 2 ^ 31) mod 2 ^ 32 - 2 ^ 31 + 1 + 2 ^ 31)
    with ((x - 1 + 2 ^ 31) mod 2 ^ 32 + 1) by lia.
  rewrite Z.add_mod_idemp_l by lia.
  replace (x - 1 + 2 ^ 31 + 1) with (x + 2 ^ 31) by lia.
  rewrite Z.mod_small; lia.
Qed.

Section table.

Context {Block : Type}.
Variable init_malloc : Z → Block → Block.
Implicit Types tb : @alloc_table.t Block.

Lemma atomic_rmw_Ret {A : Type} (arr : list A) (i : Z) (f : A → A) (old : A) :
  0 <= i → arr !! Z.to_nat i = Some old →
  alloc_table.atomic_rmw arr i f = Ret (old, <[Z.to_nat i := f old]> arr).
Proof.
  intros Hi H. unfold alloc_table.atomic_rmw.
  destruct (Z.ltb_spec i 0); [lia|]. rewrite H. done.
Qed.

Lemma with_active_counts_id tb : alloc_table.with_active_counts tb (alloc_table.active_counts tb) = tb.
Proof. destruct tb; done. Qed.

(* get_block on an exhausted segment: the decrement is taken back and
   nothing is handed out *)
Lemma get_block_exhausted tb (segment_id tree_id c : Z) :
  0 <= segment_id →
  alloc_table.active_counts tb !! Z.to_nat segment_id = Some c →
  - 2 ^ 31 <= c < 0 →
  alloc_table.get_block init_malloc tb segment_id tree_id = Ret (None, false, tb).
Proof.
  intros Hseg Hc Hneg. unfold alloc_table.get_block, alloc_table.get_slot_in_segment.
  rewrite (atomic_rmw_Ret _ _ _ c) by done. simpl.
  unfold alloc_table.active_count_valid. destruct (Z.leb_spec 0 c); [lia|]. simpl.
  unfold alloc_table.return_slot_to_segment. simpl.
  assert (Hlt : (Z.to_nat segment_id < length (alloc_table.active_counts tb))%nat).
  { apply lookup_lt_Some in Hc. done. }
  rewrite (atomic_rmw_Ret _ _ _ (wrap_int (c - 1)));
    [|done|apply list_lookup_insert_eq; done].
  simpl. rewrite list_insert_insert_eq. rewrite wrap_int_succ_pred by lia.
  rewrite (list_insert_id _ _ c) by done.
  unfold alloc_table.with_active_counts. simpl. destruct tb; done.
Qed.

(* get_block on a bound segment with a block left *)
Lemma get_block_grants tb (segment_id tree_id c id : Z) :
  0 <= segment_id →
  alloc_table.chunk_ids tb !! Z.to_nat segment_id = Some tree_id →
  alloc_table.active_counts tb !! Z.to_nat segment_id = Some c →
  0 <= c < 2 ^ 31 →
  next_block tb segment_id tree_id id →
  ∃ tb', alloc_table.get_block init_malloc tb segment_id tree_id
           = Ret (Some id, c =? 0, tb')
    ∧ alloc_table.active_counts tb' !! Z.to_nat segment_id = Some (c - 1).
Proof.
  intros Hseg Hid Hc Hpos (q & Hq & Hqr & Hbps & Hfit & Hid0 & [blk Hblk] & Hnext).
  unfold alloc_table.get_block, alloc_table.get_slot_in_segment.
  rewrite (atomic_rmw_Ret _ _ _ c) by done. simpl.
  unfold alloc_table.active_count_valid. destruct (Z.leb_spec 0 c); [|lia]. simpl.
  unfold alloc_table.read_tree_id. simpl.
  rewrite (atomic_rmw_Ret _ _ _ tree_id) by done. simpl.
  rewrite Z.eqb_refl. simpl.
  unfold alloc_table.increment_queue_position. simpl.
  rewrite (atomic_rmw_Ret _ _ _ q) by done. simpl.
  rewrite (wrap_int_small q), (wrap64_small q) by lia.
  assert (Hsb : 0 <= segment_id * alloc_table.blocks_per_segment tb) by nia.
  rewrite (wrap64_small (segment_id * alloc_table.blocks_per_segment tb)) by lia.
  assert (Hlt : (Z.to_nat segment_id < length (alloc_table.active_counts tb))%nat).
  { apply lookup_lt_Some in Hc. done. }
  change (alloc_table.get_blocks_per_segment
            (alloc_table.with_active_counts tb
               (<[Z.to_nat segment_id:=wrap_int (c - 1)]> (alloc_table.active_counts tb)))
            tree_id)
    with (alloc_table.get_blocks_per_segment tb tree_id).
  set (bis := alloc_table.get_blocks_per_segment tb tree_id) in *.
  destruct Hnext as [[Hfresh ->]|[Hrec Hqueue]].
  - destruct (Z.ltb_spec q bis); [|lia]. simpl.
    unfold alloc_table.get_block_from_global_block_id.
    rewrite wrap64_small by lia.
    unfold alloc_table.block_init_malloc. simpl.
    rewrite (atomic_rmw_Ret _ _ _ blk) by done. simpl.
    replace (if c =? 0 then true else false) with (c =? 0) by (destruct (c =? 0); done).
    eexists. split; [reflexivity|]. simpl.
    rewrite list_lookup_insert_eq by done. f_equal. apply wrap_int_small. lia.
  - destruct (Z.ltb_spec q bis); [lia|]. simpl.
    pose proof (Z.mod_pos_bound q bis ltac:(lia)) as Hmod.
    assert (q mod bis <= q) by (apply Z.mod_le; lia).
    rewrite (wrap_int_small (q mod bis)) by lia.
    rewrite (wrap64_small (_ + q mod bis)) by lia.
    rewrite (atomic_rmw_Ret _ _ _ (Some id)) by first [done | lia]. simpl.
    unfold alloc_table.block_init_malloc. simpl.
    rewrite (atomic_rmw_Ret _ _ _ blk) by done. simpl.
    replace (if c =? 0 then true else false) with (c =? 0) by (destruct (c =? 0); done).
    eexists. split; [reflexivity|]. simpl.
    rewrite list_lookup_insert_eq by done. f_equal. apply wrap_int_small. lia.
Qed.

End table.

(** * The retry loops *)

Lemma request_iteration_attempts (a : Gallatin.answers) (x y : Z) :
  Gallatin.request_iteration a x = Gallatin.Continues y → y = x ∨ y = x + 1.
Proof.
  unfold Gallatin.request_iteration, Gallatin.request_block_step.
  destruct (Gallatin.segment a =? veb_tree.fail), (Gallatin.lock_acquired a),
    (Gallatin.success a =? -1), (Gallatin.new_block a); intros H; simplify_eq; auto.
Qed.

Lemma request_loop_returns (sched : nat → Gallatin.answers) (fuel : nat) :
  progresses sched →
  ∀ k attempts, 0 <= attempts → 
    (Z.to_nat (Gallatin.REQUEST_BLOCK_MAX_ATTEMPTS - attempts) < fuel)%nat →
    ∃ r, Gallatin.request_loop fuel sched k attempts = Ret r.
Proof.
  intros Hprog. induction fuel as [|fuel IH]; intros k attempts H0 Hfuel; [lia|].
  simpl. unfold Gallatin.REQUEST_BLOCK_MAX_ATTEMPTS in *.
  destruct (Z.ltb_spec attempts 1000); [|eauto].
  destruct (Gallatin.request_iteration (sched k) attempts) as [b|a'] eqn:E; [eauto|].
  destruct (request_iteration_attempts _ _ _ E) as [->| ->].
  - exfalso. apply (Hprog k attempts). done.
  - apply IH; lia.
Qed.

Lemma retry_loop_returns (limit : Z) (routine : Z → Z) (fuel : nat) :
  0 <= limit < 2 ^ 63 →
  ∀ offset attempt_counter, 0 <= attempt_counter →
    (Z.to_nat (limit - attempt_counter) < fuel)%nat →
    ∃ r, Gallatin.retry_loop fuel limit routine offset attempt_counter = Ret r.
Proof.
  intros Hl. induction fuel as [|fuel IH]; intros offset ac H0 Hfuel; [lia|].
  simpl. destruct (offset =? 18446744073709551615); simpl; [|eauto].
  destruct (Z.ltb_spec ac limit); [|eauto].
  rewrite wrap64_small by lia. apply IH; lia.
Qed.

Lemma malloc_returns {Block : Type} (table : @alloc_table.t Block)
    (smallest smallest_bits num_trees : Z) (mb ms msl : Z → Z) (size : Z) :
  ∃ r, Gallatin.malloc 501 table smallest smallest_bits num_trees mb ms msl size = Ret r.
Proof.
  unfold Gallatin.malloc.
  assert (Hs : ∀ t, ∃ r,
    (offset ← Gallatin.retry_loop 501 Gallatin.GALLATIN_MALLOC_LOOP_ATTEMPTS msl
                 18446744073709551615 0;
     Ret (if negb (offset =? 18446744073709551615)
          then alloc_table.offset_to_allocation table offset t else 0)) = Ret r).
  { intros t. destruct (retry_loop_returns Gallatin.GALLATIN_MALLOC_LOOP_ATTEMPTS msl 501
      ltac:(unfold Gallatin.GALLATIN_MALLOC_LOOP_ATTEMPTS; lia) 18446744073709551615 0
      ltac:(lia) ltac:(unfold Gallatin.GALLATIN_MALLOC_LOOP_ATTEMPTS; lia)) as [r ->].
    simpl. eauto. }
  destruct (num_trees <=? _); [|apply Hs].
  destruct (_ <? 0); [apply Hs|].
  destruct (_ <? num_trees).
  - destruct (retry_loop_returns Gallatin.GALLATIN_MALLOC_BLOCK_ATTEMPTS mb 501
      ltac:(unfold Gallatin.GALLATIN_MALLOC_BLOCK_ATTEMPTS; lia) 18446744073709551615 0
      ltac:(lia) ltac:(unfold Gallatin.GALLATIN_MALLOC_BLOCK_ATTEMPTS; lia)) as [r ->].
    simpl. eauto.
  - destruct (retry_loop_returns Gallatin.GALLATIN_MALLOC_SEGMENT_ATTEMPTS ms 501
      ltac:(unfold Gallatin.GALLATIN_MALLOC_SEGMENT_ATTEMPTS; lia) 18446744073709551615 0
      ltac:(lia) ltac:(unfold Gallatin.GALLATIN_MALLOC_SEGMENT_ATTEMPTS; lia)) as [r ->].
    simpl. eauto.
Qed.

Lemma held_lock_spins (fuel : nat) : ∀ k,
  Gallatin.request_loop fuel held_lock k 0 = OutOfFuel.
Proof. induction fuel as [|fuel IH]; intros k; [done|]. simpl. apply IH. Qed.

Lemma out_of_segments_progresses : progresses out_of_segments.
Proof. intros k attempts. simpl. intros H. injection H. lia. Qed.

(* the wait at the head of malloc_segment_allocation has no bound *)
Lemma lock_taken_spins (tree : Z) (fuel : nat) : 0 <= tree < 32 → ∀ k,
  Gallatin.wait_for_tree_lock fuel (lock_taken tree) k tree = OutOfFuel.
Proof.
  intros Ht. induction fuel as [|fuel IH]; intros k; [done|].
  cbn [Gallatin.wait_for_tree_lock]. unfold Gallatin.acquire_tree_lock, lock_taken.
  rewrite Z.land_diag.
  destruct (Z.eqb_spec (SET_BIT_MASK tree) 0) as [E|_]; [|apply IH].
  exfalso. assert (H : Z.testbit (SET_BIT_MASK tree) tree = true).
  { rewrite testbit_SET_BIT_MASK by lia. rewrite Z.eqb_refl.
    destruct (Z.ltb_spec tree 64); [done|lia]. }
  rewrite E, Z.testbit_0_l in H. done.
Qed.

(** * Offsets and addresses *)


Lemma shl64_1_pow (k : Z) : 0 <= k < 64 → shl64 1 k = 2 ^ k.
Proof.
  intros H. unfold shl64. rewrite Z.shiftl_1_l.
  apply wrap64_small. split; [lia|]. apply Z.pow_lt_mono_r; lia.
Qed.

Lemma pow2_le_lt64 (k b : Z) : 0 <= k → 2 ^ k <= b → b < 2 ^ 64 → k < 64.
Proof.
  intros Hk Hle Hb. destruct (Z_lt_ge_dec k 64) as [|Hge]; [done|].
  assert (2 ^ 64 <= 2 ^ k) by (apply Z.pow_le_mono_r; lia). lia.
Qed.

(** * The example trees *)

(** how the example trees are built by the code *)
Lemma empty_256_built :
  remove_each (veb_tree.generate_on_device 256 0) (seqZ 0 256) = Ret empty_256.
Proof. vm_compute. reflexivity. Qed.

Lemma scenario_A_built :
  insert_force_update_each empty_256 [3; 64; 65; 200] = Ret scenario_A.
Proof. vm_compute. reflexivity. Qed.

Lemma scenario_A_by_insert_built :
  insert_each empty_256 [3; 64; 65; 200] = Ret scenario_A_by_insert.
Proof. vm_compute. reflexivity. Qed.

Lemma low_194_built :
  remove_each (veb_tree.generate_on_device 256 0) (seqZ 194 62) = Ret low_194.
Proof. vm_compute. reflexivity. Qed.

Lemma empty_256_inv : tree_inv empty_256.
Proof. apply tree_inv_b_sound. vm_compute. reflexivity. Qed.

Lemma scenario_A_inv : tree_inv scenario_A.
Proof. apply tree_inv_b_sound. vm_compute. reflexivity. Qed.

Lemma low_194_inv : tree_inv low_194.
Proof. apply tree_inv_b_sound. vm_compute. reflexivity. Qed.

Lemma full_100_inv : tree_inv full_100.
Proof. apply tree_inv_b_sound. vm_compute. reflexivity. Qed.


Lemma empty_256_nothing (idx : Z) :
  0 <= idx < 256 →
  veb_tree.query empty_256 idx = Ret false
  ∧ veb_tree.successor_thorough 1 empty_256 idx = Ret veb_tree.fail.
Proof.
  intros Hidx.
  assert (Hall : forallb nothing_found (seqZ 0 256) = true) by (vm_compute; reflexivity).
  pose proof (forallb_seqZ _ _ _ idx Hall ltac:(lia)) as H.
  unfold nothing_found in H.
  destruct (veb_tree.query empty_256 idx) as [[|]| | |]; try done.
  destruct (veb_tree.successor_thorough 1 empty_256 idx) as [r| | |]; try done.
  apply Z.eqb_eq in H. subst r. done.
Qed.

Lemma find_random_loop_empty (hash1 hash2 : Z) (n : nat) : ∀ attempts,
  0 <= attempts →
  (Z.to_nat (VEB_MAX_ATTEMPTS - attempts) < n)%nat →
  veb_tree.find_random_loop n 1 empty_256 hash1 hash2 attempts = Ret veb_tree.fail.
Proof.
  induction n as [|n IH]; intros attempts H0 Hn; [lia|].
  unfold VEB_MAX_ATTEMPTS in *.
  cbn [veb_tree.find_random_loop]. unfold VEB_MAX_ATTEMPTS.
  destruct (Z.ltb_spec attempts 15).
  - change (veb_tree.total_universe empty_256) with 256.
    set (idx := wrap64 (hash1 + wrap64 (attempts * hash2)) mod 256).
    assert (Hidx : 0 <= idx < 256) by (apply Z.mod_pos_bound; lia).
    destruct (empty_256_nothing idx Hidx) as [-> ->]. simpl.
    apply IH; lia.
  - apply (empty_256_nothing 0). lia.
Qed.

(* the schedule [held_lock] is what the code answers, forever, when the
   class tree is empty and another thread keeps the lock bit set *)
Lemma held_lock_realised (hash1 hash2 : Z) :
  veb_tree.find_random_valid_index 1 empty_256 hash1 hash2 = Ret veb_tree.fail
  ∧ Gallatin.acquire_tree_lock 1 0 = (false, 1).
Proof.
  split; [|reflexivity].
  apply find_random_loop_empty; [lia|]. vm_compute. lia.
Qed.

(** * Plain insertion *)




(** * The attempt bounds of malloc *)

(* a retry loop hands on the first offset other than ~0 among the
   answers its routine gives before the attempt bound is reached *)
Lemma retry_loop_eq_first_offset (limit : Z) (routine : Z → Z) (n : nat) :
  ∀ (fuel : nat) (c : Z),
  0 <= c → c + Z.of_nat n = limit → limit < 2 ^ 64 →
  Gallatin.retry_loop (S n + fuel) limit routine 0xffffffffffffffff c
  = Ret (first_offset n routine c).
Proof.
  induction n as [|n IH]; intros fuel c Hc Hn Hlim.
  - change (1 + fuel)%nat with (S fuel). cbn [Gallatin.retry_loop first_offset].
    rewrite Z.eqb_refl. destruct (Z.ltb_spec c limit); [lia|]. done.
  - change (S (S n) + fuel)%nat with (S (S n + fuel)).
    cbn [Gallatin.retry_loop first_offset].
    rewrite Z.eqb_refl. destruct (Z.ltb_spec c limit); [|lia]. cbn [andb].
    rewrite (wrap64_small (c + 1)) by lia.
    destruct (Z.eqb_spec (routine c) 0xffffffffffffffff) as [E|NE].
    + rewrite E. apply IH; lia.
    + change (S n + fuel)%nat with (S (n + fuel)). cbn [Gallatin.retry_loop].
      destruct (Z.eqb_spec (routine c) 0xffffffffffffffff); [done|]. done.
Qed.

(* malloc, with its three loops resolved *)
Lemma malloc_first_offset {Block : Type} (table : @alloc_table.t Block)
    (smallest smallest_bits num_trees : Z) (mb ms msl : Z → Z) (size : Z) :
  let tree_id := Gallatin.get_tree_id_from_size smallest smallest_bits size in
  let block_tree := Gallatin.get_first_bit_bigger size
                    - Gallatin.get_first_bit_bigger (wrap64 (smallest * 4096)) in
  Gallatin.malloc 501 table smallest smallest_bits num_trees mb ms msl size
  = Ret (if num_trees <=? tree_id then
           if block_tree <? 0 then
             address_of table (first_offset 10 msl 0) (num_trees - 1)
           else if block_tree <? num_trees then
             address_of table (first_offset 500 mb 0) (block_tree mod 2 ^ 16)
           else address_of table (first_offset 500 ms 0) 0
         else address_of table (first_offset 10 msl 0) tree_id).
Proof.
  intros tree_id block_tree. unfold Gallatin.malloc. fold tree_id block_tree.
  assert (Hs : Gallatin.retry_loop 501 Gallatin.GALLATIN_MALLOC_LOOP_ATTEMPTS msl
                 0xffffffffffffffff 0 = Ret (first_offset 10 msl 0)).
  { apply (retry_loop_eq_first_offset _ msl 10 490 0); [lia|reflexivity|].
    unfold Gallatin.GALLATIN_MALLOC_LOOP_ATTEMPTS. lia. }
  assert (Hb : Gallatin.retry_loop 501 Gallatin.GALLATIN_MALLOC_BLOCK_ATTEMPTS mb
                 0xffffffffffffffff 0 = Ret (first_offset 500 mb 0)).
  { apply (retry_loop_eq_first_offset _ mb 500 0 0); [lia|reflexivity|].
    unfold Gallatin.GALLATIN_MALLOC_BLOCK_ATTEMPTS. lia. }
  assert (Hg : Gallatin.retry_loop 501 Gallatin.GALLATIN_MALLOC_SEGMENT_ATTEMPTS ms
                 0xffffffffffffffff 0 = Ret (first_offset 500 ms 0)).
  { apply (retry_loop_eq_first_offset _ ms 500 0 0); [lia|reflexivity|].
    unfold Gallatin.GALLATIN_MALLOC_SEGMENT_ATTEMPTS. lia. }
  rewrite Hs, Hb, Hg. cbn [mbind res_bind]. unfold address_of.
  destruct (num_trees <=? tree_id), (block_tree <? 0), (block_tree <? num_trees);
    try destruct (first_offset 10 msl 0 =? 18446744073709551615);
    try destruct (first_offset 500 mb 0 =? 18446744073709551615);
    try destruct (first_offset 500 ms 0 =? 18446744073709551615); reflexivity.
Qed.

(** * The claims of the specification *)

Lemma setup_segment_binds :
  alloc_table.setup_segment two_segments 0 1 = Ret (true, segment_0_bound).
Proof. vm_compute. reflexivity. Qed.

(** C2, as the specification words it, fails: successor finds only what
    the summaries show, and not every way of putting an index into the
    tree raises them.  On the emptied universe of 256, plain insert of 3,
    64, 65 and 200 leaves all four present and every summary bit clear:
    successor(3) and successor(65) are the fail sentinel, although 64 and
    200 are present.  In the same way, after gather_multiple(2) and
    return_multiple(192, 2) on the tree holding the indices below 194,
    successor(191) is the fail sentinel although 192 is present. *)
Lemma successor_misses_present_index :
  remove_each (veb_tree.generate_on_device 256 0) (seqZ 0 256) = Ret empty_256
  ∧ insert_each empty_256 [3; 64; 65; 200] = Ret scenario_A_by_insert
  ∧ veb_tree.query scenario_A_by_insert 64 = Ret true
  ∧ veb_tree.successor scenario_A_by_insert 3 = Ret veb_tree.fail
  ∧ veb_tree.query scenario_A_by_insert 200 = Ret true
  ∧ veb_tree.successor scenario_A_by_insert 65 = Ret veb_tree.fail
  ∧ veb_tree.gather_multiple 3 low_194 2 = Ret (192, low_194_gathered)
  ∧ veb_tree.return_multiple 3 low_194_gathered 192 2 = Ret low_194_returned
  ∧ veb_tree.query low_194_returned 192 = Ret true
  ∧ veb_tree.successor low_194_returned 191 = Ret veb_tree.fail.
Proof. repeat split; vm_compute; reflexivity. Qed.

(** C2, amended: in a tree whose summaries are up to date, successor(i) is
    the smallest present index that is at least i + 1, and the fail
    sentinel when there is none, for every i of the universe.  On the
    universe of 256 indices emptied and then given 3, 64, 65 and 200 by
    insert_force_update, find_first_valid_index() is 3, successor(3) is
    64, successor(65) is 200 and successor(200) is the fail sentinel. *)
Theorem successor_smallest_above :
  (∀ tr i, tree_inv tr → 0 <= i < veb_tree.total_universe tr →
     ∃ r, veb_tree.successor tr i = Ret r
        ∧ ((r = veb_tree.fail ∧ ∀ s, member tr s → s <= i)
           ∨ (member tr r ∧ i + 1 <= r
              ∧ ∀ s, member tr s → i + 1 <= s → r <= s)))
  ∧ remove_each (veb_tree.generate_on_device 256 0) (seqZ 0 256) = Ret empty_256
  ∧ insert_force_update_each empty_256 [3; 64; 65; 200] = Ret scenario_A
  ∧ veb_tree.find_first_valid_index 1 scenario_A = Ret 3
  ∧ veb_tree.successor scenario_A 3 = Ret 64
  ∧ veb_tree.successor scenario_A 65 = Ret 200
  ∧ veb_tree.successor scenario_A 200 = Ret veb_tree.fail.
Proof.
  split; [intros tr i Hinv Hi; apply successor_spec; done|].
  repeat split; vm_compute; reflexivity.
Qed.

Lemma successor_smallest_above_witness :
  ∃ r, veb_tree.successor scenario_A 3 = Ret r
     ∧ ((r = veb_tree.fail ∧ ∀ s, member scenario_A s → s <= 3)
        ∨ (member scenario_A r ∧ 3 + 1 <= r
           ∧ ∀ s, member scenario_A s → 3 + 1 <= s → r <= s)).
Proof.
  apply (proj1 successor_smallest_above scenario_A 3).
  - apply tree_inv_b_sound. vm_compute. reflexivity.
  - simpl. lia.
Defined.




(** C4, as the specification words it, fails: on the universe of 256
    holding the indices below 194, gather_multiple(2) succeeds at 192 and
    clears the summary bit of the last leaf word; return_multiple(192, 2)
    puts the two leaf bits back but not the summary bit, because the word
    below does not hold all 64 bits. *)
Lemma return_leaves_summary_clear :
  remove_each (veb_tree.generate_on_device 256 0) (seqZ 194 62) = Ret low_194
  ∧ tree_inv low_194
  ∧ veb_tree.gather_multiple 3 low_194 2 = Ret (192, low_194_gathered)
  ∧ veb_tree.return_multiple 3 low_194_gathered 192 2 = Ret low_194_returned
  ∧ low_194_returned ≠ low_194.
Proof.
  split; [vm_compute; reflexivity|].
  split; [apply tree_inv_b_sound; vm_compute; reflexivity|].
  split; [vm_compute; reflexivity|].
  split; [vm_compute; reflexivity|].
  discriminate.
Qed.

(** C4, amended: when gather_multiple(n) succeeds with result r, the
    call return_multiple(r, n) that follows runs to its end and leaves
    the bottom layer exactly as it was before the gather.  The summary
    layers are not restored in general: return_multiple sets a summary
    bit again only when the word below it holds all 64 bits. *)
Theorem gather_return_restores_bottom
    (tr tr1 : veb_tree.t) (fuel : nat) (n r : Z) :
  tree_storage_ok tr → 1 <= n < 2 ^ 64 →
  veb_tree.gather_multiple fuel tr n = Ret (r, tr1) → r ≠ veb_tree.fail →
  (∃ tr2, veb_tree.return_multiple (S (Z.to_nat (n / 64 + 1))) tr1 r n = Ret tr2
        ∧ bottom_layer tr2 = bottom_layer tr)
  ∧ (∀ t lyr below working_bit bits,
       0 <= working_bit < 2 ^ 64 - 1 →
       veb_tree.get_layer t (S lyr) = Ret below →
       layer.load below working_bit = Ret bits → __popcll bits ≠ 64 →
       veb_tree.maybe_return_layer_bits t lyr working_bit 1 = Ret t).
Proof.
  intros Hst Hn Hg Hr. split.
  - destruct (gather_return_total tr tr1 fuel n r Hst Hn Hg Hr) as [tr2 Hret].
    exists tr2. split; [done|].
    apply (gather_return_bottom tr tr1 tr2 fuel _ n r (proj1 Hst) ltac:(lia) Hg Hr Hret).
  - intros t lyr below wb bits Hwb Hb Hl Hp.
    unfold veb_tree.maybe_return_layer_bits. rewrite (wrap64_small (wb + 1)) by lia.
    replace (wb + 1 - wb) with 1 by lia.
    simpl. rewrite Hb. simpl. rewrite Hl. simpl.
    destruct (Z.eqb_spec (__popcll bits) 64); done.
Qed.

Lemma gather_return_restores_bottom_witness :
  ∃ tr2, veb_tree.return_multiple (S (Z.to_nat (2 / 64 + 1))) low_194_gathered 192 2
           = Ret tr2
       ∧ bottom_layer tr2 = bottom_layer low_194.
Proof.
  apply (gather_return_restores_bottom low_194 low_194_gathered 3 2 192).
  - apply tree_inv_storage_ok; [|simpl; lia].
    apply tree_inv_b_sound. vm_compute. reflexivity.
  - lia.
  - vm_compute. reflexivity.
  - unfold veb_tree.fail. lia.
Defined.

(** C5: gather_multiple(70) on a layer of 128 bits in which only bits 64
    to 73 are set returns the failure sentinel, and the layer is not what
    it was: bits 0 to 9, which were clear, have been set. *)
Theorem gather_failure_sets_bits (fuel : nat) :
  layer.gather_multiple (3 + fuel) layer_64_to_73 70
    = Ret (0xffffffffffffffff, layer_64_to_73_after)
  ∧ layer_64_to_73_after ≠ layer_64_to_73
  ∧ lbit layer_64_to_73 0 = false ∧ lbit layer_64_to_73_after 0 = true.
Proof.
  split; [vm_compute; reflexivity|].
  split; [discriminate|]. split; vm_compute; reflexivity.
Qed.

(** C6: on a segment bound to the size class, get_block takes one from
    the segment's active count with an atomic decrement that returns the
    count it found.  When that count is negative the segment is exhausted:
    the decrement is taken back, the table is as it was, and the call
    returns nullptr.  Otherwise the next block of the segment is returned,
    the count is one lower, and is_last is true exactly when the count
    the decrement returned is 0. *)
Theorem get_block_counts {Block : Type} (init_malloc : Z → Block → Block)
    (tb : @alloc_table.t Block) (segment_id tree_id c : Z) :
  0 <= segment_id →
  alloc_table.chunk_ids tb !! Z.to_nat segment_id = Some tree_id →
  alloc_table.active_counts tb !! Z.to_nat segment_id = Some c →
  - 2 ^ 31 <= c < 2 ^ 31 →
  (c < 0 →
     alloc_table.get_block init_malloc tb segment_id tree_id = Ret (None, false, tb))
  ∧ (0 <= c → ∀ id, next_block tb segment_id tree_id id →
       ∃ tb', alloc_table.get_block init_malloc tb segment_id tree_id
                = Ret (Some id, c =? 0, tb')
            ∧ alloc_table.active_counts tb' !! Z.to_nat segment_id = Some (c - 1)).
Proof.
  intros Hseg Hid Hc Hr. split.
  - intros Hneg. apply (get_block_exhausted init_malloc tb segment_id tree_id c); first [done|lia].
  - intros Hpos id Hnext.
    apply (get_block_grants init_malloc tb segment_id tree_id c id); first [done|lia].
Qed.

Lemma get_block_counts_witness :
  ∃ tb', alloc_table.get_block format_block segment_0_bound 0 1
           = Ret (Some 0, 127 =? 0, tb')
       ∧ alloc_table.active_counts tb' !! Z.to_nat 0 = Some (127 - 1).
Proof.
  apply (proj2 (get_block_counts format_block segment_0_bound 0 1 127
                  ltac:(lia) ltac:(reflexivity) ltac:(reflexivity) ltac:(lia)));
    [lia|].
  exists 0. split; [reflexivity|]. split; [lia|]. split; [simpl; lia|].
  split; [simpl; lia|]. split; [lia|].
  split; [exists 0; reflexivity|].
  left. split; [vm_compute; reflexivity|reflexivity].
Defined.

(** C8, as the specification words it, fails: while another thread holds
    the tree lock of an empty size class, an iteration of
    request_new_block_from_tree finds no segment, does not get the lock,
    and goes round again without counting an attempt; with the lock held
    for good the loop never returns.  Nor does the wait for the lock of
    the segment tree at the head of malloc_segment_allocation, which has
    no attempt counter at all. *)
Lemma held_lock_never_returns :
  veb_tree.find_random_valid_index 1 empty_256 0 0 = Ret veb_tree.fail
  ∧ Gallatin.acquire_tree_lock 1 0 = (false, 1)
  ∧ (¬ ∃ fuel r, Gallatin.request_new_block_from_tree fuel held_lock = Ret r)
  ∧ (¬ ∃ fuel r, Gallatin.wait_for_tree_lock fuel (lock_taken 8) 0 8 = Ret r).
Proof.
  split; [apply held_lock_realised|]. split; [reflexivity|]. split.
  - intros (fuel & r & H). unfold Gallatin.request_new_block_from_tree in H.
    rewrite held_lock_spins in H. discriminate.
  - intros (fuel & r & H). rewrite lock_taken_spins in H by lia. discriminate.
Qed.

(** C8, amended: each of the three retry loops of malloc calls its
    allocation routine until it answers an offset other than ~0, 10 times
    at most on the slice path and 500 times at most on the block and on
    the segment path, and then returns, whatever the routines answer:
    malloc returns the address of the first such offset among these
    answers, and nullptr when there is none.
    request_new_block_from_tree returns within 1000 evaluations of its
    loop body provided every iteration either returns or counts an
    attempt, and after exactly 1000 of them when every gather_new_segment
    fails; an iteration that finds no segment and does not get the tree
    lock counts nothing, and neither does one whose get_block comes back
    with nullptr. *)
Theorem retry_loops_bounded :
  (∀ (Block : Type) (table : @alloc_table.t Block)
     (smallest smallest_bits num_trees : Z) (mb ms msl : Z → Z) (size : Z),
     ∃ r, Gallatin.malloc 501 table smallest smallest_bits num_trees mb ms msl size
          = Ret r)
  ∧ (∀ sched, progresses sched →
       ∃ r, Gallatin.request_new_block_from_tree 1001 sched = Ret r)
  ∧ (∀ a attempts,
       Gallatin.segment a = veb_tree.fail → Gallatin.lock_acquired a = false →
       Gallatin.request_iteration a attempts = Gallatin.Continues attempts)
  ∧ (∀ a attempts,
       Gallatin.segment a ≠ veb_tree.fail → Gallatin.new_block a = None →
       Gallatin.request_iteration a attempts = Gallatin.Continues attempts)
  ∧ (∀ (Block : Type) (table : @alloc_table.t Block)
       (smallest smallest_bits num_trees : Z) (mb ms msl : Z → Z) (size : Z),
       let tree_id := Gallatin.get_tree_id_from_size smallest smallest_bits size in
       let block_tree := Gallatin.get_first_bit_bigger size
                         - Gallatin.get_first_bit_bigger (wrap64 (smallest * 4096)) in
       Gallatin.malloc 501 table smallest smallest_bits num_trees mb ms msl size
       = Ret (if num_trees <=? tree_id then
                if block_tree <? 0 then
                  address_of table (first_offset 10 msl 0) (num_trees - 1)
                else if block_tree <? num_trees then
                  address_of table (first_offset 500 mb 0) (block_tree mod 2 ^ 16)
                else address_of table (first_offset 500 ms 0) 0
              else address_of table (first_offset 10 msl 0) tree_id))
  ∧ Gallatin.request_new_block_from_tree 1001 out_of_segments = Ret None
  ∧ Gallatin.request_new_block_from_tree 1000 out_of_segments = OutOfFuel.
Proof.
  split; [intros; apply malloc_returns|]. split; [|split; [|split; [|split]]].
  - intros sched Hp. unfold Gallatin.request_new_block_from_tree.
    apply request_loop_returns; [done|lia|vm_compute; lia].
  - intros a attempts Hs Hl. unfold Gallatin.request_iteration.
    rewrite Hs, Hl. reflexivity.
  - intros a attempts Hs Hn. unfold Gallatin.request_iteration, Gallatin.request_block_step.
    destruct (Z.eqb_spec (Gallatin.segment a) veb_tree.fail); [done|].
    rewrite Hn. reflexivity.
  - intros. apply malloc_first_offset.
  - split; vm_compute; reflexivity.
Qed.

Lemma retry_loops_bounded_witness :
  ∃ r, Gallatin.request_new_block_from_tree 1001 out_of_segments = Ret r.
Proof.
  apply (proj1 (proj2 retry_loops_bounded) out_of_segments).
  intros k attempts. simpl. intros H. injection H. lia.
Defined.




(** C10: for a size class tree_id below num_trees and an offset whose
    segment index is below num_segments and whose slot inside the segment
    is below bytes_per_segment / (min_size * 2^tree_id),
    allocation_to_offset(offset_to_allocation(offset, tree_id), tree_id)
    is offset.  The memory of the table is taken to lie inside the 64-bit
    address space. *)
Theorem offset_allocation_roundtrip {Block : Type} (tb : @alloc_table.t Block)
    (num_trees tree_id offset : Z) :
  0 < alloc_table.min_size tb →
  0 < alloc_table.bytes_per_segment tb < 2 ^ 64 →
  0 <= alloc_table.memory tb →
  alloc_table.memory tb
    + alloc_table.num_segments tb * alloc_table.bytes_per_segment tb <= 2 ^ 64 →
  0 <= tree_id < num_trees →
  0 <= offset < 2 ^ 64 →
  offset / alloc_table.get_max_allocations_per_segment tb < alloc_table.num_segments tb →
  offset mod alloc_table.get_max_allocations_per_segment tb
    < alloc_table.bytes_per_segment tb / (alloc_table.min_size tb * 2 ^ tree_id) →
  alloc_table.allocation_to_offset tb
    (alloc_table.offset_to_allocation tb offset tree_id) tree_id = offset.
Proof.
  intros Hms Hbps Hmem Hfit Htree Hoff Hseg Hslot.
  unfold alloc_table.get_max_allocations_per_segment in *.
  set (bps := alloc_table.bytes_per_segment tb) in *.
  set (ms := alloc_table.min_size tb) in *.
  set (mem := alloc_table.memory tb) in *.
  set (M := bps / ms) in *.
  assert (Hp : 0 < 2 ^ tree_id) by (apply Z.pow_pos_nonneg; lia).
  set (sz := ms * 2 ^ tree_id) in *.
  assert (Hsz : 0 < sz) by (unfold sz; nia).
  assert (Hbpsz : sz <= bps).
  { destruct (Z_lt_ge_dec bps sz); [|lia].
    rewrite (Z.div_small bps sz) in Hslot by lia.
    destruct (Z.eq_dec M 0) as [E|NE].
    - rewrite E, Z.mod_0_r in Hslot. lia.
    - pose proof (Z.mod_pos_bound offset M).
      assert (0 <= M) by (apply Z.div_pos; lia). lia. }
  assert (HMpos : 0 < M).
  { apply Z.div_str_pos. unfold sz in Hbpsz. nia. }
  pose proof (Z.mod_pos_bound offset M HMpos) as Hrel.
  pose proof (Z.div_mod offset M ltac:(lia)) as Hdm.
  set (seg := offset / M) in *. set (rel := offset mod M) in *.
  assert (Hseg0 : 0 <= seg) by (apply Z.div_pos; lia).
  assert (Hrelsz : rel * sz < bps).
  { pose proof (Z.mul_div_le bps sz Hsz). nia. }
  assert (Htid : tree_id < 64).
  { apply (pow2_le_lt64 tree_id bps); [lia| |lia]. unfold sz in Hbpsz. nia. }
  assert (Has : alloc_table.get_tree_alloc_size tb tree_id = sz).
  { unfold alloc_table.get_tree_alloc_size, alloc_table.get_p2_from_index.
    rewrite shl64_1_pow by lia. fold ms. apply wrap64_small. unfold sz in *. lia. }
  assert (Hsegb : bps * seg + rel * sz < bps * alloc_table.num_segments tb) by nia.
  assert (Hstart : ∀ s, 0 <= s < alloc_table.num_segments tb →
            alloc_table.get_segment_memory_start tb s = mem + bps * s).
  { intros s Hs. unfold alloc_table.get_segment_memory_start. fold bps mem.
    rewrite (wrap64_small (bps * s)) by nia. apply wrap64_small. nia. }
  unfold alloc_table.offset_to_allocation, alloc_table.allocation_to_offset.
  unfold alloc_table.get_max_allocations_per_segment. fold bps ms mem M seg rel.
  rewrite Has, Hstart by lia.
  rewrite (wrap64_small (rel * sz)) by nia.
  rewrite (wrap64_small (mem + bps * seg + rel * sz)) by nia.
  replace (mem + bps * seg + rel * sz - mem) with (bps * seg + rel * sz) by lia.
  rewrite (wrap64_small (bps * seg + rel * sz)) by nia.
  assert (Hq : (bps * seg + rel * sz) / bps = seg).
  { symmetry. apply (Z.div_unique _ _ _ (rel * sz)); nia. }
  rewrite Hq, Hstart by lia.
  replace (mem + bps * seg + rel * sz - (mem + bps * seg)) with (rel * sz) by lia.
  rewrite (wrap64_small (rel * sz)) by nia.
  rewrite Z.div_mul by lia.
  rewrite (wrap64_small (seg * M)) by nia.
  rewrite wrap64_small by nia. lia.
Qed.

Lemma offset_allocation_roundtrip_witness :
  alloc_table.allocation_to_offset two_segments
    (alloc_table.offset_to_allocation two_segments (2 ^ 20 + 5) 2) 2 = 2 ^ 20 + 5.
Proof.
  apply (offset_allocation_roundtrip two_segments 8 2 (2 ^ 20 + 5)).
  - simpl. lia.
  - simpl. lia.
  - simpl. lia.
  - simpl. lia.
  - lia.
  - lia.
  - vm_compute. reflexivity.
  - vm_compute. reflexivity.
Defined.

(** * Removal *)

Lemma popc_from_clear (x x' k : Z) (n : nat) : ∀ i,
  Z.testbit x k = true →
  (∀ b, i <= b < i + Z.of_nat n → Z.testbit x' b = Z.testbit x b && negb (b =? k)) →
  popc_from n i x
  = popc_from n i x' + (if (i <=? k) && (k <? i + Z.of_nat n) then 1 else 0).
Proof.
  induction n as [|n IH]; intros i Hk Hb; simpl popc_from.
  - destruct (Z.leb_spec i k), (Z.ltb_spec k (i + Z.of_nat 0)); simpl; lia.
  - rewrite (IH (i + 1)) by first [done | intros; apply Hb; lia].
    rewrite (Hb i) by lia.
    destruct (Z.eqb_spec i k) as [->|Hne].
    + rewrite Hk. simpl.
      destruct (Z.leb_spec (k + 1) k), (Z.ltb_spec k (k + 1 + Z.of_nat n)),
        (Z.leb_spec k k), (Z.ltb_spec k (k + Z.of_nat (S n))); simpl; lia.
    + rewrite andb_true_r.
      destruct (Z.leb_spec (i + 1) k), (Z.ltb_spec k (i + 1 + Z.of_nat n)),
        (Z.leb_spec i k), (Z.ltb_spec k (i + Z.of_nat (S n))); simpl; lia.
Qed.

(* a word with bit [k] set holds exactly one bit, or another one too *)
Lemma popcll_one_cases (w k : Z) :
  0 <= k < 64 → Z.testbit w k = true →
  (__popcll w = 1 ∧ ∀ b, 0 <= b < 64 → b ≠ k → Z.testbit w b = false)
  ∨ (__popcll w ≠ 1 ∧ ∃ b, 0 <= b < 64 ∧ b ≠ k ∧ Z.testbit w b = true).
Proof.
  intros Hk Hbit.
  set (w' := Z.land w (not64 (SET_BIT_MASK k))).
  assert (Hw' : ∀ b, 0 <= b < 0 + Z.of_nat 64 →
            Z.testbit w' b = Z.testbit w b && negb (b =? k)).
  { intros b Hb. unfold w'.
    rewrite Z.land_spec, testbit_not64, testbit_SET_BIT_MASK by lia.
    destruct (Z.ltb_spec b 64); [done|lia]. }
  assert (Hp : __popcll w = __popcll w' + 1).
  { unfold __popcll. rewrite (popc_from_clear w w' k 64 0 Hbit Hw').
    destruct (Z.leb_spec 0 k); [|lia].
    destruct (Z.ltb_spec k (0 + Z.of_nat 64)); [|lia]. done. }
  destruct (Z.eq_dec (__popcll w') 0) as [E|NE].
  - left. split; [lia|]. intros b Hb Hne.
    pose proof (proj1 (popcll_zero w') E b Hb) as H0.
    rewrite Hw' in H0 by lia. destruct (Z.eqb_spec b k); [done|].
    rewrite andb_true_r in H0. done.
  - right. split; [lia|]. destruct (popcll_nonzero w' NE) as (b & Hb & Hbb).
    rewrite Hw' in Hbb by lia. apply andb_true_iff in Hbb as [Hbb Hnk].
    exists b. split; [done|]. split; [|done].
    destruct (Z.eqb_spec b k); done.
Qed.

Lemma testbit_clear (w k b : Z) :
  0 <= k < 64 → 0 <= b < 64 →
  Z.testbit (Z.land w (not64 (SET_BIT_MASK k))) b = Z.testbit w b && negb (b =? k).
Proof.
  intros. rewrite Z.land_spec, testbit_not64, testbit_SET_BIT_MASK by lia.
  destruct (Z.ltb_spec b 64); [done|lia].
Qed.

(* clearing a bit that is clear leaves the word as it is *)
Lemma land_clear_id (w k : Z) :
  0 <= w < 2 ^ 64 → 0 <= k < 64 → Z.testbit w k = false →
  Z.land w (not64 (SET_BIT_MASK k)) = w.
Proof.
  intros Hw Hk Hb. apply word_eq; [apply land_range; done|done|].
  intros i Hi. rewrite testbit_clear by lia.
  destruct (Z.eqb_spec i k) as [->|]; [rewrite Hb; done|]. apply andb_true_r.
Qed.

(* layer.remove at position p clears bit p and nothing else *)
Lemma layer_remove_spec (l : layer.t) (p : Z) :
  layer_ok l → 0 <= p < layer.universe_size l →
  ∃ old l', layer.remove l (p / 64) (p mod 64) = Ret (old, l')
    ∧ layer.bits l !! Z.to_nat (p / 64) = Some old
    ∧ Z.testbit old (p mod 64) = lbit l p
    ∧ layer.universe_size l' = layer.universe_size l
    ∧ layer.num_blocks l' = layer.num_blocks l
    ∧ layer_ok l'
    ∧ (∀ j, lbit l' j = lbit l j && negb (j =? p))
    ∧ (lbit l p = false → l' = l).
Proof.
  intros Hok Hp. pose proof Hok as (Hu & Hn & Hlen & Hw & Hbound).
  pose proof (Z.mod_pos_bound p 64 ltac:(lia)) as Hmod.
  pose proof (Z.div_mod p 64 ltac:(lia)) as Hdm.
  assert (Hh : 0 <= p / 64 < layer.num_blocks l).
  { rewrite Hn. split; [apply Z.div_pos; lia|].
    assert (p / 64 <= (layer.universe_size l - 1) / 64); [|lia].
    apply Z.div_le_mono; lia. }
  destruct (layer_ok_word l _ Hok Hh) as [old Hold].
  pose proof (words_ok_lookup _ _ _ Hw Hold) as Holdr.
  set (new := Z.land old (not64 (SET_BIT_MASK (p mod 64)))).
  exists old, (layer.with_bits l (<[Z.to_nat (p / 64) := new]> (layer.bits l))).
  unfold layer.remove, layer.atomicAnd, layer.load. rewrite Hold. simpl. fold new.
  assert (Hbits : ∀ j, lbit (layer.with_bits l
            (<[Z.to_nat (p / 64) := new]> (layer.bits l))) j
          = lbit l j && negb (j =? p)).
  { intros j. rewrite lbit_store by lia.
    destruct (Z.leb_spec 0 j); simpl.
    - destruct (Z.eqb_spec (j / 64) (p / 64)) as [E|NE].
      + pose proof (Z.mod_pos_bound j 64 ltac:(lia)).
        pose proof (Z.div_mod j 64 ltac:(lia)).
        unfold new. rewrite testbit_clear by lia.
        replace (lbit l j) with (Z.testbit old (j mod 64)).
        2:{ unfold lbit. rewrite E, Hold. simpl.
            destruct (Z.leb_spec 0 j); [done|lia]. }
        f_equal. destruct (Z.eqb_spec (j mod 64) (p mod 64)), (Z.eqb_spec j p);
          try done; exfalso; lia.
      + destruct (Z.eqb_spec j p) as [->|]; [done|]. rewrite andb_true_r. done.
    - destruct (Z.eqb_spec j p); [lia|]. rewrite andb_true_r. done. }
  split; [done|]. split; [done|]. split.
  { unfold lbit. rewrite Hold. simpl. destruct (Z.leb_spec 0 p); [done|lia]. }
  split; [done|]. split; [done|]. split.
  { split; [done|]. split; [done|]. split; [simpl; rewrite length_insert; done|].
    split.
    - apply words_ok_store; [done|]. apply land_range. done.
    - intros j Hj. rewrite Hbits in Hj. apply andb_true_iff in Hj as [Hj _].
      apply Hbound. done. }
  split; [done|].
  intros Hclear. unfold new. rewrite land_clear_id; [|done|lia|].
  - rewrite list_insert_id by done. apply with_bits_id.
  - unfold lbit in Hclear. rewrite Hold in Hclear. simpl in Hclear.
    destruct (Z.leb_spec 0 p); [done|lia].
Qed.

(* layers[lyr]->remove at position p, seen from the tree *)
Lemma tree_layer_remove_spec (tr : veb_tree.t) (lyr : nat) (L : layer.t) (p : Z) :
  veb_tree.layers tr !! lyr = Some L → layer_ok L → 0 <= p < layer.universe_size L →
  ∃ old L', veb_tree.layer_remove tr lyr (p / 64) (p mod 64)
              = Ret (old, veb_tree.set_layer tr lyr L')
    ∧ layer.bits L !! Z.to_nat (p / 64) = Some old
    ∧ Z.testbit old (p mod 64) = lbit L p
    ∧ layer.universe_size L' = layer.universe_size L
    ∧ layer.num_blocks L' = layer.num_blocks L
    ∧ layer_ok L'
    ∧ (∀ j, lbit L' j = lbit L j && negb (j =? p))
    ∧ (lbit L p = false → L' = L).
Proof.
  intros HL Hok Hp.
  destruct (layer_remove_spec L p Hok Hp) as (old & L' & Hrem & Hrest).
  exists old, L'. split; [|done].
  unfold veb_tree.layer_remove, veb_tree.get_layer. rewrite HL. simpl.
  rewrite Hrem. done.
Qed.

(* one removal on the way up: clearing bit [p] of layers[lyr], whose
   group below is empty, leaves at most the summary bit [p / 64] of the
   layer above stale *)
Lemma remove_step (tr : veb_tree.t) (lyr : nat) (L L' : layer.t) (p : Z) :
  inv_upto tr (S lyr) p →
  veb_tree.layers tr !! lyr = Some L →
  0 <= p < layer.universe_size L →
  layer.universe_size L' = layer.universe_size L →
  layer.num_blocks L' = layer.num_blocks L →
  layer_ok L' →
  (∀ j, lbit L' j = lbit L j && negb (j =? p)) →
  (∀ lo, veb_tree.layers tr !! S lyr = Some lo →
         ∀ b, 0 <= b < 64 → lbit lo (64 * p + b) = false) →
  inv_upto (veb_tree.set_layer tr lyr L') lyr (p / 64).
Proof.
  intros (H1 & H2 & H3 & H4 & H5 & H6) HL Hp HuL HnL HokL Hbits Hgroup.
  assert (Hlt : (lyr < length (veb_tree.layers tr))%nat) by (apply lookup_lt_Some in HL; done).
  split; [done|]. split; [rewrite set_layer_length; done|]. split.
  { unfold veb_tree.set_layer. simpl. apply Forall_insert; done. }
  split; [|split].
  - intros i up lo. rewrite !set_layer_lookup by done.
    destruct (decide (i = lyr)) as [->|Hi].
    + destruct (decide (S lyr = lyr)); [lia|]. intros [= <-] Hlo.
      split; [lia|]. intros _.
      destruct (H4 lyr L lo HL Hlo) as [Hb _]. destruct (Hb eq_refl) as [Hu Hj].
      split; [lia|]. intros j Hj0. rewrite Hbits.
      destruct (Z.eqb_spec j p) as [->|Hne].
      * rewrite andb_false_r. split; [done|].
        intros (b & Hb' & Hbit). rewrite (Hgroup lo Hlo b Hb') in Hbit. done.
      * rewrite andb_true_r. apply Hj; done.
    + destruct (decide (S i = lyr)) as [E|NE].
      * intros Hup [= <-]. destruct (H4 i up L Hup ltac:(rewrite E; done)) as [_ Hs].
        destruct (Hs ltac:(lia)) as [Hu Hj].
        split; [|done]. intros _. split; [lia|]. intros j Hj0 Hne.
        rewrite (Hj j Hj0). split; intros (b & Hb & Hbit); exists b; (split; [done|]).
        -- rewrite Hbits, Hbit. simpl.
           destruct (Z.eqb_spec (64 * j + b) p) as [Ep|]; [|done].
           exfalso. apply Hne. apply (Z.div_unique _ _ _ b); lia.
        -- rewrite Hbits in Hbit. apply andb_true_iff in Hbit as [Hbit _]. done.
      * intros Hup Hlo. destruct (H4 i up lo Hup Hlo) as [_ Hs].
        split; [lia|]. intros _. apply Hs. lia.
  - intros top. rewrite set_layer_lookup by done.
    destruct (decide (O = lyr)) as [<-|]; [|apply H5].
    intros [= <-]. rewrite HnL. apply H5. done.
  - intros leaf. unfold bottom_layer. rewrite set_layer_length, set_layer_lookup by done.
    destruct (decide (Nat.pred (length (veb_tree.layers tr)) = lyr)) as [E|]; [|apply H6].
    intros [= <-]. rewrite HuL. apply H6. unfold bottom_layer. rewrite E. done.
Qed.

Lemma remove_loop_eq (lyr : nat) (tr : veb_tree.t) (high old : Z) :
  veb_tree.remove_loop lyr tr high old =
  if __popcll old =? 1 then
    match lyr with
    | O => Ret tr
    | S lyr' =>
      '(old, tr1) ← veb_tree.layer_remove tr lyr' (veb_tree.float_up_high high)
                      (veb_tree.float_up_low high);
      veb_tree.remove_loop lyr' tr1 (veb_tree.float_up_high high) old
    end
  else Ret tr.
Proof. destruct lyr; reflexivity. Qed.

(* what is known of the word a removal has just written to: [old] held
   only the removed bit and the word is empty now, or it held more *)
Lemma word_after_clear (L L' : layer.t) (p old : Z) :
  0 <= p → layer.bits L !! Z.to_nat (p / 64) = Some old →
  lbit L p = true →
  (∀ j, lbit L' j = lbit L j && negb (j =? p)) →
  (__popcll old = 1 ∧ ∀ b, 0 <= b < 64 → lbit L' (64 * (p / 64) + b) = false)
  ∨ (__popcll old ≠ 1 ∧ ∃ b, 0 <= b < 64 ∧ lbit L' (64 * (p / 64) + b) = true).
Proof.
  intros Hp Hold Hset Hbits.
  pose proof (Z.mod_pos_bound p 64 ltac:(lia)) as Hmod.
  pose proof (Z.div_mod p 64 ltac:(lia)) as Hdm.
  assert (Hq : 0 <= p / 64) by (apply Z.div_pos; lia).
  assert (Hk : Z.testbit old (p mod 64) = true).
  { rewrite <- (lbit_word L (p / 64) (p mod 64) old) by first [lia|done].
    rewrite <- Hdm. done. }
  destruct (popcll_one_cases old (p mod 64) Hmod Hk) as [[H1 Hall]|[H1 (b & Hb & Hne & Hbit)]].
  - left. split; [done|]. intros b Hb. rewrite Hbits.
    destruct (Z.eqb_spec (64 * (p / 64) + b) p) as [E|NE]; [apply andb_false_r|].
    rewrite andb_true_r. rewrite (lbit_word L (p / 64) b old) by first [lia|done].
    apply Hall; [done|]. intros ->. lia.
  - right. split; [done|]. exists b. split; [done|]. rewrite Hbits.
    rewrite (lbit_word L (p / 64) b old) by first [lia|done]. rewrite Hbit. simpl.
    destruct (Z.eqb_spec (64 * (p / 64) + b) p); [lia|done].
Qed.

Lemma remove_loop_spec (lyr : nat) : ∀ tr high old L,
  inv_upto tr lyr high →
  veb_tree.layers tr !! lyr = Some L →
  0 <= high < layer.num_blocks L →
  ((__popcll old = 1 ∧ ∀ b, 0 <= b < 64 → lbit L (64 * high + b) = false)
   ∨ (__popcll old ≠ 1 ∧ ∃ b, 0 <= b < 64 ∧ lbit L (64 * high + b) = true)) →
  (∀ i up, S i = lyr → veb_tree.layers tr !! i = Some up → lbit up high = true) →
  ∃ tr', veb_tree.remove_loop lyr tr high old = Ret tr'
    ∧ tree_inv tr'
    ∧ length (veb_tree.layers tr') = length (veb_tree.layers tr)
    ∧ ∀ i, (lyr <= i)%nat → veb_tree.layers tr' !! i = veb_tree.layers tr !! i.
Proof.
  induction lyr as [|lyr IH]; intros tr high old L Hinv HL Hh Hword Hstale;
    rewrite remove_loop_eq;
    destruct (Z.eqb_spec (__popcll old) 1) as [E1|N1].
  - exists tr. split; [done|]. split; [|done].
    apply (inv_close tr O high Hinv). intros i up lo Hi. lia.
  - exists tr. split; [done|]. split; [|done].
    apply (inv_close tr O high Hinv). intros i up lo Hi. lia.
  - destruct Hword as [[_ Hempty]|[Hne _]]; [|done].
    pose proof Hinv as (H1 & H2 & H3 & H4 & H5 & H6).
    assert (Hlt : (lyr < length (veb_tree.layers tr))%nat).
    { apply lookup_lt_Some in HL. lia. }
    destruct (lookup_lt_is_Some_2 _ _ Hlt) as [up Hup].
    pose proof (Forall_lookup_1 _ _ _ _ H3 Hup) as Hokup.
    destruct (H4 lyr up L Hup HL) as [Hb _]. destruct (Hb eq_refl) as [Hu _].
    rewrite float_up_high_eq, float_up_low_eq.
    destruct (tree_layer_remove_spec tr lyr up high Hup Hokup ltac:(lia))
      as (old' & up' & -> & Hw' & Hbit' & Hu' & Hn' & Hok' & Hbits' & _).
    simpl.
    assert (Hinv1 : inv_upto (veb_tree.set_layer tr lyr up') lyr (high / 64)).
    { apply (remove_step tr lyr up up' high); try done; [lia|].
      intros lo Hlo. assert (lo = L) by congruence. subst lo. done. }
    pose proof (Z.mod_pos_bound high 64 ltac:(lia)) as Hmod.
    pose proof (Z.div_mod high 64 ltac:(lia)) as Hdm.
    pose proof (Hstale lyr up eq_refl Hup) as Hset.
    destruct (IH (veb_tree.set_layer tr lyr up') (high / 64) old' up' Hinv1)
      as (tr' & Hloop & Hinv' & Hlen' & Hsame').
    + rewrite set_layer_lookup by done. destruct (decide (lyr = lyr)); done.
    + destruct Hokup as (_ & Hn & _). rewrite Hn'. rewrite Hn.
      split; [apply Z.div_pos; lia|].
      assert (high / 64 <= (layer.universe_size up - 1) / 64); [|lia].
      apply Z.div_le_mono; lia.
    + apply (word_after_clear up up' high old'); first [done|lia].
    + intros i up2 Hi. rewrite set_layer_lookup by done.
      destruct (decide (i = lyr)); [lia|]. intros Hup2.
      destruct (H4 i up2 up Hup2 ltac:(rewrite Hi; done)) as [_ Hs].
      destruct (Hs ltac:(lia)) as [_ Hj].
      apply Hj; [apply Z.div_pos; lia|].
      exists (high mod 64). split; [done|]. rewrite <- Hdm. done.
    + exists tr'. split; [done|]. split; [done|]. split.
      * rewrite Hlen', set_layer_length. done.
      * intros i Hi. rewrite Hsame' by lia. rewrite set_layer_lookup by done.
        destruct (decide (i = lyr)); [lia|done].
  - destruct Hword as [[He _]|[_ Hsome]]; [done|].
    exists tr. split; [done|]. split; [|done].
    apply (inv_close tr (S lyr) high Hinv). intros i up lo Hi Hup Hlo.
    assert (lo = L) by congruence. subst lo.
    split; [intros _; done|]. intros _. apply (Hstale i up Hi Hup).
Qed.

(* remove on a well-formed tree: the bit is cleared, the invariant is
   restored, the result tells whether the bit was there *)
Lemma remove_spec (tr : veb_tree.t) (index : Z) :
  tree_inv tr → 0 <= index < veb_tree.total_universe tr →
  ∃ tr', veb_tree.remove tr index = Ret (leaf_bit tr index, tr')
    ∧ tree_inv tr'
    ∧ ∀ s, leaf_bit tr' s = leaf_bit tr s && negb (s =? index).
Proof.
  intros Hinv Hidx.
  destruct (inv_leaf tr Hinv) as (leaf & Hleaf & Hbl & Hu & Hok).
  destruct (inv_nl tr Hinv) as [Hnl1 Hnl].
  unfold veb_tree.remove. rewrite (inv_bottom tr Hinv).
  unfold depth in *. set (nl := length (veb_tree.layers tr)) in *. simpl.
  rewrite shiftr6, land63.
  destruct (tree_layer_remove_spec tr (nl - 1) leaf index Hleaf Hok ltac:(lia))
    as (old & leaf' & -> & Hw & Hbit & Hu' & Hn' & Hok' & Hbits & Hsame).
  simpl.
  pose proof (Z.mod_pos_bound index 64 ltac:(lia)) as Hmod.
  pose proof (Z.div_mod index 64 ltac:(lia)) as Hdm.
  rewrite land_SET_BIT_MASK by lia. rewrite Hbit.
  rewrite (leaf_bit_eq tr leaf index Hleaf).
  destruct (lbit leaf index) eqn:Eset; simpl.
  - assert (Hlt : (nl - 1 < length (veb_tree.layers tr))%nat) by (unfold nl in *; lia).
    assert (Hinv1 : inv_upto (veb_tree.set_layer tr (nl - 1) leaf') (nl - 1) (index / 64)).
    { apply (remove_step tr (nl - 1) leaf leaf' index); try done.
      - apply inv_weaken. done.
      - lia.
      - intros lo Hlo. apply lookup_lt_Some in Hlo. unfold nl in *. lia. }
    destruct (remove_loop_spec (nl - 1) (veb_tree.set_layer tr (nl - 1) leaf')
                (index / 64) old leaf' Hinv1)
      as (tr' & -> & Hinv' & Hlen' & Hsame').
    + rewrite set_layer_lookup by done. destruct (decide (nl - 1 = nl - 1)%nat); done.
    + destruct Hok as (_ & Hn & _). rewrite Hn', Hn, Hu.
      split; [apply Z.div_pos; lia|].
      assert (index / 64 <= (veb_tree.total_universe tr - 1) / 64); [|lia].
      apply Z.div_le_mono; lia.
    + apply (word_after_clear leaf leaf' index old); first [done|lia].
    + intros i up Hi. rewrite set_layer_lookup by done.
      destruct (decide (i = (nl - 1)%nat)); [lia|]. intros Hup.
      destruct (inv_summ tr Hinv i up leaf Hup ltac:(rewrite Hi; done)) as [_ Hj].
      apply Hj; [apply Z.div_pos; lia|].
      exists (index mod 64). split; [done|]. rewrite <- Hdm. done.
    + simpl. exists tr'. split; [done|]. split; [done|]. intros s.
      rewrite (leaf_bit_eq tr leaf s Hleaf).
      unfold leaf_bit, bottom_layer. rewrite Hlen', set_layer_length.
      fold nl. replace (Nat.pred nl) with (nl - 1)%nat by lia.
      rewrite Hsame' by lia. rewrite set_layer_lookup by done.
      destruct (decide (nl - 1 = nl - 1)%nat); [|done]. apply Hbits.
  - rewrite (Hsame eq_refl). rewrite (set_layer_same tr _ _ Hleaf).
    exists tr. split; [done|]. split; [done|]. intros s.
    rewrite (leaf_bit_eq tr leaf s Hleaf).
    destruct (Z.eqb_spec s index) as [->|]; [rewrite Eset; done|].
    rewrite andb_true_r. done.
Qed.

(** * What the tree operations leave alone *)

Lemma same_header_refl (tr : veb_tree.t) : same_header tr tr.
Proof. done. Qed.

Lemma same_header_trans (t1 t2 t3 : veb_tree.t) :
  same_header t1 t2 → same_header t2 t3 → same_header t1 t3.
Proof. intros (a & b & c) (d & e & f). repeat split; congruence. Qed.

Lemma layer_insert_header (tr tr' : veb_tree.t) (lyr : nat) (h low old : Z) :
  veb_tree.layer_insert tr lyr h low = Ret (old, tr') → same_header tr tr'.
Proof.
  unfold veb_tree.layer_insert. intros H.
  apply res_bind_Ret in H as (l & _ & H).
  apply res_bind_Ret in H as ([o l1] & _ & H). simplify_eq. done.
Qed.

Lemma layer_remove_header (tr tr' : veb_tree.t) (lyr : nat) (h low old : Z) :
  veb_tree.layer_remove tr lyr h low = Ret (old, tr') → same_header tr tr'.
Proof.
  unfold veb_tree.layer_remove. intros H.
  apply res_bind_Ret in H as (l & _ & H).
  apply res_bind_Ret in H as ([o l1] & _ & H). simplify_eq. done.
Qed.

Lemma insert_force_update_loop_header (lyr : nat) : ∀ tr tr' high old,
  veb_tree.insert_force_update_loop lyr tr high old = Ret tr' → same_header tr tr'.
Proof.
  induction lyr as [|lyr IH]; intros tr tr' high old H;
    rewrite insert_force_update_loop_eq in H;
    destruct (__popcll old =? 0); try (simplify_eq; done).
  apply res_bind_Ret in H as ([o t1] & H1 & H).
  apply layer_insert_header in H1. apply IH in H.
  apply (same_header_trans _ _ _ H1 H).
Qed.

Lemma remove_loop_header (lyr : nat) : ∀ tr tr' high old,
  veb_tree.remove_loop lyr tr high old = Ret tr' → same_header tr tr'.
Proof.
  induction lyr as [|lyr IH]; intros tr tr' high old H;
    rewrite remove_loop_eq in H;
    destruct (__popcll old =? 1); try (simplify_eq; done).
  apply res_bind_Ret in H as ([o t1] & H1 & H).
  apply layer_remove_header in H1. apply IH in H.
  apply (same_header_trans _ _ _ H1 H).
Qed.

Lemma insert_force_update_header (tr tr' : veb_tree.t) (index : Z) (b : bool) :
  veb_tree.insert_force_update tr index = Ret (b, tr') → same_header tr tr'.
Proof.
  unfold veb_tree.insert_force_update. intros H.
  apply res_bind_Ret in H as (lyr & _ & H).
  apply res_bind_Ret in H as ([o t1] & H1 & H). apply layer_insert_header in H1.
  simpl in H. destruct (negb _); [simplify_eq; done|].
  apply res_bind_Ret in H as (t2 & H2 & H). apply insert_force_update_loop_header in H2.
  simplify_eq. apply (same_header_trans _ _ _ H1 H2).
Qed.

Lemma remove_header (tr tr' : veb_tree.t) (index : Z) (b : bool) :
  veb_tree.remove tr index = Ret (b, tr') → same_header tr tr'.
Proof.
  unfold veb_tree.remove. intros H.
  apply res_bind_Ret in H as (lyr & _ & H).
  apply res_bind_Ret in H as ([o t1] & H1 & H). apply layer_remove_header in H1.
  simpl in H. destruct (_ =? 0); [simplify_eq; done|].
  apply res_bind_Ret in H as (t2 & H2 & H). apply remove_loop_header in H2.
  simplify_eq. apply (same_header_trans _ _ _ H1 H2).
Qed.

(** * Presence, as query reports it *)

Lemma query_leaf_bit (tr : veb_tree.t) (s : Z) :
  tree_inv tr → 0 <= s < veb_tree.total_universe tr →
  veb_tree.query tr s = Ret (leaf_bit tr s).
Proof.
  intros Hinv Hs.
  destruct (inv_leaf tr Hinv) as (leaf & Hl & Hlast & Hu & Hok).
  pose proof Hok as (Hus & Hnb & Hlen & Hw & _).
  rewrite (leaf_bit_eq tr leaf s Hl). unfold veb_tree.query.
  rewrite (inv_bottom tr Hinv). simpl. rewrite (get_layer_Some tr _ _ Hl). simpl.
  unfold layer.query, layer.load. rewrite shiftr6, land63.
  assert (Hh : 0 <= s / 64 < layer.num_blocks leaf).
  { rewrite Hnb, Hu. split; [apply Z.div_pos; lia|].
    assert (s / 64 <= (veb_tree.total_universe tr - 1) / 64); [|lia].
    apply Z.div_le_mono; lia. }
  destruct (layer_ok_word leaf _ Hok Hh) as [w Hword]. rewrite Hword. simpl.
  rewrite land_SET_BIT_MASK by (apply Z.mod_pos_bound; lia).
  rewrite negb_involutive. unfold lbit. rewrite Hword. simpl.
  destruct (Z.leb_spec 0 s); [done|lia].
Qed.

Lemma member_in_universe (tr : veb_tree.t) (s : Z) :
  tree_inv tr → member tr s → 0 <= s < veb_tree.total_universe tr.
Proof.
  intros Hinv Hm. pose proof Hm as [H0 _]. split; [done|].
  apply (member_leaf_bit tr Hinv) in Hm.
  destruct (inv_leaf tr Hinv) as (leaf & Hl & _ & Hu & Hok).
  rewrite (leaf_bit_eq tr leaf s Hl) in Hm.
  destruct Hok as (_ & _ & _ & _ & Hb). rewrite <- Hu. apply Hb. done.
Qed.

(** * The leaf layer determines the tree *)

Lemma layer_of_leaf (t1 t2 : veb_tree.t) :
  tree_inv t1 → tree_inv t2 → same_header t1 t2 →
  (∀ s, leaf_bit t2 s = leaf_bit t1 s) →
  ∀ d, (d < depth t1)%nat →
    veb_tree.layers t2 !! (depth t1 - 1 - d)%nat
    = veb_tree.layers t1 !! (depth t1 - 1 - d)%nat.
Proof.
  intros Hi1 Hi2 (Hs & Hu & Hn) Hleaf.
  destruct (inv_nl t1 Hi1) as [Hd1 Hn1]. destruct (inv_nl t2 Hi2) as [Hd2 Hn2].
  assert (Hdep : depth t2 = depth t1) by lia.
  induction d as [|d IH]; intros Hd.
  - rewrite Nat.sub_0_r.
    destruct (inv_leaf t1 Hi1) as (l1 & Hl1 & _ & Hu1 & Hok1).
    destruct (inv_leaf t2 Hi2) as (l2 & Hl2 & _ & Hu2 & Hok2).
    rewrite Hdep in Hl2. rewrite Hl1, Hl2. f_equal.
    pose proof Hok1 as (_ & Hnb1 & Hlen1 & Hw1 & _).
    pose proof Hok2 as (_ & Hnb2 & Hlen2 & Hw2 & _).
    assert (Hnb : layer.num_blocks l2 = layer.num_blocks l1).
    { rewrite Hnb1, Hnb2. congruence. }
    apply layer_ext; try done; try lia.
    intros j _. rewrite <- (leaf_bit_eq t2 l2 j), <- (leaf_bit_eq t1 l1 j); [done|done|].
      rewrite Hdep. done.
  - specialize (IH ltac:(lia)).
    set (i := (depth t1 - 1 - S d)%nat).
    replace (depth t1 - 1 - d)%nat with (S i) in IH by (unfold i; lia).
    destruct (inv_layer t1 Hi1 i) as (u1 & Hu1' & Hok1); [unfold i; lia|].
    destruct (inv_layer t2 Hi2 i) as (u2 & Hu2' & Hok2); [unfold i; lia|].
    destruct (inv_layer t1 Hi1 (S i)) as (lo & Hlo & _); [unfold i; lia|].
    pose proof (inv_summ t1 Hi1 i u1 lo Hu1' Hlo) as [Hun1 Hb1].
    pose proof (inv_summ t2 Hi2 i u2 lo Hu2' ltac:(rewrite IH; done)) as [Hun2 Hb2].
    rewrite Hu1', Hu2'. f_equal.
    pose proof Hok1 as (_ & Hnb1 & Hlen1 & Hw1 & _).
    pose proof Hok2 as (_ & Hnb2 & Hlen2 & Hw2 & _).
    assert (Hnb : layer.num_blocks u2 = layer.num_blocks u1).
    { rewrite Hnb1, Hnb2. congruence. }
    apply layer_ext; try done; try lia.
    intros j Hj. specialize (Hb1 j Hj). specialize (Hb2 j Hj).
    destruct (lbit u2 j), (lbit u1 j); try done.
    + symmetry. apply Hb1, Hb2. done.
    + apply Hb2, Hb1. done.
Qed.

Lemma leaf_determines_tree (t1 t2 : veb_tree.t) :
  tree_inv t1 → tree_inv t2 → same_header t1 t2 →
  (∀ s, leaf_bit t2 s = leaf_bit t1 s) → t2 = t1.
Proof.
  intros Hi1 Hi2 Hh Hleaf.
  pose proof (layer_of_leaf t1 t2 Hi1 Hi2 Hh Hleaf) as Hl.
  destruct Hh as (Hs & Hu & Hn).
  destruct (inv_nl t1 Hi1) as [Hd1 Hn1]. destruct (inv_nl t2 Hi2) as [Hd2 Hn2].
  assert (Hlayers : veb_tree.layers t2 = veb_tree.layers t1).
  { apply list_eq. intros i.
    destruct (Nat.lt_ge_cases i (depth t1)) as [Hlt|Hge].
    - specialize (Hl (depth t1 - 1 - i)%nat ltac:(lia)).
      replace (depth t1 - 1 - (depth t1 - 1 - i))%nat with i in Hl by lia. done.
    - rewrite !lookup_ge_None_2; [done|unfold depth in *; lia|unfold depth in *; lia]. }
  destruct t1, t2. simpl in *. subst. done.
Qed.

(** * The searches built on successor *)

(* where successor succeeds in going down, successor_thorough goes the
   same way *)
Lemma thorough_down_eq (fuel : nat) : ∀ tr lyr h w x,
  veb_tree.successor_down fuel tr lyr h w = Ret (Some x) →
  veb_tree.thorough_down fuel tr lyr h w = Ret x.
Proof.
  induction fuel as [|fuel IH]; intros tr lyr h w x H; [done|].
  simpl in *. destruct (Z.of_nat lyr =? veb_tree.num_layers tr - 1).
  { simplify_eq. done. }
  apply res_bind_Ret in H as (l & Hl & H). rewrite Hl. simpl.
  apply res_bind_Ret in H as (low & Hlow & H). rewrite Hlow. simpl.
  destruct (low =? -1); [done|]. apply IH. done.
Qed.

Lemma start_position (tr : veb_tree.t) (i : Z) (leaf : layer.t) :
  tree_inv tr → 0 <= i < veb_tree.total_universe tr →
  veb_tree.layers tr !! (depth tr - 1)%nat = Some leaf →
  position tr i (depth tr - 1) (i / 64) (i mod 64) leaf.
Proof.
  intros Hinv Hi Hleaf.
  destruct (inv_nl tr Hinv) as [Hnl1 Hnl].
  destruct (inv_leaf tr Hinv) as (leaf' & Hleaf' & _ & Hu & Hok).
  assert (leaf' = leaf) by congruence. subst leaf'.
  pose proof (Z.mod_pos_bound i 64 ltac:(lia)).
  split; [lia|]. split; [done|]. split.
  - destruct Hok as (_ & Hn & _). rewrite Hn, Hu.
    split; [apply Z.div_pos; lia|].
    assert (i / 64 <= (veb_tree.total_universe tr - 1) / 64); [|lia].
    apply Z.div_le_mono; lia.
  - split; [lia|]. intros s Hs. rewrite Nat.sub_diag. simpl.
    rewrite Z.div_1_r, <- Z.div_mod by lia. done.
Qed.

(* in a tree whose summaries are up to date the first round of
   successor_thorough already decides *)
Lemma successor_thorough_eq (tr : veb_tree.t) (i : Z) (fuel : nat) :
  tree_inv tr → 0 <= i < veb_tree.total_universe tr →
  veb_tree.successor_thorough (S fuel) tr i = veb_tree.successor tr i.
Proof.
  intros Hinv Hi.
  destruct (inv_nl tr Hinv) as [Hnl1 Hnl].
  destruct (inv_leaf tr Hinv) as (leaf & Hleaf & _ & Hu & Hok).
  pose proof (start_position tr i leaf Hinv Hi Hleaf) as Hpos.
  unfold veb_tree.successor_thorough, veb_tree.successor.
  rewrite (inv_bottom tr Hinv). simpl. rewrite shiftr6, land63.
  destruct (successor_up_spec tr Hinv i (depth tr - 1) _ _ _ Hpos)
    as [[-> Hnone]|(lyr' & h' & w' & L' & -> & Hpos' & Habove')]; simpl; [done|].
  destruct (successor_down_spec tr Hinv i (Z.to_nat (veb_tree.num_layers tr)) lyr' h' w' L'
              ltac:(lia) Hpos' Habove')
    as (h2 & w2 & Lf & Hdown & Hpos2 & Habove2).
  rewrite (thorough_down_eq _ _ _ _ _ _ Hdown), Hdown. simpl.
  pose proof Hpos2 as (_ & HLf & _ & Hw2 & _).
  rewrite (get_layer_Some tr _ _ HLf). simpl.
  destruct (position_find tr Hinv i _ _ _ _ Hpos2) as (r & -> & Hr). simpl.
  destruct Hr as [[-> Hnone]|(Hrange & Hbit & Hmin)].
  { destruct Habove2 as (r & Hr & Hb). rewrite Hnone in Hb; [done|lia]. }
  destruct (Z.eqb_spec r (-1)); [lia|]. done.
Qed.

Lemma successor_least (tr : veb_tree.t) (i : Z) (fuel : nat) :
  tree_inv tr → 0 <= i < veb_tree.total_universe tr →
  ∃ r, veb_tree.successor_thorough (S fuel) tr i = Ret r
     ∧ ((r = veb_tree.fail ∧ ∀ s, member tr s → s <= i)
        ∨ least_from tr (i + 1) r).
Proof.
  intros Hinv Hi. rewrite successor_thorough_eq by done.
  apply successor_spec; done.
Qed.

Lemma fail_not_member (tr : veb_tree.t) :
  tree_inv tr → ¬ member tr veb_tree.fail.
Proof.
  intros Hinv Hm. apply (member_in_universe tr _ Hinv) in Hm.
  destruct (inv_leaf tr Hinv) as (leaf & _ & _ & Hu & (Hus & _)).
  unfold veb_tree.fail in Hm. lia.
Qed.

(* find_first_valid_index: the smallest present index *)
Lemma find_first_spec (tr : veb_tree.t) (fuel : nat) :
  tree_inv tr →
  ∃ r, veb_tree.find_first_valid_index (S fuel) tr = Ret r
     ∧ ((r = veb_tree.fail ∧ ∀ s, ¬ member tr s) ∨ least_from tr 0 r).
Proof.
  intros Hinv.
  destruct (inv_leaf tr Hinv) as (leaf & _ & _ & Hu & (Hus & _)).
  assert (H0 : 0 <= 0 < veb_tree.total_universe tr) by lia.
  unfold veb_tree.find_first_valid_index.
  rewrite (query_leaf_bit tr 0 Hinv H0). simpl.
  destruct (leaf_bit tr 0) eqn:E.
  - exists 0. split; [done|]. right.
    split; [apply (member_leaf_bit tr Hinv); done|]. split; [lia|]. intros s [Hs _] _. done.
  - destruct (successor_least tr 0 fuel Hinv H0) as (r & -> & Hr).
    exists r. split; [done|].
    destruct Hr as [[-> Hnone]|(Hm & Hge & Hmin)].
    + left. split; [done|]. intros s Hs. pose proof (Hnone s Hs). pose proof Hs as [Hs0 _].
      assert (s = 0) by lia. subst s.
      apply (member_leaf_bit tr Hinv) in Hs. congruence.
    + right. split; [done|]. split; [lia|]. intros s Hs _.
      destruct (Z.eq_dec s 0) as [->|].
      * apply (member_leaf_bit tr Hinv) in Hs. congruence.
      * apply Hmin; [done|]. destruct Hs. lia.
Qed.

(* find_random_valid_index never makes up an index; it can come back
   empty-handed while index 0 is present, and only then *)
Lemma find_random_loop_spec (tr : veb_tree.t) (fuel : nat) (hash1 hash2 : Z) (n : nat) :
  tree_inv tr → ∀ attempts,
  0 <= attempts →
  (Z.to_nat (VEB_MAX_ATTEMPTS - attempts) < n)%nat →
  ∃ r, veb_tree.find_random_loop n (S fuel) tr hash1 hash2 attempts = Ret r
     ∧ ((r = veb_tree.fail ∧ ∀ s, member tr s → s = 0) ∨ member tr r).
Proof.
  intros Hinv.
  destruct (inv_leaf tr Hinv) as (leaf & _ & _ & Hu & (Hus & _)).
  induction n as [|n IH]; intros attempts H0 Hn; [lia|].
  cbn [veb_tree.find_random_loop]. unfold VEB_MAX_ATTEMPTS in *.
  destruct (Z.ltb_spec attempts 15).
  - set (idx := wrap64 (hash1 + wrap64 (attempts * hash2)) mod veb_tree.total_universe tr).
    assert (Hidx : 0 <= idx < veb_tree.total_universe tr) by (apply Z.mod_pos_bound; lia).
    rewrite (query_leaf_bit tr idx Hinv Hidx). simpl.
    destruct (leaf_bit tr idx) eqn:E.
    + exists idx. split; [done|]. right. apply (member_leaf_bit tr Hinv). done.
    + destruct (successor_least tr idx fuel Hinv Hidx) as (r & -> & Hr). simpl.
      destruct (Z.eqb_spec r 18446744073709551615) as [->|Hne]; simpl.
      * apply IH; lia.
      * exists r. split; [done|]. right.
        destruct Hr as [[-> _]|(Hm & _)]; [done|done].
  - destruct (successor_least tr 0 fuel Hinv ltac:(lia)) as (r & -> & Hr).
    exists r. split; [done|].
    destruct Hr as [[-> Hnone]|(Hm & _)]; [|right; done].
    left. split; [done|]. intros s Hs. pose proof (Hnone s Hs). destruct Hs. lia.
Qed.

(** * Taking an index out: lock_offset, malloc_first, malloc *)

Lemma remove_taken (tr : veb_tree.t) (r : Z) :
  tree_inv tr → member tr r →
  ∃ tr', veb_tree.remove tr r = Ret (true, tr') ∧ taken tr tr' r.
Proof.
  intros Hinv Hm. pose proof (member_in_universe tr r Hinv Hm) as Hr.
  destruct (remove_spec tr r Hinv Hr) as (tr' & Hrem & Hinv' & Hbits).
  rewrite (proj1 (member_leaf_bit tr Hinv r) Hm) in Hrem.
  exists tr'. split; [done|]. split; [done|]. split; [|done].
  apply (remove_header _ _ _ _ Hrem).
Qed.

Lemma lock_offset_spec (tr : veb_tree.t) (start : Z) (n fuel : nat) :
  tree_inv tr → 0 <= start < veb_tree.total_universe tr →
  ∃ r tr', veb_tree.lock_offset (S n) (S fuel) tr start = Ret (r, tr')
     ∧ ((r = veb_tree.fail ∧ tr' = tr ∧ ∀ s, member tr s → s < start)
        ∨ (least_from tr start r ∧ taken tr tr' r)).
Proof.
  intros Hinv Hs. unfold veb_tree.lock_offset.
  rewrite (query_leaf_bit tr start Hinv Hs). simpl.
  destruct (leaf_bit tr start) eqn:E.
  - assert (Hm : member tr start) by (apply (member_leaf_bit tr Hinv); done).
    destruct (remove_taken tr start Hinv Hm) as (tr' & -> & Ht). simpl.
    exists start, tr'. split; [done|]. right. split; [|done].
    split; [done|]. split; [lia|]. intros s _ Hge. done.
  - simpl. destruct (successor_least tr start fuel Hinv Hs) as (r & -> & Hr). simpl.
    destruct Hr as [[-> Hnone]|(Hm & Hge & Hmin)].
    + exists veb_tree.fail, tr. split; [done|]. left. split; [done|]. split; [done|].
      intros s Hm. pose proof (Hnone s Hm).
      destruct (Z.eq_dec s start) as [->|]; [|lia].
      apply (member_leaf_bit tr Hinv) in Hm. congruence.
    + destruct (Z.eqb_spec r veb_tree.fail) as [->|Hne].
      { exfalso. apply (fail_not_member tr Hinv Hm). }
      destruct (remove_taken tr r Hinv Hm) as (tr' & -> & Ht). simpl.
      exists r, tr'. split; [done|]. right. split; [|done].
      split; [done|]. split; [lia|]. intros s Hsm Hsge.
      destruct (Z.eq_dec s start) as [->|].
      * apply (member_leaf_bit tr Hinv) in Hsm. congruence.
      * apply Hmin; [done|lia].
Qed.

Lemma malloc_first_loop_empty (tr : veb_tree.t) (n fuel : nat) (k : nat) :
  tree_inv tr → (∀ s, ¬ member tr s) → ∀ attempts,
  0 <= attempts → (Z.to_nat (VEB_MAX_ATTEMPTS - attempts) < k)%nat →
  veb_tree.malloc_first_loop k (S n) (S fuel) tr attempts = Ret (veb_tree.fail, tr).
Proof.
  intros Hinv Hempty.
  destruct (inv_leaf tr Hinv) as (leaf & _ & _ & Hu & (Hus & _)).
  induction k as [|k IH]; intros attempts H0 Hk; [lia|].
  cbn [veb_tree.malloc_first_loop]. unfold VEB_MAX_ATTEMPTS in *.
  destruct (Z.ltb_spec attempts 15); [|done].
  destruct (lock_offset_spec tr 0 n fuel Hinv ltac:(lia)) as (r & tr' & -> & Hr). simpl.
  destruct Hr as [(-> & -> & _)|[(Hm & _) _]]; [|exfalso; apply (Hempty r Hm)].
  simpl. apply IH; lia.
Qed.

(* malloc_first hands out the smallest present index and takes it out of
   the tree; on an empty tree it fails and leaves the tree as it is *)
Lemma malloc_first_spec (tr : veb_tree.t) (n fuel : nat) :
  tree_inv tr →
  ∃ r tr', veb_tree.malloc_first (S n) (S fuel) tr = Ret (r, tr')
     ∧ ((r = veb_tree.fail ∧ tr' = tr ∧ ∀ s, ¬ member tr s)
        ∨ (least_from tr 0 r ∧ taken tr tr' r)).
Proof.
  intros Hinv.
  destruct (inv_leaf tr Hinv) as (leaf & _ & _ & Hu & (Hus & _)).
  unfold veb_tree.malloc_first.
  destruct (lock_offset_spec tr 0 n fuel Hinv ltac:(lia)) as (r & tr' & Hlock & Hr).
  destruct Hr as [(-> & -> & Hnone)|[Hleast Htaken]].
  - assert (Hempty : ∀ s, ¬ member tr s).
    { intros s Hm. pose proof (Hnone s Hm). destruct Hm. lia. }
    exists veb_tree.fail, tr. split; [|left; done].
    apply malloc_first_loop_empty; try done. vm_compute. lia.
  - exists r, tr'. split; [|right; done].
    change (S (Z.to_nat VEB_MAX_ATTEMPTS)) with (S 15).
    cbn [veb_tree.malloc_first_loop]. rewrite Hlock. simpl.
    destruct (Z.eqb_spec r veb_tree.fail) as [->|]; [|done].
    exfalso. destruct Hleast as [Hm _]. apply (fail_not_member tr Hinv Hm).
Qed.

(* malloc: some present index is taken out, and it fails only on an
   empty tree *)
Lemma malloc_loop_spec (tr : veb_tree.t) (n fuel : nat) (hash1 hash2 : Z) (k : nat) :
  tree_inv tr → ∀ attempts,
  0 <= attempts → (Z.to_nat (VEB_MAX_ATTEMPTS - attempts) < k)%nat →
  ∃ r tr', veb_tree.malloc_loop k (S n) (S fuel) tr hash1 hash2 attempts = Ret (r, tr')
     ∧ ((r = veb_tree.fail ∧ tr' = tr ∧ ∀ s, ¬ member tr s)
        ∨ (member tr r ∧ taken tr tr' r)).
Proof.
  intros Hinv.
  destruct (inv_leaf tr Hinv) as (leaf & _ & _ & Hu & (Hus & _)).
  induction k as [|k IH]; intros attempts H0 Hk; [lia|].
  cbn [veb_tree.malloc_loop]. unfold VEB_MAX_ATTEMPTS in *.
  destruct (Z.ltb_spec attempts 15).
  - set (idx0 := wrap64 (hash1 + wrap64 (attempts * hash2)) mod veb_tree.total_universe tr).
    assert (Hidx0 : 0 <= idx0 < veb_tree.total_universe tr) by (apply Z.mod_pos_bound; lia).
    destruct (Z.eqb_spec idx0 18446744073709551615) as [E|_]; [lia|].
    destruct (lock_offset_spec tr idx0 n fuel Hinv Hidx0) as (r & tr' & -> & Hr). simpl.
    destruct Hr as [(-> & -> & _)|[(Hm & _) Ht]].
    + simpl. apply IH; lia.
    + destruct (Z.eqb_spec r veb_tree.fail) as [->|]; simpl.
      { exfalso. apply (fail_not_member tr Hinv Hm). }
      exists r, tr'. split; [done|]. right. done.
  - destruct (lock_offset_spec tr 0 n fuel Hinv ltac:(lia)) as (r & tr' & -> & Hr).
    exists r, tr'. split; [done|].
    destruct Hr as [(-> & -> & Hnone)|[(Hm & _) Ht]]; [left|right; done].
    split; [done|]. split; [done|]. intros s Hm. pose proof (Hnone s Hm). destruct Hm. lia.
Qed.

(** * More on one layer *)

Lemma clears_trans (l1 l2 l3 : layer.t) (a m m' : Z) :
  0 <= m → 0 <= m' → clears l1 l2 a m → clears l2 l3 (a + m) m' →
  clears l1 l3 a (m + m').
Proof.
  intros Hm Hm' (S1 & W1 & B1) (S2 & W2 & B2).
  split; [apply (same_shape_trans _ _ _ S1 S2)|]. split; [done|].
  intros j. rewrite B2, B1, <- andb_assoc, <- negb_orb, in_run_app by lia. done.
Qed.

Lemma remove_contiguous_loop_spec (fuel : nat) : ∀ l bi bs n l',
  storage_ok l → 0 <= bi → 0 <= bs < 64 → 0 <= n <= 2 ^ 64 - 64 →
  layer.remove_contiguous_loop fuel l bi bs n = Ret l' →
  clears l l' (64 * bi + bs) n.
Proof.
  induction fuel as [|fuel IH]; intros l bi bs n l' [Hw Hsz] Hbi Hbs Hn Hret; [done|].
  simpl in Hret. rewrite (wrap64_small (n + bs)) in Hret by lia.
  destruct (Z.ltb_spec 64 (n + bs)).
  - apply res_bind_Ret in Hret as ([old l1] & Hand & Hret).
    apply (atomicAnd_run l l1 bi _ old bs (64 - bs)) in Hand as [Hold Hcl];
      try done; try lia.
    2:{ intros b Hb. apply testbit_run_mask; lia. }
    apply lookup_lt_Some in Hold.
    rewrite (wrap64_small (bi + 1)), (wrap64_small (n - (64 - bs))) in Hret by lia.
    destruct Hcl as (Hsh & Hw1 & Hb1).
    apply IH in Hret; [|split; [done|destruct Hsh as (_ & _ & ->); done]|lia|lia|lia].
    replace n with ((64 - bs) + (n - (64 - bs))) at 1 by lia.
    apply (clears_trans l l1 l'); [lia|lia|done|].
    replace (64 * bi + bs + (64 - bs)) with (64 * (bi + 1) + 0) by lia. done.
  - apply res_bind_Ret in Hret as ([old l1] & Hand & Hret). simplify_eq.
    apply (atomicAnd_run l l' bi _ old bs n) in Hand as [Hold Hcl]; try done; try lia.
    intros b Hb. apply testbit_run_mask; lia.
Qed.

Lemma remove_contiguous_loop_total (fuel : nat) : ∀ l bi bs n,
  Z.of_nat (length (layer.bits l)) < 2 ^ 58 →
  0 <= bi → 0 <= bs < 64 → 1 <= n <= 2 ^ 64 - 64 →
  64 * bi + bs + n <= 64 * Z.of_nat (length (layer.bits l)) →
  (Z.to_nat ((n + bs) / 64) < fuel)%nat →
  ∃ l', layer.remove_contiguous_loop fuel l bi bs n = Ret l'.
Proof.
  induction fuel as [|fuel IH]; intros l bi bs n Hsz Hbi Hbs Hn Hfit Hfuel; [lia|].
  simpl. rewrite (wrap64_small (n + bs)) by lia.
  assert (Hlt : (Z.to_nat bi < length (layer.bits l))%nat) by lia.
  destruct (lookup_lt_is_Some_2 _ _ Hlt) as [w Hw].
  unfold layer.atomicAnd, layer.load. rewrite Hw. simpl.
  destruct (Z.ltb_spec 64 (n + bs)); [|eauto].
  rewrite (wrap64_small (bi + 1)), (wrap64_small (n - (64 - bs))) by lia.
  apply IH; try lia.
  - simpl. rewrite length_insert. lia.
  - simpl. rewrite length_insert. lia.
  - replace (n - (64 - bs) + 0) with (n + bs + (-1) * 64) by lia.
    rewrite Z.div_add by lia.
    assert (1 <= (n + bs) / 64) by (apply Z.div_le_lower_bound; lia). lia.
Qed.

(* the fuel that a run of n indices needs *)
Lemma run_fuel (start n : Z) :
  0 <= start → 1 <= n →
  (Z.to_nat ((n + start mod 64) / 64) < S (Z.to_nat (n / 64 + 1)))%nat.
Proof.
  intros Hs Hn. pose proof (Z.mod_pos_bound start 64 ltac:(lia)).
  assert (Hf : (n + start mod 64) / 64 <= n / 64 + 1).
  { apply Z.lt_succ_r. apply Z.div_lt_upper_bound; [lia|].
    pose proof (Z.mul_succ_div_gt n 64 ltac:(lia)). lia. }
  assert (0 <= (n + start mod 64) / 64) by (apply Z.div_pos; lia). lia.
Qed.

Lemma layer_return_multiple_spec (l : layer.t) (start n : Z) :
  storage_ok l → 0 <= start → 1 <= n →
  start + n <= 64 * Z.of_nat (length (layer.bits l)) →
  ∃ l', layer.return_multiple (S (Z.to_nat (n / 64 + 1))) l start n = Ret l'
      ∧ sets l l' start n.
Proof.
  intros Hst Hs Hn Hfit. pose proof Hst as [Hw Hsz].
  pose proof (Z.mod_pos_bound start 64 ltac:(lia)) as Hmod.
  pose proof (Z.div_mod start 64 ltac:(lia)) as Hdm.
  assert (Hq : 0 <= start / 64) by (apply Z.div_pos; lia).
  unfold layer.return_multiple.
  destruct (return_loop_total (S (Z.to_nat (n / 64 + 1))) l (start / 64) (start mod 64) n)
    as [l' Hret]; [lia|lia|lia|lia|lia|apply run_fuel; lia|].
  exists l'. split; [done|].
  apply return_loop_spec in Hret; [|done|lia|lia|lia].
  rewrite <- Hdm in Hret. done.
Qed.

Lemma layer_remove_contiguous_spec (l : layer.t) (start n : Z) :
  storage_ok l → 0 <= start → 1 <= n →
  start + n <= 64 * Z.of_nat (length (layer.bits l)) →
  ∃ l', layer.remove_contiguous (S (Z.to_nat (n / 64 + 1))) l start n = Ret l'
      ∧ clears l l' start n.
Proof.
  intros Hst Hs Hn Hfit. pose proof Hst as [Hw Hsz].
  pose proof (Z.mod_pos_bound start 64 ltac:(lia)) as Hmod.
  pose proof (Z.div_mod start 64 ltac:(lia)) as Hdm.
  assert (Hq : 0 <= start / 64) by (apply Z.div_pos; lia).
  unfold layer.remove_contiguous.
  destruct (remove_contiguous_loop_total (S (Z.to_nat (n / 64 + 1))) l
              (start / 64) (start mod 64) n)
    as [l' Hret]; [lia|lia|lia|lia|lia|apply run_fuel; lia|].
  exists l'. split; [done|].
  apply remove_contiguous_loop_spec in Hret; [|done|lia|lia|lia].
  rewrite <- Hdm in Hret. done.
Qed.

(* gather_multiple never looks at word 0 on its own: a layer of one word
   grants nothing *)
Lemma layer_gather_one_word (l : layer.t) (n : Z) (fuel : nat) (w : Z) :
  layer.num_blocks l = 1 → layer.bits l !! O = Some w →
  layer.gather_multiple (S (S fuel)) l n = Ret (0xffffffffffffffff, l).
Proof.
  intros Hn Hw. unfold layer.gather_multiple. rewrite Hn.
  change (wrap64 (1 - 1)) with 0. cbn [layer.gather_loop]. simpl (0 =? 0).
  cbv iota. rewrite Z.sub_diag. change (wrap64 0) with 0.
  cbn [layer.rollback]. change (64 <? 0) with false. cbv iota.
  unfold layer.atomicOr, layer.load. change (Z.to_nat 0) with O. rewrite Hw.
  change (BITMASK 0) with 0. simpl. rewrite Z.lor_0_r.
  rewrite list_insert_id by done. rewrite with_bits_id. done.
Qed.

(** ** layer::generate_on_device *)

Lemma alter_as_insert {A : Type} (f : A → A) (i : nat) (l : list A) (x : A) :
  l !! i = Some x → alter f i l = <[i := f x]> l.
Proof.
  intros H. apply list_eq. intros k. destruct (decide (k = i)) as [->|Hne].
  - rewrite list_lookup_alter, H. simpl.
    rewrite list_lookup_insert_eq by (apply lookup_lt_Some in H; done).
    destruct (decide (i = i)); done.
  - rewrite list_lookup_alter_ne, list_lookup_insert_ne by done. done.
Qed.

(* below 2^32 the 32-bit arithmetic of the thread id does not wrap *)
Lemma thread_id_small (t : Z) :
  0 <= t < 2 ^ 32 → wrap32 (t mod 256 + wrap32 (t / 256 * 256)) = t.
Proof.
  intros Ht. pose proof (Z.div_mod t 256 ltac:(lia)) as Hd.
  pose proof (Z.mod_pos_bound t 256 ltac:(lia)) as Hm.
  assert (Hq : 0 <= t / 256) by (apply Z.div_pos; lia).
  unfold wrap32. rewrite (Z.mod_small (t / 256 * 256)) by lia.
  replace (t mod 256 + t / 256 * 256) with t by lia.
  apply Z.mod_small. lia.
Qed.

(* the bits after the threads 0 .. k - 1 of the init_bits kernel *)
Lemma init_bits_fold (items : Z) (nb : nat) (k : nat) :
  1 <= items → items <= 64 * Z.of_nat nb → Z.of_nat k <= 2 ^ 32 →
  let l := layer.mk items (Z.of_nat nb)
             (foldl (λ bits i, layer.init_bits items bits (i mod 256) (i / 256) 256)
                    (replicate nb 0) (seqZ 0 (Z.of_nat k))) in
  length (layer.bits l) = nb ∧ words_ok l
  ∧ ∀ j, lbit l j = (0 <=? j) && (j <? Z.min (Z.of_nat k) items).
Proof.
  intros Hi Hfit. induction k as [|k IH]; intros Hk.
  - simpl. split; [apply length_replicate|]. split.
    { apply Forall_replicate. lia. }
    intros j. unfold lbit. simpl. change (Z.of_nat 0) with 0.
    destruct (Z.leb_spec 0 j); simpl; [|done].
    destruct (Z.ltb_spec j (Z.min 0 items)); [lia|].
    destruct (replicate nb 0 !! Z.to_nat (j / 64)) as [w|] eqn:E; simpl.
    + apply lookup_replicate in E as [-> _]. apply Z.testbit_0_l.
    + apply Z.testbit_0_l.
  - rewrite seqZ_S, foldl_app. rewrite Nat2Z.inj_succ in *. simpl foldl.
    specialize (IH ltac:(lia)).
    cbv zeta in IH. destruct IH as (Hlen & Hw & Hb).
    set (bs := foldl (λ bits i, layer.init_bits items bits (i mod 256) (i / 256) 256)
                 (replicate nb 0) (seqZ 0 (Z.of_nat k))) in *.
    simpl in Hlen. rewrite Z.add_0_l. unfold layer.init_bits at 1. cbv zeta.
    rewrite thread_id_small by lia.
    destruct (Z.leb_spec items (Z.of_nat k)).
    + split; [done|]. split; [done|]. intros j. rewrite (Hb j).
      f_equal. destruct (Z.ltb_spec j (Z.min (Z.of_nat k) items)),
        (Z.ltb_spec j (Z.min (Z.succ (Z.of_nat k)) items)); try done; lia.
    + set (t := Z.of_nat k) in *.
      pose proof (Z.mod_pos_bound t 64 ltac:(lia)) as Hmod.
      pose proof (Z.div_mod t 64 ltac:(lia)) as Hdm.
      assert (Hq : 0 <= t / 64) by (apply Z.div_pos; lia).
      assert (Hlt : (Z.to_nat (t / 64) < length bs)%nat).
      { rewrite Hlen. assert (t / 64 < Z.of_nat nb); [|lia].
        apply Z.div_lt_upper_bound; lia. }
      destruct (lookup_lt_is_Some_2 _ _ Hlt) as [w Hword].
      rewrite (alter_as_insert _ _ _ w Hword).
      pose proof (words_ok_lookup (layer.mk items (Z.of_nat nb) bs) _ _ Hw Hword) as Hwr.
      split; [simpl; rewrite length_insert; done|]. split.
      { apply (words_ok_store (layer.mk items (Z.of_nat nb) bs)); [done|].
        apply lor_range; [done|]. unfold SET_BIT_MASK. apply shl64_range. }
      intros j.
      change (layer.mk items (Z.of_nat nb) (<[Z.to_nat (t / 64) := Z.lor w (SET_BIT_MASK (t mod 64))]> bs))
        with (layer.with_bits (layer.mk items (Z.of_nat nb) bs)
                (<[Z.to_nat (t / 64) := Z.lor w (SET_BIT_MASK (t mod 64))]>
                   (layer.bits (layer.mk items (Z.of_nat nb) bs)))).
      rewrite lbit_store by first [lia|done]. rewrite (Hb j).
      destruct (Z.leb_spec 0 j); simpl; [|done].
      destruct (Z.eqb_spec (j / 64) (t / 64)) as [E|NE].
      * pose proof (Z.mod_pos_bound j 64 ltac:(lia)).
        pose proof (Z.div_mod j 64 ltac:(lia)).
        rewrite testbit_set by lia.
        replace (Z.testbit w (j mod 64))
          with (lbit (layer.mk items (Z.of_nat nb) bs) j).
        2:{ unfold lbit. simpl. rewrite E, Hword. simpl.
            destruct (Z.leb_spec 0 j); [done|lia]. }
        rewrite (Hb j). destruct (Z.leb_spec 0 j); [|lia]. simpl.
        destruct (Z.ltb_spec j (Z.min t items)), (Z.eqb_spec (j mod 64) (t mod 64)),
          (Z.ltb_spec j (Z.min (Z.succ t) items)); try done; exfalso; lia.
      * destruct (Z.ltb_spec j (Z.min t items)),
          (Z.ltb_spec j (Z.min (Z.succ t) items)); try done; exfalso; try lia.
        apply NE. f_equal. lia.
Qed.

(* a generated layer holds every index of its universe, and nothing else *)
Lemma layer_generate_spec (items : Z) :
  1 <= items <= 2 ^ 32 →
  layer_ok (layer.generate_on_device items)
  ∧ layer.universe_size (layer.generate_on_device items) = items
  ∧ ∀ j, lbit (layer.generate_on_device items) j = (0 <=? j) && (j <? items).
Proof.
  intros Hi. unfold layer.generate_on_device, layer.get_num_blocks.
  rewrite (wrap64_small (items - 1)) by lia.
  assert (Hq : 0 <= (items - 1) / 64 < 2 ^ 57).
  { split; [apply Z.div_pos; lia|apply Z.div_lt_upper_bound; lia]. }
  assert (Hq' : 0 <= (items - 1) / 256 < 2 ^ 55).
  { split; [apply Z.div_pos; lia|apply Z.div_lt_upper_bound; lia]. }
  rewrite (wrap64_small ((items - 1) / 64 + 1)) by lia.
  assert (Hg : (items - 1) / 256 < 2 ^ 24) by (apply Z.div_lt_upper_bound; lia).
  assert (Hgrid : wrap32 ((items - 1) / 256 + 1) = (items - 1) / 256 + 1).
  { unfold wrap32. apply Z.mod_small. lia. }
  rewrite Hgrid.
  set (nbz := (items - 1) / 64 + 1). set (T := ((items - 1) / 256 + 1) * 256).
  pose proof (Z.mul_succ_div_gt (items - 1) 64 ltac:(lia)) as Hfit.
  pose proof (Z.mul_succ_div_gt (items - 1) 256 ltac:(lia)) as HT.
  pose proof (init_bits_fold items (Z.to_nat nbz) (Z.to_nat T) ltac:(lia)
                ltac:(unfold nbz; lia) ltac:(unfold T; lia)) as H.
  cbv zeta in H. rewrite !Z2Nat.id in H by (unfold nbz, T; lia).
  destruct H as (Hlen & Hw & Hb).
  assert (Hbits : ∀ j, lbit (layer.mk items nbz
            (foldl (λ bits i, layer.init_bits items bits (i mod 256) (i / 256) 256)
                   (replicate (Z.to_nat nbz) 0) (seqZ 0 T))) j
          = (0 <=? j) && (j <? items)).
  { intros j. rewrite Hb. f_equal.
    destruct (Z.ltb_spec j (Z.min T items)), (Z.ltb_spec j items); try done;
      exfalso; unfold T in *; lia. }
  split; [|split; [done|done]].
  split; [simpl; lia|]. split; [done|]. split; [simpl in *; unfold nbz in *; lia|].
  split; [done|]. intros j Hj. rewrite Hbits in Hj.
  apply andb_true_iff in Hj as [_ Hj]. apply Z.ltb_lt in Hj. done.
Qed.

(** * Gathering and returning, seen from the leaf layer *)

Lemma bottom_of_layer (tr : veb_tree.t) (l : layer.t) :
  Z.of_nat (length (veb_tree.layers tr)) = veb_tree.num_layers tr →
  bottom_layer tr = Some l →
  veb_tree.bottom tr = Ret (Nat.pred (length (veb_tree.layers tr)))
  ∧ (Nat.pred (length (veb_tree.layers tr)) < length (veb_tree.layers tr))%nat.
Proof.
  intros Hnl Hl. unfold bottom_layer in Hl. apply lookup_lt_Some in Hl as Hlt.
  split; [|done]. unfold veb_tree.bottom.
  destruct (Z.ltb_spec (veb_tree.num_layers tr - 1) 0); [lia|]. f_equal. lia.
Qed.

(* a successful gather_multiple: the run it grants was present, and it is
   what the leaf layer has lost *)
Lemma tree_gather_granted (tr tr1 : veb_tree.t) (fuel : nat) (n r : Z) :
  bottom_storage_ok tr → 0 <= n < 2 ^ 64 →
  veb_tree.gather_multiple fuel tr n = Ret (r, tr1) → r ≠ veb_tree.fail →
  0 <= r
  ∧ (∀ j, in_run r n j = true → leaf_bit tr j = true)
  ∧ (∀ j, leaf_bit tr1 j = leaf_bit tr j && negb (in_run r n j)).
Proof.
  intros [Hnl Hst] Hn Hg Hr.
  unfold veb_tree.gather_multiple in Hg.
  apply res_bind_Ret in Hg as (lyr & Hbot & Hg).
  apply bottom_Ret in Hbot as [Hnl0 Hlyr].
  apply res_bind_Ret in Hg as (l & Hl & Hg). apply get_layer_Ret in Hl.
  apply res_bind_Ret in Hg as ([found l1] & Hlg & Hg). simpl in Hg.
  destruct (Z.eqb_spec found veb_tree.fail) as [->|Hnf]; simpl in Hg; [simplify_eq|].
  apply res_bind_Ret in Hg as (tr1' & Hsum & Hg). injection Hg as -> ->.
  apply gather_summaries_frame in Hsum as (Hnum1 & Hlen1 & Hsame1).
  assert (Hlt : (lyr < length (veb_tree.layers tr))%nat) by (apply lookup_lt_Some in Hl; done).
  assert (Hbl : bottom_layer tr = Some l).
  { unfold bottom_layer. replace (Nat.pred (length (veb_tree.layers tr))) with lyr by lia. done. }
  specialize (Hst l Hbl).
  unfold layer.gather_multiple in Hlg.
  apply (gather_loop_spec l n Hst Hn) in Hlg; [|apply wrap64_range|done].
  destruct Hlg as ((_ & _ & Hbits) & Hr0 & _ & Hset).
  assert (Hbl1 : bottom_layer tr1 = Some l1).
  { unfold bottom_layer. rewrite Hlen1, set_layer_length.
    replace (Nat.pred (length (veb_tree.layers tr))) with lyr by lia.
    rewrite Hsame1 by lia. rewrite set_layer_lookup by done.
    destruct (decide (lyr = lyr)); done. }
  unfold leaf_bit. rewrite Hbl, Hbl1. done.
Qed.


(** * Size classes *)

Lemma popcll_pow2 (x : Z) :
  1 <= x < 2 ^ 64 → (__popcll x = 1 ↔ x = 2 ^ Z.log2 x).
Proof.
  intros Hx. pose proof (Z.log2_nonneg x) as He.
  pose proof (Z.log2_spec x ltac:(lia)) as Hspec.
  assert (He64 : Z.log2 x < 64) by (apply Z.log2_lt_pow2; lia).
  assert (Hbit : Z.testbit x (Z.log2 x) = true) by (apply Z.bit_log2; lia).
  destruct (popcll_one_cases x (Z.log2 x) ltac:(lia) Hbit)
    as [[H1 Hall]|[H1 (b & Hb & Hne & Hset)]].
  - split; [intros _|done]. apply word_eq; [lia| |].
    + split; [lia|]. apply Z.pow_lt_mono_r; lia.
    + intros i Hi. rewrite Z.pow2_bits_eqb by lia.
      destruct (Z.eqb_spec (Z.log2 x) i) as [<-|]; [done|]. apply Hall; [done|lia].
  - split; [done|]. intros E. exfalso. rewrite E in Hset.
    rewrite Z.pow2_bits_eqb in Hset by lia.
    destruct (Z.eqb_spec (Z.log2 x) b); [lia|done].
Qed.

(* get_first_bit_bigger is the exponent of the smallest power of two
   that is not below its argument *)
Lemma get_first_bit_bigger_spec (counter : Z) :
  1 <= counter < 2 ^ 64 →
  0 <= Gallatin.get_first_bit_bigger counter <= 64
  ∧ counter <= 2 ^ Gallatin.get_first_bit_bigger counter
  ∧ (Gallatin.get_first_bit_bigger counter = 0
     ∨ 2 ^ (Gallatin.get_first_bit_bigger counter - 1) < counter).
Proof.
  intros Hx. pose proof (Z.log2_nonneg counter) as He.
  pose proof (Z.log2_spec counter ltac:(lia)) as Hspec.
  assert (He64 : Z.log2 counter < 64) by (apply Z.log2_lt_pow2; lia).
  unfold Gallatin.get_first_bit_bigger, __builtin_clzll.
  replace (63 - (63 - Z.log2 counter)) with (Z.log2 counter) by lia.
  destruct (Z.eqb_spec (__popcll counter) 1) as [E|NE].
  - apply (popcll_pow2 counter Hx) in E. rewrite Z.add_0_r.
    split; [lia|]. split; [lia|].
    destruct (Z.eq_dec (Z.log2 counter) 0) as [E0|]; [left; done|right].
    rewrite E at 2. apply Z.pow_lt_mono_r; lia.
  - assert (counter ≠ 2 ^ Z.log2 counter).
    { intros E. apply NE. apply (popcll_pow2 counter Hx). done. }
    split; [lia|]. split; [lia|]. right.
    replace (Z.log2 counter + 1 - 1) with (Z.log2 counter) by lia. lia.
Qed.


(** * More on the segment table *)

Section table_more.

Context {Block : Type}.
Variable init_malloc : Z → Block → Block.
Implicit Types tb : @alloc_table.t Block.

(* binding and unbinding a segment *)
Lemma tree_id_round_trip tb (segment tree_id : Z) :
  0 <= segment →
  alloc_table.chunk_ids tb !! Z.to_nat segment = Some 0xffff →
  tree_id ≠ 0xffff →
  ∃ tb1, alloc_table.set_tree_id tb segment tree_id = Ret (true, tb1)
    ∧ alloc_table.read_tree_id tb1 segment = Ret tree_id
    ∧ (∀ other, alloc_table.set_tree_id tb1 segment other = Ret (false, tb1))
    ∧ alloc_table.reset_tree_id tb1 segment tree_id = Ret (true, tb).
Proof.
  intros Hs Hid Hne.
  assert (Hlt : (Z.to_nat segment < length (alloc_table.chunk_ids tb))%nat).
  { apply lookup_lt_Some in Hid. done. }
  unfold alloc_table.set_tree_id, alloc_table.read_tree_id, alloc_table.reset_tree_id.
  rewrite (atomic_rmw_Ret _ _ _ 0xffff) by done. simpl.
  eexists. split; [reflexivity|]. simpl.
  assert (Hnew : <[Z.to_nat segment := tree_id]> (alloc_table.chunk_ids tb)
                   !! Z.to_nat segment = Some tree_id)
    by (apply list_lookup_insert_eq; done).
  rewrite !(atomic_rmw_Ret _ _ _ tree_id) by done. simpl.
  split; [done|]. split.
  - intros other. rewrite (atomic_rmw_Ret _ _ _ tree_id) by done. simpl.
    destruct (Z.eqb_spec tree_id 65535); [done|]. simpl.
    rewrite list_insert_insert_eq. destruct tb; done.
  - rewrite Z.eqb_refl. rewrite list_insert_insert_eq.
    rewrite (list_insert_id _ _ 65535) by done.
    destruct tb; done.
Qed.

(* the loop that empties the queue slots of a segment *)
Lemma clear_queue_spec (n : nat) : ∀ (q : list (option Z)) (i base : Z),
  0 <= base → 0 <= i →
  base + i + Z.of_nat n <= Z.of_nat (length q) → Z.of_nat (length q) < 2 ^ 64 →
  ∃ q', alloc_table.clear_queue n q i base = Ret q'
    ∧ length q' = length q
    ∧ ∀ k : nat, q' !! k =
        if (base + i <=? Z.of_nat k) && (Z.of_nat k <? base + i + Z.of_nat n)
        then Some None else q !! k.
Proof.
  induction n as [|n IH]; intros q i base Hb Hi Hfit Hsz; cbn [alloc_table.clear_queue].
  - exists q. split; [done|]. split; [done|]. intros k.
    destruct (Z.leb_spec (base + i) (Z.of_nat k)),
      (Z.ltb_spec (Z.of_nat k) (base + i + Z.of_nat 0)); cbn [andb]; try done; lia.
  - rewrite (wrap64_small (base + i)) by lia.
    assert (Hlt : (Z.to_nat (base + i) < length q)%nat) by lia.
    destruct (lookup_lt_is_Some_2 _ _ Hlt) as [x Hx].
    rewrite (atomic_rmw_Ret _ _ _ x) by first [done|lia].
    unfold mbind, res_bind.
    destruct (IH (<[Z.to_nat (base + i) := None]> q) (i + 1) base)
      as (q' & -> & Hlen & Hlook); try lia.
    { rewrite length_insert. lia. }
    { rewrite length_insert. lia. }
    exists q'. split; [done|]. split; [rewrite Hlen, length_insert; done|].
    intros k. rewrite Hlook.
    destruct (Z.leb_spec (base + (i + 1)) (Z.of_nat k)),
      (Z.ltb_spec (Z.of_nat k) (base + (i + 1) + Z.of_nat n)),
      (Z.leb_spec (base + i) (Z.of_nat k)),
      (Z.ltb_spec (Z.of_nat k) (base + i + Z.of_nat (S n))); cbn [andb]; try done; try (exfalso; lia).
    all: destruct (decide (k = Z.to_nat (base + i))) as [->|];
      [ first [ rewrite list_lookup_insert_eq by lia; done | exfalso; lia ]
      | first [ rewrite list_lookup_insert_ne by lia; done | exfalso; lia ] ].
Qed.

(* setup_segment on an unbound segment: it is bound to the class, its
   counters are reset, and it is ready to hand out its first block *)
Lemma setup_segment_unbound tb (segment tree_id : Z) :
  let nb := alloc_table.get_blocks_per_segment tb tree_id in
  0 <= segment → tree_id ≠ 0xffff →
  alloc_table.chunk_ids tb !! Z.to_nat segment = Some 0xffff →
  0 <= nb < 2 ^ 31 → 0 <= alloc_table.blocks_per_segment tb →
  segment * alloc_table.blocks_per_segment tb + nb
    <= Z.of_nat (length (alloc_table.queues tb)) →
  Z.of_nat (length (alloc_table.queues tb)) < 2 ^ 64 →
  segment * alloc_table.blocks_per_segment tb + nb
    <= Z.of_nat (length (alloc_table.blocks tb)) →
  Z.of_nat (length (alloc_table.blocks tb)) < 2 ^ 64 →
  alloc_table.calloc_mode tb = false →
  (Z.to_nat segment < length (alloc_table.queue_counters tb))%nat →
  (Z.to_nat segment < length (alloc_table.queue_free_counters tb))%nat →
  (Z.to_nat segment < length (alloc_table.final_queue_free_counters tb))%nat →
  (Z.to_nat segment < length (alloc_table.active_counts tb))%nat →
  ∃ tb', alloc_table.setup_segment tb segment tree_id = Ret (true, tb')
    ∧ serving tb' segment tree_id 0
    ∧ alloc_table.queue_free_counters tb' !! Z.to_nat segment = Some 0
    ∧ alloc_table.final_queue_free_counters tb' !! Z.to_nat segment = Some 0
    ∧ alloc_table.blocks tb' = alloc_table.blocks tb
    ∧ (∀ s : nat, s ≠ Z.to_nat segment →
         alloc_table.chunk_ids tb' !! s = alloc_table.chunk_ids tb !! s
         ∧ alloc_table.active_counts tb' !! s = alloc_table.active_counts tb !! s
         ∧ alloc_table.queue_counters tb' !! s = alloc_table.queue_counters tb !! s)
    ∧ alloc_table.blocks_per_segment tb' = alloc_table.blocks_per_segment tb
    ∧ alloc_table.get_blocks_per_segment tb' tree_id = nb.
Proof.
  intros nb Hs Hne Hid Hnb Hbps Hq Hqsz Hb Hbsz Hcal Hqc Hqf Hfq Hac.
  unfold alloc_table.setup_segment, alloc_table.set_tree_id.
  rewrite (atomic_rmw_Ret _ _ _ 0xffff) by done. simpl.
  fold nb. rewrite (wrap_int_small nb) by lia.
  assert (Hsb : 0 <= segment * alloc_table.blocks_per_segment tb) by nia.
  rewrite (wrap64_small (segment * alloc_table.blocks_per_segment tb)) by lia.
  destruct (clear_queue_spec (Z.to_nat nb) (alloc_table.queues tb) 0
              (segment * alloc_table.blocks_per_segment tb)) as (q' & -> & Hlen & Hlook);
    try lia.
  simpl. rewrite Hcal. simpl.
  destruct (lookup_lt_is_Some_2 _ _ Hqc) as [x1 Hx1].
  destruct (lookup_lt_is_Some_2 _ _ Hqf) as [x2 Hx2].
  destruct (lookup_lt_is_Some_2 _ _ Hfq) as [x3 Hx3].
  destruct (lookup_lt_is_Some_2 _ _ Hac) as [x4 Hx4].
  rewrite (atomic_rmw_Ret (alloc_table.queue_counters tb) _ _ x1) by done. simpl.
  rewrite (atomic_rmw_Ret (alloc_table.queue_free_counters tb) _ _ x2) by done. simpl.
  rewrite (atomic_rmw_Ret (alloc_table.final_queue_free_counters tb) _ _ x3) by done. simpl.
  rewrite (atomic_rmw_Ret (alloc_table.active_counts tb) _ _ x4) by done. simpl.
  eexists. split; [reflexivity|]. unfold serving. simpl.
  change (alloc_table.get_blocks_per_segment _ tree_id) with nb.
  rewrite (wrap_int_small (nb - 1)) by lia.
  rewrite !list_lookup_insert_eq by first [done | apply lookup_lt_Some in Hid; done].
  split.
  { repeat (split; [first [done | lia]|]). split; [f_equal; lia|done]. }
  split; [done|]. split; [done|]. split; [done|].
  split; [|done].
  intros s Hsne. rewrite !list_lookup_insert_ne by done. done.
Qed.

(* what get_block does to a segment that still has a fresh block *)
Lemma serving_get_block tb (segment_id tree_id k : Z) :
  serving tb segment_id tree_id k →
  k < alloc_table.get_blocks_per_segment tb tree_id →
  ∃ tb', alloc_table.get_block init_malloc tb segment_id tree_id
           = Ret (Some (segment_id * alloc_table.blocks_per_segment tb + k),
                  k + 1 =? alloc_table.get_blocks_per_segment tb tree_id, tb')
    ∧ serving tb' segment_id tree_id (k + 1)
    ∧ alloc_table.blocks_per_segment tb' = alloc_table.blocks_per_segment tb
    ∧ alloc_table.get_blocks_per_segment tb' tree_id
      = alloc_table.get_blocks_per_segment tb tree_id.
Proof.
  intros (Hseg & Hk & Hnb & Hbps & Hfit & Hsz & Hid & Hc & Hq) Hlt.
  set (nb := alloc_table.get_blocks_per_segment tb tree_id) in *.
  unfold alloc_table.get_block, alloc_table.get_slot_in_segment.
  rewrite (atomic_rmw_Ret _ _ _ (nb - 1 - k)) by done. simpl.
  unfold alloc_table.active_count_valid. destruct (Z.leb_spec 0 (nb - 1 - k)); [|lia]. simpl.
  unfold alloc_table.read_tree_id. simpl.
  rewrite (atomic_rmw_Ret _ _ _ tree_id) by done. simpl.
  rewrite Z.eqb_refl. simpl.
  unfold alloc_table.increment_queue_position. simpl.
  rewrite (atomic_rmw_Ret _ _ _ k) by done. simpl.
  rewrite (wrap_int_small k), (wrap64_small k) by lia.
  assert (Hsb : 0 <= segment_id * alloc_table.blocks_per_segment tb) by nia.
  rewrite (wrap64_small (segment_id * alloc_table.blocks_per_segment tb)) by lia.
  change (alloc_table.get_blocks_per_segment
            (alloc_table.with_active_counts tb _) tree_id) with nb.
  destruct (Z.ltb_spec k nb); [|lia]. simpl.
  unfold alloc_table.get_block_from_global_block_id.
  rewrite wrap64_small by lia.
  unfold alloc_table.block_init_malloc. simpl.
  assert (Hblt : (Z.to_nat (segment_id * alloc_table.blocks_per_segment tb + k)
                  < length (alloc_table.blocks tb))%nat) by lia.
  destruct (lookup_lt_is_Some_2 _ _ Hblt) as [blk Hblk].
  rewrite (atomic_rmw_Ret _ _ _ blk) by first [done|lia]. simpl.
  replace (if nb - 1 - k =? 0 then true else false) with (k + 1 =? nb).
  2:{ destruct (Z.eqb_spec (nb - 1 - k) 0), (Z.eqb_spec (k + 1) nb); try done; lia. }
  eexists. split; [reflexivity|]. split; [|done].
  unfold serving. simpl.
  change (alloc_table.get_blocks_per_segment _ tree_id) with nb.
  rewrite length_insert.
  rewrite !list_lookup_insert_eq by first [apply lookup_lt_Some in Hc; done
                                           | apply lookup_lt_Some in Hq; done].
  repeat (split; [first [done | lia]|]).
  split; [f_equal; rewrite wrap_int_small; lia|].
  f_equal. unfold wrap32. rewrite Z.mod_small; lia.
Qed.

Lemma serving_exhausted tb (segment_id tree_id : Z) :
  serving tb segment_id tree_id (alloc_table.get_blocks_per_segment tb tree_id) →
  alloc_table.get_block init_malloc tb segment_id tree_id = Ret (None, false, tb).
Proof.
  intros (Hseg & Hk & Hnb & Hbps & Hfit & Hsz & Hid & Hc & Hq).
  apply (get_block_exhausted init_malloc tb segment_id tree_id (-1)); [done| |lia].
  rewrite Hc. f_equal. lia.
Qed.

(* a bound segment hands out its remaining fresh blocks in order, flags
   the last one, and then refuses *)
Lemma get_blocks_serving (n : nat) : ∀ tb (segment_id tree_id k : Z),
  serving tb segment_id tree_id k →
  k + Z.of_nat n = alloc_table.get_blocks_per_segment tb tree_id →
  ∃ tb', get_blocks init_malloc (S n) tb segment_id tree_id
         = Ret (((λ j, (Some (segment_id * alloc_table.blocks_per_segment tb + j),
                        j + 1 =? alloc_table.get_blocks_per_segment tb tree_id))
                 <$> seqZ k (Z.of_nat n)) ++ [(None, false)], tb')
    ∧ serving tb' segment_id tree_id (alloc_table.get_blocks_per_segment tb tree_id).
Proof.
  induction n as [|n IH]; intros tb segment_id tree_id k Hsrv Hk.
  - assert (k = alloc_table.get_blocks_per_segment tb tree_id) by lia. subst k.
    cbn [get_blocks]. rewrite (serving_exhausted _ _ _ Hsrv). simpl.
    exists tb. done.
  - destruct (serving_get_block tb segment_id tree_id k Hsrv ltac:(lia))
      as (tb1 & Hget & Hsrv1 & Hbps1 & Hnb1).
    destruct (IH tb1 segment_id tree_id (k + 1) Hsrv1 ltac:(lia)) as (tb' & Hrest & Hsrv').
    exists tb'. split; [|rewrite <- Hnb1; done].
    change (get_blocks init_malloc (S (S n)) tb segment_id tree_id)
      with ('(b, empty, tb1) ← alloc_table.get_block init_malloc tb segment_id tree_id;
            '(rest, tb2) ← get_blocks init_malloc (S n) tb1 segment_id tree_id;
            Ret ((b, empty) :: rest, tb2)).
    rewrite Hget. cbn -[get_blocks]. rewrite Hrest. cbn -[get_blocks seqZ].
    rewrite Hbps1, Hnb1. rewrite Nat2Z.inj_succ, (seqZ_cons k) by lia. simpl.
    replace (Z.pred (Z.succ (Z.of_nat n))) with (Z.of_nat n) by lia.
    replace (Z.succ k) with (k + 1) by lia. done.
Qed.

End table_more.

(** * Returning blocks, and addresses *)

Lemma wrap64_signed_eq (a b : Z) :
  - 2 ^ 63 <= a < 2 ^ 63 → - 2 ^ 63 <= b < 2 ^ 63 →
  (wrap64 a =? wrap64 b) = (a =? b).
Proof.
  intros Ha Hb. unfold wrap64.
  destruct (Z.eqb_spec a b) as [->|Hne]; [apply Z.eqb_refl|].
  apply Z.eqb_neq. intros E.
  assert (Hd : (a - b) mod 2 ^ 64 = 0).
  { rewrite Zminus_mod, E, Z.sub_diag. done. }
  apply Z.mod_divide in Hd; [|lia]. destruct Hd as [k Hk]. nia.
Qed.

Section table_free.

Context {Block : Type}.
Implicit Types tb : @alloc_table.t Block.

(* finish_freeing_block counts one block back in; it answers true, and
   marks the segment as owned by the caller, exactly when that was the
   last block outstanding *)
Lemma finish_freeing_block_spec tb (segment num_blocks c : Z) :
  0 <= segment → 1 <= num_blocks < 2 ^ 31 → - 2 ^ 31 <= c < 2 ^ 31 - 1 →
  alloc_table.active_counts tb !! Z.to_nat segment = Some c →
  alloc_table.finish_freeing_block tb segment num_blocks
  = Ret (c =? num_blocks - 2,
         alloc_table.with_active_counts tb
           (<[Z.to_nat segment := if c =? num_blocks - 2 then -1 else c + 1]>
              (alloc_table.active_counts tb))).
Proof.
  intros Hs Hnb Hc Hcount.
  assert (Hlt : (Z.to_nat segment < length (alloc_table.active_counts tb))%nat).
  { apply lookup_lt_Some in Hcount. done. }
  unfold alloc_table.finish_freeing_block, alloc_table.return_slot_to_segment.
  rewrite (atomic_rmw_Ret _ _ _ c) by done. simpl.
  unfold alloc_table.all_blocks_free.
  rewrite wrap64_signed_eq by lia.
  rewrite (wrap_int_small (c + 1)) by lia.
  destruct (Z.eqb_spec c (num_blocks - 2)) as [E|NE]; [|done].
  rewrite (atomic_rmw_Ret _ _ _ (c + 1)) by (first [done | apply list_lookup_insert_eq; done]).
  simpl. rewrite (wrap_int_small (num_blocks - 1)) by lia.
  rewrite wrap64_signed_eq by lia.
  destruct (Z.eqb_spec (c + 1) (num_blocks - 1)); [|lia].
  rewrite list_insert_insert_eq. done.
Qed.

(* the address of an offset *)
Lemma offset_to_allocation_value tb (num_trees tree_id offset : Z) :
  0 < alloc_table.min_size tb →
  0 < alloc_table.bytes_per_segment tb < 2 ^ 64 →
  0 <= alloc_table.memory tb →
  alloc_table.memory tb
    + alloc_table.num_segments tb * alloc_table.bytes_per_segment tb <= 2 ^ 64 →
  0 <= tree_id < num_trees →
  0 <= offset < 2 ^ 64 →
  offset / alloc_table.get_max_allocations_per_segment tb < alloc_table.num_segments tb →
  offset mod alloc_table.get_max_allocations_per_segment tb
    < alloc_table.bytes_per_segment tb / (alloc_table.min_size tb * 2 ^ tree_id) →
  let seg := offset / alloc_table.get_max_allocations_per_segment tb in
  let rel := offset mod alloc_table.get_max_allocations_per_segment tb in
  let sz := alloc_table.min_size tb * 2 ^ tree_id in
  alloc_table.offset_to_allocation tb offset tree_id
    = alloc_table.memory tb + alloc_table.bytes_per_segment tb * seg + rel * sz
  ∧ 0 <= seg ∧ 0 <= rel * sz < alloc_table.bytes_per_segment tb.
Proof.
  intros Hms Hbps Hmem Hfit Htree Hoff Hseg Hslot. cbv zeta.
  unfold alloc_table.get_max_allocations_per_segment in *.
  set (bps := alloc_table.bytes_per_segment tb) in *.
  set (ms := alloc_table.min_size tb) in *.
  set (mem := alloc_table.memory tb) in *.
  set (M := bps / ms) in *.
  assert (Hp : 0 < 2 ^ tree_id) by (apply Z.pow_pos_nonneg; lia).
  set (sz := ms * 2 ^ tree_id) in *.
  assert (Hsz : 0 < sz) by (unfold sz; nia).
  assert (Hbpsz : sz <= bps).
  { destruct (Z_lt_ge_dec bps sz); [|lia].
    rewrite (Z.div_small bps sz) in Hslot by lia.
    destruct (Z.eq_dec M 0) as [E|NE].
    - rewrite E, Z.mod_0_r in Hslot. lia.
    - pose proof (Z.mod_pos_bound offset M).
      assert (0 <= M) by (apply Z.div_pos; lia). lia. }
  assert (HMpos : 0 < M).
  { apply Z.div_str_pos. unfold sz in Hbpsz. nia. }
  pose proof (Z.mod_pos_bound offset M HMpos) as Hrel.
  pose proof (Z.div_mod offset M ltac:(lia)) as Hdm.
  set (seg := offset / M) in *. set (rel := offset mod M) in *.
  assert (Hseg0 : 0 <= seg) by (apply Z.div_pos; lia).
  assert (Hrelsz : rel * sz < bps).
  { pose proof (Z.mul_div_le bps sz Hsz). nia. }
  assert (Htid : tree_id < 64).
  { apply (pow2_le_lt64 tree_id bps); [lia| |lia]. unfold sz in Hbpsz. nia. }
  assert (Has : alloc_table.get_tree_alloc_size tb tree_id = sz).
  { unfold alloc_table.get_tree_alloc_size, alloc_table.get_p2_from_index.
    rewrite shl64_1_pow by lia. fold ms. apply wrap64_small. unfold sz in *. lia. }
  assert (Hsegb : bps * seg + rel * sz < bps * alloc_table.num_segments tb) by nia.
  split; [|split; [done|nia]].
  unfold alloc_table.offset_to_allocation.
  unfold alloc_table.get_max_allocations_per_segment. fold bps ms mem M seg rel.
  rewrite Has. unfold alloc_table.get_segment_memory_start. fold bps mem.
  rewrite (wrap64_small (bps * seg)) by nia.
  rewrite (wrap64_small (mem + bps * seg)) by nia.
  rewrite (wrap64_small (rel * sz)) by nia.
  apply wrap64_small. nia.
Qed.

(* free finds the segment of an address malloc gave out, and the table
   owns the address *)
Lemma allocation_segment tb (num_trees tree_id offset : Z) :
  0 < alloc_table.min_size tb →
  0 < alloc_table.bytes_per_segment tb < 2 ^ 64 →
  0 < alloc_table.memory tb →
  alloc_table.memory tb
    + alloc_table.num_segments tb * alloc_table.bytes_per_segment tb <= 2 ^ 64 →
  0 <= tree_id < num_trees →
  0 <= offset < 2 ^ 64 →
  offset / alloc_table.get_max_allocations_per_segment tb < alloc_table.num_segments tb →
  offset mod alloc_table.get_max_allocations_per_segment tb
    < alloc_table.bytes_per_segment tb / (alloc_table.min_size tb * 2 ^ tree_id) →
  alloc_table.get_segment_from_ptr tb (alloc_table.offset_to_allocation tb offset tree_id)
    = alloc_table.get_segment_from_offset tb offset
  ∧ alloc_table.owns_allocation tb (alloc_table.offset_to_allocation tb offset tree_id)
    = true.
Proof.
  intros Hms Hbps Hmem Hfit Htree Hoff Hseg Hslot.
  destruct (offset_to_allocation_value tb num_trees tree_id offset)
    as (-> & Hseg0 & Hrel); try done; try lia.
  unfold alloc_table.get_segment_from_ptr, alloc_table.get_segment_from_offset,
    alloc_table.owns_allocation.
  set (bps := alloc_table.bytes_per_segment tb) in *.
  set (mem := alloc_table.memory tb) in *.
  set (seg := offset / alloc_table.get_max_allocations_per_segment tb) in *.
  set (r := offset mod alloc_table.get_max_allocations_per_segment tb
            * (alloc_table.min_size tb * 2 ^ tree_id)) in *.
  replace (mem + bps * seg + r - mem) with (bps * seg + r) by lia.
  assert (Hsegb : bps * seg + r < bps * alloc_table.num_segments tb) by nia.
  rewrite (wrap64_small (bps * seg + r)) by nia.
  split.
  - symmetry. apply (Z.div_unique _ _ _ r); nia.
  - rewrite (wrap64_small (alloc_table.num_segments tb * bps)) by nia.
    apply Z.ltb_lt. nia.
Qed.

End table_free.

(** * The allocator: locks, segments, free *)

Lemma testbit_wrap32 (x i : Z) :
  0 <= i → Z.testbit (wrap32 x) i = (i <? 32) && Z.testbit x i.
Proof.
  intros Hi. unfold wrap32. destruct (Z.ltb_spec i 32); simpl.
  - apply Z.mod_pow2_bits_low. lia.
  - apply Z.mod_pow2_bits_high. lia.
Qed.

Lemma testbit_above_32 (x i : Z) : 0 <= x < 2 ^ 32 → 32 <= i → Z.testbit x i = false.
Proof.
  intros Hx Hi. destruct (Z.eq_dec x 0) as [->|]; [apply Z.testbit_0_l|].
  apply Z.bits_above_log2; [lia|].
  assert (Z.log2 x < 32) by (apply Z.log2_lt_pow2; lia). lia.
Qed.

(* taking a free tree lock succeeds, a second attempt is refused, the
   locks of the other trees are not disturbed, and the release gives the
   lock word back *)
Lemma tree_lock_round_trip (locks tree : Z) :
  0 <= tree < 32 → 0 <= locks < 2 ^ 32 → Z.testbit locks tree = false →
  ∃ locks1, Gallatin.acquire_tree_lock locks tree = (true, locks1)
    ∧ fst (Gallatin.acquire_tree_lock locks1 tree) = false
    ∧ (∀ other, 0 <= other < 32 → other ≠ tree →
         fst (Gallatin.acquire_tree_lock locks1 other)
         = fst (Gallatin.acquire_tree_lock locks other))
    ∧ Gallatin.release_tree_lock locks1 tree = locks.
Proof.
  intros Ht Hl Hfree. unfold Gallatin.acquire_tree_lock, Gallatin.release_tree_lock.
  rewrite land_SET_BIT_MASK, Hfree by lia. simpl.
  eexists. split; [reflexivity|]. simpl.
  assert (Hbit : ∀ i, 0 <= i →
            Z.testbit (Z.lor locks (wrap32 (SET_BIT_MASK tree))) i
            = Z.testbit locks i || (i =? tree)).
  { intros i Hi. rewrite Z.lor_spec, testbit_wrap32, testbit_SET_BIT_MASK by lia.
    destruct (Z.eqb_spec i tree) as [->|]; simpl.
    - destruct (Z.ltb_spec tree 32), (Z.ltb_spec tree 64); done || lia.
    - rewrite andb_false_r, andb_false_r. done. }
  split; [|split].
  - rewrite land_SET_BIT_MASK by lia. rewrite Hbit by lia.
    rewrite Z.eqb_refl, orb_true_r. done.
  - intros other Ho Hne. rewrite !land_SET_BIT_MASK by lia. rewrite Hbit by lia.
    destruct (Z.eqb_spec other tree); [done|]. rewrite orb_false_r. done.
  - apply Z.bits_inj'. intros i Hi.
    rewrite Z.land_spec, Hbit, testbit_wrap32, testbit_not64, testbit_SET_BIT_MASK by lia.
    destruct (Z.eqb_spec i tree) as [->|Hne]; simpl.
    + rewrite Hfree. destruct (Z.ltb_spec tree 32), (Z.ltb_spec tree 64); done || lia.
    + rewrite orb_false_r. rewrite andb_false_r. simpl.
      destruct (Z.ltb_spec i 32); simpl.
      * destruct (Z.ltb_spec i 64); [|lia]. simpl. apply andb_true_r.
      * rewrite (testbit_above_32 locks i) by lia. done.
Qed.

(* the retry loops of malloc hand on the first offset their allocation
   routine produces *)
Lemma retry_loop_skips (limit : Z) (routine : Z → Z) (n : nat) : ∀ (fuel : nat) (c : Z),
  0 <= c → c + Z.of_nat n < limit → limit < 2 ^ 64 →
  (∀ j, c <= j < c + Z.of_nat n → routine j = 0xffffffffffffffff) →
  Gallatin.retry_loop (n + fuel) limit routine 0xffffffffffffffff c
  = Gallatin.retry_loop fuel limit routine 0xffffffffffffffff (c + Z.of_nat n).
Proof.
  induction n as [|n IH]; intros fuel c Hc Hlim Hlt Hfail.
  - change (0 + fuel)%nat with fuel. replace (c + Z.of_nat 0) with c by lia. done.
  - change (S n + fuel)%nat with (S (n + fuel)). cbn [Gallatin.retry_loop].
    rewrite Z.eqb_refl. destruct (Z.ltb_spec c limit); [|lia]. simpl.
    rewrite Hfail by lia. rewrite (wrap64_small (c + 1)) by lia.
    rewrite IH by (first [lia | intros j Hj; apply Hfail; lia]).
    f_equal. lia.
Qed.

Lemma retry_loop_first_answer (limit : Z) (routine : Z → Z) (k : Z) (fuel : nat) :
  0 <= k < limit → limit < 2 ^ 64 →
  (∀ j, 0 <= j < k → routine j = 0xffffffffffffffff) →
  routine k ≠ 0xffffffffffffffff →
  Gallatin.retry_loop (Z.to_nat k + S (S fuel)) limit routine 0xffffffffffffffff 0
  = Ret (routine k).
Proof.
  intros Hk Hlim Hfail Hok.
  rewrite (retry_loop_skips limit routine (Z.to_nat k) (S (S fuel)) 0)
    by (first [lia | intros j Hj; apply Hfail; lia]).
  replace (0 + Z.of_nat (Z.to_nat k)) with k by lia.
  cbn [Gallatin.retry_loop]. rewrite Z.eqb_refl.
  destruct (Z.ltb_spec k limit); [|lia]. simpl.
  destruct (Z.eqb_spec (routine k) 18446744073709551615); [done|]. done.
Qed.

Lemma retry_loop_gives_up (limit : Z) (routine : Z → Z) (fuel : nat) :
  0 <= limit < 2 ^ 64 →
  (∀ j, 0 <= j < limit → routine j = 0xffffffffffffffff) →
  Gallatin.retry_loop (Z.to_nat limit + S fuel) limit routine 0xffffffffffffffff 0
  = Ret 0xffffffffffffffff.
Proof.
  intros Hlim Hfail.
  destruct (Z.eq_dec limit 0) as [->|Hpos].
  { simpl. done. }
  replace (Z.to_nat limit + S fuel)%nat
    with (Z.to_nat (limit - 1) + S (S fuel))%nat by lia.
  rewrite (retry_loop_skips limit routine (Z.to_nat (limit - 1)) (S (S fuel)) 0)
    by (first [lia | intros j Hj; apply Hfail; lia]).
  replace (0 + Z.of_nat (Z.to_nat (limit - 1))) with (limit - 1) by lia.
  cbn [Gallatin.retry_loop]. rewrite Z.eqb_refl.
  destruct (Z.ltb_spec (limit - 1) limit); [|lia]. simpl.
  rewrite Hfail by lia. rewrite Z.eqb_refl.
  rewrite (wrap64_small (limit - 1 + 1)) by lia.
  destruct (Z.ltb_spec (limit - 1 + 1) limit); [lia|]. done.
Qed.

Section allocator.

Context {Block : Type}.
Implicit Types g : Gallatin.t Block.

(* a free lock word is taken at the first attempt *)
Lemma wait_for_free_lock (fuel : nat) (locks tree : Z) (k : nat) :
  0 <= tree < 32 → Z.testbit locks tree = false →
  Gallatin.wait_for_tree_lock (S fuel) (λ _, locks) k tree
  = Ret (snd (Gallatin.acquire_tree_lock locks tree)).
Proof.
  intros Ht Hfree. cbn [Gallatin.wait_for_tree_lock].
  unfold Gallatin.acquire_tree_lock. rewrite land_SET_BIT_MASK, Hfree by lia. done.
Qed.

(* gather_new_segment: the lowest free segment leaves the segment tree, is
   bound to the class and enters the tree of the class; with no free
   segment the answer is -1 and nothing changes *)
Lemma gather_new_segment_spec g (tree : Z) (sub : veb_tree.t) (n fuel : nat) :
  let st := Gallatin.segment_tree g in
  let tb := Gallatin.table g in
  let nb := alloc_table.get_blocks_per_segment tb tree in
  tree_inv st → veb_tree.total_universe st < 2 ^ 31 →
  0 <= tree → tree ≠ 0xffff →
  Gallatin.sub_trees g !! Z.to_nat tree = Some sub →
  tree_inv sub → veb_tree.total_universe st <= veb_tree.total_universe sub →
  0 <= nb < 2 ^ 31 → 0 <= alloc_table.blocks_per_segment tb →
  Z.of_nat (length (alloc_table.queues tb)) < 2 ^ 64 →
  Z.of_nat (length (alloc_table.blocks tb)) < 2 ^ 64 →
  alloc_table.calloc_mode tb = false →
  (∀ s, member st s → bindable tb s tree) →
  ((∀ s, ¬ member st s)
   ∧ Gallatin.gather_new_segment (S n) (S fuel) g tree = Ret (-1, g))
  ∨ ∃ r g', Gallatin.gather_new_segment (S n) (S fuel) g tree = Ret (r, g')
      ∧ least_from st 0 r
      ∧ taken st (Gallatin.segment_tree g') r
      ∧ serving (Gallatin.table g') r tree 0
      ∧ ∃ sub', Gallatin.sub_trees g' !! Z.to_nat tree = Some sub'
          ∧ tree_inv sub'
          ∧ ∀ s, leaf_bit sub' s = leaf_bit sub s || (s =? r).
Proof.
  intros st tb nb Hinv Hu Ht Hne Hsub Hsinv Hsu Hnb Hbps Hqsz Hbsz Hcal Hfree.
  destruct (malloc_first_spec st n fuel Hinv) as (r & st' & Hmf & Hr).
  unfold Gallatin.gather_new_segment. fold st. rewrite Hmf. simpl.
  destruct Hr as [(-> & -> & Hnone)|[Hleast Htaken]].
  - left. split; [done|]. rewrite Z.eqb_refl. destruct g; done.
  - right. pose proof Hleast as (Hm & _ & _).
    pose proof (member_in_universe st r Hinv Hm) as Hru.
    destruct (Z.eqb_spec r veb_tree.fail) as [->|_].
    { exfalso. apply (fail_not_member st Hinv Hm). }
    simpl.
    destruct (Hfree r Hm) as (Hid & Hq & Hb & Hqc & Hqf & Hfq & Hac).
    destruct (setup_segment_unbound tb r tree) as (tb' & Hset & Hsrv & _);
      try done; try lia.
    fold tb. rewrite Hset. simpl.
    destruct (Z.ltb_spec tree 0); [lia|]. rewrite Hsub.
    destruct (insert_force_update_spec sub r Hsinv ltac:(lia)) as (sub' & Hins & Hinv' & Hbits).
    rewrite Hins. simpl. rewrite (wrap_int_small r) by lia.
    eexists. eexists. split; [reflexivity|]. simpl.
    split; [done|]. split; [done|]. split; [done|].
    exists sub'. split; [|done].
    apply list_lookup_insert_eq. apply lookup_lt_Some in Hsub. done.
Qed.

End allocator.

(** * A freshly generated tree *)

Lemma next_universe (u : Z) :
  1 <= u <= 2 ^ 32 →
  wrap64 (wrap64 (u - 1) / 64 + 1) = (u - 1) / 64 + 1
  ∧ 1 <= (u - 1) / 64 + 1 <= 2 ^ 32.
Proof.
  intros Hu. rewrite (wrap64_small (u - 1)) by lia.
  assert (0 <= (u - 1) / 64 < 2 ^ 26).
  { split; [apply Z.div_pos; lia|apply Z.div_lt_upper_bound; lia]. }
  rewrite wrap64_small by lia. lia.
Qed.

Lemma next_universe_bound (u : Z) (n : nat) :
  1 <= u <= 64 ^ Z.of_nat (S n) → (u - 1) / 64 + 1 <= 64 ^ Z.of_nat n.
Proof.
  intros Hu. rewrite Nat2Z.inj_succ, Z.pow_succ_r in Hu by lia.
  assert ((u - 1) / 64 < 64 ^ Z.of_nat n); [|lia].
  apply Z.div_lt_upper_bound; lia.
Qed.

Lemma generated_summarises (u : Z) :
  1 <= u <= 2 ^ 32 →
  summarises (layer.generate_on_device ((u - 1) / 64 + 1)) (layer.generate_on_device u).
Proof.
  intros Hu. destruct (next_universe u Hu) as [_ Hup].
  destruct (layer_generate_spec u Hu) as ((_ & Hnb & _) & Hus & Hbits).
  destruct (layer_generate_spec _ Hup) as (_ & Hus' & Hbits').
  split; [rewrite Hus', Hnb, Hus; done|].
  intros j Hj. rewrite Hbits'. split.
  - intros H. apply andb_prop in H as [_ H]. apply Z.ltb_lt in H.
    exists 0. split; [lia|]. rewrite Hbits.
    assert (j <= (u - 1) / 64) by lia.
    assert (64 * j <= u - 1).
    { pose proof (Z.mul_div_le (u - 1) 64 ltac:(lia)). lia. }
    destruct (Z.leb_spec 0 (64 * j + 0)), (Z.ltb_spec (64 * j + 0) u); done || lia.
  - intros (b & Hb & H). rewrite Hbits in H. apply andb_prop in H as [_ H].
    apply Z.ltb_lt in H.
    assert (j <= (u - 1) / 64) by (apply Z.div_le_lower_bound; lia).
    destruct (Z.leb_spec 0 j), (Z.ltb_spec j ((u - 1) / 64 + 1)); done || lia.
Qed.

Lemma generate_layers_spec (n : nat) : ∀ u,
  1 <= u <= 2 ^ 32 →
  let ls := veb_tree.generate_layers n u in
  length ls = n
  ∧ Forall layer_ok ls
  ∧ (∀ i up lo, ls !! i = Some up → ls !! S i = Some lo → summarises up lo)
  ∧ ((1 <= n)%nat → ls !! Nat.pred n = Some (layer.generate_on_device u))
  ∧ (∀ top, u <= 64 ^ Z.of_nat n → ls !! O = Some top → layer.num_blocks top = 1).
Proof.
  induction n as [|n IH]; intros u Hu; cbn zeta.
  - simpl. split; [done|]. split; [constructor|]. split; [done|]. split; [lia|done].
  - cbn [veb_tree.generate_layers].
    destruct (next_universe u Hu) as [-> Hup].
    destruct (IH _ Hup) as (Hlen & Hok & Hsum & Hlast & Htop).
    set (ls := veb_tree.generate_layers n ((u - 1) / 64 + 1)) in *.
    destruct (layer_generate_spec u Hu) as (Hlok & Hus & Hbits).
    split; [rewrite length_app, Hlen; simpl; lia|].
    split; [apply Forall_app; split; [done|constructor; [done|constructor]]|].
    split; [|split].
    + intros i up lo Hi HSi.
      destruct (decide (S i < n)%nat) as [Hlt|Hge].
      * rewrite lookup_app_l in Hi by lia. rewrite lookup_app_l in HSi by lia.
        apply (Hsum i); done.
      * assert (Hn : S i = n).
        { apply lookup_lt_Some in HSi. rewrite length_app, Hlen in HSi. simpl in HSi. lia. }
        rewrite lookup_app_l in Hi by lia.
        rewrite lookup_app_r in HSi by lia.
        replace (S i - length ls)%nat with O in HSi by lia.
        simpl in HSi. injection HSi as <-.
        replace i with (Nat.pred n) in Hi by lia.
        rewrite Hlast in Hi by lia. injection Hi as <-.
        apply generated_summarises. done.
    + intros _. simpl. rewrite lookup_app_r by lia. rewrite Hlen, Nat.sub_diag. done.
    + intros top Hb Hl. destruct n as [|n].
      * simpl in Hl. injection Hl as <-. destruct Hlok as (_ & -> & _).
        rewrite Hus. change (64 ^ Z.of_nat 1) with 64 in Hb.
        rewrite Z.div_small by lia. done.
      * rewrite lookup_app_l in Hl by lia.
        apply Htop; [|done]. apply next_universe_bound. lia.
Qed.

(* generate_on_device builds a tree in which every index of the universe
   is present and every summary is up to date *)
Lemma tree_generate_spec (universe ext_seed : Z) :
  1 <= universe <= 2 ^ 32 →
  tree_inv (veb_tree.generate_on_device universe ext_seed)
  ∧ veb_tree.total_universe (veb_tree.generate_on_device universe ext_seed) = universe
  ∧ ∀ s, leaf_bit (veb_tree.generate_on_device universe ext_seed) s
         = (0 <=? s) && (s <? universe).
Proof.
  intros Hu. unfold veb_tree.generate_on_device, __builtin_clzll.
  replace (64 - (63 - Z.log2 universe) - 1) with (Z.log2 universe) by lia.
  assert (Hlog : 0 <= Z.log2 universe) by apply Z.log2_nonneg.
  set (k := Z.log2 universe / 6 + 1).
  assert (Hk : 1 <= k).
  { unfold k. assert (0 <= Z.log2 universe / 6) by (apply Z.div_pos; lia). lia. }
  assert (Hpow : universe <= 64 ^ Z.of_nat (Z.to_nat k)).
  { rewrite Z2Nat.id by lia. change 64 with (2 ^ 6). rewrite <- Z.pow_mul_r by lia.
    assert (Hl : universe < 2 ^ (Z.log2 universe + 1)).
    { apply Z.log2_spec. lia. }
    assert (Z.log2 universe + 1 <= 6 * k).
    { unfold k. pose proof (Z.div_mod (Z.log2 universe) 6 ltac:(lia)).
      pose proof (Z.mod_pos_bound (Z.log2 universe) 6 ltac:(lia)). lia. }
    assert (2 ^ (Z.log2 universe + 1) <= 2 ^ (6 * k)) by (apply Z.pow_le_mono_r; lia).
    lia. }
  destruct (generate_layers_spec (Z.to_nat k) universe Hu)
    as (Hlen & Hok & Hsum & Hlast & Htop).
  destruct (layer_generate_spec universe Hu) as (_ & Hus & Hbits).
  split; [|split; [done|]].
  - unfold tree_inv. simpl.
    split; [done|]. split; [lia|]. split; [done|]. split; [done|].
    split; [intros top Ht; apply Htop; done|].
    intros leaf Hl. unfold bottom_layer in Hl. simpl in Hl.
    rewrite Hlen, Hlast in Hl by lia. injection Hl as <-. done.
  - intros s. unfold leaf_bit, bottom_layer. simpl.
    rewrite Hlen, Hlast by lia. apply Hbits.
Qed.

(** * Growing the universe of a layer *)

Lemma atomicOr_total (l : layer.t) (h v : Z) :
  0 <= h < Z.of_nat (length (layer.bits l)) →
  ∃ w, layer.bits l !! Z.to_nat h = Some w
    ∧ layer.atomicOr l h v
      = Ret (w, layer.with_bits l (<[Z.to_nat h := Z.lor w v]> (layer.bits l))).
Proof.
  intros Hh.
  assert (Hlt : (Z.to_nat h < length (layer.bits l))%nat) by lia.
  destruct (lookup_lt_is_Some_2 _ _ Hlt) as [w Hw].
  exists w. split; [done|]. unfold layer.atomicOr, layer.load. rewrite Hw. done.
Qed.

Lemma lbit_or_word (l : layer.t) (h w v j : Z) :
  0 <= h → layer.bits l !! Z.to_nat h = Some w →
  lbit (layer.with_bits l (<[Z.to_nat h := Z.lor w v]> (layer.bits l))) j
  = lbit l j || ((0 <=? j) && (j / 64 =? h) && Z.testbit v (j mod 64)).
Proof.
  intros Hh Hw.
  rewrite lbit_store by (first [done | apply lookup_lt_Some in Hw; done]).
  destruct (Z.leb_spec 0 j); simpl; [|rewrite orb_false_r; done].
  destruct (Z.eqb_spec (j / 64) h) as [E|]; simpl; [|rewrite orb_false_r; done].
  unfold lbit. destruct (Z.leb_spec 0 j); [|lia]. simpl.
  rewrite E, Hw. simpl. apply Z.lor_spec.
Qed.

Lemma testbit_all_ones (b : Z) : 0 <= b < 64 → Z.testbit 0xffffffffffffffff b = true.
Proof.
  intros Hb. change 0xffffffffffffffff with (Z.ones 64).
  rewrite Z.testbit_ones_nonneg by lia. apply Z.ltb_lt. lia.
Qed.

(* the loop of set_new_universe fills whole words *)
Lemma fill_blocks_spec (n : nat) : ∀ (l : layer.t) (i : Z),
  0 <= i → i + Z.of_nat n <= Z.of_nat (length (layer.bits l)) →
  ∃ l', layer.fill_blocks n l i = Ret l'
    ∧ layer.universe_size l' = layer.universe_size l
    ∧ layer.num_blocks l' = layer.num_blocks l
    ∧ length (layer.bits l') = length (layer.bits l)
    ∧ ∀ j, lbit l' j = lbit l j || in_run (64 * i) (64 * Z.of_nat n) j.
Proof.
  induction n as [|n IH]; intros l i Hi Hfit; cbn [layer.fill_blocks].
  - exists l. repeat (split; [done|]). intros j. unfold in_run.
    destruct (Z.leb_spec (64 * i) j), (Z.ltb_spec j (64 * i + 64 * Z.of_nat 0));
      simpl; rewrite ?orb_false_r; done || lia.
  - destruct (atomicOr_total l i 0xffffffffffffffff ltac:(lia)) as (w & Hw & ->).
    cbn [mbind res_bind].
    set (l1 := layer.with_bits l _).
    destruct (IH l1 (i + 1)) as (l' & -> & Hu & Hnb & Hlen & Hbits).
    { lia. } { unfold l1. simpl. rewrite length_insert. lia. }
    exists l'. split; [done|]. split; [done|]. split; [done|].
    split; [rewrite Hlen; unfold l1; simpl; apply length_insert|].
    intros j. rewrite Hbits. unfold l1. rewrite (lbit_or_word l i w) by done.
    rewrite <- orb_assoc. f_equal. unfold in_run.
    destruct (Z.leb_spec 0 j); simpl.
    2:{ destruct (Z.leb_spec (64 * (i + 1)) j), (Z.leb_spec (64 * i) j); simpl; done || lia. }
    pose proof (Z.mod_pos_bound j 64 ltac:(lia)) as Hm.
    pose proof (Z.div_mod j 64 ltac:(lia)) as Hd.
    destruct (Z.eqb_spec (j / 64) i) as [E|NE]; simpl.
    + rewrite testbit_all_ones by lia. simpl.
      destruct (Z.leb_spec (64 * i) j), (Z.ltb_spec j (64 * i + 64 * Z.of_nat (S n)));
        simpl; done || lia.
    + destruct (Z.leb_spec (64 * (i + 1)) j),
        (Z.ltb_spec j (64 * (i + 1) + 64 * Z.of_nat n)),
        (Z.leb_spec (64 * i) j),
        (Z.ltb_spec j (64 * i + 64 * Z.of_nat (S n))); simpl; done || lia.
Qed.


(** * Further properties of the tree *)

(** X1: in a tree whose summaries are up to date, remove(index) for an
    index of the universe returns whether the index was present, leaves
    the summaries up to date, makes query(index) false and changes the
    answer of no other query. *)
Theorem remove_clears_only_index (tr : veb_tree.t) (index : Z) :
  tree_inv tr → 0 <= index < veb_tree.total_universe tr →
  ∃ present tr',
    veb_tree.query tr index = Ret present
    ∧ veb_tree.remove tr index = Ret (present, tr')
    ∧ tree_inv tr'
    ∧ veb_tree.query tr' index = Ret false
    ∧ ∀ s, 0 <= s < veb_tree.total_universe tr → s ≠ index →
           veb_tree.query tr' s = veb_tree.query tr s.
Proof.
  intros Hinv Hidx.
  destruct (remove_spec tr index Hinv Hidx) as (tr' & Hrem & Hinv' & Hbits).
  destruct (remove_header _ _ _ _ Hrem) as (_ & Hu & _).
  exists (leaf_bit tr index), tr'.
  split; [apply query_leaf_bit; done|]. split; [done|]. split; [done|].
  split.
  - rewrite query_leaf_bit by (first [done | rewrite Hu; done]).
    rewrite Hbits, Z.eqb_refl. rewrite andb_false_r. done.
  - intros s Hs Hne.
    rewrite !query_leaf_bit by (first [done | rewrite Hu; done]).
    rewrite Hbits. destruct (Z.eqb_spec s index); [done|]. rewrite andb_true_r. done.
Qed.

Lemma remove_clears_only_index_witness :
  ∃ present tr',
    veb_tree.query scenario_A 64 = Ret present
    ∧ veb_tree.remove scenario_A 64 = Ret (present, tr')
    ∧ tree_inv tr'
    ∧ veb_tree.query tr' 64 = Ret false
    ∧ ∀ s, 0 <= s < veb_tree.total_universe scenario_A → s ≠ 64 →
           veb_tree.query tr' s = veb_tree.query scenario_A s.
Proof.
  apply (remove_clears_only_index scenario_A 64).
  - apply tree_inv_b_sound. vm_compute. reflexivity.
  - simpl. lia.
Defined.

(** X2: in a tree whose summaries are up to date, insert_force_update of
    an absent index followed by remove of it gives back the very same
    tree, summaries included, and so does remove of a present index
    followed by insert_force_update; all four calls return true. *)
Theorem insert_remove_round_trip (tr : veb_tree.t) (index : Z) :
  tree_inv tr → 0 <= index < veb_tree.total_universe tr →
  (veb_tree.query tr index = Ret false →
   ∃ tr1, veb_tree.insert_force_update tr index = Ret (true, tr1)
        ∧ veb_tree.remove tr1 index = Ret (true, tr))
  ∧ (veb_tree.query tr index = Ret true →
     ∃ tr1, veb_tree.remove tr index = Ret (true, tr1)
          ∧ veb_tree.insert_force_update tr1 index = Ret (true, tr)).
Proof.
  intros Hinv Hidx. rewrite (query_leaf_bit tr index Hinv Hidx). split; intros Hq.
  - injection Hq as Hq.
    destruct (insert_force_update_spec tr index Hinv Hidx) as (tr1 & Hins & Hinv1 & Hb1).
    rewrite Hq in Hins. simpl in Hins.
    pose proof (insert_force_update_header _ _ _ _ Hins) as Hh1.
    destruct Hh1 as (Hs1 & Hu1 & Hn1).
    destruct (remove_spec tr1 index Hinv1 ltac:(rewrite Hu1; done))
      as (tr2 & Hrem & Hinv2 & Hb2).
    rewrite Hb1, Z.eqb_refl, orb_true_r in Hrem.
    destruct (remove_header _ _ _ _ Hrem) as (Hs2 & Hu2 & Hn2).
    exists tr1. split; [done|].
    assert (E : tr2 = tr); [|rewrite <- E; done].
    apply leaf_determines_tree; try done.
    + split; [congruence|]. split; congruence.
    + intros s. rewrite Hb2, Hb1.
      destruct (Z.eqb_spec s index) as [->|]; simpl.
      * rewrite Hq. done.
      * rewrite orb_false_r, andb_true_r. done.
  - injection Hq as Hq.
    destruct (remove_spec tr index Hinv Hidx) as (tr1 & Hrem & Hinv1 & Hb1).
    rewrite Hq in Hrem.
    destruct (remove_header _ _ _ _ Hrem) as (Hs1 & Hu1 & Hn1).
    destruct (insert_force_update_spec tr1 index Hinv1 ltac:(rewrite Hu1; done))
      as (tr2 & Hins & Hinv2 & Hb2).
    rewrite Hb1, Z.eqb_refl, andb_false_r in Hins. simpl in Hins.
    destruct (insert_force_update_header _ _ _ _ Hins) as (Hs2 & Hu2 & Hn2).
    exists tr1. split; [done|].
    assert (E : tr2 = tr); [|rewrite <- E; done].
    apply leaf_determines_tree; try done.
    + split; [congruence|]. split; congruence.
    + intros s. rewrite Hb2, Hb1.
      destruct (Z.eqb_spec s index) as [->|]; simpl.
      * rewrite Hq. done.
      * rewrite orb_false_r, andb_true_r. done.
Qed.

Lemma insert_remove_round_trip_witness :
  (veb_tree.query scenario_A 65 = Ret false →
   ∃ tr1, veb_tree.insert_force_update scenario_A 65 = Ret (true, tr1)
        ∧ veb_tree.remove tr1 65 = Ret (true, scenario_A))
  ∧ (veb_tree.query scenario_A 65 = Ret true →
     ∃ tr1, veb_tree.remove scenario_A 65 = Ret (true, tr1)
          ∧ veb_tree.insert_force_update tr1 65 = Ret (true, scenario_A)).
Proof.
  apply (insert_remove_round_trip scenario_A 65).
  - apply tree_inv_b_sound. vm_compute. reflexivity.
  - simpl. lia.
Defined.

(** X3: in a tree whose summaries are up to date, successor_thorough
    gives the answer of successor for every index of the universe. *)
Theorem successor_thorough_is_successor (tr : veb_tree.t) (i : Z) (fuel : nat) :
  tree_inv tr → 0 <= i < veb_tree.total_universe tr →
  veb_tree.successor_thorough (S fuel) tr i = veb_tree.successor tr i.
Proof. apply successor_thorough_eq. Qed.

Lemma successor_thorough_is_successor_witness :
  veb_tree.successor_thorough 1 scenario_A 65 = veb_tree.successor scenario_A 65.
Proof.
  apply (successor_thorough_is_successor scenario_A 65 0).
  - apply tree_inv_b_sound. vm_compute. reflexivity.
  - simpl. lia.
Defined.

(** X4: in a tree whose summaries are up to date, find_first_valid_index
    returns the smallest present index, index 0 included, and the failure
    sentinel exactly when no index is present. *)
Theorem find_first_valid_index_least (tr : veb_tree.t) (fuel : nat) :
  tree_inv tr →
  ∃ r, veb_tree.find_first_valid_index (S fuel) tr = Ret r
     ∧ ((r = veb_tree.fail ∧ ∀ s, ¬ member tr s)
        ∨ (member tr r ∧ ∀ s, member tr s → r <= s)).
Proof.
  intros Hinv. destruct (find_first_spec tr fuel Hinv) as (r & Hr & [H|(Hm & _ & Hl)]).
  - exists r. split; [done|]. left. done.
  - exists r. split; [done|]. right. split; [done|].
    intros s Hs. apply Hl; [done|]. destruct Hs. lia.
Qed.

Lemma find_first_valid_index_least_witness :
  ∃ r, veb_tree.find_first_valid_index 1 scenario_A = Ret r
     ∧ ((r = veb_tree.fail ∧ ∀ s, ¬ member scenario_A s)
        ∨ (member scenario_A r ∧ ∀ s, member scenario_A s → r <= s)).
Proof.
  apply (find_first_valid_index_least scenario_A 0).
  apply tree_inv_b_sound. vm_compute. reflexivity.
Defined.

(** X5: in a tree whose summaries are up to date,
    find_random_valid_index returns, whatever the two hashes are, a
    present index or the failure sentinel; it can fail only when no index
    other than 0 is present, since its last resort, the successor of 0,
    does not look at index 0. *)
Theorem find_random_valid_index_present (tr : veb_tree.t) (fuel : nat)
    (hash1 hash2 : Z) :
  tree_inv tr →
  ∃ r, veb_tree.find_random_valid_index (S fuel) tr hash1 hash2 = Ret r
     ∧ ((r = veb_tree.fail ∧ ∀ s, member tr s → s = 0) ∨ member tr r).
Proof.
  intros Hinv. unfold veb_tree.find_random_valid_index.
  apply find_random_loop_spec; [done|lia|]. vm_compute. lia.
Qed.

Lemma find_random_valid_index_present_witness :
  ∃ r, veb_tree.find_random_valid_index 1 scenario_A 17 5 = Ret r
     ∧ ((r = veb_tree.fail ∧ ∀ s, member scenario_A s → s = 0) ∨ member scenario_A r).
Proof.
  apply (find_random_valid_index_present scenario_A 0 17 5).
  apply tree_inv_b_sound. vm_compute. reflexivity.
Defined.

(** X6: in a tree whose summaries are up to date, lock_offset(start)
    takes out the smallest present index at or above start and returns
    it: the summaries stay up to date and no other index changes.  When
    no present index is at or above start it returns the failure sentinel
    and leaves the tree as it was. *)
Theorem lock_offset_takes_least (tr : veb_tree.t) (start : Z) (n fuel : nat) :
  tree_inv tr → 0 <= start < veb_tree.total_universe tr →
  ∃ r tr', veb_tree.lock_offset (S n) (S fuel) tr start = Ret (r, tr')
     ∧ ((r = veb_tree.fail ∧ tr' = tr ∧ ∀ s, member tr s → s < start)
        ∨ (member tr r ∧ start <= r
           ∧ (∀ s, member tr s → start <= s → r <= s)
           ∧ tree_inv tr'
           ∧ ∀ s, leaf_bit tr' s = leaf_bit tr s && negb (s =? r))).
Proof.
  intros Hinv Hs.
  destruct (lock_offset_spec tr start n fuel Hinv Hs) as (r & tr' & Hl & H).
  exists r, tr'. split; [done|].
  destruct H as [H|[(Hm & Hge & Hleast) (Hinv' & _ & Hbits)]]; [left; done|].
  right. done.
Qed.

Lemma lock_offset_takes_least_witness :
  ∃ r tr', veb_tree.lock_offset 1 1 scenario_A 64 = Ret (r, tr')
     ∧ ((r = veb_tree.fail ∧ tr' = scenario_A ∧ ∀ s, member scenario_A s → s < 64)
        ∨ (member scenario_A r ∧ 64 <= r
           ∧ (∀ s, member scenario_A s → 64 <= s → r <= s)
           ∧ tree_inv tr'
           ∧ ∀ s, leaf_bit tr' s = leaf_bit scenario_A s && negb (s =? r))).
Proof.
  apply (lock_offset_takes_least scenario_A 64 0 0).
  - apply tree_inv_b_sound. vm_compute. reflexivity.
  - simpl. lia.
Defined.

(** X7: in a tree whose summaries are up to date, malloc_first takes out
    the smallest present index and returns it, keeping the summaries up
    to date; on a tree with no present index it returns the failure
    sentinel and leaves the tree as it was. *)
Theorem malloc_first_takes_least (tr : veb_tree.t) (n fuel : nat) :
  tree_inv tr →
  ∃ r tr', veb_tree.malloc_first (S n) (S fuel) tr = Ret (r, tr')
     ∧ ((r = veb_tree.fail ∧ tr' = tr ∧ ∀ s, ¬ member tr s)
        ∨ (member tr r ∧ (∀ s, member tr s → r <= s)
           ∧ tree_inv tr'
           ∧ ∀ s, leaf_bit tr' s = leaf_bit tr s && negb (s =? r))).
Proof.
  intros Hinv.
  destruct (malloc_first_spec tr n fuel Hinv) as (r & tr' & Hl & H).
  exists r, tr'. split; [done|].
  destruct H as [H|[(Hm & Hge & Hleast) (Hinv' & _ & Hbits)]]; [left; done|].
  right. split; [done|]. split; [|done].
  intros s Hsm. apply Hleast; [done|]. destruct Hsm. lia.
Qed.

Lemma malloc_first_takes_least_witness :
  ∃ r tr', veb_tree.malloc_first 1 1 scenario_A = Ret (r, tr')
     ∧ ((r = veb_tree.fail ∧ tr' = scenario_A ∧ ∀ s, ¬ member scenario_A s)
        ∨ (member scenario_A r ∧ (∀ s, member scenario_A s → r <= s)
           ∧ tree_inv tr'
           ∧ ∀ s, leaf_bit tr' s = leaf_bit scenario_A s && negb (s =? r))).
Proof.
  apply (malloc_first_takes_least scenario_A 0 0).
  apply tree_inv_b_sound. vm_compute. reflexivity.
Defined.

(** X8: in a tree whose summaries are up to date, malloc returns,
    whatever the two hashes are, a present index that it has taken out,
    keeping the summaries up to date and every other index as it was; it
    returns the failure sentinel, with the tree unchanged, exactly when no
    index is present. *)
Theorem malloc_takes_present_index (tr : veb_tree.t) (n fuel : nat) (hash1 hash2 : Z) :
  tree_inv tr →
  ∃ r tr', veb_tree.malloc (S n) (S fuel) tr hash1 hash2 = Ret (r, tr')
     ∧ ((r = veb_tree.fail ∧ tr' = tr ∧ ∀ s, ¬ member tr s)
        ∨ (member tr r ∧ tree_inv tr'
           ∧ ∀ s, leaf_bit tr' s = leaf_bit tr s && negb (s =? r))).
Proof.
  intros Hinv. unfold veb_tree.malloc.
  destruct (malloc_loop_spec tr n fuel hash1 hash2 (S (Z.to_nat VEB_MAX_ATTEMPTS)) Hinv 0)
    as (r & tr' & Hl & H); [lia|vm_compute; lia|].
  exists r, tr'. split; [done|].
  destruct H as [H|[Hm (Hinv' & _ & Hbits)]]; [left; done|right; done].
Qed.

Lemma malloc_takes_present_index_witness :
  ∃ r tr', veb_tree.malloc 1 1 scenario_A 17 5 = Ret (r, tr')
     ∧ ((r = veb_tree.fail ∧ tr' = scenario_A ∧ ∀ s, ¬ member scenario_A s)
        ∨ (member scenario_A r ∧ tree_inv tr'
           ∧ ∀ s, leaf_bit tr' s = leaf_bit scenario_A s && negb (s =? r))).
Proof.
  apply (malloc_takes_present_index scenario_A 0 0 17 5).
  apply tree_inv_b_sound. vm_compute. reflexivity.
Defined.

(** * Further properties of one layer *)

(** X9: layer::find_next(high, low) on a stored word returns the position
    of the lowest set bit above position low, and -1 when there is none;
    for high at or beyond universe_size it returns -1 without reading a
    word. *)
Theorem find_next_lowest_above (l : layer.t) (h low w : Z) :
  layer.bits l !! Z.to_nat h = Some w → 0 <= h → -1 <= low <= 63 →
  (layer.universe_size l <= h → layer.find_next l h low = Ret (-1))
  ∧ (h < layer.universe_size l →
     ∃ r, layer.find_next l h low = Ret r
        ∧ ((r = -1 ∧ ∀ b, low < b < 64 → lbit l (64 * h + b) = false)
           ∨ (low < r < 64 ∧ lbit l (64 * h + r) = true
              ∧ ∀ b, low < b < r → lbit l (64 * h + b) = false))).
Proof.
  intros Hw Hh Hlow. split.
  - intros Hge. unfold layer.find_next.
    destruct (Z.leb_spec (layer.universe_size l) h); [done|lia].
  - intros Hlt. apply (find_next_spec l h low w); [lia|done|done].
Qed.

Lemma find_next_lowest_above_witness :
  (layer.universe_size layer_64_to_73 <= 1 →
   layer.find_next layer_64_to_73 1 3 = Ret (-1))
  ∧ (1 < layer.universe_size layer_64_to_73 →
     ∃ r, layer.find_next layer_64_to_73 1 3 = Ret r
        ∧ ((r = -1 ∧ ∀ b, 3 < b < 64 → lbit layer_64_to_73 (64 * 1 + b) = false)
           ∨ (3 < r < 64 ∧ lbit layer_64_to_73 (64 * 1 + r) = true
              ∧ ∀ b, 3 < b < r → lbit layer_64_to_73 (64 * 1 + b) = false))).
Proof.
  apply (find_next_lowest_above layer_64_to_73 1 3 0x3ff).
  - reflexivity.
  - lia.
  - lia.
Defined.

(** X10: layer::return_multiple(start, n) on a run that lies inside the
    stored words returns with exactly the n bits from start set in
    addition to those that were set; the sizes of the layer do not
    change. *)
Theorem layer_return_multiple_sets_run (l : layer.t) (start n : Z) :
  storage_ok l → 0 <= start → 1 <= n →
  start + n <= 64 * Z.of_nat (length (layer.bits l)) →
  ∃ l', layer.return_multiple (S (Z.to_nat (n / 64 + 1))) l start n = Ret l'
      ∧ layer.universe_size l' = layer.universe_size l
      ∧ layer.num_blocks l' = layer.num_blocks l
      ∧ length (layer.bits l') = length (layer.bits l)
      ∧ ∀ j, lbit l' j = lbit l j || in_run start n j.
Proof.
  intros Hst Hs Hn Hfit.
  destruct (layer_return_multiple_spec l start n Hst Hs Hn Hfit)
    as (l' & Hret & (Hu & Hnb & Hlen) & _ & Hbits).
  exists l'. done.
Qed.

Lemma layer_return_multiple_sets_run_witness :
  ∃ l', layer.return_multiple (S (Z.to_nat (70 / 64 + 1))) layer_64_to_73 50 70 = Ret l'
      ∧ layer.universe_size l' = layer.universe_size layer_64_to_73
      ∧ layer.num_blocks l' = layer.num_blocks layer_64_to_73
      ∧ length (layer.bits l') = length (layer.bits layer_64_to_73)
      ∧ ∀ j, lbit l' j = lbit layer_64_to_73 j || in_run 50 70 j.
Proof.
  apply (layer_return_multiple_sets_run layer_64_to_73 50 70).
  - split; [|simpl; lia]. unfold words_ok. simpl. repeat constructor; lia.
  - lia.
  - lia.
  - simpl. lia.
Defined.

(** X11: layer::remove_contiguous(start, n) on a run that lies inside the
    stored words returns with exactly the n bits from start cleared and
    every other bit as it was. *)
Theorem layer_remove_contiguous_clears_run (l : layer.t) (start n : Z) :
  storage_ok l → 0 <= start → 1 <= n →
  start + n <= 64 * Z.of_nat (length (layer.bits l)) →
  ∃ l', layer.remove_contiguous (S (Z.to_nat (n / 64 + 1))) l start n = Ret l'
      ∧ layer.universe_size l' = layer.universe_size l
      ∧ layer.num_blocks l' = layer.num_blocks l
      ∧ length (layer.bits l') = length (layer.bits l)
      ∧ ∀ j, lbit l' j = lbit l j && negb (in_run start n j).
Proof.
  intros Hst Hs Hn Hfit.
  destruct (layer_remove_contiguous_spec l start n Hst Hs Hn Hfit)
    as (l' & Hret & (Hu & Hnb & Hlen) & _ & Hbits).
  exists l'. done.
Qed.

Lemma layer_remove_contiguous_clears_run_witness :
  ∃ l', layer.remove_contiguous (S (Z.to_nat (5 / 64 + 1))) layer_64_to_73 62 5 = Ret l'
      ∧ layer.universe_size l' = layer.universe_size layer_64_to_73
      ∧ layer.num_blocks l' = layer.num_blocks layer_64_to_73
      ∧ length (layer.bits l') = length (layer.bits layer_64_to_73)
      ∧ ∀ j, lbit l' j = lbit layer_64_to_73 j && negb (in_run 62 5 j).
Proof.
  apply (layer_remove_contiguous_clears_run layer_64_to_73 62 5).
  - split; [|simpl; lia]. unfold words_ok. simpl. repeat constructor; lia.
  - lia.
  - lia.
  - simpl. lia.
Defined.

(** X12: when veb_tree::gather_multiple(n) returns an index r other than
    the failure sentinel, the n indices from r were all present before
    the call and are absent after it, and every other index is as it
    was. *)
Theorem gather_multiple_grants_run (tr tr1 : veb_tree.t) (fuel : nat) (n r : Z) :
  bottom_storage_ok tr → 0 <= n < 2 ^ 64 →
  veb_tree.gather_multiple fuel tr n = Ret (r, tr1) → r ≠ veb_tree.fail →
  0 <= r
  ∧ (∀ j, r <= j < r + n → leaf_bit tr j = true)
  ∧ (∀ j, r <= j < r + n → leaf_bit tr1 j = false)
  ∧ (∀ j, ¬ (r <= j < r + n) → leaf_bit tr1 j = leaf_bit tr j).
Proof.
  intros Hst Hn Hg Hr.
  destruct (tree_gather_granted tr tr1 fuel n r Hst Hn Hg Hr) as (Hr0 & Hrun & Hbits).
  split; [done|]. split; [|split].
  - intros j Hj. apply Hrun. unfold in_run.
    destruct (Z.leb_spec r j), (Z.ltb_spec j (r + n)); done || lia.
  - intros j Hj. rewrite Hbits. unfold in_run.
    destruct (Z.leb_spec r j), (Z.ltb_spec j (r + n));
      first [lia | simpl; apply andb_false_r].
  - intros j Hj. rewrite Hbits. unfold in_run.
    destruct (Z.leb_spec r j), (Z.ltb_spec j (r + n)); simpl;
      first [lia | apply andb_true_r].
Qed.

Lemma gather_multiple_grants_run_witness :
  0 <= 192
  ∧ (∀ j, 192 <= j < 192 + 2 → leaf_bit low_194 j = true)
  ∧ (∀ j, 192 <= j < 192 + 2 → leaf_bit low_194_gathered j = false)
  ∧ (∀ j, ¬ (192 <= j < 192 + 2) → leaf_bit low_194_gathered j = leaf_bit low_194 j).
Proof.
  apply (gather_multiple_grants_run low_194 low_194_gathered 3 2 192).
  - split; [reflexivity|]. intros leaf Hl. vm_compute in Hl. injection Hl as <-.
    split; [|simpl; lia]. unfold words_ok. simpl. repeat constructor; lia.
  - lia.
  - vm_compute. reflexivity.
  - unfold veb_tree.fail. lia.
Defined.

(** X13: on a tree whose universe fits one word, 64 indices or fewer,
    gather_multiple(n) returns the failure sentinel for every n, even for
    n = 1 on a full tree, and leaves the tree as it was. *)
Theorem gather_multiple_one_word_fails (tr : veb_tree.t) (n : Z) (fuel : nat) :
  tree_inv tr → veb_tree.total_universe tr <= 64 →
  veb_tree.gather_multiple (S (S fuel)) tr n = Ret (veb_tree.fail, tr).
Proof.
  intros Hinv Hu.
  destruct (inv_leaf tr Hinv) as (leaf & Hl & Hlast & Huu & Hok).
  pose proof Hok as (Hus & Hnb & Hlen & Hw & _).
  assert (Hone : layer.num_blocks leaf = 1).
  { rewrite Hnb, Huu. rewrite Z.div_small by lia. done. }
  assert (Hlt : (0 < length (layer.bits leaf))%nat) by lia.
  destruct (lookup_lt_is_Some_2 _ _ Hlt) as [w Hword].
  unfold veb_tree.gather_multiple. rewrite (inv_bottom tr Hinv). simpl.
  rewrite (get_layer_Some tr _ _ Hl). simpl.
  rewrite (layer_gather_one_word leaf n fuel w Hone Hword). simpl.
  rewrite (set_layer_same tr _ _ Hl). done.
Qed.

Lemma gather_multiple_one_word_fails_witness :
  veb_tree.gather_multiple 2 (veb_tree.generate_on_device 64 0) 1
  = Ret (veb_tree.fail, veb_tree.generate_on_device 64 0).
Proof.
  apply (gather_multiple_one_word_fails (veb_tree.generate_on_device 64 0) 1 0).
  - apply tree_inv_b_sound. vm_compute. reflexivity.
  - vm_compute. discriminate.
Defined.

(** X14: layer::generate_on_device(items), for items up to 2^32, builds
    a layer of (items - 1) / 64 + 1 words in which exactly the indices
    below items are set.  The bound is that of the init_bits kernel,
    whose thread id is computed on 32 bits. *)
Theorem layer_generate_all_present (items : Z) :
  1 <= items <= 2 ^ 32 →
  layer.universe_size (layer.generate_on_device items) = items
  ∧ layer.num_blocks (layer.generate_on_device items) = (items - 1) / 64 + 1
  ∧ Z.of_nat (length (layer.bits (layer.generate_on_device items))) = (items - 1) / 64 + 1
  ∧ ∀ j, lbit (layer.generate_on_device items) j = (0 <=? j) && (j <? items).
Proof.
  intros Hi. destruct (layer_generate_spec items Hi) as ((_ & Hnb & Hlen & _) & Hu & Hbits).
  rewrite Hu in Hnb. split; [done|]. split; [done|]. split; [lia|done].
Qed.

Lemma layer_generate_all_present_witness :
  layer.universe_size (layer.generate_on_device 100) = 100
  ∧ layer.num_blocks (layer.generate_on_device 100) = (100 - 1) / 64 + 1
  ∧ Z.of_nat (length (layer.bits (layer.generate_on_device 100))) = (100 - 1) / 64 + 1
  ∧ ∀ j, lbit (layer.generate_on_device 100) j = (0 <=? j) && (j <? 100).
Proof. apply (layer_generate_all_present 100). lia. Defined.

(** X15: veb_tree::generate_on_device(universe, seed), for a universe of
    up to 2^32 indices, builds a tree in which every index below universe
    is present, no other index is, and every summary is up to date: its
    top layer is a single word. *)
Theorem tree_generate_full (universe ext_seed : Z) :
  1 <= universe <= 2 ^ 32 →
  tree_inv (veb_tree.generate_on_device universe ext_seed)
  ∧ veb_tree.total_universe (veb_tree.generate_on_device universe ext_seed) = universe
  ∧ (∀ s, 0 <= s < universe →
          veb_tree.query (veb_tree.generate_on_device universe ext_seed) s = Ret true)
  ∧ ∀ s, member (veb_tree.generate_on_device universe ext_seed) s → 0 <= s < universe.
Proof.
  intros Hu. destruct (tree_generate_spec universe ext_seed Hu) as (Hinv & Htu & Hbits).
  split; [done|]. split; [done|]. split.
  - intros s Hs. rewrite query_leaf_bit by (first [done | rewrite Htu; done]).
    rewrite Hbits. destruct (Z.leb_spec 0 s), (Z.ltb_spec s universe); done || lia.
  - intros s Hm. apply (member_in_universe _ _ Hinv) in Hm. rewrite Htu in Hm. done.
Qed.

Lemma tree_generate_full_witness :
  tree_inv (veb_tree.generate_on_device 5000 7)
  ∧ veb_tree.total_universe (veb_tree.generate_on_device 5000 7) = 5000
  ∧ (∀ s, 0 <= s < 5000 →
          veb_tree.query (veb_tree.generate_on_device 5000 7) s = Ret true)
  ∧ ∀ s, member (veb_tree.generate_on_device 5000 7) s → 0 <= s < 5000.
Proof. apply (tree_generate_full 5000 7). lia. Defined.

(** X16: layer::set_new_universe(items) sets, besides the bits that were
    set, the indices below items when items is not a multiple of 64; when
    items is a multiple of 64 the last word is left as it was and only
    the indices below items - 64 are set. *)
Theorem set_new_universe_last_word (l : layer.t) (items : Z) :
  1 <= items < 2 ^ 63 →
  (items - 1) / 64 + 1 <= Z.of_nat (length (layer.bits l)) →
  ∃ l', layer.set_new_universe l items = Ret l'
    ∧ layer.universe_size l' = items
    ∧ layer.num_blocks l' = (items - 1) / 64 + 1
    ∧ ∀ j, lbit l' j
           = lbit l j
             || in_run 0 (if items mod 64 =? 0 then items - 64 else items) j.
Proof.
  intros Hi Hfit. unfold layer.set_new_universe, layer.get_num_blocks.
  rewrite (wrap64_small (items - 1)) by lia.
  assert (Hq : 0 <= (items - 1) / 64 < 2 ^ 57).
  { split; [apply Z.div_pos; lia|apply Z.div_lt_upper_bound; lia]. }
  rewrite (wrap64_small ((items - 1) / 64 + 1)) by lia.
  cbn [layer.num_blocks].
  replace ((items - 1) / 64 + 1 - 1) with ((items - 1) / 64) by lia.
  rewrite (wrap64_small ((items - 1) / 64)) by lia.
  set (q := (items - 1) / 64) in *.
  set (l0 := layer.mk items (q + 1) (layer.bits l)).
  destruct (fill_blocks_spec (Z.to_nat q) l0 0) as (l1 & -> & Hu & Hnb & Hlen & Hbits).
  { lia. } { simpl. lia. }
  cbn [mbind res_bind]. rewrite Hnb. cbn [layer.num_blocks l0].
  replace (q + 1 - 1) with q by lia. rewrite (wrap64_small q) by lia.
  destruct (atomicOr_total l1 q (BITMASK (items mod 64))) as (w & Hw & ->).
  { rewrite Hlen. simpl. lia. }
  cbn [mbind res_bind]. eexists. split; [reflexivity|].
  split; [simpl; rewrite Hu; done|]. split; [simpl; rewrite Hnb; done|].
  intros j. rewrite (lbit_or_word l1 q w) by (first [lia|done]).
  rewrite Hbits. rewrite <- orb_assoc.
  assert (El0 : lbit l0 j = lbit l j) by done. rewrite El0. f_equal.
  pose proof (Z.mod_pos_bound items 64 ltac:(lia)) as Hlow.
  pose proof (Z.div_mod items 64 ltac:(lia)) as Hdi.
  pose proof (Z.div_mod (items - 1) 64 ltac:(lia)) as Hdq. fold q in Hdq.
  pose proof (Z.mod_pos_bound (items - 1) 64 ltac:(lia)) as Hmq.
  unfold in_run. rewrite Z2Nat.id by lia.
  destruct (Z.leb_spec 0 j); simpl.
  2:{ destruct (Z.leb_spec (64 * 0) j); simpl; done || lia. }
  pose proof (Z.mod_pos_bound j 64 ltac:(lia)) as Hm.
  pose proof (Z.div_mod j 64 ltac:(lia)) as Hd.
  rewrite testbit_BITMASK by lia.
  destruct (Z.eqb_spec (items mod 64) 0) as [E0|NE0].
  - (* a multiple of 64: q = items / 64 - 1 and the mask is empty *)
    rewrite E0.
    assert (Hlt0 : (j mod 64 <? 0) = false) by (apply Z.ltb_ge; lia).
    rewrite Hlt0, andb_false_r, orb_false_r.
    assert (64 * q = items - 64).
    { assert (items = 64 * (items / 64)) by lia.
      assert (q = items / 64 - 1); [|lia].
      unfold q. symmetry. apply (Z.div_unique _ _ _ 63); lia. }
    destruct (Z.leb_spec (64 * 0) j), (Z.ltb_spec j (64 * 0 + 64 * q)),
      (Z.ltb_spec j (0 + (items - 64))); simpl; done || lia.
  - assert (Hq2 : q = items / 64).
    { unfold q. symmetry. apply (Z.div_unique _ _ _ (items mod 64 - 1)); lia. }
    destruct (Z.eqb_spec (j / 64) q) as [E|NE]; simpl.
    + destruct (Z.ltb_spec (j mod 64) (items mod 64)),
        (Z.leb_spec (64 * 0) j), (Z.ltb_spec j (64 * 0 + 64 * q)),
        (Z.ltb_spec j (0 + items)); simpl; done || lia.
    + destruct (Z.leb_spec (64 * 0) j), (Z.ltb_spec j (64 * 0 + 64 * q)),
        (Z.ltb_spec j (0 + items)); simpl; done || lia.
Qed.

Lemma set_new_universe_last_word_witness :
  ∃ l', layer.set_new_universe layer_64_to_73 128 = Ret l'
    ∧ layer.universe_size l' = 128
    ∧ layer.num_blocks l' = (128 - 1) / 64 + 1
    ∧ ∀ j, lbit l' j
           = lbit layer_64_to_73 j
             || in_run 0 (if 128 mod 64 =? 0 then 128 - 64 else 128) j.
Proof.
  apply (set_new_universe_last_word layer_64_to_73 128).
  - lia.
  - vm_compute. discriminate.
Defined.

(** X30: veb_tree::return_multiple(start, n) on a run that lies inside
    the stored words of the bottom layer returns, and afterwards the n
    indices from start are present in addition to those that were
    present. *)
Theorem tree_return_multiple_sets_run (tr : veb_tree.t) (l : layer.t) (start n : Z) :
  tree_storage_ok tr → bottom_layer tr = Some l →
  0 <= start → 1 <= n → start + n <= 64 * Z.of_nat (length (layer.bits l)) →
  ∃ tr', veb_tree.return_multiple (S (Z.to_nat (n / 64 + 1))) tr start n = Ret tr'
      ∧ ∀ j, leaf_bit tr' j = leaf_bit tr j || in_run start n j.
Proof.
  intros [[Hnl Hst] Hstk] Hbl Hs Hn Hfit.
  destruct (bottom_of_layer tr l Hnl Hbl) as [Hbot Hlt].
  set (lyr := Nat.pred (length (veb_tree.layers tr))) in *.
  pose proof (Hst l Hbl) as Hstl.
  unfold veb_tree.return_multiple. rewrite Hbot. simpl.
  unfold veb_tree.get_layer. unfold bottom_layer in Hbl. fold lyr in Hbl. rewrite Hbl. simpl.
  destruct (layer_return_multiple_spec l start n Hstl Hs Hn Hfit)
    as (l1 & -> & (_ & _ & Hlen) & _ & Hbits). simpl.
  destruct Hstl as [_ Hsz].
  destruct (return_summaries_total lyr (veb_tree.set_layer tr lyr l1) start n
              (length (layer.bits l))) as [tr' Hret]; try lia.
  - rewrite (widths_set_layer tr lyr l l1 Hbl) by done. done.
  - rewrite (widths_set_layer tr lyr l l1 Hbl) by done. apply widths_lookup. done.
  - exists tr'. split; [done|].
    apply return_summaries_frame in Hret as (Hnum2 & Hlen2 & Hsame2).
    intros j. unfold leaf_bit, bottom_layer. rewrite Hlen2, set_layer_length.
    fold lyr. rewrite Hsame2 by lia. rewrite set_layer_lookup by done.
    destruct (decide (lyr = lyr)); [|done]. rewrite Hbl. apply Hbits.
Qed.

Lemma tree_return_multiple_sets_run_witness :
  ∃ tr', veb_tree.return_multiple (S (Z.to_nat (100 / 64 + 1))) scenario_A 60 100 = Ret tr'
      ∧ ∀ j, leaf_bit tr' j = leaf_bit scenario_A j || in_run 60 100 j.
Proof.
  apply (tree_return_multiple_sets_run scenario_A (layer.mk 256 4 [8; 3; 0; 256]) 60 100).
  - apply tree_inv_storage_ok; [|simpl; lia].
    apply tree_inv_b_sound. vm_compute. reflexivity.
  - reflexivity.
  - lia.
  - lia.
  - simpl. lia.
Defined.

(** * Bit counting and size classes *)

(** X17: __cfcll(bits) is the number of contiguous set bits at the low
    end of the word: the bits below it are all set, and the bit at that
    position, when there is one, is clear. *)
Theorem cfcll_counts_low_ones (x : Z) :
  0 <= __cfcll x <= 64
  ∧ (∀ b, 0 <= b < __cfcll x → Z.testbit x b = true)
  ∧ (__cfcll x < 64 → Z.testbit x (__cfcll x) = false).
Proof. apply cfcll_spec. Qed.

(** X18: for a non-zero 64-bit counter, get_first_bit_bigger(counter) is
    the exponent of the smallest power of two that is at least counter. *)
Theorem get_first_bit_bigger_rounds_up (counter : Z) :
  1 <= counter < 2 ^ 64 →
  0 <= Gallatin.get_first_bit_bigger counter <= 64
  ∧ counter <= 2 ^ Gallatin.get_first_bit_bigger counter
  ∧ (Gallatin.get_first_bit_bigger counter = 0
     ∨ 2 ^ (Gallatin.get_first_bit_bigger counter - 1) < counter).
Proof. apply get_first_bit_bigger_spec. Qed.

Lemma get_first_bit_bigger_rounds_up_witness :
  0 <= Gallatin.get_first_bit_bigger 4097 <= 64
  ∧ 4097 <= 2 ^ Gallatin.get_first_bit_bigger 4097
  ∧ (Gallatin.get_first_bit_bigger 4097 = 0
     ∨ 2 ^ (Gallatin.get_first_bit_bigger 4097 - 1) < 4097).
Proof. apply (get_first_bit_bigger_rounds_up 4097). lia. Defined.

(** X19: with smallest = 2^smallest_bits, get_tree_id_from_size(size) is
    the first size class whose allocation size smallest * 2^id holds size
    bytes: class 0 for every size up to smallest, and otherwise the class
    below is too small. *)
Theorem get_tree_id_from_size_smallest_class (smallest_bits size : Z) :
  0 <= smallest_bits → 0 <= size < 2 ^ 64 →
  let id := Gallatin.get_tree_id_from_size (2 ^ smallest_bits) smallest_bits size in
  0 <= id <= 64
  ∧ size <= 2 ^ smallest_bits * 2 ^ id
  ∧ (id = 0 ∨ 2 ^ smallest_bits * 2 ^ (id - 1) < size).
Proof.
  intros Hsb Hsz. cbv zeta. unfold Gallatin.get_tree_id_from_size.
  assert (Hp : 0 < 2 ^ smallest_bits) by (apply Z.pow_pos_nonneg; lia).
  destruct (Z.ltb_spec size (2 ^ smallest_bits)) as [Hlt|Hge].
  { split; [lia|]. split; [simpl; lia|left; done]. }
  destruct (get_first_bit_bigger_spec size ltac:(lia)) as (Hr & Hle & Hmin).
  set (k := Gallatin.get_first_bit_bigger size) in *.
  assert (Hk : smallest_bits <= k).
  { destruct (Z_lt_ge_dec k smallest_bits); [|lia].
    assert (2 ^ k < 2 ^ smallest_bits) by (apply Z.pow_lt_mono_r; lia). lia. }
  rewrite Z.mod_small by lia. split; [lia|].
  rewrite <- Z.pow_add_r by lia. replace (smallest_bits + (k - smallest_bits)) with k by lia.
  split; [done|].
  destruct (Z.eq_dec k smallest_bits) as [E|NE]; [left; lia|right].
  rewrite <- Z.pow_add_r by lia.
  replace (smallest_bits + (k - smallest_bits - 1)) with (k - 1) by lia.
  destruct Hmin as [E0|]; [lia|done].
Qed.

Lemma get_tree_id_from_size_smallest_class_witness :
  let id := Gallatin.get_tree_id_from_size (2 ^ 4) 4 100 in
  0 <= id <= 64
  ∧ 100 <= 2 ^ 4 * 2 ^ id
  ∧ (id = 0 ∨ 2 ^ 4 * 2 ^ (id - 1) < 100).
Proof. apply (get_tree_id_from_size_smallest_class 4 100); lia. Defined.

(** * Further properties of the segment table *)

(** X20: on an unbound segment set_tree_id binds the segment to the class
    and returns true; after that read_tree_id returns the class, every
    further set_tree_id is refused and changes nothing, and reset_tree_id
    with the class returns true and gives back the table as it was. *)
Theorem tree_id_set_read_reset {Block : Type} (tb : @alloc_table.t Block)
    (segment tree_id : Z) :
  0 <= segment →
  alloc_table.chunk_ids tb !! Z.to_nat segment = Some 0xffff →
  tree_id ≠ 0xffff →
  ∃ tb1, alloc_table.set_tree_id tb segment tree_id = Ret (true, tb1)
    ∧ alloc_table.read_tree_id tb1 segment = Ret tree_id
    ∧ (∀ other, alloc_table.set_tree_id tb1 segment other = Ret (false, tb1))
    ∧ alloc_table.reset_tree_id tb1 segment tree_id = Ret (true, tb).
Proof. apply tree_id_round_trip. Qed.

Lemma tree_id_set_read_reset_witness :
  ∃ tb1, alloc_table.set_tree_id two_segments 1 3 = Ret (true, tb1)
    ∧ alloc_table.read_tree_id tb1 1 = Ret 3
    ∧ (∀ other, alloc_table.set_tree_id tb1 1 other = Ret (false, tb1))
    ∧ alloc_table.reset_tree_id tb1 1 3 = Ret (true, two_segments).
Proof.
  apply (tree_id_set_read_reset two_segments 1 3).
  - lia.
  - reflexivity.
  - lia.
Defined.

(** X21: setup_segment binds an unbound segment to a size class, and the
    segment then hands out each of its blocks_per_segment(class) blocks
    once, in ascending order from the first block of the segment: the
    calls of get_block that follow return these blocks, the last of them
    with the flag that the segment is now empty, and the call after that
    returns nullptr. *)
Theorem segment_hands_out_its_blocks {Block : Type} (init_malloc : Z → Block → Block)
    (tb : @alloc_table.t Block) (segment tree_id : Z) :
  let nb := alloc_table.get_blocks_per_segment tb tree_id in
  0 <= segment → tree_id ≠ 0xffff → 0 <= nb < 2 ^ 31 →
  0 <= alloc_table.blocks_per_segment tb →
  Z.of_nat (length (alloc_table.queues tb)) < 2 ^ 64 →
  Z.of_nat (length (alloc_table.blocks tb)) < 2 ^ 64 →
  alloc_table.calloc_mode tb = false →
  bindable tb segment tree_id →
  ∃ tb1 tb2,
    alloc_table.setup_segment tb segment tree_id = Ret (true, tb1)
    ∧ get_blocks init_malloc (S (Z.to_nat nb)) tb1 segment tree_id
      = Ret (((λ j, (Some (segment * alloc_table.blocks_per_segment tb + j),
                     j + 1 =? nb)) <$> seqZ 0 nb) ++ [(None, false)], tb2).
Proof.
  intros nb Hs Hne Hnb Hbps Hqsz Hbsz Hcal (Hid & Hq & Hb & Hqc & Hqf & Hfq & Hac).
  destruct (setup_segment_unbound tb segment tree_id)
    as (tb1 & Hset & Hsrv & _ & _ & _ & _ & Ebps & Enb); try done.
  fold nb in Enb.
  destruct (get_blocks_serving init_malloc (Z.to_nat nb) tb1 segment tree_id 0 Hsrv)
    as (tb2 & Hget & _); [lia|].
  exists tb1, tb2. split; [done|].
  rewrite Hget, Ebps, Enb. rewrite Z2Nat.id by lia. done.
Qed.

Lemma segment_hands_out_its_blocks_witness :
  ∃ tb1 tb2,
    alloc_table.setup_segment two_segments 0 1 = Ret (true, tb1)
    ∧ get_blocks format_block
        (S (Z.to_nat (alloc_table.get_blocks_per_segment two_segments 1))) tb1 0 1
      = Ret (((λ j, (Some (0 * alloc_table.blocks_per_segment two_segments + j),
                     j + 1 =? alloc_table.get_blocks_per_segment two_segments 1))
              <$> seqZ 0 (alloc_table.get_blocks_per_segment two_segments 1))
             ++ [(None, false)], tb2).
Proof.
  apply (segment_hands_out_its_blocks format_block two_segments 0 1).
  - lia.
  - lia.
  - vm_compute. split; [discriminate|reflexivity].
  - vm_compute. discriminate.
  - vm_compute. reflexivity.
  - vm_compute. reflexivity.
  - reflexivity.
  - unfold bindable. vm_compute.
    repeat split; first [discriminate | lia].
Defined.

(** X22: finish_freeing_block counts one block back into the segment.  It
    returns true, and stores -1 as the count of the segment, exactly when
    the count it found was num_blocks - 2, that is when every block of
    the segment has come back; in every other case it returns false and
    the count is one higher than before. *)
Theorem finish_freeing_block_last_block {Block : Type} (tb : @alloc_table.t Block)
    (segment num_blocks c : Z) :
  0 <= segment → 1 <= num_blocks < 2 ^ 31 → - 2 ^ 31 <= c < 2 ^ 31 - 1 →
  alloc_table.active_counts tb !! Z.to_nat segment = Some c →
  alloc_table.finish_freeing_block tb segment num_blocks
  = Ret (c =? num_blocks - 2,
         alloc_table.with_active_counts tb
           (<[Z.to_nat segment := if c =? num_blocks - 2 then -1 else c + 1]>
              (alloc_table.active_counts tb))).
Proof. apply finish_freeing_block_spec. Qed.

Lemma finish_freeing_block_last_block_witness :
  alloc_table.finish_freeing_block
    (alloc_table.with_active_counts segment_0_bound [126; -1]) 0 128
  = Ret (126 =? 128 - 2,
         alloc_table.with_active_counts
           (alloc_table.with_active_counts segment_0_bound [126; -1])
           (<[Z.to_nat 0 := if 126 =? 128 - 2 then -1 else 126 + 1]>
              (alloc_table.active_counts
                 (alloc_table.with_active_counts segment_0_bound [126; -1])))).
Proof.
  apply (finish_freeing_block_last_block
           (alloc_table.with_active_counts segment_0_bound [126; -1]) 0 128 126).
  - lia.
  - lia.
  - lia.
  - reflexivity.
Defined.



(** X24: for the address that offset_to_allocation gives to an offset of
    a segment of the table, get_segment_from_ptr is the segment that
    get_segment_from_offset gives for the offset, and owns_allocation is
    true. *)
Theorem allocation_segment_found {Block : Type} (tb : @alloc_table.t Block)
    (num_trees tree_id offset : Z) :
  0 < alloc_table.min_size tb →
  0 < alloc_table.bytes_per_segment tb < 2 ^ 64 →
  0 < alloc_table.memory tb →
  alloc_table.memory tb
    + alloc_table.num_segments tb * alloc_table.bytes_per_segment tb <= 2 ^ 64 →
  0 <= tree_id < num_trees →
  0 <= offset < 2 ^ 64 →
  offset / alloc_table.get_max_allocations_per_segment tb < alloc_table.num_segments tb →
  offset mod alloc_table.get_max_allocations_per_segment tb
    < alloc_table.bytes_per_segment tb / (alloc_table.min_size tb * 2 ^ tree_id) →
  alloc_table.get_segment_from_ptr tb (alloc_table.offset_to_allocation tb offset tree_id)
    = alloc_table.get_segment_from_offset tb offset
  ∧ alloc_table.owns_allocation tb (alloc_table.offset_to_allocation tb offset tree_id)
    = true.
Proof. apply allocation_segment. Qed.

Lemma allocation_segment_found_witness :
  alloc_table.get_segment_from_ptr two_segments
      (alloc_table.offset_to_allocation two_segments (2 ^ 20 + 5) 2)
    = alloc_table.get_segment_from_offset two_segments (2 ^ 20 + 5)
  ∧ alloc_table.owns_allocation two_segments
      (alloc_table.offset_to_allocation two_segments (2 ^ 20 + 5) 2) = true.
Proof.
  apply (allocation_segment_found two_segments 8 2 (2 ^ 20 + 5)).
  - simpl. lia.
  - simpl. lia.
  - simpl. lia.
  - simpl. lia.
  - lia.
  - lia.
  - vm_compute. reflexivity.
  - vm_compute. reflexivity.
Defined.

(** X25: owns_allocation is true exactly for the addresses from memory up
    to, and not including, memory + num_segments * bytes_per_segment; an
    address below memory is not owned. *)
Theorem owns_allocation_range {Block : Type} (tb : @alloc_table.t Block) (alloc : Z) :
  0 <= alloc_table.memory tb →
  0 <= alloc_table.num_segments tb * alloc_table.bytes_per_segment tb →
  alloc_table.memory tb
    + alloc_table.num_segments tb * alloc_table.bytes_per_segment tb < 2 ^ 64 →
  0 <= alloc < 2 ^ 64 →
  alloc_table.owns_allocation tb alloc
  = (alloc_table.memory tb <=? alloc)
    && (alloc <? alloc_table.memory tb
                 + alloc_table.num_segments tb * alloc_table.bytes_per_segment tb).
Proof.
  intros Hmem Hsz Hfit Ha. unfold alloc_table.owns_allocation.
  set (mem := alloc_table.memory tb) in *.
  set (total := alloc_table.num_segments tb * alloc_table.bytes_per_segment tb) in *.
  rewrite (wrap64_small total) by lia.
  destruct (Z.leb_spec mem alloc); simpl.
  - rewrite (wrap64_small (alloc - mem)) by lia.
    destruct (Z.ltb_spec (alloc - mem) total), (Z.ltb_spec alloc (mem + total)); done || lia.
  - assert (Hw : wrap64 (alloc - mem) = alloc - mem + 2 ^ 64).
    { unfold wrap64. symmetry. apply (Z.mod_unique _ _ (-1)); lia. }
    rewrite Hw. apply Z.ltb_ge. lia.
Qed.

Lemma owns_allocation_range_witness :
  alloc_table.owns_allocation two_segments 0xfff
  = (alloc_table.memory two_segments <=? 0xfff)
    && (0xfff <? alloc_table.memory two_segments
                 + alloc_table.num_segments two_segments
                   * alloc_table.bytes_per_segment two_segments).
Proof.
  apply (owns_allocation_range two_segments 0xfff).
  - simpl. lia.
  - simpl. lia.
  - simpl. lia.
  - lia.
Defined.

(** * Further properties of the allocator *)

(** X26: acquire_tree_lock on a lock word in which the bit of the tree is
    clear returns true and sets the bit; a second acquire_tree_lock of
    the same tree returns false, the answer for every other tree is what
    it was, and release_tree_lock gives back the lock word as it was. *)
Theorem tree_lock_acquire_release (locks tree : Z) :
  0 <= tree < 32 → 0 <= locks < 2 ^ 32 → Z.testbit locks tree = false →
  ∃ locks1, Gallatin.acquire_tree_lock locks tree = (true, locks1)
    ∧ fst (Gallatin.acquire_tree_lock locks1 tree) = false
    ∧ (∀ other, 0 <= other < 32 → other ≠ tree →
         fst (Gallatin.acquire_tree_lock locks1 other)
         = fst (Gallatin.acquire_tree_lock locks other))
    ∧ Gallatin.release_tree_lock locks1 tree = locks.
Proof. apply tree_lock_round_trip. Qed.

Lemma tree_lock_acquire_release_witness :
  ∃ locks1, Gallatin.acquire_tree_lock 5 1 = (true, locks1)
    ∧ fst (Gallatin.acquire_tree_lock locks1 1) = false
    ∧ (∀ other, 0 <= other < 32 → other ≠ 1 →
         fst (Gallatin.acquire_tree_lock locks1 other)
         = fst (Gallatin.acquire_tree_lock 5 other))
    ∧ Gallatin.release_tree_lock locks1 1 = 5.
Proof.
  apply (tree_lock_acquire_release 5 1).
  - lia.
  - lia.
  - reflexivity.
Defined.

(** X27: a retry loop of malloc returns the first offset other than ~0
    that its allocation routine produces within the attempt limit, and
    calls the routine no further; when all the calls up to the limit
    produce ~0 it returns ~0. *)
Theorem retry_loop_first_offset (limit : Z) (routine : Z → Z) (fuel : nat) :
  0 <= limit < 2 ^ 64 →
  (∀ k, 0 <= k < limit →
        (∀ j, 0 <= j < k → routine j = 0xffffffffffffffff) →
        routine k ≠ 0xffffffffffffffff →
        Gallatin.retry_loop (Z.to_nat k + S (S fuel)) limit routine 0xffffffffffffffff 0
        = Ret (routine k))
  ∧ ((∀ j, 0 <= j < limit → routine j = 0xffffffffffffffff) →
     Gallatin.retry_loop (Z.to_nat limit + S fuel) limit routine 0xffffffffffffffff 0
     = Ret 0xffffffffffffffff).
Proof.
  intros Hlim. split.
  - intros k Hk Hfail Hok. apply retry_loop_first_answer; try done. lia.
  - intros Hfail. apply retry_loop_gives_up; done.
Qed.

Lemma retry_loop_first_offset_witness :
  (∀ k, 0 <= k < 10 →
        (∀ j, 0 <= j < k → (λ j, if j <? 3 then 0xffffffffffffffff else 4096 * j) j
                           = 0xffffffffffffffff) →
        (λ j, if j <? 3 then 0xffffffffffffffff else 4096 * j) k ≠ 0xffffffffffffffff →
        Gallatin.retry_loop (Z.to_nat k + S (S 0)) 10
          (λ j, if j <? 3 then 0xffffffffffffffff else 4096 * j) 0xffffffffffffffff 0
        = Ret ((λ j, if j <? 3 then 0xffffffffffffffff else 4096 * j) k))
  ∧ ((∀ j, 0 <= j < 10 → (λ j, if j <? 3 then 0xffffffffffffffff else 4096 * j) j
                         = 0xffffffffffffffff) →
     Gallatin.retry_loop (Z.to_nat 10 + S 0) 10
       (λ j, if j <? 3 then 0xffffffffffffffff else 4096 * j) 0xffffffffffffffff 0
     = Ret 0xffffffffffffffff).
Proof.
  apply (retry_loop_first_offset 10
           (λ j, if j <? 3 then 0xffffffffffffffff else 4096 * j) 0).
  lia.
Defined.

(** X28: gather_new_segment(tree) takes the lowest free segment out of
    the segment tree, binds it to the class, so that the table is ready
    to hand out its first block, adds it to the tree of the class and
    returns its number; the summaries of both trees stay up to date.
    When the segment tree holds no segment it returns -1 and changes
    nothing. *)
Theorem gather_new_segment_binds_lowest {Block : Type} (g : Gallatin.t Block)
    (tree : Z) (sub : veb_tree.t) (n fuel : nat) :
  let st := Gallatin.segment_tree g in
  let tb := Gallatin.table g in
  let nb := alloc_table.get_blocks_per_segment tb tree in
  tree_inv st → veb_tree.total_universe st < 2 ^ 31 →
  0 <= tree → tree ≠ 0xffff →
  Gallatin.sub_trees g !! Z.to_nat tree = Some sub →
  tree_inv sub → veb_tree.total_universe st <= veb_tree.total_universe sub →
  0 <= nb < 2 ^ 31 → 0 <= alloc_table.blocks_per_segment tb →
  Z.of_nat (length (alloc_table.queues tb)) < 2 ^ 64 →
  Z.of_nat (length (alloc_table.blocks tb)) < 2 ^ 64 →
  alloc_table.calloc_mode tb = false →
  (∀ s, member st s → bindable tb s tree) →
  ((∀ s, ¬ member st s)
   ∧ Gallatin.gather_new_segment (S n) (S fuel) g tree = Ret (-1, g))
  ∨ ∃ r g', Gallatin.gather_new_segment (S n) (S fuel) g tree = Ret (r, g')
      ∧ member st r ∧ (∀ s, member st s → r <= s)
      ∧ tree_inv (Gallatin.segment_tree g')
      ∧ (∀ s, leaf_bit (Gallatin.segment_tree g') s = leaf_bit st s && negb (s =? r))
      ∧ serving (Gallatin.table g') r tree 0
      ∧ ∃ sub', Gallatin.sub_trees g' !! Z.to_nat tree = Some sub'
          ∧ tree_inv sub'
          ∧ ∀ s, leaf_bit sub' s = leaf_bit sub s || (s =? r).
Proof.
  intros st tb nb Hinv Hu Ht Hne Hsub Hsinv Hsu Hnb Hbps Hqsz Hbsz Hcal Hfree.
  destruct (gather_new_segment_spec g tree sub n fuel)
    as [H|(r & g' & Hg & (Hm & _ & Hleast) & (Hinv' & _ & Hbits) & Hsrv & Hsub')];
    try done.
  - left. done.
  - right. exists r, g'. split; [done|]. split; [done|]. split; [|done].
    intros s Hs. apply Hleast; [done|]. destruct Hs. lia.
Qed.

Lemma gather_new_segment_binds_lowest_witness :
  ((∀ s, ¬ member (Gallatin.segment_tree allocator_2) s)
   ∧ Gallatin.gather_new_segment 1 1 allocator_2 1 = Ret (-1, allocator_2))
  ∨ ∃ r g', Gallatin.gather_new_segment 1 1 allocator_2 1 = Ret (r, g')
      ∧ member (Gallatin.segment_tree allocator_2) r
      ∧ (∀ s, member (Gallatin.segment_tree allocator_2) s → r <= s)
      ∧ tree_inv (Gallatin.segment_tree g')
      ∧ (∀ s, leaf_bit (Gallatin.segment_tree g') s
              = leaf_bit (Gallatin.segment_tree allocator_2) s && negb (s =? r))
      ∧ serving (Gallatin.table g') r 1 0
      ∧ ∃ sub', Gallatin.sub_trees g' !! Z.to_nat 1 = Some sub'
          ∧ tree_inv sub'
          ∧ ∀ s, leaf_bit sub' s = leaf_bit no_segments s || (s =? r).
Proof.
  apply (gather_new_segment_binds_lowest allocator_2 1 no_segments 0 0).
  - apply tree_inv_b_sound. vm_compute. reflexivity.
  - vm_compute. reflexivity.
  - lia.
  - lia.
  - reflexivity.
  - apply tree_inv_b_sound. vm_compute. reflexivity.
  - vm_compute. discriminate.
  - vm_compute. split; [discriminate|reflexivity].
  - vm_compute. discriminate.
  - vm_compute. reflexivity.
  - vm_compute. reflexivity.
  - reflexivity.
  - intros s Hm.
    assert (Hr : 0 <= s < 2).
    { apply (member_in_universe (Gallatin.segment_tree allocator_2) s); [|exact Hm].
      apply tree_inv_b_sound. vm_compute. reflexivity. }
    assert (Hs : s = 0 ∨ s = 1) by lia.
    destruct Hs as [-> | ->]; unfold bindable; vm_compute;
      repeat split; first [discriminate | lia].
Defined.

(** X29: when malloc_segment_allocation(n) succeeds, freeing the address
    that malloc makes of its offset gives everything back: free finds the
    first segment from the address, reads n from the tree id that was
    stored for it, returns the n segments to the segment tree and unbinds
    the segment, so that the bottom layer of the segment tree, the table
    and the lock word are as they were before the allocation. *)
Theorem segment_allocation_free_round_trip {Block : Type}
    (g g1 : Gallatin.t Block) (fuel : nat) (n offset : Z)
    (submit_segment_for_memclear : Z → Z → Z → Z → Gallatin.t Block → res (Gallatin.t Block))
    (free_offset : Z → Gallatin.t Block → res (Gallatin.t Block)) :
  let st := Gallatin.segment_tree g in
  let tb := Gallatin.table g in
  tree_storage_ok st →
  1 <= n → 0 <= Gallatin.num_trees g < 32 →
  0 <= Gallatin.locks g < 2 ^ 32 →
  Z.testbit (Gallatin.locks g) (Gallatin.num_trees g) = false →
  Gallatin.is_calloc g = false →
  0 < alloc_table.min_size tb →
  0 < alloc_table.bytes_per_segment tb < 2 ^ 64 →
  0 < alloc_table.memory tb →
  alloc_table.memory tb
    + alloc_table.num_segments tb * alloc_table.bytes_per_segment tb <= 2 ^ 64 →
  0 < alloc_table.blocks_per_segment tb →
  alloc_table.blocks_per_segment tb * 4096 = alloc_table.get_max_allocations_per_segment tb →
  (∀ s, leaf_bit st s = true →
        s < alloc_table.num_segments tb
        ∧ alloc_table.chunk_ids tb !! Z.to_nat s = Some 0xffff) →
  Gallatin.num_trees g + 1 + n < 0xffff →
  Gallatin.malloc_segment_allocation fuel g n = Ret (offset, g1) →
  offset ≠ 0xffffffffffffffff →
  ∃ g2, Gallatin.free (S (Z.to_nat (n / 64 + 1))) submit_segment_for_memclear free_offset g1
          (alloc_table.offset_to_allocation (Gallatin.table g1) offset 0) = Ret g2
    ∧ bottom_layer (Gallatin.segment_tree g2) = bottom_layer st
    ∧ Gallatin.table g2 = tb
    ∧ Gallatin.locks g2 = Gallatin.locks g
    ∧ Gallatin.sub_trees g2 = Gallatin.sub_trees g.
Proof.
  intros st tb Hst Hn Hnt Hl Hfree Hcal Hms Hbps Hmem Hfit Hbpsb HM Hseg Hid Hm Hoff.
  set (nt := Gallatin.num_trees g) in *.
  set (id := nt + 1 + n) in *.
  destruct (tree_lock_round_trip (Gallatin.locks g) nt Hnt Hl Hfree)
    as (locks1 & Hacq & _ & _ & Hrel).
  unfold Gallatin.malloc_segment_allocation in Hm.
  destruct fuel as [|fuel]; [done|].
  rewrite wait_for_free_lock in Hm by done. fold nt in Hm.
  rewrite Hacq in Hm. simpl in Hm. fold st in Hm.
  destruct (veb_tree.gather_multiple (S fuel) st n) as [[r st1]| | |] eqn:Hg;
    simpl in Hm; try done.
  destruct (Z.eqb_spec r veb_tree.fail) as [->|Hr]; simpl in Hm.
  { injection Hm as <- _. done. }
  destruct (tree_gather_granted st st1 (S fuel) n r (proj1 Hst) ltac:(lia) Hg Hr)
    as (Hr0 & Hrun & _).
  assert (Hleaf : leaf_bit st r = true).
  { apply Hrun. unfold in_run. destruct (Z.leb_spec r r), (Z.ltb_spec r (r + n)); done || lia. }
  destruct (Hseg r Hleaf) as [Hrns Hunbound].
  fold tb nt in Hm. rewrite (Z.mod_small (nt + 1 + n)) in Hm by lia. fold id in Hm.
  destruct (tree_id_round_trip tb r id Hr0 Hunbound ltac:(lia))
    as (tb1 & Hset & Hread & _ & Hreset).
  rewrite Hset in Hm. simpl in Hm. injection Hm as <- <-. simpl.
  rewrite Hrel.
  (* the address *)
  assert (Hfields : alloc_table.min_size tb1 = alloc_table.min_size tb
                    ∧ alloc_table.bytes_per_segment tb1 = alloc_table.bytes_per_segment tb
                    ∧ alloc_table.memory tb1 = alloc_table.memory tb
                    ∧ alloc_table.num_segments tb1 = alloc_table.num_segments tb
                    ∧ alloc_table.blocks_per_segment tb1 = alloc_table.blocks_per_segment tb).
  { unfold alloc_table.set_tree_id in Hset.
    destruct (alloc_table.atomic_rmw (alloc_table.chunk_ids tb) r _) as [[o ids]| | |];
      simpl in Hset; try done. injection Hset as _ <-. done. }
  destruct Hfields as (Ems & Ebps & Emem & Ens & Ebpsb).
  assert (EM : alloc_table.get_max_allocations_per_segment tb1
               = alloc_table.get_max_allocations_per_segment tb).
  { unfold alloc_table.get_max_allocations_per_segment. rewrite Ems, Ebps. done. }
  set (M := alloc_table.get_max_allocations_per_segment tb) in *.
  assert (HMpos : 0 < M) by lia.
  assert (HMle : M * alloc_table.min_size tb <= alloc_table.bytes_per_segment tb).
  { unfold M, alloc_table.get_max_allocations_per_segment.
    pose proof (Z.mul_div_le (alloc_table.bytes_per_segment tb) (alloc_table.min_size tb) Hms).
    lia. }
  assert (HrM : 0 <= r * M < 2 ^ 64).
  { split; [nia|].
    assert (r * M < alloc_table.num_segments tb * alloc_table.bytes_per_segment tb); [|lia].
    assert (M <= alloc_table.bytes_per_segment tb) by nia.
    nia. }
  assert (Eoff : wrap64 (wrap64 (r * alloc_table.blocks_per_segment tb1) * 4096) = r * M).
  { rewrite Ebpsb.
    assert (0 <= r * alloc_table.blocks_per_segment tb < 2 ^ 64) by nia.
    rewrite (wrap64_small (r * alloc_table.blocks_per_segment tb)) by done.
    replace (r * alloc_table.blocks_per_segment tb * 4096) with (r * M) by lia.
    apply wrap64_small. done. }
  rewrite Eoff.
  destruct (allocation_segment tb1 1 0 (r * M)) as [Hsegp _].
  { rewrite Ems. done. } { rewrite Ebps. done. } { rewrite Emem. done. }
  { rewrite Emem, Ens, Ebps. done. } { lia. } { done. }
  { rewrite EM, Ens. rewrite Z.div_mul by lia. done. }
  { rewrite EM, Ems, Ebps. rewrite Z.mod_mul by lia.
    change (2 ^ 0) with 1. rewrite Z.mul_1_r. apply HMpos. }
  unfold Gallatin.free. simpl.
  rewrite Hsegp. unfold alloc_table.get_segment_from_offset. rewrite EM.
  rewrite Z.div_mul by lia.
  rewrite Hread. simpl. fold nt.
  destruct (Z.ltb_spec nt id); [|lia]. simpl.
  assert (Hnot : (wrap_int (Z.lnot id) =? 0) = false).
  { apply Z.eqb_neq. rewrite wrap_int_small; unfold Z.lnot, Z.pred; lia. }
  rewrite Hnot. simpl. rewrite Hcal.
  replace ((id - nt - 1) mod 2 ^ 16) with n by (rewrite Z.mod_small; lia).
  unfold Gallatin.submit_segment_for_free. simpl.
  destruct (gather_return_total st st1 (S fuel) n r Hst ltac:(lia) Hg Hr) as [st2 Hret].
  rewrite Hret. simpl. rewrite Hreset. simpl.
  eexists. split; [reflexivity|]. simpl.
  split; [|done].
  apply (gather_return_bottom st st1 st2 (S fuel) _ n r (proj1 Hst) ltac:(lia) Hg Hr Hret).
Qed.

Lemma segment_allocation_free_round_trip_witness :
  ∃ offset g1,
    Gallatin.malloc_segment_allocation 3 allocator_256 2 = Ret (offset, g1)
    ∧ ∃ g2, Gallatin.free (S (Z.to_nat (2 / 64 + 1))) (λ _ _ _ _ g, Ret g) (λ _ g, Ret g) g1
              (alloc_table.offset_to_allocation (Gallatin.table g1) offset 0) = Ret g2
        ∧ bottom_layer (Gallatin.segment_tree g2)
          = bottom_layer (Gallatin.segment_tree allocator_256)
        ∧ Gallatin.table g2 = Gallatin.table allocator_256
        ∧ Gallatin.locks g2 = Gallatin.locks allocator_256
        ∧ Gallatin.sub_trees g2 = Gallatin.sub_trees allocator_256.
Proof.
  eexists. eexists. split; [vm_compute; reflexivity|].
  apply (segment_allocation_free_round_trip allocator_256 _ 3 2 _).
  - apply tree_inv_storage_ok; [|simpl; lia].
    apply tree_inv_b_sound. vm_compute. reflexivity.
  - lia.
  - simpl. lia.
  - simpl. lia.
  - reflexivity.
  - reflexivity.
  - simpl. lia.
  - simpl. lia.
  - simpl. lia.
  - simpl. lia.
  - simpl. lia.
  - vm_compute. reflexivity.
  - intros s Hs.
    assert (Hr : 0 <= s < 256).
    { unfold leaf_bit in Hs. simpl in Hs. apply lbit_inside in Hs. simpl in Hs. lia. }
    split; [simpl; lia|].
    change (replicate 256 0xffff !! Z.to_nat s = Some 0xffff).
    apply lookup_replicate_2. lia.
  - simpl. lia.
  - vm_compute. reflexivity.
  - lia.
Defined.
